(** * SymmetricEigensolver (Mathematics/SymmetricEigensolver.h)

    A shallow embedding of the class template [gte::SymmetricEigensolver<Real>]:
    Householder tridiagonalization, the implicit-shift QR iteration on the
    tridiagonal form, the reconstruction of the eigenvectors (bulk and one
    column at a time) and the permutation that orders the eigenvalues.

    The class is a template over [Real]; the embedding is generic over a
    type [R] with the arithmetic the source uses (class [RealArith]).  Two
    instances are given: [binary64], the IEEE double of the kernel
    ([Real = double]), and [exactQ], exact rational arithmetic. *)

From Stdlib Require Import ZArith List Lia Bool Arith PeanoNat.
From Stdlib Require Import Permutation Sorted.
From Stdlib Require Import Ring Ring_theory Field Field_theory.
From Stdlib Require Import QArith Qcanon Qabs.
From Stdlib Require Import PrimFloat FloatOps SpecFloat.
Import ListNotations.

Set Implicit Arguments.
Local Open Scope Z_scope.

(* ================================================================== *)
(** ** The scalar type [Real] *)

(** What the source asks of [Real]: the constants it casts from literals,
    the four operations, unary minus, [std::sqrt], [std::fabs], the
    comparisons, and [std::numeric_limits<Real>::max()]. *)
Class RealArith (R : Type) : Type := {
  R0 : R;
  R1 : R;
  R2 : R;
  Rhalf : R;
  Rneg1 : R;
  Radd : R -> R -> R;
  Rsub : R -> R -> R;
  Rmul : R -> R -> R;
  Rdiv : R -> R -> R;
  Ropp : R -> R;
  Rsqrt : R -> R;
  Rfabs : R -> R;
  Rltb : R -> R -> bool;
  Rleb : R -> R -> bool;
  Reqb : R -> R -> bool;
  Rmax : R
}.

Declare Scope real_scope.
Delimit Scope real_scope with real.
Infix "+" := Radd : real_scope.
Infix "-" := Rsub : real_scope.
Infix "*" := Rmul : real_scope.
Infix "/" := Rdiv : real_scope.
Notation "- x" := (Ropp x) : real_scope.

(** The comparisons of the source, written with the operand order it has. *)
Definition Rgtb {R} `{RealArith R} (a b : R) : bool := Rltb b a.
Definition Rgeb {R} `{RealArith R} (a b : R) : bool := Rleb b a.
Definition Rneb {R} `{RealArith R} (a b : R) : bool := negb (Reqb a b).

(* ================================================================== *)
(** ** Buffers and loops *)

(** [std::vector] and caller buffers are lists.  Reads at an index the
    solver computes itself use [nth] (its loops stay inside the buffers the
    constructor sized); a write outside the buffer does nothing here. *)
Fixpoint upd {A} (v : list A) (i : nat) (x : A) : list A :=
  match v, i with
  | [], _ => []
  | _ :: t, O => x :: t
  | a :: t, S j => a :: upd t j x
  end.

(** [for (i = lo; i < hi; ++i) body] *)
Definition for_up {S} (lo hi : nat) (body : nat -> S -> S) (s : S) : S :=
  fold_left (fun s i => body i s) (seq lo (hi - lo)) s.

(** [for (i = hi - 1; i >= lo; --i) body] *)
Definition for_down {S} (lo hi : nat) (body : nat -> S -> S) (s : S) : S :=
  fold_left (fun s i => body i s) (rev (seq lo (hi - lo))) s.

(** What an operation that can run into undefined behaviour yields: a
    value, or [Fault] for an access through a null pointer or outside a
    vector. *)
Inductive outcome (A : Type) : Type :=
| Normal (a : A)
| Fault.
Arguments Normal {A} a.
Arguments Fault {A}.

(** [v[i]] for an index that comes from the caller. *)
Definition checked_at {A} (v : list A) (i : Z) : outcome A :=
  if (0 <=? i) && (i <? Z.of_nat (length v))
  then match nth_error v (Z.to_nat i) with
       | Some a => Normal a
       | None => Fault
       end
  else Fault.

Definition NOT_CONVERGED : Z := 0xFFFFFFFF.

(* ================================================================== *)
(** ** std::sort *)

(** The items [ComputePermutation] sorts. *)
Record SortItem (R : Type) : Type := mkSortItem {
  eigenvalue : R;
  item_index : Z
}.

(** [std::sort] is the C++ library's; the solver takes it as a parameter
    [sorter].  [comp] is the comparator lambda. *)
Definition sorter (A : Type) : Type := (A -> A -> bool) -> list A -> list A.

(** The precondition the C++ standard puts on the comparator: a strict
    weak ordering on the sorted elements. *)
Record strict_weak_on {A} (comp : A -> A -> bool) (l : list A) : Prop := {
  swo_irrefl : forall a, In a l -> comp a a = false;
  swo_trans : forall a b c, In a l -> In b l -> In c l ->
      comp a b = true -> comp b c = true -> comp a c = true;
  swo_incomp : forall a b c, In a l -> In b l -> In c l ->
      comp a b = false -> comp b a = false ->
      comp b c = false -> comp c b = false ->
      comp a c = false /\ comp c a = false
}.

(** No later element goes before an earlier one. *)
Definition ordered_by {A} (comp : A -> A -> bool) (l : list A) : Prop :=
  StronglySorted (fun a b => comp b a = false) l.

(** What the standard promises of [std::sort]: the range is rearranged
    and ends up ordered by [comp].  The order of equivalent elements is
    not part of it. *)
Definition std_sort_contract {A} (srt : sorter A) : Prop :=
  forall comp l, strict_weak_on comp l ->
    Permutation l (srt comp l) /\ ordered_by comp (srt comp l).

(* ================================================================== *)
(** ** The allocator *)

(** What a [std::vector] asks of the allocator: room for [count]
    elements of [Real], of [GivensRotation] or of [int32_t]. *)
Inductive request : Type :=
| reals (count : Z)
| rotations (count : Z)
| ints (count : Z).

(** An allocator over heaps of type [H]: the heap after a request it
    grants, [None] for one it refuses. *)
Definition allocator (H : Type) : Type := request -> H -> option H.

(** Requests made one after the other; the first refusal ends them. *)
Fixpoint allocate {H} (alloc : allocator H) (rs : list request) (h : H) : option H :=
  match rs with
  | [] => Some h
  | r :: rs' =>
      match alloc r h with
      | Some h' => allocate alloc rs' h'
      | None => None
      end
  end.

(* ================================================================== *)
(** ** The solver *)

Section Solver.

Context {R : Type} {RA : RealArith R}.

Local Open Scope real_scope.

(** [v[i]] for an index the solver computes. *)
Definition rd (v : list R) (i : nat) : R := nth i v R0.

Record GivensRotation : Type := mkGivens {
  index : Z;
  cs : R;
  sn : R
}.

(** The data members of the class, in the order it declares them. *)
Record SymmetricEigensolver : Type := mkSolver {
  mSize : Z;
  mMaxIterations : Z;
  mMatrix : list R;
  mDiagonal : list R;
  mSuperdiagonal : list R;
  mGivens : list GivensRotation;
  mPermutation : list Z;
  mVisited : list Z;
  mEigenvectorMatrixType : Z;
  mPVector : list R;
  mVVector : list R;
  mWVector : list R
}.

(** The solver the constructor leaves when the allocator grants what it
    asks for ([construct_on], below, has the exception of a request that
    is refused).  [size] is an [int32_t], [maxIterations] a [uint32_t];
    [resize] value-initialises, [reserve] leaves [mGivens] empty. *)
Definition construct (size maxIterations : Z) : SymmetricEigensolver :=
  if (size >? 1) && (maxIterations >? 0) then
    let n := Z.to_nat size in
    {| mSize := size;
       mMaxIterations := maxIterations;
       mMatrix := repeat R0 (n * n);
       mDiagonal := repeat R0 n;
       mSuperdiagonal := repeat R0 (n - 1);
       mGivens := [];
       mPermutation := repeat 0%Z n;
       mVisited := repeat 0%Z n;
       mEigenvectorMatrixType := -1;
       mPVector := repeat R0 n;
       mVVector := repeat R0 n;
       mWVector := repeat R0 n |}
  else
    {| mSize := 0;
       mMaxIterations := 0;
       mMatrix := [];
       mDiagonal := [];
       mSuperdiagonal := [];
       mGivens := [];
       mPermutation := [];
       mVisited := [];
       mEigenvectorMatrixType := -1;
       mPVector := [];
       mVVector := [];
       mWVector := [] |}.

(** The constructor asks the allocator for its vectors, and a [resize]
    or the [reserve] that is refused throws ([std::bad_alloc],
    [std::length_error]) out of the constructor: no solver is made.  The
    requests, in the order of the body, with their counts, which the
    source computes in [size_t]. *)
Definition constructor_requests (size maxIterations : Z) : list request :=
  [reals (size * size); reals size; reals (size - 1);
   rotations (maxIterations * (size - 1));
   ints size; ints size; reals size; reals size; reals size].

(** The constructor on the heap [h]: the solver and the heap its
    requests leave, or [None] for the exception. *)
Definition construct_on {H} (alloc : allocator H) (size maxIterations : Z) (h : H)
    : option (SymmetricEigensolver * H) :=
  if (size >? 1) && (maxIterations >? 0) then
    match allocate alloc (constructor_requests size maxIterations) h with
    | Some h' => Some (construct size maxIterations, h')
    | None => None
    end
  else Some (construct size maxIterations, h).

(* ------------------------------------------------------------------ *)
(** *** Tridiagonalize *)

(** One pass of the loop over [i]: the Householder vector of row [i], the
    rank-2 update of the trailing block, and the vector stored in column
    [i].  The buffers are [mMatrix], [mVVector], [mPVector], [mWVector]. *)
Definition tridiag_step (n i : nat)
    (b : list R * list R * list R * list R) : list R * list R * list R * list R :=
  let '(M, V, P, W) := b in
  let ip1 := S i in
  let V := for_up 0 ip1 (fun r V => upd V r R0) V in
  let '(V, length) :=
    for_up ip1 n
      (fun r '(V, len) =>
         let vr := rd M (r + n * i)%nat in
         (upd V r vr, len + vr * vr))
      (V, R0) in
  let vdv := R1 in
  let length := Rsqrt length in
  let '(V, vdv) :=
    if Rgtb length R0 then
      let v1 := rd V ip1 in
      let sgn := if Rgeb v1 R0 then R1 else Rneg1 in
      let invDenom := R1 / (v1 + sgn * length) in
      let V := upd V ip1 R1 in
      for_up (S ip1) n
        (fun r '(V, vdv) =>
           let vr := rd V r * invDenom in
           (upd V r vr, vdv + vr * vr))
        (V, vdv)
    else (V, vdv) in
  let invvdv := R1 / vdv in
  let twoinvvdv := invvdv * R2 in
  let '(P, pdvtvdv) :=
    for_up i n
      (fun r '(P, pdv) =>
         let P := upd P r R0 in
         let P := for_up i r
                    (fun c P => upd P r (rd P r + rd M (r + n * c)%nat * rd V c)) P in
         let P := for_up r n
                    (fun c P => upd P r (rd P r + rd M (c + n * r)%nat * rd V c)) P in
         let P := upd P r (rd P r * twoinvvdv) in
         (P, pdv + rd P r * rd V r))
      (P, R0) in
  let pdvtvdv := pdvtvdv * invvdv in
  let W := for_up i n (fun r W => upd W r (rd P r - pdvtvdv * rd V r)) W in
  let M :=
    for_up i n
      (fun r M =>
         let vr := rd V r in
         let wr := rd W r in
         let offset := vr * wr * R2 in
         let M := upd M (r + n * r)%nat (rd M (r + n * r)%nat - offset) in
         for_up (S r) n
           (fun c M =>
              let offset := vr * rd W c + wr * rd V c in
              upd M (c + n * r)%nat (rd M (c + n * r)%nat - offset))
           M)
      M in
  let M := upd M (i + n * ip1)%nat twoinvvdv in
  let M := for_up (S ip1) n (fun r M => upd M (i + n * r)%nat (rd V r)) M in
  (M, V, P, W).

(** The copy of the diagonal and the superdiagonal into the linear
    arrays; the state is [(mDiagonal, mSuperdiagonal, index)]. *)
Definition copy_bands (n : nat) (M Dg Sp : list R) : list R * list R :=
  let ksup := (n - 1)%nat in
  let delta := (n + 1)%nat in
  let '(Dg, Sp, idx) :=
    for_up 0 ksup
      (fun k '(Dg, Sp, idx) =>
         (upd Dg k (rd M idx), upd Sp k (rd M (idx + 1)%nat), (idx + delta)%nat))
      (Dg, Sp, 0%nat) in
  (upd Dg ksup (rd M idx), Sp).

Definition Tridiagonalize (st : SymmetricEigensolver) : SymmetricEigensolver :=
  let n := Z.to_nat (mSize st) in
  let '(M, V, P, W) :=
    for_up 0 (n - 2) (tridiag_step n)
      (mMatrix st, mVVector st, mPVector st, mWVector st) in
  let '(Dg, Sp) := copy_bands n M (mDiagonal st) (mSuperdiagonal st) in
  {| mSize := mSize st;
     mMaxIterations := mMaxIterations st;
     mMatrix := M;
     mDiagonal := Dg;
     mSuperdiagonal := Sp;
     mGivens := mGivens st;
     mPermutation := mPermutation st;
     mVisited := mVisited st;
     mEigenvectorMatrixType := mEigenvectorMatrixType st;
     mPVector := P;
     mVVector := V;
     mWVector := W |}.

(* ------------------------------------------------------------------ *)
(** *** GetSinCos and DoQRImplicitShift *)

(** Returns [(cs, sn)]. *)
Definition GetSinCos (x y : R) : R * R :=
  if Rneb y R0 then
    if Rgtb (Rfabs y) (Rfabs x) then
      let tau := (- x) / y in
      let sn := R1 / Rsqrt (R1 + tau * tau) in
      (sn * tau, sn)
    else
      let tau := (- y) / x in
      let cs := R1 / Rsqrt (R1 + tau * tau) in
      (cs, cs * tau)
  else (R1, R0).

(** The loop state of the chain of rotations. *)
Record qr_state : Type := mkQR {
  qD : list R;
  qS : list R;
  qG : list GivensRotation;
  qx : R;
  qy : R;
  qa02 : R
}.

Definition qr_rotation (imin imax i1 : nat) (s : qr_state) : qr_state :=
  let i0 := (i1 - 1)%nat in
  let i2 := (i1 + 1)%nat in
  let '(cs, sn) := GetSinCos (qx s) (qy s) in
  let G := qG s ++ [mkGivens (Z.of_nat i1) cs sn] in
  let Sp := if (imin <? i1)%nat
           then upd (qS s) i0 (cs * rd (qS s) i0 - sn * qa02 s)
           else qS s in
  let Dg := qD s in
  let a11 := rd Dg i1 in
  let a12 := rd Sp i1 in
  let a22 := rd Dg i2 in
  let tmp11 := cs * a11 - sn * a12 in
  let tmp12 := cs * a12 - sn * a22 in
  let tmp21 := sn * a11 + cs * a12 in
  let tmp22 := sn * a12 + cs * a22 in
  let Dg := upd Dg i1 (cs * tmp11 - sn * tmp12) in
  let Sp := upd Sp i1 (sn * tmp11 + cs * tmp12) in
  let Dg := upd Dg i2 (sn * tmp21 + cs * tmp22) in
  if (i1 <? imax)%nat then
    let a23 := rd Sp i2 in
    let a02 := (- sn) * a23 in
    let Sp := upd Sp i2 (cs * a23) in
    mkQR Dg Sp G (rd Sp i1) a02 a02
  else mkQR Dg Sp G (qx s) (qy s) (qa02 s).

(** [DoQRImplicitShift(imin, imax)] on the diagonal, the superdiagonal
    and the rotation log. *)
Definition qr_shift (imin imax : nat) (Dg Sp : list R) (G : list GivensRotation)
    : list R * list R * list GivensRotation :=
  let a00 := rd Dg imax in
  let a01 := rd Sp imax in
  let a11 := rd Dg (imax + 1)%nat in
  let dif := (a00 - a11) * Rhalf in
  let sgn := if Rgeb dif R0 then R1 else Rneg1 in
  let a01sqr := a01 * a01 in
  let u := a11 - a01sqr / (dif + sgn * Rsqrt (dif * dif + a01sqr)) in
  let x := rd Dg imin - u in
  let y := rd Sp imin in
  let s := for_up imin (S imax) (qr_rotation imin imax) (mkQR Dg Sp G x y R0) in
  (qD s, qS s, qG s).

Definition DoQRImplicitShift (imin imax : Z) (st : SymmetricEigensolver)
    : SymmetricEigensolver :=
  let '(Dg, Sp, G) :=
    qr_shift (Z.to_nat imin) (Z.to_nat imax)
             (mDiagonal st) (mSuperdiagonal st) (mGivens st) in
  {| mSize := mSize st;
     mMaxIterations := mMaxIterations st;
     mMatrix := mMatrix st;
     mDiagonal := Dg;
     mSuperdiagonal := Sp;
     mGivens := G;
     mPermutation := mPermutation st;
     mVisited := mVisited st;
     mEigenvectorMatrixType := mEigenvectorMatrixType st;
     mPVector := mPVector st;
     mVVector := mVVector st;
     mWVector := mWVector st |}.

(* ------------------------------------------------------------------ *)
(** *** ComputePermutation *)

(** [mPermutation[i]] *)
Definition rdz (v : list Z) (i : nat) : Z := nth i v 0%Z.

(** The source's [std::sort]. *)
Variable std_sort : sorter (SortItem R).

Definition ComputePermutation (sortType : Z) (st : SymmetricEigensolver)
    : SymmetricEigensolver :=
  let n := Z.to_nat (mSize st) in
  let ty := (1 - Z.land (mSize st) 1)%Z in
  let perm :=
    if (sortType =? 0)%Z then upd (mPermutation st) 0 (-1)%Z
    else
      let items :=
        map (fun i => mkSortItem (rd (mDiagonal st) i) (Z.of_nat i)) (seq 0 n) in
      let items :=
        if (sortType >? 0)%Z
        then std_sort (fun item0 item1 => Rltb (eigenvalue item0) (eigenvalue item1)) items
        else std_sort (fun item0 item1 => Rgtb (eigenvalue item0) (eigenvalue item1)) items in
      fst (fold_left (fun '(perm, i) item => (upd perm i (item_index item), S i))
                     items (mPermutation st, 0%nat)) in
  {| mSize := mSize st;
     mMaxIterations := mMaxIterations st;
     mMatrix := mMatrix st;
     mDiagonal := mDiagonal st;
     mSuperdiagonal := mSuperdiagonal st;
     mGivens := mGivens st;
     mPermutation := perm;
     mVisited := mVisited st;
     mEigenvectorMatrixType := ty;
     mPVector := mPVector st;
     mVVector := mVVector st;
     mWVector := mWVector st |}.

(** The items handed to [std::sort] and the comparator of each branch. *)
Definition sort_items (st : SymmetricEigensolver) : list (SortItem R) :=
  map (fun i => mkSortItem (rd (mDiagonal st) i) (Z.of_nat i))
      (seq 0 (Z.to_nat (mSize st))).

Definition sort_comp (sortType : Z) : SortItem R -> SortItem R -> bool :=
  if (sortType >? 0)%Z
  then fun item0 item1 => Rltb (eigenvalue item0) (eigenvalue item1)
  else fun item0 item1 => Rgtb (eigenvalue item0) (eigenvalue item1).

(* ------------------------------------------------------------------ *)
(** *** Solve *)

(** The test of the scan: [sum + std::fabs(a01) != sum]. *)
Definition unreduced (Dg Sp : list R) (i : nat) : bool :=
  let a00 := rd Dg i in
  let a01 := rd Sp i in
  let a11 := rd Dg (i + 1)%nat in
  let sum := Rfabs a00 + Rfabs a11 in
  Rneb (sum + Rfabs a01) sum.

(** The scan [for (i = mSize - 2; i >= 0; --i)] with its [break]; [todo]
    are the indices still to visit. *)
Fixpoint scan_block (Dg Sp : list R) (todo : list nat) (imin imax : Z) : Z * Z :=
  match todo with
  | [] => (imin, imax)
  | i :: rest =>
      if unreduced Dg Sp i then
        scan_block Dg Sp rest (Z.of_nat i)
                   (if (imax =? -1)%Z then Z.of_nat i else imax)
      else if (imin >=? 0)%Z then (imin, imax)
      else scan_block Dg Sp rest imin imax
  end.

Definition find_block (st : SymmetricEigensolver) : Z * Z :=
  let n := Z.to_nat (mSize st) in
  scan_block (mDiagonal st) (mSuperdiagonal st) (rev (seq 0 (n - 1))) (-1)%Z (-1)%Z.

(** The loop [for (j = 0; j < mMaxIterations; ++j)]; [budget] counts the
    iterations that remain. *)
Fixpoint qr_iterate (budget : nat) (j : Z) (sortType : Z)
    (st : SymmetricEigensolver) : SymmetricEigensolver * Z :=
  match budget with
  | O => (st, NOT_CONVERGED)
  | S budget' =>
      let '(imin, imax) := find_block st in
      if (imax =? -1)%Z then (ComputePermutation sortType st, j)
      else qr_iterate budget' (j + 1)%Z sortType (DoQRImplicitShift imin imax st)
  end.

Definition set_type (ty : Z) (st : SymmetricEigensolver) : SymmetricEigensolver :=
  {| mSize := mSize st;
     mMaxIterations := mMaxIterations st;
     mMatrix := mMatrix st;
     mDiagonal := mDiagonal st;
     mSuperdiagonal := mSuperdiagonal st;
     mGivens := mGivens st;
     mPermutation := mPermutation st;
     mVisited := mVisited st;
     mEigenvectorMatrixType := ty;
     mPVector := mPVector st;
     mVVector := mVVector st;
     mWVector := mWVector st |}.

(** [std::copy] and [std::memcpy] of [n] elements from [src] to [dst]. *)
Definition copy_n (n : nat) (src dst : list R) : list R :=
  for_up 0 n (fun k dst => upd dst k (rd src k)) dst.

(** The state [Tridiagonalize] starts from: the input copied into
    [mMatrix]. *)
Definition load_input (input : list R) (st : SymmetricEigensolver)
    : SymmetricEigensolver :=
  let n := Z.to_nat (mSize st) in
  {| mSize := mSize st;
     mMaxIterations := mMaxIterations st;
     mMatrix := copy_n (n * n) input (mMatrix st);
     mDiagonal := mDiagonal st;
     mSuperdiagonal := mSuperdiagonal st;
     mGivens := mGivens st;
     mPermutation := mPermutation st;
     mVisited := mVisited st;
     mEigenvectorMatrixType := mEigenvectorMatrixType st;
     mPVector := mPVector st;
     mVVector := mVVector st;
     mWVector := mWVector st |}.

Definition clear_givens (st : SymmetricEigensolver) : SymmetricEigensolver :=
  {| mSize := mSize st;
     mMaxIterations := mMaxIterations st;
     mMatrix := mMatrix st;
     mDiagonal := mDiagonal st;
     mSuperdiagonal := mSuperdiagonal st;
     mGivens := [];
     mPermutation := mPermutation st;
     mVisited := mVisited st;
     mEigenvectorMatrixType := mEigenvectorMatrixType st;
     mPVector := mPVector st;
     mVVector := mVVector st;
     mWVector := mWVector st |}.

(** [Solve(input, sortType)]: the solver afterwards and the value
    returned. *)
Definition Solve (input : list R) (sortType : Z) (st : SymmetricEigensolver)
    : SymmetricEigensolver * Z :=
  let st := set_type (-1) st in
  if (mSize st >? 0)%Z then
    let st := load_input input st in
    let st := Tridiagonalize st in
    let st := clear_givens st in
    qr_iterate (Z.to_nat (mMaxIterations st)) 0%Z sortType st
  else (st, 0%Z).

(* ------------------------------------------------------------------ *)
(** *** GetEigenvalues, GetEigenvalue *)

(** The output buffer is a pointer: [None] is the null pointer.  The
    result is the buffer after the call. *)
Definition GetEigenvalues (eigenvalues : option (list R))
    (st : SymmetricEigensolver) : option (list R) :=
  match eigenvalues with
  | Some ev =>
      if (mSize st >? 0)%Z then
        let n := Z.to_nat (mSize st) in
        if (rdz (mPermutation st) 0 >=? 0)%Z then
          Some (for_up 0 n
                  (fun i ev =>
                     let p := rdz (mPermutation st) i in
                     upd ev i (rd (mDiagonal st) (Z.to_nat p)))
                  ev)
        else Some (copy_n n (mDiagonal st) ev)
      else Some ev
  | None => None
  end.

(** [c] comes from the caller and is not compared with [mSize]: the
    vector accesses are the checked ones. *)
Definition GetEigenvalue (c : Z) (st : SymmetricEigensolver) : outcome R :=
  if (mSize st >? 0)%Z then
    if (rdz (mPermutation st) 0 >=? 0)%Z then
      match checked_at (mPermutation st) c with
      | Normal p => checked_at (mDiagonal st) p
      | Fault => Fault
      end
    else checked_at (mDiagonal st) c
  else Normal Rmax.

(* ------------------------------------------------------------------ *)
(** *** GetEigenvectors *)

(** [std::fill] with zero, then ones on the diagonal. *)
Definition identity_fill (n : nat) (E : list R) : list R :=
  let E := for_up 0 (n * n) (fun k E => upd E k R0) E in
  for_up 0 n (fun d E => upd E (d + n * d)%nat R1) E.

(** One pass of the backward accumulation: [Q <- Q - v*w^T] for the
    Householder vector stored in column [i]. *)
Definition householder_accumulate (n : nat) (M : list R) (i : nat)
    (b : list R * list R * list R) : list R * list R * list R :=
  let '(E, V, W) := b in
  let rmin := (i + 1)%nat in
  let twoinvvdv := rd M (i + n * (i + 1))%nat in
  let V := for_up 0 (i + 1) (fun r V => upd V r R0) V in
  let V := upd V (i + 1) R1 in
  let V := for_up (i + 2) n (fun r V => upd V r (rd M (i + n * r)%nat)) V in
  let W :=
    for_up 0 n
      (fun r W =>
         let W := upd W r R0 in
         let W := for_up rmin n
                    (fun c W => upd W r (rd W r + rd V c * rd E (r + n * c)%nat)) W in
         upd W r (rd W r * twoinvvdv))
      W in
  let E :=
    for_up rmin n
      (fun r E =>
         for_up 0 n
           (fun c E => upd E (c + n * r)%nat (rd E (c + n * r)%nat - rd V r * rd W c))
           E)
      E in
  (E, V, W).

(** One logged rotation applied to every row of [Q]. *)
Definition givens_multiply (n : nat) (E : list R) (givens : GivensRotation) : list R :=
  for_up 0 n
    (fun r E =>
       let j := (Z.to_nat (index givens) + n * r)%nat in
       let q0 := rd E j in
       let q1 := rd E (j + 1)%nat in
       let prd0 := cs givens * q0 - sn givens * q1 in
       let prd1 := sn givens * q0 + cs givens * q1 in
       upd (upd E j prd0) (j + 1)%nat prd1)
    E.

(** A loop whose body may fail to return. *)
Definition for_up_opt {S} (lo hi : nat) (body : nat -> S -> option S) (s : S)
    : option S :=
  fold_left (fun os i => match os with Some s => body i s | None => None end)
            (seq lo (hi - lo)) (Some s).

(** [while ((next = mPermutation[current]) != start)]: the columns of
    one cycle are shifted and the type flag is flipped once per pass.  The
    source loop has no bound; [fuel] passes are allowed here and [None]
    says they did not reach [start]. *)
Fixpoint cycle_walk (fuel n : nat) (perm : list Z) (start current : Z)
    (s : list R * list Z * Z) : option (Z * (list R * list Z * Z)) :=
  match fuel with
  | O => None
  | S fuel' =>
      let next := rdz perm (Z.to_nat current) in
      if (next =? start)%Z then Some (current, s)
      else
        let '(E, visited, ty) := s in
        let ty := (1 - ty)%Z in
        let visited := upd visited (Z.to_nat current) 1%Z in
        let E := for_up 0 n
                   (fun j E => upd E (Z.to_nat current + n * j)%nat
                                     (rd E (Z.to_nat next + n * j)%nat))
                   E in
        cycle_walk fuel' n perm start next (E, visited, ty)
  end.

(** The body of [for (i = 0; i < mSize; ++i)] once sorting was
    requested; the state is [(eigenvectors, mVisited, mPVector, type)]. *)
Definition permute_cycle (n : nat) (perm : list Z) (i : nat)
    (s : list R * list Z * list R * Z) : option (list R * list Z * list R * Z) :=
  let '(E, visited, P, ty) := s in
  if (rdz visited i =? 0)%Z && negb (rdz perm i =? Z.of_nat i)%Z then
    let P := for_up 0 n (fun j P => upd P j (rd E (i + n * j)%nat)) P in
    match cycle_walk n n perm (Z.of_nat i) (Z.of_nat i) (E, visited, ty) with
    | None => None
    | Some (current, (E, visited, ty)) =>
        let visited := upd visited (Z.to_nat current) 1%Z in
        let E := for_up 0 n
                   (fun j E => upd E (Z.to_nat current + n * j)%nat (rd P j)) E in
        Some (E, visited, P, ty)
    end
  else Some s.

(** [GetEigenvectors(eigenvectors)]: the buffer and the solver after the
    call ([mVisited], the scratch vectors and the type flag are
    [mutable]); [None] when the cycle loop does not come back. *)
Definition GetEigenvectors (eigenvectors : option (list R))
    (st : SymmetricEigensolver)
    : option (option (list R) * SymmetricEigensolver) :=
  let st := set_type (-1) st in
  match eigenvectors with
  | Some E =>
      if (mSize st >? 0)%Z then
        let n := Z.to_nat (mSize st) in
        let E := identity_fill n E in
        let '(E, V, W) :=
          for_down 0 (n - 2) (householder_accumulate n (mMatrix st))
                   (E, mVVector st, mWVector st) in
        let E := fold_left (givens_multiply n) (mGivens st) E in
        let ty := (1 - Z.land (mSize st) 1)%Z in
        let r :=
          if (rdz (mPermutation st) 0 >=? 0)%Z then
            let visited := for_up 0 (length (mVisited st))
                             (fun k v => upd v k 0%Z) (mVisited st) in
            for_up_opt 0 n (permute_cycle n (mPermutation st))
                       (E, visited, mPVector st, ty)
          else Some (E, mVisited st, mPVector st, ty) in
        match r with
        | Some (E, visited, P, ty) =>
            Some (Some E,
                  {| mSize := mSize st;
                     mMaxIterations := mMaxIterations st;
                     mMatrix := mMatrix st;
                     mDiagonal := mDiagonal st;
                     mSuperdiagonal := mSuperdiagonal st;
                     mGivens := mGivens st;
                     mPermutation := mPermutation st;
                     mVisited := visited;
                     mEigenvectorMatrixType := ty;
                     mPVector := P;
                     mVVector := V;
                     mWVector := W |})
        | None => None
        end
      else Some (Some E, st)
  | None => Some (None, st)
  end.

Definition GetEigenvectorMatrixType (st : SymmetricEigensolver) : Z :=
  mEigenvectorMatrixType st.

(* ------------------------------------------------------------------ *)
(** *** GetEigenvector *)

(** One logged rotation undone on the vector [x]. *)
Definition givens_unwind (x : list R) (givens : GivensRotation) : list R :=
  let k := Z.to_nat (index givens) in
  let xr := rd x k in
  let xrp1 := rd x (k + 1)%nat in
  let tmp0 := cs givens * xr + sn givens * xrp1 in
  let tmp1 := (- sn givens) * xr + cs givens * xrp1 in
  upd (upd x k tmp0) (k + 1)%nat tmp1.

(** [y = H*x] for the reflection stored in column [i]. *)
Definition reflect (n : nat) (M : list R) (i : nat) (x y : list R) : list R :=
  let twoinvvdv := rd M (i + n * (i + 1))%nat in
  let y := for_up 0 (i + 1) (fun r y => upd y r (rd x r)) y in
  let r := (i + 1)%nat in
  let s := rd x r in
  let s := for_up (r + 1) n (fun j s => s + rd x j * rd M (i + n * j)%nat) s in
  let s := s * twoinvvdv in
  let y := upd y r (rd x r - s) in
  for_up (r + 1) n (fun r y => upd y r (rd x r - s * rd M (i + n * r)%nat)) y.

(** The pointers [x] and [y] range over the caller's buffer and
    [mPVector]; [swapped] says that [x] is [mPVector]. *)
Definition householder_reflect (n : nat) (M : list R) (i : nat)
    (b : list R * list R * bool) : list R * list R * bool :=
  let '(ev, pv, swapped) := b in
  if swapped then (reflect n M i pv ev, pv, false)
  else (ev, reflect n M i ev pv, true).

(** [GetEigenvector(c, eigenvector)].  The buffer is written without a
    test of the pointer, so a null one is a [Fault] once [c] is in
    range. *)
Definition GetEigenvector (c : Z) (eigenvector : option (list R))
    (st : SymmetricEigensolver)
    : outcome (option (list R) * SymmetricEigensolver) :=
  if (0 <=? c)%Z && (c <? mSize st)%Z then
    match eigenvector with
    | None => Fault
    | Some ev =>
        let n := Z.to_nat (mSize st) in
        let x := for_up 0 n (fun k x => upd x k R0) ev in
        let x :=
          if (rdz (mPermutation st) 0 >=? 0)%Z
          then upd x (Z.to_nat (rdz (mPermutation st) (Z.to_nat c))) R1
          else upd x (Z.to_nat c) R1 in
        let x := fold_left givens_unwind (rev (mGivens st)) x in
        let '(ev, pv, swapped) :=
          for_down 0 (n - 2) (householder_reflect n (mMatrix st))
                   (x, mPVector st, false) in
        let ev := if swapped then copy_n n pv ev else ev in
        Normal (Some ev,
                {| mSize := mSize st;
                   mMaxIterations := mMaxIterations st;
                   mMatrix := mMatrix st;
                   mDiagonal := mDiagonal st;
                   mSuperdiagonal := mSuperdiagonal st;
                   mGivens := mGivens st;
                   mPermutation := mPermutation st;
                   mVisited := mVisited st;
                   mEigenvectorMatrixType := mEigenvectorMatrixType st;
                   mPVector := pv;
                   mVVector := mVVector st;
                   mWVector := mWVector st |})
    end
  else Normal (eigenvector, st).

End Solver.

Arguments SymmetricEigensolver R : clear implicits.
Arguments GivensRotation R : clear implicits.

(* ================================================================== *)
(** ** Instances of [Real] *)

(** [Real = double]: the kernel's binary64 with its IEEE operations. *)
#[export] Instance binary64 : RealArith float := {
  R0 := 0%float;
  R1 := 1%float;
  R2 := 2%float;
  Rhalf := 0.5%float;
  Rneg1 := (-1)%float;
  Radd := PrimFloat.add;
  Rsub := PrimFloat.sub;
  Rmul := PrimFloat.mul;
  Rdiv := PrimFloat.div;
  Ropp := PrimFloat.opp;
  Rsqrt := PrimFloat.sqrt;
  Rfabs := PrimFloat.abs;
  Rltb := PrimFloat.ltb;
  Rleb := PrimFloat.leb;
  Reqb := PrimFloat.eqb;
  Rmax := 0x1.fffffffffffffp+1023%float
}.

(** Exact rationals.  [Q] has no square root: [Qc_sqrt] rounds it down
    to a multiple of [2^-64 / den], and is exact on squares. *)
Definition Qc_sqrt (q : Qc) : Qc :=
  let p := Qnum (this q) in
  let d := Qden (this q) in
  Q2Qc (Z.sqrt (p * Zpos d * 2 ^ 128) # (d * 2 ^ 64)).

Definition Qc_ltb (a b : Qc) : bool :=
  match Qccompare a b with Lt => true | _ => false end.

Definition Qc_leb (a b : Qc) : bool :=
  match Qccompare a b with Gt => false | _ => true end.

Definition Qc_abs (q : Qc) : Qc := Q2Qc (Qabs (this q)).

#[export] Instance exactQ : RealArith Qc := {
  R0 := Q2Qc 0;
  R1 := Q2Qc 1;
  R2 := Q2Qc 2;
  Rhalf := Q2Qc (1 # 2);
  Rneg1 := Q2Qc (-1);
  Radd := Qcplus;
  Rsub := Qcminus;
  Rmul := Qcmult;
  Rdiv := Qcdiv;
  Ropp := Qcopp;
  Rsqrt := Qc_sqrt;
  Rfabs := Qc_abs;
  Rltb := Qc_ltb;
  Rleb := Qc_leb;
  Reqb := fun a b => Qeq_bool (this a) (this b);
  Rmax := Q2Qc (inject_Z (2 ^ 1024 - 2 ^ 971))
}.

(** A [std::sort] that meets the contract: insertion from the left,
    which keeps equivalent elements in their order. *)
Fixpoint insert_sorted {A} (comp : A -> A -> bool) (a : A) (l : list A) : list A :=
  match l with
  | [] => [a]
  | b :: t => if comp a b then a :: b :: t else b :: insert_sorted comp a t
  end.

Definition insertion_sort {A} : sorter A :=
  fun comp l => fold_left (fun acc a => insert_sorted comp a acc) l [].

(* ------------------------------------------------------------------ *)
(** *** [std::sort] as libstdc++ has it *)

(** [std::sort] is not part of the repository: a program built with GCC
    calls the one of libstdc++ ([bits/stl_algo.h], [bits/stl_heap.h]),
    an introsort: a quicksort on the median of three down to ranges of
    [_S_threshold = 16] elements, a heap sort of the range once the
    depth limit [2 * lg(n)] is used up, and an insertion sort at the
    end.  Iterators are indices into the vector and the names are the
    library's.  The unguarded loops of the library stop at an element
    that a strict weak ordering guarantees; here they stop after as many
    steps as the vector is long as well. *)
Section Libstdcxx.

Variable A : Type.
Variable comp : A -> A -> bool.

(** [*(it)]; [d] is never read inside the vector. *)
Variable d : A.

Definition deref (v : list A) (it : nat) : A := nth it v d.

Definition _S_threshold : nat := 16.

Definition iter_swap (v : list A) (a b : nat) : list A :=
  let x := deref v a in
  let y := deref v b in
  upd (upd v a y) b x.

Definition __move_median_to_first (v : list A) (result a b c : nat) : list A :=
  if comp (deref v a) (deref v b) then
    if comp (deref v b) (deref v c) then iter_swap v result b
    else if comp (deref v a) (deref v c) then iter_swap v result c
    else iter_swap v result a
  else if comp (deref v a) (deref v c) then iter_swap v result a
  else if comp (deref v b) (deref v c) then iter_swap v result c
  else iter_swap v result b.

(** [while (__comp(__first, __pivot)) ++__first;] *)
Fixpoint advance_first (steps : nat) (v : list A) (first pivot : nat) : nat :=
  match steps with
  | O => first
  | S steps' =>
      if comp (deref v first) (deref v pivot)
      then advance_first steps' v (S first) pivot
      else first
  end.

(** [while (__comp(__pivot, __last)) --__last;] *)
Fixpoint retreat_last (steps : nat) (v : list A) (last pivot : nat) : nat :=
  match steps with
  | O => last
  | S steps' =>
      if comp (deref v pivot) (deref v last)
      then retreat_last steps' v (last - 1) pivot
      else last
  end.

(** The [while (true)] loop of [__unguarded_partition]; it returns the
    vector and the cut. *)
Fixpoint __unguarded_partition (steps : nat) (v : list A) (first last pivot : nat)
    : list A * nat :=
  match steps with
  | O => (v, first)
  | S steps' =>
      let first := advance_first (length v) v first pivot in
      let last := (last - 1)%nat in
      let last := retreat_last (length v) v last pivot in
      if negb (first <? last)%nat then (v, first)
      else
        let v := iter_swap v first last in
        __unguarded_partition steps' v (S first) last pivot
  end.

Definition __unguarded_partition_pivot (v : list A) (first last : nat) : list A * nat :=
  let mid := (first + (last - first) / 2)%nat in
  let v := __move_median_to_first v first (first + 1) mid (last - 1) in
  __unguarded_partition (length v) v (first + 1) last first.

(** The heap of [bits/stl_heap.h]. *)
Fixpoint __push_heap (steps : nat) (v : list A) (first holeIndex topIndex : nat)
    (value : A) : list A :=
  match steps with
  | O => upd v (first + holeIndex) value
  | S steps' =>
      let parent := ((holeIndex - 1) / 2)%nat in
      if (topIndex <? holeIndex)%nat && comp (deref v (first + parent)) value then
        let v := upd v (first + holeIndex) (deref v (first + parent)) in
        __push_heap steps' v first parent topIndex value
      else upd v (first + holeIndex) value
  end.

(** [while (__secondChild < (__len - 1) / 2)] in [__adjust_heap]; the
    state is the vector, the hole and the second child. *)
Fixpoint sift_hole (steps : nat) (v : list A) (first holeIndex secondChild len : nat)
    : list A * nat * nat :=
  match steps with
  | O => (v, holeIndex, secondChild)
  | S steps' =>
      if (secondChild <? (len - 1) / 2)%nat then
        let secondChild := (2 * (secondChild + 1))%nat in
        let secondChild :=
          if comp (deref v (first + secondChild)) (deref v (first + (secondChild - 1)))
          then (secondChild - 1)%nat else secondChild in
        let v := upd v (first + holeIndex) (deref v (first + secondChild)) in
        sift_hole steps' v first secondChild secondChild len
      else (v, holeIndex, secondChild)
  end.

Definition __adjust_heap (v : list A) (first holeIndex len : nat) (value : A) : list A :=
  let topIndex := holeIndex in
  let '(v, holeIndex, secondChild) := sift_hole len v first holeIndex holeIndex len in
  let '(v, holeIndex) :=
    if Nat.even len && (secondChild =? (len - 2) / 2)%nat then
      let secondChild := (2 * (secondChild + 1))%nat in
      (upd v (first + holeIndex) (deref v (first + (secondChild - 1))),
       (secondChild - 1)%nat)
    else (v, holeIndex) in
  __push_heap len v first holeIndex topIndex value.

Definition __pop_heap (v : list A) (first last result : nat) : list A :=
  let value := deref v result in
  let v := upd v result (deref v first) in
  __adjust_heap v first 0 (last - first) value.

(** The [while (true)] loop of [__make_heap], from [__parent] down to
    [0]. *)
Fixpoint make_heap_from (v : list A) (first len parent : nat) : list A :=
  let v := __adjust_heap v first parent len (deref v (first + parent)) in
  match parent with
  | O => v
  | S parent' => make_heap_from v first len parent'
  end.

Definition __make_heap (v : list A) (first last : nat) : list A :=
  if (last - first <? 2)%nat then v
  else
    let len := (last - first)%nat in
    make_heap_from v first len ((len - 2) / 2).

Definition __heap_select (v : list A) (first middle last : nat) : list A :=
  let v := __make_heap v first middle in
  for_up middle last
    (fun i v => if comp (deref v i) (deref v first)
                then __pop_heap v first middle i else v)
    v.

(** [while (__last - __first > 1) { --__last; __pop_heap(...); }] *)
Fixpoint __sort_heap (steps : nat) (v : list A) (first last : nat) : list A :=
  match steps with
  | O => v
  | S steps' =>
      if (1 <? last - first)%nat then
        let last := (last - 1)%nat in
        __sort_heap steps' (__pop_heap v first last last) first last
      else v
  end.

Definition __partial_sort (v : list A) (first middle last : nat) : list A :=
  let v := __heap_select v first middle last in
  __sort_heap (length v) v first middle.

(** [__introsort_loop]; each pass of its [while] takes one from the
    depth limit. *)
Fixpoint __introsort_loop (depth_limit : nat) (v : list A) (first last : nat) : list A :=
  if (_S_threshold <? last - first)%nat then
    match depth_limit with
    | O => __partial_sort v first last last
    | S depth_limit' =>
        let '(v, cut) := __unguarded_partition_pivot v first last in
        let v := __introsort_loop depth_limit' v cut last in
        __introsort_loop depth_limit' v first cut
    end
  else v.

(** [__unguarded_linear_insert] with [__val_comp_iter]. *)
Fixpoint __unguarded_linear_insert (steps : nat) (v : list A) (last : nat) (val : A)
    : list A :=
  match steps with
  | O => upd v last val
  | S steps' =>
      let next := (last - 1)%nat in
      if comp val (deref v next) then
        __unguarded_linear_insert steps' (upd v last (deref v next)) next val
      else upd v last val
  end.

(** [std::move_backward(first, last, d_last)] inside one vector. *)
Definition move_backward (v : list A) (first last d_last : nat) : list A :=
  for_down 0 (last - first)
    (fun k v => upd v (d_last - (last - first) + k) (deref v (first + k))) v.

Definition __insertion_sort (v : list A) (first last : nat) : list A :=
  if (first =? last)%nat then v
  else
    for_up (first + 1) last
      (fun i v =>
         if comp (deref v i) (deref v first) then
           let val := deref v i in
           let v := move_backward v first i (i + 1) in
           upd v first val
         else __unguarded_linear_insert (length v) v i (deref v i))
      v.

Definition __unguarded_insertion_sort (v : list A) (first last : nat) : list A :=
  for_up first last
    (fun i v => __unguarded_linear_insert (length v) v i (deref v i)) v.

Definition __final_insertion_sort (v : list A) (first last : nat) : list A :=
  if (_S_threshold <? last - first)%nat then
    let v := __insertion_sort v first (first + _S_threshold) in
    __unguarded_insertion_sort v (first + _S_threshold) last
  else __insertion_sort v first last.

(** [std::__sort(first, last, comp)] on the whole vector. *)
Definition __sort (v : list A) : list A :=
  let first := 0%nat in
  let last := length v in
  if (first =? last)%nat then v
  else
    let v := __introsort_loop (Nat.log2 (last - first) * 2) v first last in
    __final_insertion_sort v first last.

End Libstdcxx.

(** [std::sort] of libstdc++ as a [sorter]. *)
Definition libstdcxx_sort {A} : sorter A :=
  fun comp l =>
    match l with
    | [] => []
    | d :: _ => __sort comp d l
    end.

Unset Implicit Arguments.

(* ================================================================== *)
(** ** The notions the statements are written in *)

(** Case analysis on the comparisons of indices in the goal. *)
Ltac nat_cases :=
  repeat (match goal with
          | |- context [(?a <=? ?b)%nat] => destruct (Nat.leb_spec a b)
          | |- context [(?a <? ?b)%nat] => destruct (Nat.ltb_spec a b)
          | |- context [(?a =? ?b)%nat] => destruct (Nat.eqb_spec a b)
          end; simpl);
  try lia.

(** Case analysis on the membership in a list that is written out. *)
Ltac finite_cases :=
  repeat match goal with
         | H : In _ [] |- _ => destruct H
         | H : In _ (_ :: _) |- _ => destruct H as [<-|H]
         end.

(* ------------------------------------------------------------------ *)
(** *** Permutations and their cycles *)

(** [1 - t], the flip [mEigenvectorMatrixType = 1 - mEigenvectorMatrixType]. *)
Definition flip_type (t : Z) : Z := (1 - t)%Z.

(** [mPermutation] followed [k] times from [i]. *)
Definition follow (perm : list Z) (k : nat) (i : Z) : Z :=
  Nat.iter k (fun z => rdz perm (Z.to_nat z)) i.

(** [i] lies on a cycle of [perm] of length [L]. *)
Definition cycle_length (perm : list Z) (i : Z) (L : nat) : Prop :=
  (0 < L)%nat /\ follow perm L i = i /\
  forall k, (0 < k < L)%nat -> follow perm k i <> i.

(** [mPermutation[c]] as an index. *)
Definition perm_at (perm : list Z) (c : nat) : nat := Z.to_nat (rdz perm c).

(** [perm] holds the indices [0 .. n-1], each once. *)
Definition is_permutation (n : nat) (perm : list Z) : Prop :=
  Permutation (map Z.of_nat (seq 0 n)) perm.

(** The indices the walk of the cycle of [i] goes through. *)
Definition orbit (perm : list Z) (i k : nat) : nat := Nat.iter k (perm_at perm) i.

(** [c] is one of the first [m] indices of the walk. *)
Definition in_orbit (perm : list Z) (i m c : nat) : bool :=
  existsb (fun k => (c =? orbit perm i k)%nat) (seq 0 m).

(** The length of the cycle of [i]: the first [L] of [1 .. n] with
    [orbit perm i L = i]. *)
Definition cycle_size (n : nat) (perm : list Z) (i : nat) : nat :=
  match find (fun L => (orbit perm i L =? i)%nat) (seq 1 n) with
  | Some L => L
  | None => 0%nat
  end.

(** [i] is the least index of its cycle: where a loop over
    [0 .. n-1] meets the cycle. *)
Definition starts_cycle (n : nat) (perm : list Z) (i : nat) : bool :=
  forallb (fun k => (i <=? orbit perm i k)%nat) (seq 0 n).

(** [L - 1] for every cycle of length [L] that starts below [i0]. *)
Definition cycle_toggles_upto (n : nat) (perm : list Z) (i0 : nat) : nat :=
  list_sum (map (fun i => if starts_cycle n perm i
                          then (cycle_size n perm i - 1)%nat else 0%nat)
                (seq 0 i0)).

(** [L - 1] summed over the cycles of [perm]. *)
Definition cycle_toggles (n : nat) (perm : list Z) : nat := cycle_toggles_upto n perm n.

(** The flags of the column loop before index [i0], when the type was
    [ty0] at its start: the marked columns are those of the cycles that
    start below [i0] and move, and the type has been flipped [L - 1]
    times for each of these cycles. *)
Definition flagged {R : Type} (n : nat) (perm : list Z) (ty0 : Z) (i0 : nat)
    (s : list R * list Z * list R * Z) : Prop :=
  let '(_, v, _, ty) := s in
  (forall c, (c < n)%nat ->
     rdz v c <> 0%Z <->
     (perm_at perm c <> c /\ exists j k, (j < i0)%nat /\ c = orbit perm j k)) /\
  ty = Nat.iter (cycle_toggles_upto n perm i0) flip_type ty0.

(** The row-major index [k] of an entry on or right of the diagonal. *)
Definition upper_index (n k : nat) : Prop :=
  exists r c, (r <= c < n)%nat /\ k = (c + n * r)%nat.

(** The index [k] of an entry below the diagonal in a column before
    [i]: where the passes before [i] stored their vectors. *)
Definition stored_index (n i k : nat) : Prop :=
  exists c r, (c < i)%nat /\ (c < r < n)%nat /\ k = (c + n * r)%nat.

Section Notions.

Context {R : Type} {RA : RealArith R}.

Local Open Scope real_scope.
Local Abbreviation Solver := (SymmetricEigensolver R).

(* ------------------------------------------------------------------ *)
(** *** The outer iteration of [Solve] *)

(** What [Solve] iterates on: the solver after the copy of the input,
    [Tridiagonalize] and [mGivens.clear()]. *)
Definition tridiagonal_form (input : list R) (st : Solver) : Solver :=
  clear_givens (Tridiagonalize (load_input input (set_type (-1) st))).

(** One pass of the outer loop that does not converge. *)
Definition qr_step (st : Solver) : Solver :=
  let '(imin, imax) := find_block st in DoQRImplicitShift imin imax st.

(** The scan found no unreduced block. *)
Definition converged (st : Solver) : bool := (snd (find_block st) =? -1)%Z.

Definition after_steps (k : nat) (st : Solver) : Solver := Nat.iter k qr_step st.

(** The superdiagonal entry [i] is absorbed by its diagonal neighbours:
    [|diag[i]| + |diag[i+1]| + |superdiag[i]|] compares equal to
    [|diag[i]| + |diag[i+1]|]. *)
Definition absorbed (Dg Sp : list R) (i : nat) : bool :=
  Reqb (Radd (Radd (Rfabs (rd Dg i)) (Rfabs (rd Dg (i + 1)))) (Rfabs (rd Sp i)))
       (Radd (Rfabs (rd Dg i)) (Rfabs (rd Dg (i + 1)))).

(* ------------------------------------------------------------------ *)
(** *** Solvers the constructor can have made *)

(** A solver that is not inert: [size > 1], [maxIterations] a positive
    [uint32_t], and every buffer of the length the constructor gave it.
    The size is at most [46340], the largest [N] whose [N * N] is an
    [int32_t]: the getters and [Tridiagonalize] compute their row-major
    indices in [int32_t], and the indices of the model, which are natural
    numbers, are theirs up to that size. *)
Record wf (st : Solver) : Prop := {
  wf_size : (1 < mSize st)%Z;
  wf_iterations : (0 < mMaxIterations st <= 0xFFFFFFFF)%Z;
  wf_matrix : length (mMatrix st) = (Z.to_nat (mSize st) * Z.to_nat (mSize st))%nat;
  wf_diagonal : length (mDiagonal st) = Z.to_nat (mSize st);
  wf_superdiagonal : length (mSuperdiagonal st) = (Z.to_nat (mSize st) - 1)%nat;
  wf_permutation : length (mPermutation st) = Z.to_nat (mSize st);
  wf_visited : length (mVisited st) = Z.to_nat (mSize st);
  wf_pvector : length (mPVector st) = Z.to_nat (mSize st);
  wf_vvector : length (mVVector st) = Z.to_nat (mSize st);
  wf_wvector : length (mWVector st) = Z.to_nat (mSize st);
  wf_bound : (mSize st <= 46340)%Z
}.

(* ------------------------------------------------------------------ *)
(** *** The eigenvector paths as functions of the index *)

(** A vector read as a function of the index. *)
Definition vec : Type := nat -> R.

(** The [p]-th Euclidean basis vector. *)
Definition basis_f (p : nat) : vec := fun r => if (r =? p)%nat then R1 else R0.

(** [givens_unwind] on a vector. *)
Definition unwind_f (g : GivensRotation R) (x : vec) : vec :=
  let k := Z.to_nat (index g) in
  fun r =>
    if (r =? k)%nat then cs g * x k + sn g * x (k + 1)%nat
    else if (r =? k + 1)%nat then (- sn g) * x k + cs g * x (k + 1)%nat
    else x r.

(** The scalar [s] of [reflect] before it is scaled. *)
Definition dot_tail (n : nat) (M : list R) (i : nat) (x : vec) : R :=
  for_up (i + 2) n (fun j s => s + x j * rd M (i + n * j)%nat) (x (i + 1)%nat).

(** [reflect] on a vector of length [n]. *)
Definition refl_f (n : nat) (M : list R) (i : nat) (x : vec) : vec :=
  fun r =>
    let s := dot_tail n M i x * rd M (i + n * (i + 1))%nat in
    if (n <=? r)%nat then x r
    else if (r <=? i)%nat then x r
    else if (r =? i + 1)%nat then x r - s
    else x r - s * rd M (i + n * r)%nat.

(** The reflections of columns [m - 1] down to [0]. *)
Definition house_f (n : nat) (M : list R) (m : nat) (x : vec) : vec :=
  for_down 0 m (refl_f n M) x.

(** The logged rotations undone from the last to the first. *)
Definition unwind_all (G : list (GivensRotation R)) (x : vec) : vec :=
  fold_left (fun x g => unwind_f g x) (rev G) x.

(** The single-vector path: rotations undone, then reflections. *)
Definition single_f (n : nat) (M : list R) (G : list (GivensRotation R))
    (x : vec) : vec :=
  house_f n M (n - 2) (unwind_all G x).

(** A rotation the log can hold for size [n]. *)
Definition givens_in_range (n : nat) (g : GivensRotation R) : Prop :=
  (0 <= index g)%Z /\ (Z.to_nat (index g) + 1 < n)%nat.

Definition extensional (T : vec -> vec) : Prop :=
  forall x y, (forall r, x r = y r) -> forall r, T x r = T y r.

Definition linear (T : vec -> vec) : Prop :=
  forall a b x y r,
    T (fun k => a * x k + b * y k) r = a * T x r + b * T y r.

(** The vector [x] points to. *)
Definition current_x (b : list R * list R * bool) : list R :=
  let '(ev, pv, swapped) := b in if swapped then pv else ev.

Definition both_length (n : nat) (b : list R * list R * bool) : Prop :=
  let '(ev, pv, _) := b in length ev = n /\ length pv = n.

(** The column [GetEigenvector] starts from. *)
Definition stored_column (st : Solver) (c : Z) : nat :=
  if (rdz (mPermutation st) 0 >=? 0)%Z
  then Z.to_nat (rdz (mPermutation st) (Z.to_nat c))
  else Z.to_nat c.

(** The vector [v] of the reflection stored in column [i]. *)
Definition vv_f (n : nat) (M : list R) (i : nat) : nat -> R :=
  fun r =>
    if (n <=? r)%nat then R0
    else if (r <=? i)%nat then R0
    else if (r =? i + 1)%nat then R1
    else rd M (i + n * r)%nat.

(** [Dot(v, x)] as [GetEigenvectors] sums it. *)
Definition wdot_f (n : nat) (M : list R) (i : nat) (x : nat -> R) : R :=
  for_up (i + 1) n (fun k acc => acc + vv_f n M i k * x k) R0.

(** One pass of the backward accumulation on a column [x] of [Q]. *)
Definition accum_f (n : nat) (M : list R) (i : nat) (x : nat -> R) : nat -> R :=
  fun r =>
    if (n <=? r)%nat then x r
    else if (i + 1 <=? r)%nat
         then x r - vv_f n M i r * (wdot_f n M i x * rd M (i + n * (i + 1))%nat)
         else x r.

(** The rotation [g] on the columns of [Q], at row [r]. *)
Definition givens_f (g : GivensRotation R) (E : nat -> nat -> R) : nat -> nat -> R :=
  let k := Z.to_nat (index g) in
  fun c r =>
    if (c =? k)%nat then cs g * E k r - sn g * E (k + 1)%nat r
    else if (c =? k + 1)%nat then sn g * E k r + cs g * E (k + 1)%nat r
    else E c r.

(** Entry [(r, c)] of the row-major [n x n] buffer [E]: column [c],
    row [r]. *)
Definition entry (n : nat) (E : list R) (c r : nat) : R := rd E (c + n * r)%nat.

(* ------------------------------------------------------------------ *)
(** *** The column permutation of [GetEigenvectors] *)

(** The cycle walk from [i] on the buffer [E] with the flags [visited],
    after [m] passes: the first [m] columns of the walk hold their
    successors and are marked. *)
Definition walked (n : nat) (perm : list Z) (i : nat) (E : list R) (visited : list Z)
    (m : nat) (s : list R * list Z * Z) : Prop :=
  let '(Em, vm, _) := s in
  length Em = (n * n)%nat /\ length vm = n /\
  (forall c r, (c < n)%nat -> (r < n)%nat ->
     entry n Em c r = if in_orbit perm i m c then entry n E (perm_at perm c) r
                      else entry n E c r) /\
  (forall c, (c < n)%nat ->
     rdz vm c = if in_orbit perm i m c then 1%Z else rdz visited c).

(** The state of the column loop on the buffer [E0] before index [i0]:
    the visited columns are whole cycles and hold their final content,
    the others are untouched, and every index below [i0] is visited or
    fixed. *)
Definition permuted_upto (n : nat) (perm : list Z) (E0 : list R) (i0 : nat)
    (s : list R * list Z * list R * Z) : Prop :=
  let '(E, v, P, _) := s in
  length E = (n * n)%nat /\ length v = n /\ length P = n /\
  (forall c, (c < n)%nat -> rdz v c = 0%Z ->
     forall r, (r < n)%nat -> entry n E c r = entry n E0 c r) /\
  (forall c, (c < n)%nat -> rdz v c <> 0%Z ->
     forall r, (r < n)%nat -> entry n E c r = entry n E0 (perm_at perm c) r) /\
  (forall c, (c < n)%nat -> rdz v c = 0%Z <-> rdz v (perm_at perm c) = 0%Z) /\
  (forall c, (c < i0)%nat -> rdz v c <> 0%Z \/ perm_at perm c = c).

(** The state of the column loop up to what [mPVector] held. *)
Definition same_but_saved (n : nat)
    (a b : list R * list Z * list R * Z) : Prop :=
  let '(E1, v1, P1, t1) := a in
  let '(E2, v2, P2, t2) := b in
  E1 = E2 /\ v1 = v2 /\ t1 = t2 /\ length P1 = n /\ length P2 = n.

(* ------------------------------------------------------------------ *)
(** *** The passes of [Tridiagonalize] and what they read *)

(** Two buffers of one length that hold the same values at the indices
    in [A]. *)
Definition agree_on (A : nat -> Prop) (M1 M2 : list R) : Prop :=
  length M1 = length M2 /\ forall k, A k -> rd M1 k = rd M2 k.

(** The first two loops of a pass: the vector read from row [i] and the
    sum of its squares. *)
Definition tri_vector (n i : nat) (M V : list R) : list R * R :=
  for_up (S i) n
    (fun r '(V, len) =>
       let vr := rd M (r + n * i)%nat in
       (upd V r vr, len + vr * vr))
    (for_up 0 (S i) (fun r V => upd V r R0) V, R0).

(** The guarded normalisation: the vector and [Dot(v, v)]. *)
Definition tri_normalize (n i : nat) (Vl : list R * R) : list R * R :=
  let '(V, length) := Vl in
  let length := Rsqrt length in
  if Rgtb length R0 then
    let v1 := rd V (S i) in
    let sgn := if Rgeb v1 R0 then R1 else Rneg1 in
    let invDenom := R1 / (v1 + sgn * length) in
    let V := upd V (S i) R1 in
    for_up (S (S i)) n
      (fun r '(V, vdv) =>
         let vr := rd V r * invDenom in
         (upd V r vr, vdv + vr * vr))
      (V, R1)
  else (V, R1).

(** The loop that fills [mPVector] and sums [pdvtvdv]. *)
Definition tri_p (n i : nat) (M V : list R) (twoinvvdv : R) (P : list R) : list R * R :=
  for_up i n
    (fun r '(P, pdv) =>
       let P := upd P r R0 in
       let P := for_up i r
                  (fun c P => upd P r (rd P r + rd M (r + n * c)%nat * rd V c)) P in
       let P := for_up r n
                  (fun c P => upd P r (rd P r + rd M (c + n * r)%nat * rd V c)) P in
       let P := upd P r (rd P r * twoinvvdv) in
       (P, pdv + rd P r * rd V r))
    (P, R0).

(** The loop that fills [mWVector]. *)
Definition tri_w (n i : nat) (V P : list R) (pdvtvdv : R) (W : list R) : list R :=
  for_up i n (fun r W => upd W r (rd P r - pdvtvdv * rd V r)) W.

(** The rank-2 update of the matrix. *)
Definition tri_update (n i : nat) (V W M : list R) : list R :=
  for_up i n
    (fun r M =>
       let vr := rd V r in
       let wr := rd W r in
       let offset := vr * wr * R2 in
       let M := upd M (r + n * r)%nat (rd M (r + n * r)%nat - offset) in
       for_up (S r) n
         (fun c M =>
            let offset := vr * rd W c + wr * rd V c in
            upd M (c + n * r)%nat (rd M (c + n * r)%nat - offset))
         M)
    M.

(** The vector stored in column [i]. *)
Definition tri_store (n i : nat) (V : list R) (twoinvvdv : R) (M : list R) : list R :=
  for_up (S (S i)) n (fun r M => upd M (i + n * r)%nat (rd V r))
         (upd M (i + n * S i)%nat twoinvvdv).

(* ------------------------------------------------------------------ *)
(** *** What [Solve] leaves for the getters *)

(** The four buffers of [Tridiagonalize] keep their lengths. *)
Definition same_lengths (b b' : list R * list R * list R * list R) : Prop :=
  let '(M, V, P, W) := b in
  let '(M', V', P', W') := b' in
  length M' = length M /\ length V' = length V /\
  length P' = length P /\ length W' = length W.

(** The solver a convergent [Solve] returns, as the getters need it
    (of a size within the [int32_t] indices, as for [wf]). *)
Record solved (n : nat) (st : Solver) : Prop := {
  solved_size : mSize st = Z.of_nat n;
  solved_order : (2 <= n)%nat;
  solved_givens : Forall (givens_in_range n) (mGivens st);
  solved_pvector : length (mPVector st) = n;
  solved_vvector : length (mVVector st) = n;
  solved_wvector : length (mWVector st) = n;
  solved_visited : length (mVisited st) = n;
  solved_permutation :
    (rdz (mPermutation st) 0 < 0)%Z \/ is_permutation n (mPermutation st);
  solved_bound : (Z.of_nat n <= 46340)%Z
}.

(* ------------------------------------------------------------------ *)
(** *** Rows that are zero right of the diagonal *)

(** The arithmetic of the constants that a pass meets on a row that is
    zero right of the diagonal.  Exact arithmetic has it, and so has
    IEEE arithmetic. *)
Record zero_arith : Prop := {
  za_mul : R0 * R0 = R0;
  za_add : R0 + R0 = R0;
  za_sub : R0 - R0 = R0;
  za_mul_one : R0 * R1 = R0;
  za_mul_two : R0 * R2 = R0;
  za_one : R1 / R1 = R1;
  za_two : R1 * R2 = R2;
  za_sqrt : Rsqrt R0 = R0;
  za_lt : Rltb R0 R0 = false
}.

(** A number that zero leaves alone: [0 + x * 0 = 0] and [x - 0 = x].
    Every number of exact arithmetic is one; in IEEE arithmetic the
    finite numbers are. *)
Definition ordinary (x : R) : Prop := R0 + x * R0 = R0 /\ x - R0 = x.

(** A zero between the diagonal entries [a] and [b] passes the
    convergence test. *)
Definition settled (a b : R) : Prop := absorbed [a; b] [R0] 0 = true.

End Notions.

(* ------------------------------------------------------------------ *)
(** *** The round-trip error, evaluated exactly *)

(** The rational a finite double stands for. *)
Definition float_to_Q (f : float) : Q :=
  match Prim2SF f with
  | S754_finite s m e =>
      let mag := match e with
                 | Z0 => inject_Z (Zpos m)
                 | Zpos p => inject_Z (Zpos m * 2 ^ Zpos p)
                 | Zneg p => Zpos m # (2 ^ p)
                 end in
      if s then Qopp mag else mag
  | _ => 0%Q
  end.

(** Entry [(r, c)] of a row-major [n x n] matrix of rationals. *)
Definition qentry (n : nat) (M : list Q) (r c : nat) : Q := nth (c + n * r) M 0%Q.

Definition qsum (n : nat) (f : nat -> Q) : Q :=
  fold_left Qplus (map f (seq 0 n)) 0%Q.

(** [E = Q^T * A * Q - D] at [(r, c)]. *)
Definition roundtrip_error (n : nat) (A Qm D : list Q) (r c : nat) : Q :=
  (qsum n (fun a => qsum n (fun b => qentry n Qm a r * qentry n A a b * qentry n Qm b c))
   - (if (r =? c)%nat then nth r D 0 else 0))%Q.

(** The square of the Frobenius norm. *)
Definition frobenius_sq (n : nat) (f : nat -> nat -> Q) : Q :=
  qsum n (fun r => qsum n (fun c => f r c * f r c)%Q).

(** The unit roundoff of binary64, as the source gives it: [2^-52]. *)
Definition unit_roundoff : Q := 1 # (2 ^ 52).

(* ------------------------------------------------------------------ *)
(** *** The inputs of the runs *)

Module Inputs.

Local Open Scope float_scope.

(** The matrix [[2, 1], [1, 2]], row-major. *)
Definition A2 : list float := [2; 1; 1; 2].

(** The diagonal matrix [[3, 0], [0, 1]]. *)
Definition D2 : list float := [3; 0; 0; 1].

Definition solver2 : SymmetricEigensolver float := construct 2 32.

(** [solver2] after [Solve(A2, 0)], which converges in one pass. *)
Definition solved2 : SymmetricEigensolver float :=
  fst (Solve insertion_sort A2 0 solver2).

(** A budget of one pass: [A2] needs a QR step, so [Solve] cannot
    converge on it. *)
Definition solver2_once : SymmetricEigensolver float := construct 2 1.

(** The identity matrix: two equal eigenvalues. *)
Definition I2 : list float := [1; 0; 0; 1].

(** A full [3 x 3] matrix. *)
Definition A3 : list float := [4; 1; 2; 1; 3; 0.5; 2; 0.5; 1].

Definition solver3 : SymmetricEigensolver float := construct 3 32.

(** A matrix with a zero first column below the diagonal:
    [[1, 0, 0], [0, 2, 1], [0, 1, 3]], of Frobenius norm [4]. *)
Definition B3 : list float := [1; 0; 0; 0; 2; 1; 0; 1; 3].

Definition exact_list (l : list Z) : list Qc := map (fun z => Q2Qc (inject_Z z)) l.

(** [[5, 0, 0], [0, 2, 1], [0, 1, 2]]: the iteration deflates it exactly
    in one pass. *)
Definition C3 : list Qc := exact_list [5; 0; 0; 0; 2; 1; 0; 1; 2]%Z.

Definition exact_solver3 : SymmetricEigensolver Qc := construct 3 32.

(** [A3] with other entries below the diagonal. *)
Definition A3_lower : list float := [4; 1; 2; 9; 3; 0.5; 9; 9; 1].

(** The diagonal matrix [diag(3, 1, 2)]. *)
Definition D3 : list float := [3; 0; 0; 0; 1; 0; 0; 0; 2].

(** A solver of the size of [solver3] with twice its budget. *)
Definition roomy_solver3 : SymmetricEigensolver float := construct 3 64.

(** The [20 x 20] identity matrix: twenty equal eigenvalues. *)
Definition I20 : list float :=
  flat_map (fun r => map (fun c => if (r =? c)%nat then 1 else 0) (seq 0 20)) (seq 0 20).

Definition solver20 : SymmetricEigensolver float := construct 20 32.

(** An allocator that grants a vector of at most [cap] elements and
    keeps no account of the heap. *)
Definition capped (cap : Z) : allocator unit :=
  fun r _ =>
    let count := match r with reals c | rotations c | ints c => c end in
    if (count <=? cap)%Z then Some tt else None.

End Inputs.

(* ================================================================== *)
(** ** Buffers and loops: basic facts *)

Lemma length_upd {A} (v : list A) i x : length (upd v i x) = length v.
Proof.
  revert i; induction v as [|a t IH]; intros [|j]; simpl; auto.
Qed.

Lemma nth_upd_eq {A} (v : list A) i x d :
  (i < length v)%nat -> nth i (upd v i x) d = x.
Proof.
  revert i; induction v as [|a t IH]; intros [|j] Hi; simpl in *; try lia; auto.
  apply IH; lia.
Qed.

Lemma nth_upd_ne {A} (v : list A) i j x d :
  i <> j -> nth j (upd v i x) d = nth j v d.
Proof.
  revert i j; induction v as [|a t IH]; intros [|i] [|j] Hij; simpl;
    try congruence; auto.
Qed.

Lemma upd_out_of_range {A} (v : list A) i x :
  (length v <= i)%nat -> upd v i x = v.
Proof.
  revert i; induction v as [|a t IH]; intros [|j] Hi; simpl in *; try lia; auto.
  f_equal; apply IH; lia.
Qed.

Lemma for_up_nil {S} lo hi (body : nat -> S -> S) s :
  (hi <= lo)%nat -> for_up lo hi body s = s.
Proof.
  intros Hle; unfold for_up.
  replace (hi - lo)%nat with 0%nat by lia; reflexivity.
Qed.

Lemma for_up_snoc {S} lo hi (body : nat -> S -> S) s :
  (lo <= hi)%nat ->
  for_up lo (Datatypes.S hi) body s = body hi (for_up lo hi body s).
Proof.
  intros Hle; unfold for_up.
  replace (Datatypes.S hi - lo)%nat with (Datatypes.S (hi - lo)) by lia.
  rewrite seq_S, fold_left_app; simpl.
  replace (lo + (hi - lo))%nat with hi by lia; reflexivity.
Qed.

Lemma for_up_cons {S} lo hi (body : nat -> S -> S) s :
  (lo < hi)%nat ->
  for_up lo hi body s = for_up (Datatypes.S lo) hi body (body lo s).
Proof.
  intros Hlt; unfold for_up.
  replace (hi - lo)%nat with (Datatypes.S (hi - Datatypes.S lo)) by lia.
  reflexivity.
Qed.

(** The invariant rule of an upward loop. *)
Lemma for_up_inv {S} (P : nat -> S -> Prop) lo hi (body : nat -> S -> S) s :
  (lo <= hi)%nat ->
  P lo s ->
  (forall i s, (lo <= i < hi)%nat -> P i s -> P (Datatypes.S i) (body i s)) ->
  P hi (for_up lo hi body s).
Proof.
  intros Hle H0 Hstep.
  induction hi as [|hi IH].
  - assert (lo = 0)%nat by lia; subst; rewrite for_up_nil by lia; exact H0.
  - destruct (Nat.eq_dec lo (Datatypes.S hi)) as [->|Hne].
    + rewrite for_up_nil by lia; exact H0.
    + rewrite for_up_snoc by lia.
      apply Hstep; [lia|].
      apply IH; [lia|].
      intros i s' Hi; apply Hstep; lia.
Qed.

(** An invariant that does not mention the index. *)
Lemma for_up_preserves {S} (P : S -> Prop) lo hi (body : nat -> S -> S) s :
  P s -> (forall i s, (lo <= i < hi)%nat -> P s -> P (body i s)) ->
  P (for_up lo hi body s).
Proof.
  intros H0 Hstep.
  destruct (Nat.le_gt_cases lo hi) as [Hle|Hgt].
  - apply (for_up_inv (fun _ => P)); auto.
  - rewrite for_up_nil by lia; exact H0.
Qed.

Lemma for_down_snoc {S} lo hi (body : nat -> S -> S) s :
  (lo <= hi)%nat ->
  for_down lo (Datatypes.S hi) body s = for_down lo hi body (body hi s).
Proof.
  intros Hle; unfold for_down.
  replace (Datatypes.S hi - lo)%nat with (Datatypes.S (hi - lo)) by lia.
  rewrite seq_S, rev_app_distr; simpl.
  replace (lo + (hi - lo))%nat with hi by lia; reflexivity.
Qed.

Lemma for_down_nil {S} lo hi (body : nat -> S -> S) s :
  (hi <= lo)%nat -> for_down lo hi body s = s.
Proof.
  intros Hle; unfold for_down.
  replace (hi - lo)%nat with 0%nat by lia; reflexivity.
Qed.

Lemma for_down_preserves {S} (P : S -> Prop) lo hi (body : nat -> S -> S) s :
  P s -> (forall i s, (lo <= i < hi)%nat -> P s -> P (body i s)) ->
  P (for_down lo hi body s).
Proof.
  intros H0 Hstep; revert s H0.
  induction hi as [|hi IH]; intros s H0.
  - rewrite for_down_nil by lia; exact H0.
  - destruct (Nat.le_gt_cases lo hi) as [Hle|Hgt].
    + rewrite for_down_snoc by lia.
      apply IH; [intros; apply Hstep; auto; lia|].
      apply Hstep; [lia|exact H0].
    + rewrite for_down_nil by lia; exact H0.
Qed.

Lemma Zland_1_mod (z : Z) : Z.land z 1 = z mod 2.
Proof. change 1 with (Z.ones 1); rewrite Z.land_ones by lia; reflexivity. Qed.

(* ================================================================== *)
(** ** The outer iteration of [Solve] *)

Section Iteration.

Context {R : Type} {RA : RealArith R}.
Variable std_sort : sorter (SortItem R).

Local Abbreviation Solver := (SymmetricEigensolver R).

Lemma unreduced_absorbed Dg Sp i : unreduced Dg Sp i = negb (absorbed Dg Sp i).
Proof. reflexivity. Qed.

Lemma Tridiagonalize_frame (st : Solver) :
  mSize (Tridiagonalize st) = mSize st /\
  mMaxIterations (Tridiagonalize st) = mMaxIterations st /\
  mGivens (Tridiagonalize st) = mGivens st /\
  mPermutation (Tridiagonalize st) = mPermutation st /\
  mVisited (Tridiagonalize st) = mVisited st /\
  mEigenvectorMatrixType (Tridiagonalize st) = mEigenvectorMatrixType st.
Proof.
  unfold Tridiagonalize.
  destruct (for_up _ _ _ _) as [[[M V] P] W].
  destruct (copy_bands _ _ _ _) as [Dg Sp].
  simpl; auto 10.
Qed.

Lemma qr_step_frame (st : Solver) :
  mSize (qr_step st) = mSize st /\
  mMaxIterations (qr_step st) = mMaxIterations st /\
  mMatrix (qr_step st) = mMatrix st /\
  mPermutation (qr_step st) = mPermutation st /\
  mVisited (qr_step st) = mVisited st /\
  mEigenvectorMatrixType (qr_step st) = mEigenvectorMatrixType st.
Proof.
  unfold qr_step; destruct (find_block st) as [imin imax].
  simpl; auto 10.
Qed.

Lemma after_steps_frame k (st : Solver) :
  mSize (after_steps k st) = mSize st /\
  mMaxIterations (after_steps k st) = mMaxIterations st /\
  mMatrix (after_steps k st) = mMatrix st /\
  mPermutation (after_steps k st) = mPermutation st /\
  mVisited (after_steps k st) = mVisited st /\
  mEigenvectorMatrixType (after_steps k st) = mEigenvectorMatrixType st.
Proof.
  induction k as [|k IH]; [simpl; auto 10|].
  unfold after_steps in *; simpl.
  destruct (qr_step_frame (Nat.iter k qr_step st)) as (a & b & c & d & e & f).
  destruct IH as (a' & b' & c' & d' & e' & f').
  repeat split; congruence.
Qed.

Lemma after_steps_succ k (st : Solver) :
  after_steps (S k) st = after_steps k (qr_step st).
Proof. unfold after_steps; apply Nat.iter_succ_r. Qed.

Lemma tridiagonal_form_frame input (st : Solver) :
  mSize (tridiagonal_form input st) = mSize st /\
  mMaxIterations (tridiagonal_form input st) = mMaxIterations st /\
  mGivens (tridiagonal_form input st) = [] /\
  mPermutation (tridiagonal_form input st) = mPermutation st /\
  mVisited (tridiagonal_form input st) = mVisited st /\
  mEigenvectorMatrixType (tridiagonal_form input st) = (-1)%Z.
Proof.
  unfold tridiagonal_form.
  destruct (Tridiagonalize_frame (load_input input (set_type (-1) st)))
    as (a & b & c & d & e & f).
  simpl; rewrite a, b, d, e, f; simpl; auto 10.
Qed.

(** One pass of the outer loop, read off the definition. *)
Lemma qr_iterate_pass budget j sortType (st : Solver) :
  qr_iterate std_sort (S budget) j sortType st =
  if converged st then (ComputePermutation std_sort sortType st, j)
  else qr_iterate std_sort budget (j + 1) sortType (qr_step st).
Proof.
  unfold converged, qr_step; simpl.
  destruct (find_block st) as [imin imax]; reflexivity.
Qed.

(** The outer loop either stops at the first pass [k] whose scan finds
    nothing to reduce, or uses up its budget. *)
Lemma qr_iterate_spec budget : forall j sortType (st : Solver),
  (exists k, (k < budget)%nat /\
     qr_iterate std_sort budget j sortType st =
       (ComputePermutation std_sort sortType (after_steps k st), (j + Z.of_nat k)%Z) /\
     converged (after_steps k st) = true /\
     forall i, (i < k)%nat -> converged (after_steps i st) = false)
  \/
  (qr_iterate std_sort budget j sortType st = (after_steps budget st, NOT_CONVERGED) /\
   forall i, (i < budget)%nat -> converged (after_steps i st) = false).
Proof.
  induction budget as [|b IH]; intros j sortType st.
  - right; split; [reflexivity|intros; lia].
  - rewrite qr_iterate_pass.
    destruct (converged st) eqn:Hc.
    + left; exists 0%nat; repeat split; try lia.
      * simpl; rewrite Z.add_0_r; reflexivity.
      * exact Hc.
    + destruct (IH (j + 1)%Z sortType (qr_step st))
        as [(k & Hk & Heq & Hck & Hbefore)|(Heq & Hnever)].
      * left; exists (S k); repeat split; try lia.
        -- rewrite Heq, after_steps_succ; f_equal; lia.
        -- rewrite after_steps_succ; exact Hck.
        -- intros [|i] Hi; [exact Hc|].
           rewrite after_steps_succ; apply Hbefore; lia.
      * right; split.
        -- rewrite Heq, after_steps_succ; reflexivity.
        -- intros [|i] Hi; [exact Hc|].
           rewrite after_steps_succ; apply Hnever; lia.
Qed.

Lemma Solve_unfold input sortType (st : Solver) :
  (0 < mSize st)%Z ->
  Solve std_sort input sortType st =
  qr_iterate std_sort (Z.to_nat (mMaxIterations st)) 0 sortType
             (tridiagonal_form input st).
Proof.
  intros Hpos; unfold Solve.
  replace (mSize (set_type (-1) st) >? 0)%Z with true
    by (simpl; symmetry; apply Z.gtb_lt; lia).
  unfold tridiagonal_form.
  destruct (Tridiagonalize_frame (load_input input (set_type (-1) st)))
    as (_ & b & _).
  simpl; rewrite b; reflexivity.
Qed.

Lemma Solve_inert input sortType (st : Solver) :
  (mSize st <= 0)%Z -> mEigenvectorMatrixType st = (-1)%Z ->
  Solve std_sort input sortType st = (st, 0%Z).
Proof.
  intros Hsz Hty; unfold Solve.
  replace (mSize (set_type (-1) st) >? 0)%Z with false
    by (simpl; symmetry; rewrite Z.gtb_ltb; apply Z.ltb_ge; lia).
  destruct st; simpl in *; subst; reflexivity.
Qed.

Lemma construct_inert (size maxIterations : Z) :
  (size <= 1 \/ maxIterations <= 0)%Z ->
  mSize (construct (R:=R) size maxIterations) = 0%Z /\
  mEigenvectorMatrixType (construct (R:=R) size maxIterations) = (-1)%Z.
Proof.
  intros Hin; unfold construct.
  destruct ((size >? 1)%Z && (maxIterations >? 0)%Z) eqn:Hg; simpl; auto.
  apply andb_true_iff in Hg; destruct Hg as [H1 H2].
  apply Z.gtb_lt in H1; apply Z.gtb_lt in H2; lia.
Qed.

(* ------------------------------------------------------------------ *)
(** *** What the scan finds *)

Lemma rev_seq_S m : rev (seq 0 (S m)) = m :: rev (seq 0 m).
Proof. rewrite seq_S, rev_app_distr; reflexivity. Qed.

(** Once a block has been entered, the scan extends it downwards to the
    first absorbed entry. *)
Lemma scan_block_run (Dg Sp : list R) (hi : nat) : forall m imin imax,
  scan_block Dg Sp (rev (seq 0 m)) (Z.of_nat m) (Z.of_nat hi) = (imin, imax) ->
  imax = Z.of_nat hi /\
  exists lo, imin = Z.of_nat lo /\ (lo <= m)%nat /\
    (forall i, (lo <= i < m)%nat -> unreduced Dg Sp i = true) /\
    (lo = 0%nat \/ unreduced Dg Sp (lo - 1) = false).
Proof.
  induction m as [|m IH]; intros imin imax Hscan.
  - simpl in Hscan; inversion Hscan; subst.
    split; [reflexivity|].
    exists 0%nat; repeat split; auto; intros; lia.
  - rewrite rev_seq_S in Hscan; simpl in Hscan.
    destruct (unreduced Dg Sp m) eqn:Hu.
    + replace (Z.of_nat hi =? -1)%Z with false in Hscan
        by (symmetry; apply Z.eqb_neq; lia).
      destruct (IH _ _ Hscan) as (Hmax & lo & Hlo & Hle & Hrun & Hstop).
      split; [exact Hmax|].
      exists lo; repeat split; auto.
      intros i Hi; destruct (Nat.eq_dec i m) as [->|Hne]; [exact Hu|].
      apply Hrun; lia.
    + replace (Z.of_nat (S m) >=? 0)%Z with true in Hscan
        by (symmetry; apply Z.geb_le; lia).
      inversion Hscan; subst.
      split; [reflexivity|].
      exists (S m); repeat split; auto; [intros; lia|].
      right; simpl; rewrite Nat.sub_0_r; exact Hu.
Qed.

(** The scan from the bottom-right corner: nothing to reduce, or the
    lowest unreduced block [lo .. hi]. *)
Lemma scan_block_fresh (Dg Sp : list R) : forall m imin imax,
  scan_block Dg Sp (rev (seq 0 m)) (-1) (-1) = (imin, imax) ->
  (imax = (-1)%Z /\ imin = (-1)%Z /\
     forall i, (i < m)%nat -> unreduced Dg Sp i = false)
  \/
  (exists lo hi, imin = Z.of_nat lo /\ imax = Z.of_nat hi /\
     (lo <= hi < m)%nat /\
     (forall i, (hi < i < m)%nat -> unreduced Dg Sp i = false) /\
     (forall i, (lo <= i <= hi)%nat -> unreduced Dg Sp i = true) /\
     (lo = 0%nat \/ unreduced Dg Sp (lo - 1) = false)).
Proof.
  induction m as [|m IH]; intros imin imax Hscan.
  - simpl in Hscan; inversion Hscan; subst.
    left; repeat split; intros; lia.
  - rewrite rev_seq_S in Hscan; simpl in Hscan.
    destruct (unreduced Dg Sp m) eqn:Hu.
    + destruct (scan_block_run _ _ _ _ _ _ Hscan)
        as (Hmax & lo & Hlo & Hle & Hrun & Hstop).
      right; exists lo, m; repeat split; auto; try lia.
      intros i Hi; destruct (Nat.eq_dec i m) as [->|Hne]; [exact Hu|].
      apply Hrun; lia.
    + destruct (IH _ _ Hscan)
        as [(Hmax & Hmin & Hall)|(lo & hi & Hlo & Hhi & Hle & Habove & Hrun & Hstop)].
      * left; repeat split; auto.
        intros i Hi; destruct (Nat.eq_dec i m) as [->|Hne]; [exact Hu|].
        apply Hall; lia.
      * right; exists lo, hi; repeat split; auto; try lia.
        intros i Hi; destruct (Nat.eq_dec i m) as [->|Hne]; [exact Hu|].
        apply Habove; lia.
Qed.

Lemma find_block_spec (st : Solver) :
  let n := Z.to_nat (mSize st) in
  let Dg := mDiagonal st in
  let Sp := mSuperdiagonal st in
  (find_block st = ((-1)%Z, (-1)%Z) /\
     forall i, (i < n - 1)%nat -> absorbed Dg Sp i = true)
  \/
  (exists lo hi, find_block st = (Z.of_nat lo, Z.of_nat hi) /\
     (lo <= hi < n - 1)%nat /\
     (forall i, (hi < i < n - 1)%nat -> absorbed Dg Sp i = true) /\
     (forall i, (lo <= i <= hi)%nat -> absorbed Dg Sp i = false) /\
     (lo = 0%nat \/ absorbed Dg Sp (lo - 1) = true)).
Proof.
  intros n Dg Sp.
  assert (Hneg : forall i b, unreduced Dg Sp i = negb b -> absorbed Dg Sp i = b).
  { intros i b Hb; rewrite unreduced_absorbed in Hb.
    destruct (absorbed Dg Sp i), b; simpl in Hb; congruence. }
  unfold find_block; fold n Dg Sp.
  destruct (scan_block Dg Sp (rev (seq 0 (n - 1))) (-1) (-1)) as [imin imax] eqn:Hscan.
  destruct (scan_block_fresh _ _ _ _ _ Hscan)
    as [(Hmax & Hmin & Hall)|(lo & hi & Hlo & Hhi & Hle & Habove & Hrun & Hstop)].
  - left; subst; split; [reflexivity|].
    intros i Hi; apply Hneg, Hall, Hi.
  - right; exists lo, hi; subst; repeat split; auto; try lia.
    destruct Hstop as [Hz|Hz]; [left; exact Hz|right; apply Hneg, Hz].
Qed.

Lemma converged_iff (st : Solver) :
  converged st = true <->
  forall i, (i < Z.to_nat (mSize st) - 1)%nat ->
    absorbed (mDiagonal st) (mSuperdiagonal st) i = true.
Proof.
  unfold converged.
  destruct (find_block_spec st) as [(Hfb & Hall)|(lo & hi & Hfb & Hle & _ & Hrun & _)];
    rewrite Hfb; simpl.
  - split; auto.
  - split.
    + intros Heq; apply Z.eqb_eq in Heq; lia.
    + intros Hall; specialize (Hall hi ltac:(lia)).
      rewrite (Hrun hi) in Hall by lia; discriminate.
Qed.

(* ------------------------------------------------------------------ *)
(** *** The two ways [Solve] ends on a solver that is not inert *)

Lemma Solve_cases input sortType (st : Solver) :
  (0 < mSize st)%Z ->
  let t := tridiagonal_form input st in
  let budget := Z.to_nat (mMaxIterations st) in
  (exists k, (k < budget)%nat /\
     Solve std_sort input sortType st =
       (ComputePermutation std_sort sortType (after_steps k t), Z.of_nat k) /\
     converged (after_steps k t) = true /\
     forall i, (i < k)%nat -> converged (after_steps i t) = false)
  \/
  (Solve std_sort input sortType st = (after_steps budget t, NOT_CONVERGED) /\
   forall i, (i < budget)%nat -> converged (after_steps i t) = false).
Proof.
  intros Hpos t budget.
  rewrite Solve_unfold by exact Hpos.
  exact (qr_iterate_spec budget 0 sortType t).
Qed.

(** C2. [Solve] returns the number of outer iterations it consumed when
    the scan finds every superdiagonal entry absorbed (a count below
    [maxIterations], hence never the sentinel), [0xFFFFFFFF] when all
    [maxIterations] passes ran without that, and [0], leaving the solver
    as it was, when the constructor made the solver inert. *)
Theorem Solve_return_value (input : list R) (sortType : Z) :
  (forall size maxIterations : Z,
     (size <= 1 \/ maxIterations = 0)%Z ->
     Solve std_sort input sortType (construct size maxIterations)
       = (construct size maxIterations, 0%Z))
  /\
  (forall st : Solver,
     (0 < mSize st)%Z -> (0 <= mMaxIterations st <= 0xFFFFFFFF)%Z ->
     let t := tridiagonal_form input st in
     let ret := snd (Solve std_sort input sortType st) in
     ((0 <= ret < mMaxIterations st)%Z /\ ret <> NOT_CONVERGED /\
        converged (after_steps (Z.to_nat ret) t) = true /\
        (forall k, (k < Z.to_nat ret)%nat -> converged (after_steps k t) = false))
     \/
     (ret = NOT_CONVERGED /\
        forall k, (Z.of_nat k < mMaxIterations st)%Z ->
          converged (after_steps k t) = false)).
Proof.
  split.
  - intros size maxIterations Hin.
    destruct (construct_inert size maxIterations) as [Hsz Hty]; [lia|].
    apply Solve_inert; [lia|exact Hty].
  - intros st Hpos Hrange t ret.
    destruct (Solve_cases input sortType st Hpos)
      as [(k & Hk & Heq & Hck & Hbefore)|(Heq & Hnever)]; fold t in Heq.
    + left; subst ret; rewrite Heq; simpl.
      rewrite Nat2Z.id.
      unfold NOT_CONVERGED; repeat split; auto; lia.
    + right; subst ret; rewrite Heq; simpl.
      split; [reflexivity|].
      intros k Hk; apply Hnever; lia.
Qed.

(** C10. [Solve] overwrites the type flag with [-1] before anything else
    (the flag it finds plays no part), leaves [-1] when the solver is
    inert or the sentinel is returned, and leaves [1 - (N mod 2)] when it
    converges, whatever [sortType] is. *)
Theorem Solve_sets_matrix_type (input : list R) (sortType : Z) (st : Solver) :
  (0 <= mMaxIterations st <= 0xFFFFFFFF)%Z ->
  let r := Solve std_sort input sortType st in
  r = Solve std_sort input sortType (set_type (-1) st) /\
  (snd r = NOT_CONVERGED -> GetEigenvectorMatrixType (fst r) = (-1)%Z) /\
  ((mSize st <= 0)%Z -> GetEigenvectorMatrixType (fst r) = (-1)%Z) /\
  ((0 < mSize st)%Z -> snd r <> NOT_CONVERGED ->
     GetEigenvectorMatrixType (fst r) = (1 - mSize st mod 2)%Z).
Proof.
  intros Hrange r.
  split; [reflexivity|].
  assert (Hinert : (mSize st <= 0)%Z ->
            GetEigenvectorMatrixType (fst r) = (-1)%Z /\ snd r = 0%Z).
  { intros Hsz; subst r; unfold Solve.
    replace (mSize (set_type (-1) st) >? 0)%Z with false
      by (simpl; symmetry; rewrite Z.gtb_ltb; apply Z.ltb_ge; lia).
    split; reflexivity. }
  destruct (Z.lt_ge_cases 0 (mSize st)) as [Hpos|Hsz].
  - destruct (Solve_cases input sortType st Hpos)
      as [(k & Hk & Heq & Hck & Hbefore)|(Heq & Hnever)]; subst r; rewrite Heq; simpl.
    + destruct (after_steps_frame k (tridiagonal_form input st)) as (a & _).
      destruct (tridiagonal_form_frame input st) as (a' & _).
      unfold NOT_CONVERGED, GetEigenvectorMatrixType; simpl.
      repeat split; intros; try lia.
      rewrite a, a', Zland_1_mod; reflexivity.
    + destruct (after_steps_frame (Z.to_nat (mMaxIterations st))
                  (tridiagonal_form input st)) as (_ & _ & _ & _ & _ & f).
      destruct (tridiagonal_form_frame input st) as (_ & _ & _ & _ & _ & f').
      unfold GetEigenvectorMatrixType.
      repeat split; intros; try lia; try congruence.
  - destruct (Hinert Hsz) as [Hty Hret].
    repeat split; intros; auto; try lia.
Qed.

(** C3. In a pass of the outer loop the superdiagonal entry [i] counts
    as zero exactly when it is absorbed by its diagonal neighbours; if
    that holds of every entry the loop returns the index [j] of the pass,
    and otherwise it applies [DoQRImplicitShift] once, to the lowest
    unreduced block [imin .. imax], and goes on with pass [j + 1]. *)
Theorem outer_pass_deflates_or_steps (sortType : Z) (budget : nat) (j : Z)
    (st : Solver) :
  let n := Z.to_nat (mSize st) in
  let Dg := mDiagonal st in
  let Sp := mSuperdiagonal st in
  (forall i, unreduced Dg Sp i = false <-> absorbed Dg Sp i = true) /\
  ((forall i, (i < n - 1)%nat -> absorbed Dg Sp i = true) ->
     qr_iterate std_sort (S budget) j sortType st
       = (ComputePermutation std_sort sortType st, j)) /\
  ((exists i, (i < n - 1)%nat /\ absorbed Dg Sp i = false) ->
     exists imin imax : nat,
       (imin <= imax < n - 1)%nat /\
       (forall i, (imax < i < n - 1)%nat -> absorbed Dg Sp i = true) /\
       (forall i, (imin <= i <= imax)%nat -> absorbed Dg Sp i = false) /\
       (imin = 0%nat \/ absorbed Dg Sp (imin - 1) = true) /\
       qr_iterate std_sort (S budget) j sortType st
         = qr_iterate std_sort budget (j + 1) sortType
             (DoQRImplicitShift (Z.of_nat imin) (Z.of_nat imax) st)).
Proof.
  intros n Dg Sp; repeat split.
  - rewrite unreduced_absorbed; destruct (absorbed Dg Sp i); simpl; congruence.
  - rewrite unreduced_absorbed; intros ->; reflexivity.
  - intros Hall; rewrite qr_iterate_pass.
    replace (converged st) with true
      by (symmetry; apply converged_iff; exact Hall).
    reflexivity.
  - intros (i & Hi & Hnot).
    destruct (find_block_spec st)
      as [(Hfb & Hall)|(lo & hi & Hfb & Hle & Habove & Hrun & Hstop)].
    + fold n Dg Sp in Hall; rewrite (Hall i Hi) in Hnot; discriminate.
    + exists lo, hi; repeat split; auto; try lia.
      rewrite qr_iterate_pass.
      unfold converged, qr_step; rewrite Hfb; simpl.
      replace (Z.of_nat hi =? -1)%Z with false
        by (symmetry; apply Z.eqb_neq; lia).
      reflexivity.
Qed.

End Iteration.

(* ================================================================== *)
(** ** Range checks and null buffers *)

Section Guards.

Context {R : Type} {RA : RealArith R}.

Local Abbreviation Solver := (SymmetricEigensolver R).

(** X1. [GetEigenvector] tests [c] before it touches anything: with an
    index outside [0, size) it returns at once, the buffer (null or not)
    and the solver as they were. *)
Theorem GetEigenvector_out_of_range (c : Z) (out : option (list R)) (st : Solver) :
  (c < 0 \/ mSize st <= c)%Z -> GetEigenvector c out st = Normal (out, st).
Proof.
  intros Hc; unfold GetEigenvector.
  replace ((0 <=? c)%Z && (c <? mSize st)%Z) with false; [reflexivity|].
  symmetry; apply andb_false_iff.
  destruct Hc; [left; apply Z.leb_gt|right; apply Z.ltb_ge]; lia.
Qed.

(** X2. [GetEigenvector] has no test of the pointer: with an index in
    [0, size) it writes through a null buffer. *)
Theorem GetEigenvector_null (c : Z) (st : Solver) :
  (0 <= c < mSize st)%Z -> GetEigenvector c None st = Fault.
Proof.
  intros Hc; unfold GetEigenvector.
  replace ((0 <=? c)%Z && (c <? mSize st)%Z) with true; [reflexivity|].
  symmetry; apply andb_true_iff; split; [apply Z.leb_le|apply Z.ltb_lt]; lia.
Qed.

Lemma checked_at_out_of_range {A} (v : list A) (i : Z) :
  (i < 0 \/ Z.of_nat (length v) <= i)%Z -> checked_at v i = Fault.
Proof.
  intros Hi; unfold checked_at.
  replace ((0 <=? i)%Z && (i <? Z.of_nat (length v))%Z) with false; [reflexivity|].
  symmetry; apply andb_false_iff.
  destruct Hi; [left; apply Z.leb_gt|right; apply Z.ltb_ge]; lia.
Qed.

(** X3. [GetEigenvalue] has no test of [c]: on a solver that is not
    inert an index outside [0, size) reaches [mPermutation] or
    [mDiagonal] outside the vector. *)
Theorem GetEigenvalue_unchecked (c : Z) (st : Solver) :
  (0 < mSize st)%Z ->
  Z.of_nat (length (mDiagonal st)) = mSize st ->
  Z.of_nat (length (mPermutation st)) = mSize st ->
  (c < 0 \/ mSize st <= c)%Z ->
  GetEigenvalue c st = Fault.
Proof.
  intros Hpos HD HP Hc; unfold GetEigenvalue.
  replace (mSize st >? 0)%Z with true by (symmetry; apply Z.gtb_lt; lia).
  destruct (rdz (mPermutation st) 0 >=? 0)%Z.
  - rewrite checked_at_out_of_range by lia; reflexivity.
  - apply checked_at_out_of_range; lia.
Qed.

(** C7 (as amended). With a null buffer [GetEigenvalues] does nothing,
    and [GetEigenvectors] writes no buffer and returns, leaving the
    solver as it was except for the type flag, which it sets to [-1]. *)
Theorem null_buffer_getters (st : Solver) :
  GetEigenvalues None st = None /\
  GetEigenvectors None st = Some (None, set_type (-1) st) /\
  GetEigenvectorMatrixType (set_type (-1) st) = (-1)%Z.
Proof. repeat split. Qed.

End Guards.

(* ================================================================== *)
(** ** Solvers the constructor can have made *)

Section WellFormed.

Context {R : Type} {RA : RealArith R}.

Local Abbreviation Solver := (SymmetricEigensolver R).

(** X4. A constructor call that returns, with [1 < size <= 46340] and a
    positive [maxIterations], has been granted every vector it asked
    for and gives a solver that keeps both arguments, has an empty
    rotation log and has every buffer of the length the source documents:
    [N * N] for the matrix, [N - 1] for the superdiagonal, [N] for the
    others.  When the allocator refuses the [maxIterations * (N - 1)]
    rotations of the [reserve], the constructor throws and there is no
    solver. *)
Theorem construct_wf {H} (alloc : allocator H) (size maxIterations : Z) (h : H) :
  (1 < size <= 46340)%Z -> (0 < maxIterations <= 0xFFFFFFFF)%Z ->
  (forall st h',
     construct_on (R:=R) alloc size maxIterations h = Some (st, h') ->
     allocate alloc (constructor_requests size maxIterations) h = Some h' /\
     mSize st = size /\ mMaxIterations st = maxIterations /\
     mGivens st = [] /\ wf st) /\
  ((forall h0, alloc (rotations (maxIterations * (size - 1))) h0 = None) ->
   construct_on (R:=R) alloc size maxIterations h = None).
Proof.
  intros Hs Hm; unfold construct_on.
  replace ((size >? 1)%Z && (maxIterations >? 0)%Z) with true
    by (symmetry; apply andb_true_iff; split; apply Z.gtb_lt; lia).
  split.
  - intros st h' Hbuilt.
    destruct (allocate alloc (constructor_requests size maxIterations) h) as [h1|];
      [|discriminate].
    injection Hbuilt as <- <-.
    split; [reflexivity|].
    unfold construct.
    replace ((size >? 1)%Z && (maxIterations >? 0)%Z) with true
      by (symmetry; apply andb_true_iff; split; apply Z.gtb_lt; lia).
    split; [reflexivity|split; [reflexivity|split; [reflexivity|]]].
    constructor; simpl; try rewrite repeat_length; auto; lia.
  - intros Hrefuse.
    unfold constructor_requests; simpl.
    destruct (alloc (reals (size * size)) h) as [h1|]; [|reflexivity].
    destruct (alloc (reals size) h1) as [h2|]; [|reflexivity].
    destruct (alloc (reals (size - 1)) h2) as [h3|]; [|reflexivity].
    rewrite Hrefuse; reflexivity.
Qed.

End WellFormed.

(* ================================================================== *)
(** ** The type of the eigenvector matrix *)

Section MatrixType.

Context {R : Type} {RA : RealArith R}.
Variable std_sort : sorter (SortItem R).

Local Abbreviation Solver := (SymmetricEigensolver R).

Lemma follow_succ_r perm k i :
  follow perm (S k) i = follow perm k (rdz perm (Z.to_nat i)).
Proof. unfold follow; apply Nat.iter_succ_r. Qed.

Lemma cycle_walk_pass fuel n perm start current (E : list R) visited ty :
  cycle_walk (S fuel) n perm start current (E, visited, ty) =
  if (rdz perm (Z.to_nat current) =? start)%Z
  then Some (current, (E, visited, ty))
  else cycle_walk fuel n perm start (rdz perm (Z.to_nat current))
         (for_up 0 n
            (fun j E => upd E (Z.to_nat current + n * j)%nat
                          (rd E (Z.to_nat (rdz perm (Z.to_nat current)) + n * j)%nat))
            E,
          upd visited (Z.to_nat current) 1%Z,
          flip_type ty).
Proof. reflexivity. Qed.

(** The [while] loop makes as many passes as there are steps from
    [current] before [start] comes next, and flips the flag in each. *)
Lemma cycle_walk_passes (n : nat) (perm : list Z) (start : Z) :
  forall m fuel current E visited ty,
    (forall k, (0 < k <= m)%nat -> follow perm k current <> start) ->
    follow perm (S m) current = start ->
    (m < fuel)%nat ->
    exists E' visited',
      cycle_walk fuel n perm start current (E, visited, ty)
        = Some (follow perm m current, (E', visited', Nat.iter m flip_type ty)).
Proof.
  induction m as [|m IH]; intros fuel current E visited ty Hbefore Hback Hfuel.
  - destruct fuel as [|fuel]; [lia|].
    rewrite cycle_walk_pass.
    replace (rdz perm (Z.to_nat current) =? start)%Z with true
      by (symmetry; apply Z.eqb_eq; exact Hback).
    simpl; eauto.
  - destruct fuel as [|fuel]; [lia|].
    rewrite cycle_walk_pass.
    replace (rdz perm (Z.to_nat current) =? start)%Z with false
      by (symmetry; apply Z.eqb_neq; apply (Hbefore 1%nat); lia).
    rewrite follow_succ_r, Nat.iter_succ_r.
    apply IH.
    + intros k Hk; rewrite <- follow_succ_r; apply Hbefore; lia.
    + rewrite <- follow_succ_r; exact Hback.
    + lia.
Qed.

(** The column loop at an index that starts a cycle of length [L]: the
    flag is flipped [L - 1] times ([L = 1] is a fixed point, which the
    loop skips). *)
Lemma permute_cycle_flips (n : nat) (perm : list Z) (i L : nat) E visited P ty :
  cycle_length perm (Z.of_nat i) L -> (L <= n)%nat ->
  rdz visited i = 0%Z ->
  exists E' visited' P',
    permute_cycle n perm i (E, visited, P, ty)
      = Some (E', visited', P', Nat.iter (L - 1) flip_type ty).
Proof.
  intros (Hpos & Hback & Hbefore) HL Hvis; unfold permute_cycle.
  rewrite Hvis; simpl.
  destruct (rdz perm i =? Z.of_nat i)%Z eqn:Hfix; simpl.
  - apply Z.eqb_eq in Hfix.
    assert (L = 1)%nat as ->.
    { destruct (Nat.eq_dec L 1) as [|Hne]; [assumption|exfalso].
      apply (Hbefore 1%nat); [lia|].
      unfold follow; simpl; rewrite Nat2Z.id; exact Hfix. }
    simpl; eauto.
  - destruct L as [|L]; [lia|].
    edestruct (cycle_walk_passes n perm (Z.of_nat i) L n (Z.of_nat i))
      as (E' & visited' & Heq).
    + intros k Hk Hk'.
      destruct (Nat.eq_dec k (S L)) as [->|Hne]; [lia|].
      apply (Hbefore k); [lia|exact Hk'].
    + exact Hback.
    + lia.
    + rewrite Heq; simpl; rewrite Nat.sub_0_r; eauto.
Qed.

Lemma permute_cycle_skips (n : nat) (perm : list Z) (i : nat) s :
  (rdz (snd (fst (fst s))) i <> 0%Z \/ rdz perm i = Z.of_nat i) ->
  permute_cycle n perm i s = Some s.
Proof.
  destruct s as [[[E visited] P] ty]; simpl; intros Hskip.
  replace ((rdz visited i =? 0)%Z && negb (rdz perm i =? Z.of_nat i)%Z)
    with false; [reflexivity|].
  symmetry; apply andb_false_iff.
  destruct Hskip as [Hv|Hp]; [left; apply Z.eqb_neq; exact Hv|right].
  apply negb_false_iff, Z.eqb_eq; exact Hp.
Qed.

(** Without sorting [GetEigenvectors] returns and the flag is the parity
    of the number of reflections. *)
Lemma GetEigenvectors_unsorted (E : list R) (st : Solver) :
  (0 < mSize st)%Z -> (rdz (mPermutation st) 0 < 0)%Z ->
  exists E' st',
    GetEigenvectors (Some E) st = Some (Some E', st') /\
    GetEigenvectorMatrixType st' = (1 - mSize st mod 2)%Z.
Proof.
  intros Hpos Hperm; unfold GetEigenvectors.
  replace (mSize (set_type (-1) st) >? 0)%Z with true
    by (simpl; symmetry; apply Z.gtb_lt; lia).
  destruct (for_down _ _ _ _) as [[E1 V] W].
  replace (rdz (mPermutation (set_type (-1) st)) 0 >=? 0)%Z with false
    by (simpl; symmetry; rewrite Z.geb_leb; apply Z.leb_gt; lia).
  do 2 eexists; split; [reflexivity|].
  unfold GetEigenvectorMatrixType; simpl; rewrite Zland_1_mod; reflexivity.
Qed.

(** After a convergent [Solve] with [sortType = 0] the permutation is
    marked unused. *)
Lemma Solve_unsorted_marks (input : list R) (st : Solver) :
  wf st ->
  snd (Solve std_sort input 0 st) <> NOT_CONVERGED ->
  rdz (mPermutation (fst (Solve std_sort input 0 st))) 0 = (-1)%Z /\
  mSize (fst (Solve std_sort input 0 st)) = mSize st.
Proof.
  intros Hwf Hconv.
  destruct (Solve_cases std_sort input 0 st)
    as [(k & Hk & Heq & _)|(Heq & _)]; [destruct Hwf; lia| |].
  - rewrite Heq; simpl.
    destruct (after_steps_frame k (tridiagonal_form input st))
      as (a & _ & _ & d & _).
    destruct (tridiagonal_form_frame input st) as (a' & _ & _ & d' & _).
    rewrite a, a', d, d'; split; [|reflexivity].
    apply nth_upd_eq.
    destruct Hwf as [Hs _ _ _ _ Hp _ _ _ _]; rewrite Hp; lia.
  - rewrite Heq in Hconv; simpl in Hconv; congruence.
Qed.

End MatrixType.

(* ================================================================== *)
(** ** A sort that meets the contract of [std::sort] *)

Section SortFacts.

Context {A : Type}.
Variable comp : A -> A -> bool.

Local Abbreviation not_after := (fun a b : A => comp b a = false).

Lemma insert_sorted_perm (a : A) (l : list A) :
  Permutation (a :: l) (insert_sorted comp a l).
Proof.
  induction l as [|b t IH]; simpl; [reflexivity|].
  destruct (comp a b); [reflexivity|].
  rewrite perm_swap; constructor; exact IH.
Qed.

(** The elements being sorted, on which [comp] is a strict weak
    ordering. *)
Variable universe : list A.
Hypothesis Hswo : strict_weak_on comp universe.

Lemma swo_asym a b :
  In a universe -> In b universe -> comp a b = true -> comp b a = false.
Proof.
  intros Ha Hb Hab; destruct (comp b a) eqn:Hba; [|reflexivity].
  rewrite <- (swo_irrefl Hswo a Ha).
  symmetry; apply (swo_trans Hswo a b a); assumption.
Qed.

(** [x] is not after [b] and [b] is not after [a]: [x] is not after
    [a].  This is where the transitivity of equivalence is used. *)
Lemma swo_not_after_trans a b x :
  In a universe -> In b universe -> In x universe ->
  comp x b = false -> comp b a = false -> comp x a = false.
Proof.
  intros Ha Hb Hx Hxb Hba.
  destruct (comp x a) eqn:Hxa; [exfalso|reflexivity].
  destruct (comp a b) eqn:Hab.
  - rewrite (swo_trans Hswo x a b Hx Ha Hb Hxa Hab) in Hxb; discriminate.
  - destruct (comp b x) eqn:Hbx.
    + rewrite (swo_trans Hswo b x a Hb Hx Ha Hbx Hxa) in Hba; discriminate.
    + destruct (swo_incomp Hswo x b a Hx Hb Ha Hxb Hbx Hba Hab) as [Hc _].
      congruence.
Qed.

Lemma insert_sorted_ordered (a : A) (l : list A) :
  In a universe -> incl l universe ->
  ordered_by comp l -> ordered_by comp (insert_sorted comp a l).
Proof.
  unfold ordered_by; intros Ha Hl Hord.
  induction l as [|b t IH]; simpl.
  - constructor; constructor.
  - apply StronglySorted_inv in Hord; destruct Hord as [Ht Hb].
    assert (Hbu : In b universe) by (apply Hl; left; reflexivity).
    assert (Htu : incl t universe) by (intros x Hx; apply Hl; right; exact Hx).
    destruct (comp a b) eqn:Hab.
    + constructor; [constructor; assumption|].
      constructor.
      * apply swo_asym; assumption.
      * rewrite Forall_forall in *; intros x Hx.
        destruct (comp x a) eqn:Hxa; [|reflexivity].
        rewrite <- (Hb x Hx); symmetry.
        apply (swo_trans Hswo x a b); auto.
    + constructor; [apply IH; assumption|].
      rewrite Forall_forall in *; intros x Hx.
      apply Permutation_in with (l' := a :: t) in Hx;
        [|symmetry; apply insert_sorted_perm].
      destruct Hx as [<-|Hx]; [exact Hab|apply Hb; exact Hx].
Qed.

(** A sort that inserts one element after the other. *)
Lemma fold_insert_contract (ins : A -> list A -> list A) :
  (forall a l, Permutation (a :: l) (ins a l)) ->
  (forall a l, In a universe -> incl l universe ->
     ordered_by comp l -> ordered_by comp (ins a l)) ->
  forall l acc, incl l universe -> incl acc universe -> ordered_by comp acc ->
    Permutation (l ++ acc) (fold_left (fun acc a => ins a acc) l acc) /\
    ordered_by comp (fold_left (fun acc a => ins a acc) l acc).
Proof.
  intros Hperm Hord; induction l as [|a t IH]; intros acc Hl Hacc Hsorted; simpl.
  - split; [reflexivity|exact Hsorted].
  - assert (Ha : In a universe) by (apply Hl; left; reflexivity).
    assert (Ht : incl t universe) by (intros x Hx; apply Hl; right; exact Hx).
    destruct (IH (ins a acc)) as [Hp Hs]; auto.
    + intros x Hx; apply Permutation_in with (l' := a :: acc) in Hx;
        [|symmetry; apply Hperm].
      destruct Hx as [<-|Hx]; auto.
    + split; [|exact Hs].
      rewrite <- Hp, <- (Hperm a acc); apply Permutation_middle.
Qed.

End SortFacts.

Lemma insertion_sort_contract {A} : std_sort_contract (@insertion_sort A).
Proof.
  intros comp l Hswo; unfold insertion_sort.
  destruct (fold_insert_contract comp l (insert_sorted comp)
              (insert_sorted_perm comp)
              (insert_sorted_ordered comp l Hswo) l [])
    as [Hp Hs]; try (intros x Hx; auto; contradiction).
  - constructor.
  - rewrite app_nil_r in Hp; split; assumption.
Qed.

(* ================================================================== *)
(** ** The permutation state *)

Lemma upd_middle {A} (pre : list A) (m : A) (post : list A) (x : A) :
  upd (pre ++ m :: post) (length pre) x = pre ++ x :: post.
Proof. induction pre as [|a t IH]; simpl; [reflexivity|f_equal; exact IH]. Qed.

(** A loop that stores [f i] at index [i]. *)
Lemma for_up_store {A} (f : nat -> A) (lo hi : nat) (v : list A) (d : A) :
  length (for_up lo hi (fun i v => upd v i (f i)) v) = length v /\
  forall k, nth k (for_up lo hi (fun i v => upd v i (f i)) v) d =
            if (lo <=? k)%nat && (k <? hi)%nat && (k <? length v)%nat
            then f k else nth k v d.
Proof.
  destruct (Nat.le_gt_cases lo hi) as [Hle|Hgt].
  - apply (for_up_inv
             (fun i v' => length v' = length v /\
                forall k, nth k v' d =
                  if (lo <=? k)%nat && (k <? i)%nat && (k <? length v)%nat
                  then f k else nth k v d)); auto.
    + split; [reflexivity|intros k].
      destruct (lo <=? k)%nat eqn:H1, (k <? lo)%nat eqn:H2; simpl; auto.
      apply Nat.leb_le in H1; apply Nat.ltb_lt in H2; lia.
    + intros i v' Hi [Hlen Hnth]; split; [rewrite length_upd; exact Hlen|].
      intros k; destruct (Nat.eq_dec i k) as [<-|Hne].
      * destruct (Nat.ltb_spec i (length v)) as [Hin|Hout].
        -- rewrite nth_upd_eq by lia.
           replace (lo <=? i)%nat with true by (symmetry; apply Nat.leb_le; lia).
           replace (i <? S i)%nat with true by (symmetry; apply Nat.ltb_lt; lia).
           reflexivity.
        -- rewrite upd_out_of_range by lia.
           rewrite Hnth.
           replace (i <? length v)%nat with false
             by (symmetry; apply Nat.ltb_ge; lia).
           rewrite !andb_false_r; reflexivity.
      * rewrite nth_upd_ne by exact Hne.
        rewrite Hnth.
        replace (k <? S i)%nat with (k <? i)%nat; [reflexivity|].
        destruct (Nat.ltb_spec k i), (Nat.ltb_spec k (S i)); auto; lia.
  - rewrite for_up_nil by lia; split; [reflexivity|intros k].
    destruct (lo <=? k)%nat eqn:H1, (k <? hi)%nat eqn:H2; simpl; auto.
    apply Nat.leb_le in H1; apply Nat.ltb_lt in H2; lia.
Qed.

Lemma StronglySorted_nth {A} (P : A -> A -> Prop) (l : list A) (d : A) :
  StronglySorted P l ->
  forall i j, (i < j < length l)%nat -> P (nth i l d) (nth j l d).
Proof.
  induction 1 as [|a t Ht IH Ha]; intros i j Hij; simpl in *; [lia|].
  destruct i as [|i], j as [|j]; try lia.
  - rewrite Forall_forall in Ha; apply Ha, nth_In; lia.
  - apply IH; lia.
Qed.

Section PermutationState.

Context {R : Type} {RA : RealArith R}.
Variable std_sort : sorter (SortItem R).

Local Abbreviation Solver := (SymmetricEigensolver R).

(** The loop that copies the sorted indices into [mPermutation]. *)
Lemma write_permutation (l : list (SortItem R)) :
  forall pre mid post : list Z,
    length mid = length l ->
    fst (fold_left (fun '(perm, i) item => (upd perm i (item_index item), S i))
                   l (pre ++ mid ++ post, length pre))
      = pre ++ map (@item_index R) l ++ post.
Proof.
  induction l as [|x t IH]; intros pre mid post Hlen.
  - destruct mid; [reflexivity|discriminate].
  - destruct mid as [|m mid]; [discriminate|].
    simpl fold_left.
    change ((m :: mid) ++ post) with (m :: mid ++ post).
    rewrite upd_middle.
    replace (pre ++ item_index x :: mid ++ post)
      with ((pre ++ [item_index x]) ++ mid ++ post)
      by (rewrite <- app_assoc; reflexivity).
    replace (S (length pre)) with (length (pre ++ [item_index x]))
      by (rewrite length_app; simpl; lia).
    rewrite IH by (simpl in Hlen; lia).
    rewrite <- app_assoc; reflexivity.
Qed.

Lemma ComputePermutation_sorted (sortType : Z) (st : Solver) :
  sortType <> 0%Z ->
  length (std_sort (sort_comp sortType) (sort_items st)) = length (mPermutation st) ->
  mPermutation (ComputePermutation std_sort sortType st)
    = map (@item_index R) (std_sort (sort_comp sortType) (sort_items st)).
Proof.
  intros Hs Hlen; unfold ComputePermutation; simpl.
  replace (sortType =? 0)%Z with false by (symmetry; apply Z.eqb_neq; exact Hs).
  fold (sort_items st).
  replace (if (sortType >? 0)%Z
           then std_sort (fun item0 item1 => Rltb (eigenvalue item0) (eigenvalue item1))
                         (sort_items st)
           else std_sort (fun item0 item1 => Rgtb (eigenvalue item0) (eigenvalue item1))
                         (sort_items st))
    with (std_sort (sort_comp sortType) (sort_items st))
    by (unfold sort_comp; destruct (sortType >? 0)%Z; reflexivity).
  pose proof (write_permutation (std_sort (sort_comp sortType) (sort_items st))
                [] (mPermutation st) [] (eq_sym Hlen)) as Hw.
  simpl in Hw; rewrite !app_nil_r in Hw; exact Hw.
Qed.

Lemma tridiagonal_form_forgets_log (input : list R) (st : Solver) :
  tridiagonal_form input (clear_givens st) = tridiagonal_form input st.
Proof.
  unfold tridiagonal_form, Tridiagonalize; simpl.
  destruct (for_up _ _ _ _) as [[[M V] P] W].
  destruct (copy_bands _ _ _ _) as [Dg Sp].
  reflexivity.
Qed.

(** The solver [Solve] returns when it converges in [k] passes. *)
Lemma Solve_converged (input : list R) (sortType : Z) (st : Solver) :
  wf st ->
  snd (Solve std_sort input sortType st) <> NOT_CONVERGED ->
  exists k,
    Solve std_sort input sortType st
      = (ComputePermutation std_sort sortType
           (after_steps k (tridiagonal_form input st)), Z.of_nat k) /\
    mSize (after_steps k (tridiagonal_form input st)) = mSize st /\
    mPermutation (after_steps k (tridiagonal_form input st)) = mPermutation st.
Proof.
  intros Hwf Hconv.
  destruct (Solve_cases std_sort input sortType st)
    as [(k & Hk & Heq & _)|(Heq & _)]; [destruct Hwf; lia| |].
  - exists k; split; [exact Heq|].
    destruct (after_steps_frame k (tridiagonal_form input st))
      as (a & _ & _ & d & _).
    destruct (tridiagonal_form_frame input st) as (a' & _ & _ & d' & _).
    split; congruence.
  - rewrite Heq in Hconv; simpl in Hconv; congruence.
Qed.

(** X24. [Solve] on a solver that is not inert gives the same result
    whatever rotation log it finds: the log is cleared before the
    iteration.  [mPermutation] is written on the convergent path only
    (the mark [-1] for [sortType = 0], the indices in the order
    [std::sort] left the items otherwise); on the path that returns the
    sentinel [ComputePermutation] is not called and the vector is left as
    the call found it, which is the defect a stale permutation comes
    from. *)
Theorem Solve_resets_log_not_permutation (input : list R) (sortType : Z)
    (st : Solver) :
  wf st ->
  let r := Solve std_sort input sortType st in
  r = Solve std_sort input sortType (clear_givens st) /\
  (snd r = NOT_CONVERGED -> mPermutation (fst r) = mPermutation st) /\
  (snd r <> NOT_CONVERGED -> sortType = 0%Z ->
     rdz (mPermutation (fst r)) 0 = (-1)%Z) /\
  (snd r <> NOT_CONVERGED -> sortType <> 0%Z ->
     length (std_sort (sort_comp sortType) (sort_items (fst r)))
       = Z.to_nat (mSize st) ->
     mPermutation (fst r)
       = map (@item_index R) (std_sort (sort_comp sortType) (sort_items (fst r)))).
Proof.
  intros Hwf r.
  assert (Hpos : (0 < mSize st)%Z) by (destruct Hwf; lia).
  split; [|split; [|split]].
  - subst r; rewrite !Solve_unfold by exact Hpos.
    rewrite tridiagonal_form_forgets_log; reflexivity.
  - intros Hret.
    destruct (Solve_cases std_sort input sortType st Hpos)
      as [(k & Hk & Heq & _)|(Heq & _)]; subst r; rewrite Heq in *; simpl in *.
    + destruct Hwf as [_ Hit _ _ _ _ _ _ _ _].
      unfold NOT_CONVERGED in Hret; lia.
    + destruct (after_steps_frame (Z.to_nat (mMaxIterations st))
                  (tridiagonal_form input st)) as (_ & _ & _ & d & _).
      destruct (tridiagonal_form_frame input st) as (_ & _ & _ & d' & _).
      congruence.
  - intros Hconv ->.
    apply (Solve_unsorted_marks std_sort input st Hwf Hconv).
  - intros Hconv Hs Hlen.
    destruct (Solve_converged input sortType st Hwf Hconv) as (k & Heq & Hsz & Hperm).
    subst r; rewrite Heq in *; simpl fst in *.
    change (sort_items (ComputePermutation std_sort sortType
                          (after_steps k (tridiagonal_form input st))))
      with (sort_items (after_steps k (tridiagonal_form input st))) in *.
    apply ComputePermutation_sorted; [exact Hs|].
    rewrite Hperm; destruct Hwf as [_ _ _ _ _ Hp _ _ _ _]; rewrite Hp.
    exact Hlen.
Qed.

(** The items of [std::sort] pair [mDiagonal[i]] with [i]. *)
Lemma sort_items_In (st : Solver) (x : SortItem R) :
  In x (sort_items st) ->
  (0 <= item_index x < mSize st)%Z /\
  rd (mDiagonal st) (Z.to_nat (item_index x)) = eigenvalue x.
Proof.
  unfold sort_items; intros Hx.
  apply in_map_iff in Hx; destruct Hx as (i & <- & Hi).
  apply in_seq in Hi; simpl.
  rewrite Nat2Z.id; split; [lia|reflexivity].
Qed.

Lemma sort_items_indices (st : Solver) :
  map (@item_index R) (sort_items st) = map Z.of_nat (seq 0 (Z.to_nat (mSize st))).
Proof. unfold sort_items; rewrite map_map; reflexivity. Qed.

(** C5 (as amended). After a convergent [Solve] with [sortType = +1]
    (respectively [-1]), for a [std::sort] that meets its contract and
    eigenvalues on which the comparison is a strict weak ordering,
    [mPermutation] is a permutation of [0 .. N-1] and [GetEigenvalues]
    fills the buffer through it in non-decreasing (respectively
    non-increasing) order.  Nothing is said of the order of equal
    eigenvalues. *)
Theorem GetEigenvalues_sorted (input : list R) (sortType : Z) (st : Solver)
    (out : list R) :
  std_sort_contract std_sort ->
  wf st ->
  sortType <> 0%Z ->
  snd (Solve std_sort input sortType st) <> NOT_CONVERGED ->
  strict_weak_on (sort_comp sortType)
                 (sort_items (fst (Solve std_sort input sortType st))) ->
  length out = Z.to_nat (mSize st) ->
  let st' := fst (Solve std_sort input sortType st) in
  let n := Z.to_nat (mSize st) in
  exists out',
    GetEigenvalues (Some out) st' = Some out' /\
    length out' = n /\
    Permutation (map Z.of_nat (seq 0 n)) (mPermutation st') /\
    (forall i, (i < n)%nat ->
       rd out' i = rd (mDiagonal st') (Z.to_nat (rdz (mPermutation st') i))) /\
    (forall i j, (i < j < n)%nat ->
       ((0 < sortType)%Z -> Rltb (rd out' j) (rd out' i) = false) /\
       ((sortType < 0)%Z -> Rltb (rd out' i) (rd out' j) = false)).
Proof.
  intros Hcontract Hwf Hs Hconv Hswo Hout st' n.
  destruct (Solve_converged input sortType st Hwf Hconv) as (k & Heq & Hsz & Hperm).
  subst st'; rewrite Heq in *; simpl fst in *.
  set (X := after_steps k (tridiagonal_form input st)) in *.
  change (sort_items (ComputePermutation std_sort sortType X))
    with (sort_items X) in Hswo.
  destruct (Hcontract _ _ Hswo) as [Hp Hord].
  set (srt := std_sort (sort_comp sortType) (sort_items X)) in *.
  assert (Hn : (2 <= n)%nat) by (subst n; destruct Hwf; lia).
  assert (Hlen : length srt = n).
  { rewrite <- (Permutation_length Hp); unfold sort_items.
    rewrite length_map, length_seq, Hsz; reflexivity. }
  assert (Hpm : mPermutation (ComputePermutation std_sort sortType X)
                = map (@item_index R) srt).
  { apply ComputePermutation_sorted; [exact Hs|].
    rewrite Hperm; destruct Hwf as [_ _ _ _ _ Hpl _ _ _ _]; rewrite Hpl.
    exact Hlen. }
  assert (Hperm' : Permutation (map Z.of_nat (seq 0 n))
                     (mPermutation (ComputePermutation std_sort sortType X))).
  { rewrite Hpm; subst n; rewrite <- Hsz, <- sort_items_indices.
    apply Permutation_map; exact Hp. }
  set (d0 := mkSortItem R0 0%Z).
  assert (Hidx : forall i, rdz (map (@item_index R) srt) i = item_index (nth i srt d0)).
  { intros i; unfold rdz; apply (map_nth (@item_index R) srt d0 i). }
  assert (Hin : forall i, (i < n)%nat -> In (nth i srt d0) (sort_items X)).
  { intros i Hi; apply Permutation_in with (l := srt); [symmetry; exact Hp|].
    apply nth_In; lia. }
  unfold GetEigenvalues.
  replace (mSize (ComputePermutation std_sort sortType X) >? 0)%Z with true
    by (simpl; symmetry; apply Z.gtb_lt; destruct Hwf; lia).
  replace (rdz (mPermutation (ComputePermutation std_sort sortType X)) 0 >=? 0)%Z
    with true.
  2:{ symmetry; apply Z.geb_le; rewrite Hpm, Hidx.
      destruct (sort_items_In X _ (Hin 0%nat ltac:(lia))) as [Hrange _]; lia. }
  change (mSize (ComputePermutation std_sort sortType X)) with (mSize X).
  change (mDiagonal (ComputePermutation std_sort sortType X)) with (mDiagonal X).
  rewrite Hsz; fold n.
  set (f := fun i => rd (mDiagonal X)
              (Z.to_nat (rdz (mPermutation (ComputePermutation std_sort sortType X)) i))).
  destruct (for_up_store f 0 n out R0) as [Hlen' Hnth].
  assert (Hval : forall i, (i < n)%nat ->
            rd (for_up 0 n (fun i ev => upd ev i (f i)) out) i = f i).
  { intros i Hi; unfold rd; rewrite Hnth.
    replace (i <? n)%nat with true by (symmetry; apply Nat.ltb_lt; lia).
    replace (i <? length out)%nat with true by (symmetry; apply Nat.ltb_lt; lia).
    reflexivity. }
  exists (for_up 0 n (fun i ev => upd ev i (f i)) out); split; [reflexivity|].
  split; [rewrite Hlen'; exact Hout|].
  split; [exact Hperm'|].
  split; [exact Hval|].
  assert (Heig : forall i, (i < n)%nat -> f i = eigenvalue (nth i srt d0)).
  { intros i Hi; unfold f; rewrite Hpm, Hidx.
    apply (sort_items_In X), Hin, Hi. }
  intros i j Hij.
  rewrite !Hval, !Heig by lia.
  pose proof (StronglySorted_nth _ srt d0 Hord i j ltac:(lia)) as Hsorted.
  simpl in Hsorted; unfold sort_comp in Hsorted.
  split; intros Hsign.
  - replace (sortType >? 0)%Z with true in Hsorted
      by (symmetry; apply Z.gtb_lt; lia).
    exact Hsorted.
  - replace (sortType >? 0)%Z with false in Hsorted
      by (symmetry; rewrite Z.gtb_ltb; apply Z.ltb_ge; lia).
    exact Hsorted.
Qed.

End PermutationState.

(* ================================================================== *)
(** ** The eigenvector paths as functions of the index *)

Lemma for_up_ext {St} lo hi (body body' : nat -> St -> St) s :
  (forall i s, (lo <= i < hi)%nat -> body i s = body' i s) ->
  for_up lo hi body s = for_up lo hi body' s.
Proof.
  intros Hext.
  destruct (Nat.le_gt_cases lo hi) as [Hle|Hgt].
  - induction hi as [|hi IH].
    + rewrite !for_up_nil by lia; reflexivity.
    + destruct (Nat.eq_dec lo (S hi)) as [->|Hne].
      * rewrite !for_up_nil by lia; reflexivity.
      * rewrite !for_up_snoc by lia.
        rewrite IH; [apply Hext; lia|intros; apply Hext; lia|lia].
  - rewrite !for_up_nil by lia; reflexivity.
Qed.

Lemma for_down_ext {St} lo hi (body body' : nat -> St -> St) s :
  (forall i s, (lo <= i < hi)%nat -> body i s = body' i s) ->
  for_down lo hi body s = for_down lo hi body' s.
Proof.
  intros Hext; revert s.
  induction hi as [|hi IH]; intros s.
  - rewrite !for_down_nil by lia; reflexivity.
  - destruct (Nat.le_gt_cases lo hi) as [Hle|Hgt].
    + rewrite !for_down_snoc by lia.
      rewrite Hext by lia; apply IH; intros; apply Hext; lia.
    + rewrite !for_down_nil by lia; reflexivity.
Qed.

Lemma rd_overflow {R} {RA : RealArith R} (v : list R) (i : nat) :
  (length v <= i)%nat -> rd v i = R0.
Proof. intros Hi; unfold rd; apply nth_overflow; exact Hi. Qed.

(** Row-major indices of an [n x n] buffer. *)
Lemma flat_index_inj (n c r c' r' : nat) :
  (c < n)%nat -> (c' < n)%nat -> (c + n * r = c' + n * r')%nat ->
  c = c' /\ r = r'.
Proof.
  intros Hc Hc' Heq.
  assert (r = r') by nia.
  subst; split; [lia|reflexivity].
Qed.

Lemma flat_index_bound (n c r : nat) :
  (c < n)%nat -> (r < n)%nat -> (c + n * r < n * n)%nat.
Proof. intros; nia. Qed.

Section Reconstruction.

Context {R : Type} {RA : RealArith R}.

Local Open Scope real_scope.
Local Abbreviation Solver := (SymmetricEigensolver R).

(* ------------------------------------------------------------------ *)
(** *** Functions that depend on the vector only through its entries *)

Lemma unwind_f_ext g : extensional (unwind_f g).
Proof.
  intros x y Hxy r; unfold unwind_f; cbv zeta.
  rewrite !Hxy; reflexivity.
Qed.

Lemma dot_tail_ext n M i x y :
  (forall r, x r = y r) -> dot_tail n M i x = dot_tail n M i y.
Proof.
  intros Hxy; unfold dot_tail; rewrite Hxy.
  apply for_up_ext; intros j s _; rewrite Hxy; reflexivity.
Qed.

Lemma refl_f_ext n M i : extensional (refl_f n M i).
Proof.
  intros x y Hxy r; unfold refl_f; cbv zeta.
  rewrite (dot_tail_ext n M i x y Hxy), !Hxy; reflexivity.
Qed.

Lemma house_f_succ n M m x :
  house_f n M (S m) x = house_f n M m (refl_f n M m x).
Proof. unfold house_f; apply for_down_snoc; lia. Qed.

Lemma house_f_ext n M m : extensional (house_f n M m).
Proof.
  induction m as [|m IH]; intros x y Hxy r.
  - unfold house_f; rewrite !for_down_nil by lia; apply Hxy.
  - rewrite !house_f_succ; apply IH; apply refl_f_ext; exact Hxy.
Qed.

Lemma unwind_all_ext G : extensional (unwind_all G).
Proof.
  unfold unwind_all; induction (rev G) as [|g t IH]; intros x y Hxy r; simpl.
  - apply Hxy.
  - apply IH; apply unwind_f_ext; exact Hxy.
Qed.

Lemma unwind_all_snoc G g x :
  unwind_all (G ++ [g]) x = unwind_all G (unwind_f g x).
Proof. unfold unwind_all; rewrite rev_app_distr; reflexivity. Qed.

Lemma single_f_ext n M G : extensional (single_f n M G).
Proof.
  intros x y Hxy r; unfold single_f.
  apply house_f_ext; apply unwind_all_ext; exact Hxy.
Qed.

(* ------------------------------------------------------------------ *)
(** *** [GetEigenvector] computes [single_f] *)

Lemma givens_unwind_rd (g : GivensRotation R) (x : list R) :
  (Z.to_nat (index g) + 1 < length x)%nat ->
  length (givens_unwind x g) = length x /\
  forall r, rd (givens_unwind x g) r = unwind_f g (rd x) r.
Proof.
  intros Hk; unfold givens_unwind, unwind_f; cbv zeta.
  set (k := Z.to_nat (index g)) in *.
  split; [rewrite !length_upd; reflexivity|].
  intros r; unfold rd at 1.
  destruct (Nat.eqb_spec r k) as [->|Hrk].
  - rewrite nth_upd_ne by lia.
    rewrite nth_upd_eq by lia; reflexivity.
  - destruct (Nat.eqb_spec r (k + 1)) as [->|Hrk1].
    + rewrite nth_upd_eq by (rewrite length_upd; lia); reflexivity.
    + rewrite !nth_upd_ne by lia; reflexivity.
Qed.

Lemma givens_unwind_all (n : nat) (G : list (GivensRotation R)) :
  Forall (givens_in_range n) G ->
  forall (x : list R) (f : vec),
    length x = n -> (forall r, rd x r = f r) ->
    length (fold_left givens_unwind (rev G) x) = n /\
    forall r, rd (fold_left givens_unwind (rev G) x) r = unwind_all G f r.
Proof.
  intros HG; unfold unwind_all.
  assert (HG' : Forall (givens_in_range n) (rev G))
    by (apply Forall_forall; intros g Hg; rewrite Forall_forall in HG;
        apply HG, in_rev, Hg).
  clear HG; induction (rev G) as [|g t IH]; intros x f Hlen Hxf; simpl.
  - split; assumption.
  - apply Forall_cons_iff in HG'; destruct HG' as [[_ Hg] Ht].
    destruct (givens_unwind_rd g x) as [Hlen' Hrd]; [lia|].
    apply IH; [exact Ht|lia|].
    intros r; rewrite Hrd; apply unwind_f_ext; exact Hxf.
Qed.

Lemma reflect_rd (n : nat) (M : list R) (i : nat) (x y : list R) :
  length x = n -> length y = n -> (i + 1 < n)%nat ->
  length (reflect n M i x y) = n /\
  forall r, rd (reflect n M i x y) r = refl_f n M i (rd x) r.
Proof.
  intros Hx Hy Hi; unfold reflect; cbv zeta.
  replace (i + 1 + 1)%nat with (i + 2)%nat by lia.
  fold (dot_tail n M i (rd x)).
  set (s := dot_tail n M i (rd x) * rd M (i + n * (i + 1))%nat).
  destruct (for_up_store (fun r => rd x r) 0 (i + 1) y R0) as [Hl1 Hn1].
  cbv beta in Hl1, Hn1.
  set (y1 := for_up 0 (i + 1) (fun r y => upd y r (rd x r)) y) in *.
  destruct (for_up_store (fun r => rd x r - s * rd M (i + n * r)%nat) (i + 2) n
              (upd y1 (i + 1) (rd x (i + 1) - s)) R0)
    as [Hl2 Hn2].
  cbv beta in Hl2, Hn2.
  rewrite length_upd in Hl2, Hn2.
  split; [lia|].
  intros r; unfold rd at 1; rewrite Hn2.
  unfold refl_f; cbv zeta; fold s.
  rewrite Hl1, Hy.
  destruct (Nat.leb_spec n r) as [Hnr|Hnr].
  - replace (r <? n)%nat with false by (symmetry; apply Nat.ltb_ge; lia).
    rewrite andb_false_r.
    rewrite nth_overflow by (rewrite length_upd; lia).
    symmetry; apply rd_overflow; lia.
  - replace (r <? n)%nat with true by (symmetry; apply Nat.ltb_lt; lia).
    rewrite !andb_true_r.
    destruct (Nat.leb_spec (i + 2) r) as [Hir|Hir]; simpl.
    + replace (r <=? i)%nat with false by (symmetry; apply Nat.leb_gt; lia).
      replace (r =? i + 1)%nat with false by (symmetry; apply Nat.eqb_neq; lia).
      reflexivity.
    + destruct (Nat.eqb_spec r (i + 1)) as [->|Hne].
      * replace (i + 1 <=? i)%nat with false by (symmetry; apply Nat.leb_gt; lia).
        rewrite nth_upd_eq by lia; reflexivity.
      * replace (r <=? i)%nat with true by (symmetry; apply Nat.leb_le; lia).
        rewrite nth_upd_ne by lia.
        rewrite Hn1, Hy.
        replace (r <? i + 1)%nat with true by (symmetry; apply Nat.ltb_lt; lia).
        replace (r <? n)%nat with true by (symmetry; apply Nat.ltb_lt; lia).
        reflexivity.
Qed.

Lemma householder_reflect_rd (n : nat) (M : list R) (i : nat)
    (b : list R * list R * bool) :
  both_length n b -> (i + 1 < n)%nat ->
  both_length n (householder_reflect n M i b) /\
  forall r, rd (current_x (householder_reflect n M i b)) r
            = refl_f n M i (rd (current_x b)) r.
Proof.
  destruct b as [[ev pv] swapped]; intros [Hev Hpv] Hi.
  unfold householder_reflect; destruct swapped; simpl.
  - destruct (reflect_rd n M i pv ev Hpv Hev Hi) as [Hl Hr]; auto.
  - destruct (reflect_rd n M i ev pv Hev Hpv Hi) as [Hl Hr]; auto.
Qed.

Lemma householder_reflect_all (n : nat) (M : list R) : forall m b (f : vec),
  (m + 1 < n \/ m = 0)%nat -> both_length n b ->
  (forall r, rd (current_x b) r = f r) ->
  both_length n (for_down 0 m (householder_reflect n M) b) /\
  forall r, rd (current_x (for_down 0 m (householder_reflect n M) b)) r
            = house_f n M m f r.
Proof.
  induction m as [|m IH]; intros b f Hm Hb Hf.
  - unfold house_f; rewrite !for_down_nil by lia; auto.
  - rewrite for_down_snoc by lia; rewrite house_f_succ.
    destruct (householder_reflect_rd n M m b Hb) as [Hb' Hr]; [lia|].
    apply IH; [lia|exact Hb'|].
    intros r; rewrite Hr; apply refl_f_ext; exact Hf.
Qed.

Lemma start_vector_rd (n p : nat) (ev : list R) :
  length ev = n -> (p < n)%nat ->
  length (upd (for_up 0 n (fun k x => upd x k R0) ev) p R1) = n /\
  forall r, rd (upd (for_up 0 n (fun k x => upd x k R0) ev) p R1) r = basis_f p r.
Proof.
  intros Hev Hp.
  destruct (for_up_store (fun _ : nat => R0) 0 n ev R0) as [Hl Hn].
  cbv beta in Hl, Hn.
  split; [rewrite length_upd; lia|].
  intros r; unfold rd, basis_f.
  destruct (Nat.eqb_spec r p) as [->|Hne].
  - apply nth_upd_eq; lia.
  - rewrite nth_upd_ne by lia; rewrite Hn.
    destruct ((0 <=? r)%nat && (r <? n)%nat && (r <? length ev)%nat) eqn:Hb;
      [reflexivity|].
    apply nth_overflow.
    rewrite Hev in *.
    destruct (Nat.ltb_spec r n); [|lia].
    simpl in Hb; discriminate.
Qed.

Lemma copy_n_rd (n : nat) (src dst : list R) :
  length src = n -> length dst = n ->
  length (copy_n n src dst) = n /\ forall r, rd (copy_n n src dst) r = rd src r.
Proof.
  intros Hs Hd; unfold copy_n.
  destruct (for_up_store (fun k => rd src k) 0 n dst R0) as [Hl Hn].
  cbv beta in Hl, Hn.
  split; [lia|].
  intros r; unfold rd at 1; rewrite Hn, Hd.
  destruct (Nat.ltb_spec r n) as [Hr|Hr]; simpl; [reflexivity|].
  rewrite nth_overflow by lia.
  symmetry; apply rd_overflow; lia.
Qed.

Lemma GetEigenvector_single_f (c : Z) (x : list R) (st : Solver) :
  let n := Z.to_nat (mSize st) in
  (0 <= c < mSize st)%Z ->
  length x = n -> length (mPVector st) = n ->
  Forall (givens_in_range n) (mGivens st) ->
  (stored_column st c < n)%nat ->
  exists v st',
    GetEigenvector c (Some x) st = Normal (Some v, st') /\
    length v = n /\
    forall r, rd v r
              = single_f n (mMatrix st) (mGivens st) (basis_f (stored_column st c)) r.
Proof.
  intros n Hc Hx HP HG Hp; unfold GetEigenvector.
  replace ((0 <=? c)%Z && (c <? mSize st)%Z) with true
    by (symmetry; apply andb_true_iff; split; [apply Z.leb_le|apply Z.ltb_lt]; lia).
  fold n.
  set (x0 := if (rdz (mPermutation st) 0 >=? 0)%Z
             then upd (for_up 0 n (fun k x => upd x k R0) x)
                      (Z.to_nat (rdz (mPermutation st) (Z.to_nat c))) R1
             else upd (for_up 0 n (fun k x => upd x k R0) x) (Z.to_nat c) R1).
  assert (Hx0 : length x0 = n /\ forall r, rd x0 r = basis_f (stored_column st c) r).
  { subst x0; unfold stored_column in *.
    destruct (rdz (mPermutation st) 0 >=? 0)%Z; apply start_vector_rd; auto. }
  destruct Hx0 as [Hl0 Hr0].
  destruct (givens_unwind_all n (mGivens st) HG x0 _ Hl0 Hr0) as [Hl1 Hr1].
  set (x1 := fold_left givens_unwind (rev (mGivens st)) x0) in *.
  destruct (householder_reflect_all n (mMatrix st) (n - 2) (x1, mPVector st, false)
              (unwind_all (mGivens st) (basis_f (stored_column st c))))
    as [Hb Hr2]; [lia|split; assumption|exact Hr1|].
  destruct (for_down 0 (n - 2) (householder_reflect n (mMatrix st))
              (x1, mPVector st, false)) as [[ev pv] swapped].
  destruct Hb as [Hev Hpv]; simpl in Hr2.
  do 2 eexists; split; [reflexivity|].
  destruct swapped.
  - destruct (copy_n_rd n pv ev Hpv Hev) as [Hl Hr].
    split; [exact Hl|intros r; rewrite Hr; apply Hr2].
  - split; [exact Hev|exact Hr2].
Qed.

End Reconstruction.

(* ================================================================== *)
(** ** The loops of [GetEigenvectors] entry by entry *)

Lemma upd_same {A} (v : list A) (i : nat) (d : A) : upd v i (nth i v d) = v.
Proof.
  revert i; induction v as [|a t IH]; intros [|i]; simpl; auto.
  f_equal; apply IH.
Qed.

Lemma upd_upd {A} (v : list A) (i : nat) (a b : A) :
  upd (upd v i a) i b = upd v i b.
Proof.
  revert i; induction v as [|x t IH]; intros [|i]; simpl; auto.
  f_equal; apply IH.
Qed.

(** Loops that agree on the states an invariant allows. *)
Lemma for_up_ext_inv {St} (P : St -> Prop) lo hi (body body' : nat -> St -> St) s :
  P s ->
  (forall i s, (lo <= i < hi)%nat -> P s -> P (body' i s)) ->
  (forall i s, (lo <= i < hi)%nat -> P s -> body i s = body' i s) ->
  for_up lo hi body s = for_up lo hi body' s.
Proof.
  intros H0 Hpres Hext.
  destruct (Nat.le_gt_cases lo hi) as [Hle|Hgt].
  - assert (for_up lo hi body s = for_up lo hi body' s /\ P (for_up lo hi body' s))
      as [Heq _]; [|exact Heq].
    induction hi as [|hi IH].
    + rewrite !for_up_nil by lia; auto.
    + destruct (Nat.eq_dec lo (S hi)) as [->|Hne].
      * rewrite !for_up_nil by lia; auto.
      * rewrite !for_up_snoc by lia.
        destruct IH as [Heq HP]; [intros; apply Hpres; auto; lia| |lia|].
        -- intros; apply Hext; auto; lia.
        -- rewrite Heq; split; [apply Hext; auto; lia|apply Hpres; auto; lia].
  - rewrite !for_up_nil by lia; reflexivity.
Qed.

Section BulkLoops.

Context {R : Type} {RA : RealArith R}.

Local Open Scope real_scope.

(** A loop that rewrites the cell [idx j] from its old value, for
    distinct cells. *)
Lemma for_up_cells (m : nat) (idx : nat -> nat) (g : nat -> R -> R) (E : list R) :
  (forall j, (j < m)%nat -> (idx j < length E)%nat) ->
  (forall j j', (j < m)%nat -> (j' < m)%nat -> idx j = idx j' -> j = j') ->
  let E' := for_up 0 m (fun j E => upd E (idx j) (g j (rd E (idx j)))) E in
  length E' = length E /\
  (forall j, (j < m)%nat -> rd E' (idx j) = g j (rd E (idx j))) /\
  (forall p, (forall j, (j < m)%nat -> idx j <> p) -> rd E' p = rd E p).
Proof.
  intros Hin Hinj; cbv zeta.
  apply (for_up_inv
           (fun j0 E' =>
              length E' = length E /\
              (forall j, (j < j0)%nat -> rd E' (idx j) = g j (rd E (idx j))) /\
              (forall p, (forall j, (j < j0)%nat -> idx j <> p) -> rd E' p = rd E p)));
    [lia| |].
  - repeat split; auto; intros; lia.
  - intros j0 E' Hj0 (Hlen & Hdone & Hrest).
    assert (Hold : rd E' (idx j0) = rd E (idx j0)).
    { apply Hrest; intros j Hj Heq; apply Hinj in Heq; lia. }
    split; [rewrite length_upd; exact Hlen|split].
    + intros j Hj; unfold rd at 1.
      destruct (Nat.eq_dec j j0) as [->|Hne].
      * rewrite nth_upd_eq by (rewrite Hlen; apply Hin; lia).
        rewrite Hold; reflexivity.
      * rewrite nth_upd_ne; [apply Hdone; lia|].
        intros Heq; apply Hinj in Heq; lia.
    + intros p Hp; unfold rd at 1.
      rewrite nth_upd_ne by (apply Hp; lia).
      apply Hrest; intros j Hj; apply Hp; lia.
Qed.

(** [v[r] += g c] over a range of [c]. *)
Lemma accumulate_cell (lo hi r : nat) (g : nat -> R) (W : list R) :
  for_up lo hi (fun c W => upd W r (rd W r + g c)) W
  = upd W r (for_up lo hi (fun c acc => acc + g c) (rd W r)).
Proof.
  destruct (Nat.le_gt_cases lo hi) as [Hle|Hgt].
  - induction hi as [|hi IH].
    + rewrite !for_up_nil by lia; symmetry; apply upd_same.
    + destruct (Nat.eq_dec lo (S hi)) as [->|Hne].
      * rewrite !for_up_nil by lia; symmetry; apply upd_same.
      * rewrite !for_up_snoc by lia.
        rewrite IH by lia.
        rewrite upd_upd.
        destruct (Nat.lt_ge_cases r (length W)) as [Hr|Hr].
        -- unfold rd at 1; rewrite nth_upd_eq by exact Hr; reflexivity.
        -- rewrite !upd_out_of_range by lia; reflexivity.
  - rewrite !for_up_nil by lia; symmetry; apply upd_same.
Qed.

Lemma identity_fill_rd (n : nat) (E : list R) :
  length E = (n * n)%nat ->
  length (identity_fill n E) = (n * n)%nat /\
  forall c r, (c < n)%nat -> (r < n)%nat ->
    entry n (identity_fill n E) c r = if (r =? c)%nat then R1 else R0.
Proof.
  intros HE; unfold identity_fill, entry.
  destruct (for_up_store (fun _ : nat => R0) 0 (n * n) E R0) as [Hl Hn].
  cbv beta in Hl, Hn.
  set (Z0 := for_up 0 (n * n) (fun k E => upd E k R0) E) in *.
  destruct (for_up_cells n (fun d => d + n * d)%nat (fun _ _ => R1) Z0)
    as (Hl' & Hdiag & Hrest).
  - intros j Hj; rewrite Hl, HE; nia.
  - intros j j' Hj Hj' Heq; nia.
  - cbv beta in Hl', Hdiag, Hrest.
    split; [lia|].
    intros c r Hc Hr.
    destruct (Nat.eqb_spec r c) as [->|Hne].
    + apply Hdiag; exact Hc.
    + rewrite Hrest.
      * unfold rd; rewrite Hn, HE.
        replace (c + n * r <? n * n)%nat with true
          by (symmetry; apply Nat.ltb_lt; nia).
        reflexivity.
      * intros j Hj Heq.
        destruct (flat_index_inj n j j c r Hj Hc Heq); lia.
Qed.

(** [Q[.][r] -= a * w[.]] on one row. *)
Lemma row_update_rd (n r0 : nat) (a : R) (w : nat -> R) (E : list R) :
  length E = (n * n)%nat -> (r0 < n)%nat ->
  let E' := for_up 0 n
              (fun c E => upd E (c + n * r0)%nat (rd E (c + n * r0)%nat - a * w c)) E in
  length E' = (n * n)%nat /\
  forall c r, (c < n)%nat -> (r < n)%nat ->
    entry n E' c r = if (r =? r0)%nat then entry n E c r - a * w c else entry n E c r.
Proof.
  intros HE Hr0; cbv zeta.
  destruct (for_up_cells n (fun c => c + n * r0)%nat (fun c old => old - a * w c) E)
    as (Hl & Hrow & Hrest).
  - intros j Hj; rewrite HE; nia.
  - intros j j' _ _ Heq; lia.
  - cbv beta in Hl, Hrow, Hrest.
    split; [lia|].
    intros c r Hc Hr; unfold entry.
    destruct (Nat.eqb_spec r r0) as [->|Hne].
    + apply Hrow; exact Hc.
    + apply Hrest; intros j Hj Heq.
      destruct (flat_index_inj n j r0 c r Hj Hc Heq); lia.
Qed.

Lemma householder_vector_rd (n : nat) (M : list R) (i : nat) (V : list R) :
  length V = n -> (i + 1 < n)%nat ->
  let V3 := for_up (i + 2) n (fun r V => upd V r (rd M (i + n * r)%nat))
              (upd (for_up 0 (i + 1) (fun r V => upd V r R0) V) (i + 1) R1) in
  length V3 = n /\ forall r, rd V3 r = vv_f n M i r.
Proof.
  intros HV Hi; cbv zeta.
  destruct (for_up_store (fun _ : nat => R0) 0 (i + 1) V R0) as [Hl1 Hn1].
  cbv beta in Hl1, Hn1.
  set (V1 := for_up 0 (i + 1) (fun r V => upd V r R0) V) in *.
  destruct (for_up_store (fun r => rd M (i + n * r)%nat) (i + 2) n
              (upd V1 (i + 1) R1) R0) as [Hl2 Hn2].
  cbv beta in Hl2, Hn2.
  rewrite length_upd in Hl2, Hn2.
  split; [lia|].
  intros r; unfold rd at 1, vv_f; rewrite Hn2, Hl1, HV.
  destruct (Nat.leb_spec n r) as [Hnr|Hnr].
  - replace (r <? n)%nat with false by (symmetry; apply Nat.ltb_ge; lia).
    rewrite andb_false_r.
    apply nth_overflow; rewrite length_upd; lia.
  - replace (r <? n)%nat with true by (symmetry; apply Nat.ltb_lt; lia).
    rewrite !andb_true_r.
    destruct (Nat.leb_spec (i + 2) r) as [Hir|Hir]; simpl.
    + replace (r <=? i)%nat with false by (symmetry; apply Nat.leb_gt; lia).
      replace (r =? i + 1)%nat with false by (symmetry; apply Nat.eqb_neq; lia).
      reflexivity.
    + destruct (Nat.eqb_spec r (i + 1)) as [->|Hne].
      * replace (i + 1 <=? i)%nat with false by (symmetry; apply Nat.leb_gt; lia).
        apply nth_upd_eq; lia.
      * replace (r <=? i)%nat with true by (symmetry; apply Nat.leb_le; lia).
        rewrite nth_upd_ne by lia.
        rewrite Hn1, HV.
        replace (r <? i + 1)%nat with true by (symmetry; apply Nat.ltb_lt; lia).
        replace (r <? n)%nat with true by (symmetry; apply Nat.ltb_lt; lia).
        reflexivity.
Qed.

End BulkLoops.

Section BulkPasses.

Context {R : Type} {RA : RealArith R}.

Local Open Scope real_scope.

Lemma w_vector_rd (n : nat) (M : list R) (i : nat) (V E W : list R) :
  length W = n -> (forall r, rd V r = vv_f n M i r) ->
  let t := rd M (i + n * (i + 1))%nat in
  let W' :=
    for_up 0 n
      (fun r W =>
         let W := upd W r R0 in
         let W := for_up (i + 1) n
                    (fun c W => upd W r (rd W r + rd V c * rd E (r + n * c)%nat)) W in
         upd W r (rd W r * t))
      W in
  length W' = n /\
  forall r, (r < n)%nat -> rd W' r = wdot_f n M i (entry n E r) * t.
Proof.
  intros HW HV t; cbv zeta.
  rewrite (for_up_ext_inv (fun W => length W = n) 0 n _
             (fun r W => upd W r (wdot_f n M i (entry n E r) * t))).
  - destruct (for_up_store (fun r => wdot_f n M i (entry n E r) * t) 0 n W R0)
      as [Hl Hn].
    cbv beta in Hl, Hn.
    split; [lia|].
    intros r Hr; unfold rd at 1; rewrite Hn, HW.
    replace (r <? n)%nat with true by (symmetry; apply Nat.ltb_lt; lia).
    reflexivity.
  - exact HW.
  - intros r W0 _ HW0; cbv beta in *; rewrite length_upd; exact HW0.
  - intros r W0 Hr HW0; cbv beta in HW0.
    rewrite (accumulate_cell (i + 1) n r
               (fun c => rd V c * rd E (r + n * c)%nat) (upd W0 r R0)).
    rewrite !upd_upd.
    assert (Hcell : forall a, rd (upd W0 r a) r = a)
      by (intros a; apply nth_upd_eq; lia).
    rewrite !Hcell.
    do 2 f_equal.
    unfold wdot_f; apply for_up_ext.
    intros c acc _; rewrite HV; reflexivity.
Qed.

Lemma q_update_rd (n lo : nat) (v w : nat -> R) (E : list R) :
  length E = (n * n)%nat -> (lo <= n)%nat ->
  let E' :=
    for_up lo n
      (fun r E =>
         for_up 0 n
           (fun c E => upd E (c + n * r)%nat (rd E (c + n * r)%nat - v r * w c)) E)
      E in
  length E' = (n * n)%nat /\
  forall c r, (c < n)%nat -> (r < n)%nat ->
    entry n E' c r
    = if (lo <=? r)%nat then entry n E c r - v r * w c else entry n E c r.
Proof.
  intros HE Hlo; cbv zeta.
  set (body := fun r E =>
         for_up 0 n
           (fun c E => upd E (c + n * r)%nat (rd E (c + n * r)%nat - v r * w c)) E).
  assert (Hinv :
    length (for_up lo n body E) = (n * n)%nat /\
    forall c r, (c < n)%nat -> (r < n)%nat ->
      entry n (for_up lo n body E) c r
      = if (lo <=? r)%nat && (r <? n)%nat
        then entry n E c r - v r * w c else entry n E c r).
  { apply (for_up_inv
             (fun r0 E' =>
                length E' = (n * n)%nat /\
                forall c r, (c < n)%nat -> (r < n)%nat ->
                  entry n E' c r
                  = if (lo <=? r)%nat && (r <? r0)%nat
                    then entry n E c r - v r * w c else entry n E c r));
      [exact Hlo| |].
    - split; [exact HE|].
      intros c r _ _.
      destruct (lo <=? r)%nat eqn:H1, (r <? lo)%nat eqn:H2; simpl; auto.
      apply Nat.leb_le in H1; apply Nat.ltb_lt in H2; lia.
    - intros r0 E' Hr0 [Hlen Hdone]; subst body; cbv beta.
      destruct (row_update_rd n r0 (v r0) w E' Hlen) as [Hl Hrow]; [lia|].
      cbv zeta in Hl, Hrow.
      split; [exact Hl|].
      intros c r Hc Hr; rewrite Hrow, Hdone by assumption.
      destruct (Nat.eqb_spec r r0) as [->|Hne].
      + replace (r0 <? r0)%nat with false by (symmetry; apply Nat.ltb_ge; lia).
        replace (lo <=? r0)%nat with true by (symmetry; apply Nat.leb_le; lia).
        replace (r0 <? S r0)%nat with true by (symmetry; apply Nat.ltb_lt; lia).
        rewrite andb_false_r; reflexivity.
      + replace (r <? S r0)%nat with (r <? r0)%nat; [reflexivity|].
        destruct (Nat.ltb_spec r r0), (Nat.ltb_spec r (S r0)); auto; lia. }
  destruct Hinv as [Hl Hent]; split; [exact Hl|].
  intros c r Hc Hr; rewrite Hent by assumption.
  replace (r <? n)%nat with true by (symmetry; apply Nat.ltb_lt; lia).
  rewrite andb_true_r; reflexivity.
Qed.

(** One pass of the backward accumulation acts on each column of [Q]
    as [accum_f]. *)
Lemma householder_accumulate_rd (n : nat) (M : list R) (i : nat) (E V W : list R) :
  length E = (n * n)%nat -> length V = n -> length W = n -> (i + 1 < n)%nat ->
  exists E' V' W',
    householder_accumulate n M i (E, V, W) = (E', V', W') /\
    length E' = (n * n)%nat /\ length V' = n /\ length W' = n /\
    forall c r, (c < n)%nat -> (r < n)%nat ->
      entry n E' c r = accum_f n M i (entry n E c) r.
Proof.
  intros HE HV HW Hi; unfold householder_accumulate.
  do 3 eexists; split; [reflexivity|].
  destruct (householder_vector_rd n M i V HV Hi) as [HlV HrV].
  cbv zeta in HlV, HrV.
  set (V3 := for_up (i + 2) n (fun r V => upd V r (rd M (i + n * r)%nat))
               (upd (for_up 0 (i + 1) (fun r V => upd V r R0) V) (i + 1) R1)) in *.
  destruct (w_vector_rd n M i V3 E W HW HrV) as [HlW HrW].
  cbv zeta in HlW, HrW.
  set (t := rd M (i + n * (i + 1))%nat) in *.
  set (W' := for_up 0 n _ W) in *.
  destruct (q_update_rd n (i + 1) (rd V3) (rd W') E HE) as [HlE HrE]; [lia|].
  cbv zeta in HlE, HrE.
  repeat split; try assumption.
  intros c r Hc Hr; rewrite HrE by assumption.
  unfold accum_f.
  replace (n <=? r)%nat with false by (symmetry; apply Nat.leb_gt; lia).
  destruct (i + 1 <=? r)%nat; [|reflexivity].
  rewrite HrV, HrW by assumption; reflexivity.
Qed.

Lemma givens_multiply_rd (n : nat) (g : GivensRotation R) (E : list R) :
  length E = (n * n)%nat -> (Z.to_nat (index g) + 1 < n)%nat ->
  length (givens_multiply n E g) = (n * n)%nat /\
  forall c r, (c < n)%nat -> (r < n)%nat ->
    entry n (givens_multiply n E g) c r = givens_f g (entry n E) c r.
Proof.
  intros HE Hk; unfold givens_multiply.
  set (k := Z.to_nat (index g)) in *.
  set (body := fun r E =>
         upd (upd E (k + n * r)%nat
                (cs g * rd E (k + n * r)%nat - sn g * rd E (k + n * r + 1)%nat))
             (k + n * r + 1)%nat
             (sn g * rd E (k + n * r)%nat + cs g * rd E (k + n * r + 1)%nat)).
  change (length (for_up 0 n body E) = (n * n)%nat /\
          forall c r, (c < n)%nat -> (r < n)%nat ->
            entry n (for_up 0 n body E) c r = givens_f g (entry n E) c r).
  assert (Hinv :
    length (for_up 0 n body E) = (n * n)%nat /\
    forall c r, (c < n)%nat -> (r < n)%nat ->
      entry n (for_up 0 n body E) c r
      = if (r <? n)%nat then givens_f g (entry n E) c r else entry n E c r).
  { apply (for_up_inv
             (fun r0 E' =>
                length E' = (n * n)%nat /\
                forall c r, (c < n)%nat -> (r < n)%nat ->
                  entry n E' c r
                  = if (r <? r0)%nat then givens_f g (entry n E) c r
                    else entry n E c r));
      [lia| |].
    - split; [exact HE|intros; reflexivity].
    - intros r0 E' Hr0 [Hlen Hdone]; subst body; cbv beta.
      replace (k + n * r0 + 1)%nat with ((k + 1) + n * r0)%nat by lia.
      assert (Hq0 : rd E' (k + n * r0)%nat = entry n E k r0).
      { change (rd E' (k + n * r0)%nat) with (entry n E' k r0).
        rewrite Hdone by lia.
        replace (r0 <? r0)%nat with false by (symmetry; apply Nat.ltb_ge; lia).
        reflexivity. }
      assert (Hq1 : rd E' ((k + 1) + n * r0)%nat = entry n E (k + 1) r0).
      { change (rd E' ((k + 1) + n * r0)%nat) with (entry n E' (k + 1) r0).
        rewrite Hdone by lia.
        replace (r0 <? r0)%nat with false by (symmetry; apply Nat.ltb_ge; lia).
        reflexivity. }
      rewrite Hq0, Hq1.
      split; [rewrite !length_upd; exact Hlen|].
      intros c r Hc Hr; unfold entry at 1, rd.
      assert (Hb0 : (k + n * r0 < n * n)%nat) by nia.
      assert (Hb1 : (k + 1 + n * r0 < n * n)%nat) by nia.
      destruct (Nat.eq_dec r r0) as [->|Hr'].
      + replace (r0 <? S r0)%nat with true by (symmetry; apply Nat.ltb_lt; lia).
        unfold givens_f; fold k.
        destruct (Nat.eqb_spec c k) as [->|Hck].
        * rewrite nth_upd_ne by lia.
          rewrite nth_upd_eq by lia; reflexivity.
        * destruct (Nat.eqb_spec c (k + 1)) as [->|Hck1].
          -- rewrite nth_upd_eq by (rewrite length_upd; lia); reflexivity.
          -- rewrite !nth_upd_ne by lia.
             fold (rd E' (c + n * r0)); fold (entry n E' c r0).
             rewrite Hdone by lia.
             replace (r0 <? r0)%nat with false by (symmetry; apply Nat.ltb_ge; lia).
             reflexivity.
      + rewrite !nth_upd_ne by nia.
        fold (rd E' (c + n * r)); fold (entry n E' c r).
        rewrite Hdone by lia.
        replace (r <? S r0)%nat with (r <? r0)%nat; [reflexivity|].
        destruct (Nat.ltb_spec r r0), (Nat.ltb_spec r (S r0)); auto; lia. }
  destruct Hinv as [Hl Hent]; split; [exact Hl|].
  intros c r Hc Hr; rewrite Hent by assumption.
  replace (r <? n)%nat with true by (symmetry; apply Nat.ltb_lt; lia).
  reflexivity.
Qed.

End BulkPasses.

(* ================================================================== *)
(** ** Exact arithmetic: the bulk path column by column *)

Section Exact.

Context {R : Type} {RA : RealArith R}.

(** The operations of [Real] obey the laws of a commutative ring: no
    rounding. *)
Hypothesis Rring : ring_theory R0 R1 Radd Rmul Rsub Ropp (@eq R).

Add Ring RealRing : Rring.

Local Open Scope real_scope.

Lemma vv_f_pivot n M i : (i + 1 < n)%nat -> vv_f n M i (i + 1) = R1.
Proof. intros Hi; unfold vv_f; nat_cases; reflexivity. Qed.

Lemma vv_f_tail n M i r :
  (i + 2 <= r < n)%nat -> vv_f n M i r = rd M (i + n * r)%nat.
Proof. intros Hr; unfold vv_f; nat_cases; reflexivity. Qed.

Lemma wdot_dot_tail n M i (x : vec) :
  (i + 1 < n)%nat -> wdot_f n M i x = dot_tail n M i x.
Proof.
  intros Hi; unfold wdot_f, dot_tail.
  rewrite for_up_cons by lia.
  replace (S (i + 1)) with (i + 2)%nat by lia.
  rewrite vv_f_pivot by exact Hi.
  replace (R0 + R1 * x (i + 1)%nat) with (x (i + 1)%nat) by ring.
  apply for_up_ext; intros j s Hj.
  rewrite vv_f_tail by lia; ring.
Qed.

(** With exact arithmetic a pass of the backward accumulation reflects
    every column as [reflect] does. *)
Lemma accum_refl n M i (x : vec) r :
  (i + 1 < n)%nat -> accum_f n M i x r = refl_f n M i x r.
Proof.
  intros Hi; unfold accum_f, refl_f; cbv zeta.
  rewrite wdot_dot_tail by exact Hi.
  destruct (Nat.leb_spec n r) as [Hnr|Hnr]; [reflexivity|].
  destruct (Nat.leb_spec (i + 1) r) as [Hir|Hir].
  - replace (r <=? i)%nat with false by (symmetry; apply Nat.leb_gt; lia).
    destruct (Nat.eqb_spec r (i + 1)) as [->|Hne].
    + rewrite vv_f_pivot by exact Hi; ring.
    + rewrite vv_f_tail by lia; ring.
  - replace (r <=? i)%nat with true by (symmetry; apply Nat.leb_le; lia).
    reflexivity.
Qed.

Lemma entry_overflow n (E : list R) c r :
  length E = (n * n)%nat -> (n <= r)%nat -> entry n E c r = R0.
Proof. intros HE Hr; unfold entry; apply rd_overflow; nia. Qed.

Lemma refl_f_overflow n M i (x : vec) r :
  (n <= r)%nat -> refl_f n M i x r = x r.
Proof.
  intros Hr; unfold refl_f; cbv zeta.
  replace (n <=? r)%nat with true by (symmetry; apply Nat.leb_le; lia).
  reflexivity.
Qed.

(** The backward accumulation applies the reflections of columns
    [m - 1 .. 0] to every column of [Q]. *)
Lemma householder_accumulate_all (n : nat) (M : list R) :
  forall m E V W,
    (m + 1 < n \/ m = 0)%nat ->
    length E = (n * n)%nat -> length V = n -> length W = n ->
    exists E' V' W',
      for_down 0 m (householder_accumulate n M) (E, V, W) = (E', V', W') /\
      length E' = (n * n)%nat /\ length V' = n /\ length W' = n /\
      forall c r, (c < n)%nat -> (r < n)%nat ->
        entry n E' c r = house_f n M m (entry n E c) r.
Proof.
  induction m as [|m IH]; intros E V W Hm HE HV HW.
  - exists E, V, W; unfold house_f; rewrite !for_down_nil by lia.
    repeat split; auto.
  - rewrite for_down_snoc by lia.
    destruct (householder_accumulate_rd n M m E V W HE HV HW)
      as (E1 & V1 & W1 & Heq & HE1 & HV1 & HW1 & Hent1); [lia|].
    rewrite Heq.
    destruct (IH E1 V1 W1) as (E' & V' & W' & Heq' & HE' & HV' & HW' & Hent');
      try assumption; [lia|].
    exists E', V', W'; repeat split; try assumption.
    intros c r Hc Hr; rewrite Hent' by assumption.
    rewrite house_f_succ; apply house_f_ext.
    intros r'; destruct (Nat.lt_ge_cases r' n) as [Hr'|Hr'].
    + rewrite Hent1 by assumption; apply accum_refl; lia.
    + rewrite refl_f_overflow by exact Hr'.
      rewrite !entry_overflow by assumption; reflexivity.
Qed.

(* ------------------------------------------------------------------ *)
(** *** Linearity of the single-vector path *)

Lemma unwind_f_linear g : linear (unwind_f g).
Proof.
  intros a b x y r; unfold unwind_f; cbv zeta.
  destruct (r =? Z.to_nat (index g))%nat; [ring|].
  destruct (r =? Z.to_nat (index g) + 1)%nat; ring.
Qed.

Lemma for_up_sum_linear lo hi (m : nat -> R) a b (x y : vec) x0 y0 :
  for_up lo hi (fun j s => s + (a * x j + b * y j) * m j) (a * x0 + b * y0)
  = a * for_up lo hi (fun j s => s + x j * m j) x0
    + b * for_up lo hi (fun j s => s + y j * m j) y0.
Proof.
  destruct (Nat.le_gt_cases lo hi) as [Hle|Hgt].
  - induction hi as [|hi IH].
    + rewrite !for_up_nil by lia; reflexivity.
    + destruct (Nat.eq_dec lo (S hi)) as [Heq|Hne].
      * rewrite !for_up_nil by lia; reflexivity.
      * rewrite !for_up_snoc by lia.
        rewrite IH by lia; ring.
  - rewrite !for_up_nil by lia; reflexivity.
Qed.

Lemma dot_tail_linear n M i a b (x y : vec) :
  dot_tail n M i (fun k => a * x k + b * y k)
  = a * dot_tail n M i x + b * dot_tail n M i y.
Proof.
  unfold dot_tail.
  apply (for_up_sum_linear (i + 2) n (fun j => rd M (i + n * j)%nat)).
Qed.

Lemma refl_f_linear n M i : linear (refl_f n M i).
Proof.
  intros a b x y r; unfold refl_f; cbv zeta.
  rewrite dot_tail_linear.
  destruct (n <=? r)%nat; [reflexivity|].
  destruct (r <=? i)%nat; [reflexivity|].
  destruct (r =? i + 1)%nat; ring.
Qed.

Lemma linear_compose (T1 T2 : vec -> vec) :
  linear T1 -> linear T2 -> extensional T2 ->
  linear (fun x => T2 (T1 x)).
Proof.
  intros H1 H2 He a b x y r.
  rewrite <- H2; apply He; intros k; apply H1.
Qed.

Lemma house_f_linear n M m : linear (house_f n M m).
Proof.
  induction m as [|m IH]; intros a b x y r.
  - unfold house_f; rewrite !for_down_nil by lia; reflexivity.
  - rewrite !house_f_succ.
    apply (linear_compose (refl_f n M m) (house_f n M m));
      [apply refl_f_linear|exact IH|apply house_f_ext].
Qed.

Lemma unwind_all_linear G : linear (unwind_all G).
Proof.
  induction G as [|g G IH] using rev_ind; intros a b x y r.
  - reflexivity.
  - rewrite !unwind_all_snoc.
    apply (linear_compose (unwind_f g) (unwind_all G));
      [apply unwind_f_linear|exact IH|apply unwind_all_ext].
Qed.

Lemma single_f_linear n M G : linear (single_f n M G).
Proof.
  unfold single_f.
  apply (linear_compose (unwind_all G) (house_f n M (n - 2)));
    [apply unwind_all_linear|apply house_f_linear|apply house_f_ext].
Qed.

Lemma single_f_snoc n M G g (x : vec) :
  single_f n M (G ++ [g]) x = single_f n M G (unwind_f g x).
Proof. unfold single_f; rewrite unwind_all_snoc; reflexivity. Qed.

(** A rotation undone on a basis vector. *)
Lemma unwind_basis (g : GivensRotation R) (c : nat) :
  let k := Z.to_nat (index g) in
  forall j,
    unwind_f g (basis_f c) j
    = if (c =? k)%nat then cs g * basis_f k j + (- sn g) * basis_f (k + 1) j
      else if (c =? k + 1)%nat then sn g * basis_f k j + cs g * basis_f (k + 1) j
      else basis_f c j.
Proof.
  intros k j; unfold unwind_f; fold k; unfold basis_f.
  destruct (Nat.eqb_spec c k) as [->|Hck];
    [|destruct (Nat.eqb_spec c (k + 1)) as [->|Hck1]];
    nat_cases; ring.
Qed.

(** The rotations multiplied onto [Q] give, in column [c], the
    single-vector path from the basis vector [c]. *)
Lemma givens_multiply_all (n : nat) (M : list R) (E0 : list R) :
  length E0 = (n * n)%nat ->
  (forall c r, (c < n)%nat -> (r < n)%nat ->
     entry n E0 c r = house_f n M (n - 2) (basis_f c) r) ->
  forall G, Forall (givens_in_range n) G ->
    length (fold_left (givens_multiply n) G E0) = (n * n)%nat /\
    forall c r, (c < n)%nat -> (r < n)%nat ->
      entry n (fold_left (givens_multiply n) G E0) c r
      = single_f n M G (basis_f c) r.
Proof.
  intros HE0 Hent0 G; induction G as [|g G IH] using rev_ind; intros HG.
  - simpl; split; [exact HE0|exact Hent0].
  - apply Forall_app in HG; destruct HG as [HG Hg].
    apply Forall_cons_iff in Hg; destruct Hg as [[_ Hk] _].
    destruct (IH HG) as [Hl Hent].
    rewrite fold_left_app; simpl.
    destruct (givens_multiply_rd n g _ Hl Hk) as [Hl' Hent'].
    split; [exact Hl'|].
    intros c r Hc Hr; rewrite Hent' by assumption.
    rewrite single_f_snoc.
    rewrite (single_f_ext n M G _ _ (unwind_basis g c)).
    unfold givens_f.
    set (k := Z.to_nat (index g)) in *.
    destruct (Nat.eqb_spec c k) as [->|Hck].
    + rewrite single_f_linear, !Hent by lia; ring.
    + destruct (Nat.eqb_spec c (k + 1)) as [->|Hck1].
      * rewrite single_f_linear, !Hent by lia; ring.
      * apply Hent; assumption.
Qed.

End Exact.

(* ================================================================== *)
(** ** The column permutation of [GetEigenvectors] *)

Lemma for_up_opt_snoc {St} lo hi (body : nat -> St -> option St) s :
  (lo <= hi)%nat ->
  for_up_opt lo (S hi) body s
  = match for_up_opt lo hi body s with
    | Some s' => body hi s'
    | None => None
    end.
Proof.
  intros Hle; unfold for_up_opt.
  replace (S hi - lo)%nat with (S (hi - lo)) by lia.
  rewrite seq_S, fold_left_app; simpl.
  replace (lo + (hi - lo))%nat with hi by lia; reflexivity.
Qed.

(** The invariant rule of a loop whose body may fail to return. *)
Lemma for_up_opt_inv {St} (P : nat -> St -> Prop) lo hi
    (body : nat -> St -> option St) s :
  (lo <= hi)%nat ->
  P lo s ->
  (forall i s, (lo <= i < hi)%nat -> P i s ->
     exists s', body i s = Some s' /\ P (S i) s') ->
  exists s', for_up_opt lo hi body s = Some s' /\ P hi s'.
Proof.
  intros Hle H0 Hstep.
  induction hi as [|hi IH].
  - assert (lo = 0)%nat by lia; subst; exists s; split; [reflexivity|exact H0].
  - destruct (Nat.eq_dec lo (S hi)) as [->|Hne].
    + exists s; split; [|exact H0].
      unfold for_up_opt; rewrite Nat.sub_diag; reflexivity.
    + destruct IH as (s1 & Heq & HP); [lia|intros; apply Hstep; auto; lia|].
      rewrite for_up_opt_snoc by lia; rewrite Heq.
      apply Hstep; [lia|exact HP].
Qed.

Section ColumnLoops.

Context {R : Type} {RA : RealArith R}.

(** Column [a] of [Q] overwritten with column [b]. *)
Lemma column_copy_rd (n a b : nat) (E : list R) :
  length E = (n * n)%nat -> (a < n)%nat -> (b < n)%nat -> a <> b ->
  let E' := for_up 0 n
              (fun j E => upd E (a + n * j)%nat (rd E (b + n * j)%nat)) E in
  length E' = (n * n)%nat /\
  forall c r, (c < n)%nat -> (r < n)%nat ->
    entry n E' c r = if (c =? a)%nat then entry n E b r else entry n E c r.
Proof.
  intros HE Ha Hb Hab; cbv zeta.
  rewrite (for_up_ext_inv
             (fun E' => length E' = (n * n)%nat /\
                        forall j, (j < n)%nat ->
                          rd E' (b + n * j)%nat = rd E (b + n * j)%nat)
             0 n _
             (fun j E' => upd E' (a + n * j)%nat (rd E (b + n * j)%nat))).
  - destruct (for_up_cells n (fun j => a + n * j)%nat
                (fun j _ => rd E (b + n * j)%nat) E) as (Hl & Hcol & Hrest).
    + intros j Hj; rewrite HE; nia.
    + intros j j' _ _ Heq; nia.
    + cbv beta in Hl, Hcol, Hrest.
      split; [lia|].
      intros c r Hc Hr; unfold entry.
      destruct (Nat.eqb_spec c a) as [->|Hne].
      * apply Hcol; exact Hr.
      * apply Hrest; intros j Hj Heq.
        destruct (flat_index_inj n a j c r Ha Hc Heq); lia.
  - split; [exact HE|reflexivity].
  - intros j E' Hj [Hl Hsrc]; split; [rewrite length_upd; exact Hl|].
    intros j' Hj'; unfold rd at 1.
    rewrite nth_upd_ne; [apply Hsrc; exact Hj'|].
    intros Heq; destruct (flat_index_inj n a j b j' Ha Hb Heq); lia.
  - intros j E' Hj [Hl Hsrc]; cbv beta.
    rewrite Hsrc by lia; reflexivity.
Qed.

(** Column [a] of [Q] overwritten with the saved vector [P]. *)
Lemma column_set_rd (n a : nat) (P E : list R) :
  length E = (n * n)%nat -> (a < n)%nat ->
  let E' := for_up 0 n (fun j E => upd E (a + n * j)%nat (rd P j)) E in
  length E' = (n * n)%nat /\
  forall c r, (c < n)%nat -> (r < n)%nat ->
    entry n E' c r = if (c =? a)%nat then rd P r else entry n E c r.
Proof.
  intros HE Ha; cbv zeta.
  destruct (for_up_cells n (fun j => a + n * j)%nat (fun j _ => rd P j) E)
    as (Hl & Hcol & Hrest).
  - intros j Hj; rewrite HE; nia.
  - intros j j' _ _ Heq; nia.
  - cbv beta in Hl, Hcol, Hrest.
    split; [lia|].
    intros c r Hc Hr; unfold entry.
    destruct (Nat.eqb_spec c a) as [->|Hne].
    + apply Hcol; exact Hr.
    + apply Hrest; intros j Hj Heq.
      destruct (flat_index_inj n a j c r Ha Hc Heq); lia.
Qed.

(** Column [a] of [Q] saved in [P]. *)
Lemma column_save_rd (n a : nat) (P E : list R) :
  length P = n ->
  let P' := for_up 0 n (fun j P => upd P j (rd E (a + n * j)%nat)) P in
  length P' = n /\ forall r, (r < n)%nat -> rd P' r = entry n E a r.
Proof.
  intros HP; cbv zeta.
  destruct (for_up_store (fun j => rd E (a + n * j)%nat) 0 n P R0) as [Hl Hn].
  cbv beta in Hl, Hn.
  split; [lia|].
  intros r Hr; unfold rd at 1; rewrite Hn, HP.
  replace (r <? n)%nat with true by (symmetry; apply Nat.ltb_lt; lia).
  reflexivity.
Qed.

End ColumnLoops.

Lemma is_permutation_range (n : nat) (perm : list Z) (c : nat) :
  is_permutation n perm -> (c < n)%nat ->
  rdz perm c = Z.of_nat (perm_at perm c) /\ (perm_at perm c < n)%nat.
Proof.
  intros Hp Hc; unfold perm_at, rdz.
  assert (Hlen : length perm = n)
    by (rewrite <- (Permutation_length Hp), length_map, length_seq; reflexivity).
  assert (Hin : In (nth c perm 0%Z) (map Z.of_nat (seq 0 n))).
  { apply Permutation_in with (l := perm); [symmetry; exact Hp|].
    apply nth_In; lia. }
  apply in_map_iff in Hin; destruct Hin as (k & Hk & Hk').
  apply in_seq in Hk'; rewrite <- Hk, Nat2Z.id; split; [reflexivity|lia].
Qed.

Lemma is_permutation_inj (n : nat) (perm : list Z) (c c' : nat) :
  is_permutation n perm -> (c < n)%nat -> (c' < n)%nat ->
  perm_at perm c = perm_at perm c' -> c = c'.
Proof.
  intros Hp Hc Hc' Heq.
  assert (Hlen : length perm = n)
    by (rewrite <- (Permutation_length Hp), length_map, length_seq; reflexivity).
  assert (Hnd : NoDup perm).
  { apply (Permutation_NoDup Hp).
    apply NoDup_map_NoDup_ForallPairs; [|apply seq_NoDup].
    intros a b _ _ Hab; lia. }
  apply (proj1 (NoDup_nth perm 0%Z) Hnd); try lia.
  destruct (is_permutation_range n perm c Hp Hc) as [H1 _].
  destruct (is_permutation_range n perm c' Hp Hc') as [H2 _].
  unfold rdz in H1, H2; rewrite H1, H2, Heq; reflexivity.
Qed.

Section Cycles.

Context {R : Type} {RA : RealArith R}.

Variable n : nat.
Variable perm : list Z.
Hypothesis Hperm : is_permutation n perm.

Local Abbreviation pi := (perm_at perm).

Section Walk.

(** The index the walk starts from. *)
Variable i : nat.
Hypothesis Hi : (i < n)%nat.

Lemma orbit_lt k : (orbit perm i k < n)%nat.
Proof.
  induction k as [|k IH]; [exact Hi|].
  apply (is_permutation_range n perm (orbit perm i k) Hperm IH).
Qed.

Lemma orbit_next k : rdz perm (orbit perm i k) = Z.of_nat (orbit perm i (S k)).
Proof. apply (is_permutation_range n perm (orbit perm i k) Hperm (orbit_lt k)). Qed.

Lemma orbit_distinct M :
  (forall k, (0 < k <= M)%nat -> orbit perm i k <> i) ->
  forall j k, (j < k <= M)%nat -> orbit perm i j <> orbit perm i k.
Proof.
  intros Hback; induction j as [|j IH]; intros k Hk.
  - intros Heq; apply (Hback k); [lia|symmetry; exact Heq].
  - destruct k as [|k]; [lia|].
    intros Heq; apply (IH k); [lia|].
    apply (is_permutation_inj n perm _ _ Hperm (orbit_lt j) (orbit_lt k)).
    exact Heq.
Qed.

(** A walk that has not come back has seen [m + 1] different indices. *)
Lemma orbit_bound m :
  (forall k, (0 < k <= m)%nat -> orbit perm i k <> i) -> (m < n)%nat.
Proof.
  intros Hback.
  assert (Hnd : NoDup (map (orbit perm i) (seq 0 (S m)))).
  { apply NoDup_map_NoDup_ForallPairs; [|apply seq_NoDup].
    intros a b Ha Hb Hab; apply in_seq in Ha; apply in_seq in Hb.
    destruct (Nat.lt_trichotomy a b) as [Hlt|[Heq|Hgt]]; [exfalso|exact Heq|exfalso].
    - apply (orbit_distinct m Hback a b); [lia|exact Hab].
    - apply (orbit_distinct m Hback b a); [lia|symmetry; exact Hab]. }
  assert (Hincl : incl (map (orbit perm i) (seq 0 (S m))) (seq 0 n)).
  { intros x Hx; apply in_map_iff in Hx; destruct Hx as (k & <- & _).
    apply in_seq; pose proof (orbit_lt k); lia. }
  pose proof (NoDup_incl_length Hnd Hincl) as Hlen.
  rewrite length_map, !length_seq in Hlen; lia.
Qed.

Lemma in_orbit_S m c :
  in_orbit perm i (S m) c = in_orbit perm i m c || (c =? orbit perm i m)%nat.
Proof.
  unfold in_orbit; rewrite seq_S, existsb_app; simpl.
  rewrite orb_false_r; reflexivity.
Qed.

Lemma in_orbit_iff m c :
  in_orbit perm i m c = true <-> exists k, (k < m)%nat /\ c = orbit perm i k.
Proof.
  unfold in_orbit; rewrite existsb_exists; split.
  - intros (k & Hk & Hc); apply in_seq in Hk; apply Nat.eqb_eq in Hc.
    exists k; split; [lia|exact Hc].
  - intros (k & Hk & Hc); exists k; split; [apply in_seq; lia|].
    apply Nat.eqb_eq; exact Hc.
Qed.

Lemma in_orbit_closed L c :
  orbit perm i (S L) = i -> in_orbit perm i (S L) c = true -> in_orbit perm i (S L) (pi c) = true.
Proof.
  intros Hback Hc; apply in_orbit_iff in Hc; destruct Hc as (k & Hk & ->).
  apply in_orbit_iff.
  destruct (Nat.eq_dec k L) as [->|Hne].
  - exists 0%nat; split; [lia|exact Hback].
  - exists (S k); split; [lia|reflexivity].
Qed.

Lemma in_orbit_closed_inv L c :
  orbit perm i (S L) = i -> (c < n)%nat ->
  in_orbit perm i (S L) (pi c) = true -> in_orbit perm i (S L) c = true.
Proof.
  intros Hback Hc Hpc; apply in_orbit_iff in Hpc; destruct Hpc as (k & Hk & Heq).
  apply in_orbit_iff.
  destruct k as [|k].
  - exists L; split; [lia|].
    apply (is_permutation_inj n perm _ _ Hperm Hc (orbit_lt L)).
    rewrite Heq; symmetry; exact Hback.
  - exists k; split; [lia|].
    apply (is_permutation_inj n perm _ _ Hperm Hc (orbit_lt k)).
    exact Heq.
Qed.

(** The buffer and the visited flags when the walk starts. *)
Variable E : list R.
Variable visited : list Z.
Hypothesis HE : length E = (n * n)%nat.
Hypothesis Hvisited : length visited = n.

Lemma walked_pass m Em vm tm :
  (forall k, (0 < k <= S m)%nat -> orbit perm i k <> i) ->
  walked n perm i E visited m (Em, vm, tm) ->
  walked n perm i E visited (S m)
    (for_up 0 n
       (fun j E => upd E (orbit perm i m + n * j)%nat (rd E (orbit perm i (S m) + n * j)%nat)) Em,
     upd vm (orbit perm i m) 1%Z,
     flip_type tm).
Proof.
  intros Hback (HlE & Hlv & Hent & Hvis).
  pose proof (orbit_lt m) as Hm; pose proof (orbit_lt (S m)) as HSm.
  assert (Hne : orbit perm i m <> orbit perm i (S m))
    by (apply (orbit_distinct (S m) Hback); lia).
  destruct (column_copy_rd n (orbit perm i m) (orbit perm i (S m)) Em HlE Hm HSm Hne)
    as [HlE' Hent'].
  cbv zeta in HlE', Hent'.
  assert (Hfresh : in_orbit perm i m (orbit perm i (S m)) = false).
  { destruct (in_orbit perm i m (orbit perm i (S m))) eqn:Hin; [exfalso|reflexivity].
    apply in_orbit_iff in Hin; destruct Hin as (k & Hk & Heq).
    apply (orbit_distinct (S m) Hback k (S m)); [lia|symmetry; exact Heq]. }
  split; [exact HlE'|split; [rewrite length_upd; exact Hlv|split]].
  - intros c r Hc Hr; rewrite Hent', in_orbit_S by assumption.
    destruct (Nat.eqb_spec c (orbit perm i m)) as [->|Hc'].
    + rewrite orb_true_r, Hent, Hfresh by assumption; reflexivity.
    + rewrite orb_false_r; apply Hent; assumption.
  - intros c Hc; rewrite in_orbit_S; unfold rdz at 1.
    destruct (Nat.eqb_spec c (orbit perm i m)) as [->|Hc'].
    + rewrite orb_true_r; apply nth_upd_eq; lia.
    + rewrite orb_false_r, nth_upd_ne by lia; apply Hvis; exact Hc.
Qed.

(** The [while] loop returns: it stops at the last index [orbit perm i L] of
    the cycle, with the columns before it shifted. *)
Lemma cycle_walk_returns : forall fuel m s,
  (m + fuel = n)%nat ->
  (forall k, (0 < k <= m)%nat -> orbit perm i k <> i) ->
  walked n perm i E visited m s ->
  exists L s',
    cycle_walk fuel n perm (Z.of_nat i) (Z.of_nat (orbit perm i m)) s
      = Some (Z.of_nat (orbit perm i L), s') /\
    orbit perm i (S L) = i /\ walked n perm i E visited L s'.
Proof.
  induction fuel as [|fuel IH]; intros m s Hfuel Hback Hw.
  - pose proof (orbit_bound m Hback); lia.
  - destruct s as [[Em vm] tm].
    rewrite cycle_walk_pass, Nat2Z.id, orbit_next.
    destruct (Nat.eq_dec (orbit perm i (S m)) i) as [Heq|Hne].
    + replace (Z.of_nat (orbit perm i (S m)) =? Z.of_nat i)%Z with true
        by (symmetry; apply Z.eqb_eq; lia).
      exists m; eexists; split; [reflexivity|split; assumption].
    + replace (Z.of_nat (orbit perm i (S m)) =? Z.of_nat i)%Z with false
        by (symmetry; apply Z.eqb_neq; lia).
      rewrite Nat2Z.id.
      assert (Hback' : forall k, (0 < k <= S m)%nat -> orbit perm i k <> i).
      { intros k Hk; destruct (Nat.eq_dec k (S m)) as [->|Hk'];
          [exact Hne|apply Hback; lia]. }
      apply (IH (S m)); [lia|exact Hback'|].
      apply walked_pass; assumption.
Qed.

(** One nontrivial cycle of the column loop. *)
Lemma permute_cycle_returns (P : list R) (ty : Z) :
  rdz visited i = 0%Z -> pi i <> i -> length P = n ->
  exists L E' v' P' ty',
    permute_cycle n perm i (E, visited, P, ty) = Some (E', v', P', ty') /\
    orbit perm i (S L) = i /\
    length E' = (n * n)%nat /\ length v' = n /\ length P' = n /\
    (forall c r, (c < n)%nat -> (r < n)%nat ->
       entry n E' c r
       = if in_orbit perm i (S L) c then entry n E (pi c) r else entry n E c r) /\
    (forall c, (c < n)%nat ->
       rdz v' c = if in_orbit perm i (S L) c then 1%Z else rdz visited c).
Proof.
  intros Hfresh Hmove HP; unfold permute_cycle.
  rewrite Hfresh; simpl.
  replace (rdz perm i =? Z.of_nat i)%Z with false.
  2:{ symmetry; apply Z.eqb_neq.
      destruct (is_permutation_range n perm i Hperm Hi) as [Hr _].
      rewrite Hr; lia. }
  simpl.
  destruct (column_save_rd n i P E HP) as [HlP HrP].
  cbv zeta in HlP, HrP.
  set (P1 := for_up 0 n (fun j P => upd P j (rd E (i + n * j)%nat)) P) in *.
  destruct (cycle_walk_returns n 0 (E, visited, ty)) as (L & s' & Heq & Hback & Hw).
  - lia.
  - intros k Hk; lia.
  - repeat split; auto.
  - change (orbit perm i 0) with i in Heq; rewrite Heq.
    destruct s' as [[E1 v1] t1]; destruct Hw as (HlE & Hlv & Hent & Hvis).
    rewrite Nat2Z.id.
    pose proof (orbit_lt L) as HL.
    destruct (column_set_rd n (orbit perm i L) P1 E1 HlE HL) as [HlE' Hent'].
    cbv zeta in HlE', Hent'.
    exists L; do 4 eexists; split; [reflexivity|].
    split; [exact Hback|].
    split; [exact HlE'|split; [rewrite length_upd; exact Hlv|split; [exact HlP|split]]].
    + intros c r Hc Hr; rewrite Hent', in_orbit_S by assumption.
      destruct (Nat.eqb_spec c (orbit perm i L)) as [->|Hc'].
      * rewrite orb_true_r, HrP by assumption.
        change (pi (orbit perm i L)) with (orbit perm i (S L)); rewrite Hback; reflexivity.
      * rewrite orb_false_r; apply Hent; assumption.
    + intros c Hc; rewrite in_orbit_S; unfold rdz at 1.
      destruct (Nat.eqb_spec c (orbit perm i L)) as [->|Hc'].
      * rewrite orb_true_r; apply nth_upd_eq; lia.
      * rewrite orb_false_r, nth_upd_ne by lia; apply Hvis; exact Hc.
Qed.

End Walk.

End Cycles.

Section ColumnPermutation.

Context {R : Type} {RA : RealArith R}.

Variable n : nat.
Variable perm : list Z.
Hypothesis Hperm : is_permutation n perm.

Local Abbreviation pi := (perm_at perm).

(** The buffer before the column loop. *)
Variable E0 : list R.

Lemma pi_lt c : (c < n)%nat -> (pi c < n)%nat.
Proof. intros Hc; apply (is_permutation_range n perm c Hperm Hc). Qed.

Lemma permute_cycle_step (i : nat) (s : list R * list Z * list R * Z) :
  (i < n)%nat -> permuted_upto n perm E0 i s ->
  exists s', permute_cycle n perm i s = Some s' /\ permuted_upto n perm E0 (S i) s'.
Proof.
  intros Hi Hinv.
  destruct s as [[[E v] P] ty].
  destruct Hinv as (HlE & Hlv & HlP & Hfresh & Hdone & Hclosed & Hbelow).
  destruct (Z.eq_dec (rdz v i) 0) as [Hvi|Hvi];
    [destruct (Nat.eq_dec (pi i) i) as [Hfix|Hmove]|].
  - (* a fixed point *)
    exists (E, v, P, ty); split.
    + apply permute_cycle_skips; right.
      destruct (is_permutation_range n perm i Hperm Hi) as [Hr _].
      rewrite Hr, Hfix; reflexivity.
    + repeat split; auto; try apply Hclosed; auto.
      intros c Hc; destruct (Nat.eq_dec c i) as [->|Hne];
        [right; exact Hfix|apply Hbelow; lia].
  - (* the start of a cycle *)
    destruct (permute_cycle_returns n perm Hperm i Hi E v HlE Hlv P ty Hvi Hmove HlP)
      as (L & E' & v' & P' & ty' & Heq & Hback & HlE' & Hlv' & HlP' & Hent & Hvis).
    exists (E', v', P', ty'); split; [exact Heq|].
    assert (Horbit : forall k, rdz v (orbit perm i k) = 0%Z).
    { induction k as [|k IH]; [exact Hvi|].
      apply (Hclosed (orbit perm i k)); [apply (orbit_lt n perm Hperm i Hi)|exact IH]. }
    assert (Hin : forall c, in_orbit perm i (S L) c = true -> rdz v c = 0%Z).
    { intros c Hc; apply (in_orbit_iff n perm i Hi) in Hc; destruct Hc as (k & _ & ->).
      apply Horbit. }
    assert (Hsame : forall c, (c < n)%nat ->
              in_orbit perm i (S L) (pi c) = in_orbit perm i (S L) c).
    { intros c Hc.
      destruct (in_orbit perm i (S L) c) eqn:H1.
      - apply (in_orbit_closed n perm i Hi); assumption.
      - destruct (in_orbit perm i (S L) (pi c)) eqn:H2; [|reflexivity].
        rewrite (in_orbit_closed_inv n perm Hperm i Hi L c Hback Hc H2) in H1.
        discriminate. }
    split; [exact HlE'|split; [exact Hlv'|split; [exact HlP'|]]].
    split; [|split; [|split]].
    + intros c Hc Hv r Hr; rewrite Hvis in Hv by exact Hc.
      rewrite Hent by assumption.
      destruct (in_orbit perm i (S L) c); [discriminate|].
      apply Hfresh; assumption.
    + intros c Hc Hv r Hr; rewrite Hvis in Hv by exact Hc.
      rewrite Hent by assumption.
      destruct (in_orbit perm i (S L) c) eqn:Hc'.
      * apply Hfresh; [apply pi_lt; exact Hc| |exact Hr].
        apply Hin; apply (in_orbit_closed n perm i Hi); assumption.
      * apply Hdone; assumption.
    + intros c Hc; rewrite !Hvis by (try apply pi_lt; exact Hc).
      rewrite Hsame by exact Hc.
      destruct (in_orbit perm i (S L) c); [reflexivity|].
      apply Hclosed; exact Hc.
    + intros c Hc; rewrite Hvis by lia.
      destruct (Nat.eq_dec c i) as [->|Hne].
      * replace (in_orbit perm i (S L) i) with true; [left; lia|].
        symmetry; apply (in_orbit_iff n perm i Hi); exists 0%nat; split; [lia|reflexivity].
      * destruct (Hbelow c ltac:(lia)) as [Hv|Hfix]; [left|right; exact Hfix].
        destruct (in_orbit perm i (S L) c); [lia|exact Hv].
  - (* already visited *)
    exists (E, v, P, ty); split.
    + apply permute_cycle_skips; left; exact Hvi.
    + repeat split; auto; try apply Hclosed; auto.
      intros c Hc; destruct (Nat.eq_dec c i) as [->|Hne];
        [left; exact Hvi|apply Hbelow; lia].
Qed.

(** The column loop returns and leaves column [perm[c]] of the old
    buffer in column [c]. *)
Lemma permute_columns (vis : list Z) (Pv : list R) (ty : Z) :
  length E0 = (n * n)%nat -> length vis = n -> length Pv = n ->
  (forall c, (c < n)%nat -> rdz vis c = 0%Z) ->
  exists E' v' P' ty',
    for_up_opt 0 n (permute_cycle n perm) (E0, vis, Pv, ty)
      = Some (E', v', P', ty') /\
    length E' = (n * n)%nat /\ length v' = n /\ length P' = n /\
    forall c r, (c < n)%nat -> (r < n)%nat ->
      entry n E' c r = entry n E0 (pi c) r.
Proof.
  intros HlE Hlv HlP Hzero.
  destruct (for_up_opt_inv (permuted_upto n perm E0) 0 n (permute_cycle n perm) (E0, vis, Pv, ty))
    as (s' & Heq & Hinv).
  - lia.
  - split; [exact HlE|split; [exact Hlv|split; [exact HlP|]]].
    split; [reflexivity|split; [|split]].
    + intros c Hc Hv; contradiction Hv; apply Hzero; exact Hc.
    + intros c Hc; split; intros _; apply Hzero; [apply pi_lt|]; exact Hc.
    + intros c Hc; lia.
  - intros i s Hi Hs; apply permute_cycle_step; [lia|exact Hs].
  - destruct s' as [[[E' v'] P'] ty'].
    destruct Hinv as (HlE' & Hlv' & HlP' & Hfresh & Hdone & _ & Hbelow).
    exists E', v', P', ty'; repeat split; auto.
    intros c r Hc Hr.
    destruct (Z.eq_dec (rdz v' c) 0) as [Hv|Hv].
    + destruct (Hbelow c Hc) as [Hv'|Hfix]; [contradiction|].
      rewrite Hfix; apply Hfresh; assumption.
    + apply Hdone; assumption.
Qed.

End ColumnPermutation.

(* ================================================================== *)
(** ** What [Solve] leaves for the eigenvector getters *)

Lemma for_up_length {A} lo hi (body : nat -> list A -> list A) (v : list A) :
  (forall i v, length (body i v) = length v) ->
  length (for_up lo hi body v) = length v.
Proof.
  intros Hbody.
  apply (for_up_preserves (fun v' => length v' = length v)); [reflexivity|].
  intros i v' _ Hv'; rewrite Hbody; exact Hv'.
Qed.

Lemma for_up_length_fst {A B} lo hi (body : nat -> list A * B -> list A * B)
    (s : list A * B) :
  (forall i s, length (fst (body i s)) = length (fst s)) ->
  length (fst (for_up lo hi body s)) = length (fst s).
Proof.
  intros Hbody.
  apply (for_up_preserves (fun s' => length (fst s') = length (fst s)));
    [reflexivity|].
  intros i s' _ Hs'; rewrite Hbody; exact Hs'.
Qed.

Section SolveInvariants.

Context {R : Type} {RA : RealArith R}.
Variable std_sort : sorter (SortItem R).

Local Abbreviation Solver := (SymmetricEigensolver R).

Lemma tridiag_step_lengths (n i : nat) (b : list R * list R * list R * list R) :
  same_lengths b (tridiag_step n i b).
Proof.
  destruct b as [[[M V] P] W]; unfold tridiag_step.
  set (V1 := for_up 0 (S i) (fun r V => upd V r R0) V).
  assert (HV1 : length V1 = length V)
    by (apply for_up_length; intros; apply length_upd).
  match goal with
  | |- context [for_up (S i) n ?body (V1, R0)] =>
      pose proof (for_up_length_fst (S i) n body (V1, R0)) as HV2;
      destruct (for_up (S i) n body (V1, R0)) as [V2 len]
  end.
  simpl in HV2.
  assert (HV2' : length V2 = length V).
  { rewrite HV2; [exact HV1|].
    intros r [V0 l0]; simpl; apply length_upd. }
  clear HV2.
  match goal with
  | |- context [if ?c then ?a else (V2, R1)] =>
      assert (HV3 : length (fst (if c then a else (V2, R1))) = length V);
      [destruct c; [|exact HV2']|destruct (if c then a else (V2, R1)) as [V3 vdv]]
  end.
  { rewrite for_up_length_fst; [simpl; rewrite length_upd; exact HV2'|].
    intros r [V0 l0]; simpl; apply length_upd. }
  simpl in HV3.
  match goal with
  | |- context [for_up i n ?body (P, R0)] =>
      pose proof (for_up_length_fst i n body (P, R0)) as HP1;
      destruct (for_up i n body (P, R0)) as [P1 pdv]
  end.
  simpl in HP1.
  assert (HP1' : length P1 = length P).
  { apply HP1; intros r [P0 p0]; simpl.
    rewrite length_upd, !for_up_length, length_upd; auto;
      intros; apply length_upd. }
  clear HP1.
  unfold same_lengths.
  split; [|split; [exact HV3|split; [exact HP1'|]]].
  - rewrite for_up_length by (intros; apply length_upd).
    rewrite length_upd.
    apply for_up_length; intros r M0.
    rewrite for_up_length by (intros; apply length_upd).
    apply length_upd.
  - apply for_up_length; intros; apply length_upd.
Qed.

Lemma Tridiagonalize_scratch (st : Solver) :
  length (mPVector (Tridiagonalize st)) = length (mPVector st) /\
  length (mVVector (Tridiagonalize st)) = length (mVVector st) /\
  length (mWVector (Tridiagonalize st)) = length (mWVector st).
Proof.
  unfold Tridiagonalize.
  assert (H : same_lengths (mMatrix st, mVVector st, mPVector st, mWVector st)
                (for_up 0 (Z.to_nat (mSize st) - 2) (tridiag_step (Z.to_nat (mSize st)))
                   (mMatrix st, mVVector st, mPVector st, mWVector st))).
  { apply (for_up_preserves
             (same_lengths (mMatrix st, mVVector st, mPVector st, mWVector st))).
    - simpl; auto.
    - intros i [[[M V] P] W] _ (a & b & c & d).
      pose proof (tridiag_step_lengths (Z.to_nat (mSize st)) i (M, V, P, W)) as H.
      destruct (tridiag_step (Z.to_nat (mSize st)) i (M, V, P, W)) as [[[M' V'] P'] W'].
      destruct H as (a' & b' & c' & d'); simpl; repeat split; congruence. }
  destruct (for_up _ _ _ _) as [[[M V] P] W].
  destruct (copy_bands _ _ _ _) as [Dg Sp].
  destruct H as (_ & b & c & d); simpl; auto.
Qed.

Lemma qr_rotation_givens (imin imax i1 : nat) (s : qr_state (R:=R)) :
  exists cs sn, qG (qr_rotation imin imax i1 s) = qG s ++ [mkGivens (Z.of_nat i1) cs sn].
Proof.
  unfold qr_rotation.
  destruct (GetSinCos (qx s) (qy s)) as [c s0].
  exists c, s0.
  destruct (i1 <? imax)%nat; reflexivity.
Qed.

(** Every rotation [DoQRImplicitShift] logs has its index in the
    block. *)
Lemma qr_shift_givens (n imin imax : nat) (Dg Sp : list R)
    (G : list (GivensRotation R)) :
  (imax + 1 < n)%nat ->
  Forall (givens_in_range n) G ->
  Forall (givens_in_range n) (snd (qr_shift imin imax Dg Sp G)).
Proof.
  intros Himax HG; unfold qr_shift; simpl.
  apply (for_up_preserves (fun s => Forall (givens_in_range n) (qG s)));
    [exact HG|].
  intros i1 s Hi1 Hs.
  destruct (qr_rotation_givens imin imax i1 s) as (c & s0 & ->).
  apply Forall_app; split; [exact Hs|].
  constructor; [|constructor].
  unfold givens_in_range; simpl; rewrite Nat2Z.id; lia.
Qed.

Lemma find_block_range (st : Solver) :
  (2 <= Z.to_nat (mSize st))%nat ->
  (Z.to_nat (snd (find_block st)) + 1 < Z.to_nat (mSize st))%nat.
Proof.
  intros Hn.
  destruct (find_block_spec st) as [(Hfb & _)|(lo & hi & Hfb & Hle & _)];
    rewrite Hfb; simpl; [lia|].
  rewrite Nat2Z.id; lia.
Qed.

Lemma qr_step_givens (st : Solver) :
  (2 <= Z.to_nat (mSize st))%nat ->
  Forall (givens_in_range (Z.to_nat (mSize st))) (mGivens st) ->
  Forall (givens_in_range (Z.to_nat (mSize st))) (mGivens (qr_step st)).
Proof.
  intros Hn HG; pose proof (find_block_range st Hn) as Hfb.
  unfold qr_step; destruct (find_block st) as [imin imax]; simpl in *.
  exact (qr_shift_givens _ (Z.to_nat imin) (Z.to_nat imax) _ _ _ Hfb HG).
Qed.

Lemma qr_step_scratch (st : Solver) :
  mPVector (qr_step st) = mPVector st /\
  mVVector (qr_step st) = mVVector st /\
  mWVector (qr_step st) = mWVector st.
Proof.
  unfold qr_step; destruct (find_block st) as [imin imax]; simpl; auto.
Qed.

Lemma after_steps_givens k (st : Solver) :
  (2 <= Z.to_nat (mSize st))%nat ->
  Forall (givens_in_range (Z.to_nat (mSize st))) (mGivens st) ->
  Forall (givens_in_range (Z.to_nat (mSize st))) (mGivens (after_steps k st)).
Proof.
  intros Hn HG; induction k as [|k IH]; [exact HG|].
  unfold after_steps in *; simpl.
  destruct (after_steps_frame k st) as (Hsz & _).
  unfold after_steps in Hsz; rewrite <- Hsz.
  apply qr_step_givens; rewrite Hsz; assumption.
Qed.

Lemma after_steps_scratch k (st : Solver) :
  mPVector (after_steps k st) = mPVector st /\
  mVVector (after_steps k st) = mVVector st /\
  mWVector (after_steps k st) = mWVector st.
Proof.
  induction k as [|k IH]; [auto|].
  unfold after_steps in *; simpl.
  destruct (qr_step_scratch (Nat.iter k qr_step st)) as (a & b & c).
  destruct IH as (a' & b' & c'); repeat split; congruence.
Qed.

Lemma Solve_sorted_permutation (input : list R) (sortType : Z) (st : Solver) :
  std_sort_contract std_sort ->
  wf st ->
  sortType <> 0%Z ->
  snd (Solve std_sort input sortType st) <> NOT_CONVERGED ->
  strict_weak_on (sort_comp sortType)
                 (sort_items (fst (Solve std_sort input sortType st))) ->
  is_permutation (Z.to_nat (mSize st))
                 (mPermutation (fst (Solve std_sort input sortType st))).
Proof.
  intros Hcontract Hwf Hs Hconv Hswo.
  destruct (Solve_converged std_sort input sortType st Hwf Hconv)
    as (k & Heq & Hsz & Hperm).
  rewrite Heq in *; simpl fst in *.
  set (X := after_steps k (tridiagonal_form input st)) in *.
  change (sort_items (ComputePermutation std_sort sortType X))
    with (sort_items X) in Hswo.
  destruct (Hcontract _ _ Hswo) as [Hp _].
  unfold is_permutation.
  rewrite ComputePermutation_sorted; [|exact Hs|].
  - rewrite <- Hsz, <- sort_items_indices.
    apply Permutation_map; exact Hp.
  - rewrite <- (Permutation_length Hp), Hperm; unfold sort_items.
    rewrite length_map, length_seq, Hsz.
    destruct Hwf as [_ _ _ _ _ Hpl _ _ _ _]; rewrite Hpl; reflexivity.
Qed.

Lemma Solve_solved (input : list R) (sortType : Z) (st : Solver) :
  std_sort_contract std_sort ->
  wf st ->
  snd (Solve std_sort input sortType st) <> NOT_CONVERGED ->
  (sortType <> 0%Z ->
   strict_weak_on (sort_comp sortType)
                  (sort_items (fst (Solve std_sort input sortType st)))) ->
  solved (Z.to_nat (mSize st)) (fst (Solve std_sort input sortType st)).
Proof.
  intros Hcontract Hwf Hconv Hswo.
  assert (Hperm : (rdz (mPermutation (fst (Solve std_sort input sortType st))) 0 < 0)%Z
                  \/ is_permutation (Z.to_nat (mSize st))
                       (mPermutation (fst (Solve std_sort input sortType st)))).
  { destruct (Z.eq_dec sortType 0) as [->|Hs].
    - left; rewrite (proj1 (Solve_unsorted_marks std_sort input st Hwf Hconv)); lia.
    - right; apply Solve_sorted_permutation; auto. }
  destruct (Solve_converged std_sort input sortType st Hwf Hconv)
    as (k & Heq & Hsz & _).
  rewrite Heq in *; simpl fst in *.
  set (t := tridiagonal_form input st) in *.
  destruct (after_steps_frame k t) as (_ & _ & _ & _ & Hvis & _).
  destruct (tridiagonal_form_frame input st) as (Hsz' & _ & HG & _ & Hvis' & _).
  destruct (after_steps_scratch k t) as (HP & HV & HW).
  destruct (Tridiagonalize_scratch (load_input input (set_type (-1) st)))
    as (HP' & HV' & HW'); simpl in HP', HV', HW'.
  destruct Hwf as [Hs1 _ _ _ _ _ Hlv HlP HlV HlW Hbound].
  assert (Hn : (2 <= Z.to_nat (mSize t))%nat) by (fold t in Hsz'; rewrite Hsz'; lia).
  constructor; simpl; [| | | | | | | |lia].
  - rewrite Hsz; lia.
  - lia.
  - fold t in Hsz'; rewrite <- Hsz'.
    apply after_steps_givens; [exact Hn|].
    fold t in HG; rewrite HG; constructor.
  - rewrite HP; unfold t, tridiagonal_form; simpl; rewrite HP'; exact HlP.
  - rewrite HV; unfold t, tridiagonal_form; simpl; rewrite HV'; exact HlV.
  - rewrite HW; unfold t, tridiagonal_form; simpl; rewrite HW'; exact HlW.
  - rewrite Hvis; fold t in Hvis'; rewrite Hvis'; exact Hlv.
  - exact Hperm.
Qed.

End SolveInvariants.

(* ================================================================== *)
(** ** Exact arithmetic: the two eigenvector paths agree *)

Section ExactPaths.

Context {R : Type} {RA : RealArith R}.
Hypothesis Rring : ring_theory R0 R1 Radd Rmul Rsub Ropp (@eq R).

Local Abbreviation Solver := (SymmetricEigensolver R).

Lemma visited_reset (vis : list Z) :
  length (for_up 0 (length vis) (fun k v => upd v k 0%Z) vis) = length vis /\
  forall c, (c < length vis)%nat ->
    rdz (for_up 0 (length vis) (fun k v => upd v k 0%Z) vis) c = 0%Z.
Proof.
  destruct (for_up_store (fun _ : nat => 0%Z) 0 (length vis) vis 0%Z) as [Hl Hn].
  cbv beta in Hl, Hn.
  split; [exact Hl|].
  intros c Hc; unfold rdz; rewrite Hn.
  replace (c <? length vis)%nat with true by (symmetry; apply Nat.ltb_lt; lia).
  reflexivity.
Qed.

Lemma identity_column (n : nat) (E : list R) (c : nat) :
  length E = (n * n)%nat -> (c < n)%nat ->
  forall r, entry n (identity_fill n E) c r = basis_f c r.
Proof.
  intros HE Hc r.
  destruct (identity_fill_rd n E HE) as [Hl Hent].
  destruct (Nat.lt_ge_cases r n) as [Hr|Hr].
  - rewrite Hent by assumption; reflexivity.
  - unfold entry, basis_f; rewrite rd_overflow by nia.
    replace (r =? c)%nat with false by (symmetry; apply Nat.eqb_neq; lia).
    reflexivity.
Qed.

(** [GetEigenvectors] returns, and column [c] of its matrix is the
    single-vector path from the basis vector of the stored column. *)
Lemma GetEigenvectors_columns (n : nat) (E : list R) (st : Solver) :
  solved n st -> length E = (n * n)%nat ->
  exists Q st',
    GetEigenvectors (Some E) st = Some (Some Q, st') /\
    length Q = (n * n)%nat /\
    (forall c r, (c < n)%nat -> (r < n)%nat ->
       entry n Q c r
       = single_f n (mMatrix st) (mGivens st)
                  (basis_f (stored_column st (Z.of_nat c))) r) /\
    solved n st' /\ mMatrix st' = mMatrix st /\ mGivens st' = mGivens st /\
    mPermutation st' = mPermutation st.
Proof.
  intros [Hsz Hn HG HP HV HW Hvis Hperm] HE.
  unfold GetEigenvectors.
  change (mSize (set_type (-1) st)) with (mSize st).
  change (mMatrix (set_type (-1) st)) with (mMatrix st).
  change (mGivens (set_type (-1) st)) with (mGivens st).
  change (mPermutation (set_type (-1) st)) with (mPermutation st).
  change (mVisited (set_type (-1) st)) with (mVisited st).
  change (mVVector (set_type (-1) st)) with (mVVector st).
  change (mWVector (set_type (-1) st)) with (mWVector st).
  change (mPVector (set_type (-1) st)) with (mPVector st).
  change (mMaxIterations (set_type (-1) st)) with (mMaxIterations st).
  change (mDiagonal (set_type (-1) st)) with (mDiagonal st).
  change (mSuperdiagonal (set_type (-1) st)) with (mSuperdiagonal st).
  replace (mSize st >? 0)%Z with true by (symmetry; apply Z.gtb_lt; lia).
  rewrite Hsz, Nat2Z.id.
  destruct (identity_fill_rd n E HE) as [HlI _].
  destruct (householder_accumulate_all Rring n (mMatrix st) (n - 2)
              (identity_fill n E) (mVVector st) (mWVector st))
    as (E1 & V1 & W1 & Heq1 & HlE1 & HlV1 & HlW1 & Hent1); try assumption; [lia|].
  rewrite Heq1.
  assert (Hent1' : forall c r, (c < n)%nat -> (r < n)%nat ->
            entry n E1 c r = house_f n (mMatrix st) (n - 2) (basis_f c) r).
  { intros c r Hc Hr; rewrite Hent1 by assumption.
    apply house_f_ext; apply identity_column; assumption. }
  destruct (givens_multiply_all Rring n (mMatrix st) E1 HlE1 Hent1' (mGivens st) HG)
    as [HlE2 Hent2].
  set (E2 := fold_left (givens_multiply n) (mGivens st) E1) in *.
  unfold stored_column.
  destruct (rdz (mPermutation st) 0 >=? 0)%Z eqn:Hsorted.
  - assert (Hp : is_permutation n (mPermutation st)).
    { destruct Hperm as [Hneg|Hp]; [|exact Hp].
      apply Z.geb_le in Hsorted; lia. }
    destruct (visited_reset (mVisited st)) as [Hlv Hzero].
    rewrite Hvis in Hlv, Hzero.
    destruct (permute_columns n (mPermutation st) Hp E2 _ (mPVector st)
                (1 - Z.land (Z.of_nat n) 1)%Z HlE2 Hlv HP Hzero)
      as (E3 & v3 & P3 & ty3 & Heq3 & HlE3 & Hlv3 & HlP3 & Hent3).
    rewrite Hvis, Heq3.
    do 2 eexists; split; [reflexivity|].
    split; [exact HlE3|split].
    + intros c r Hc Hr; rewrite Hent3 by assumption.
      rewrite Nat2Z.id.
      apply Hent2; [|exact Hr].
      apply (is_permutation_range n _ c Hp Hc).
    + split; [|auto].
      constructor; simpl; auto.
  - do 2 eexists; split; [reflexivity|].
    split; [exact HlE2|split].
    + intros c r Hc Hr; rewrite Nat2Z.id; apply Hent2; assumption.
    + split; [|auto].
      constructor; simpl; auto.
Qed.

End ExactPaths.

Section SingleVersusBulk.

Context {R : Type} {RA : RealArith R}.
Hypothesis Rring : ring_theory R0 R1 Radd Rmul Rsub Ropp (@eq R).
Variable std_sort : sorter (SortItem R).

Local Abbreviation Solver := (SymmetricEigensolver R).

Lemma stored_column_lt (n : nat) (st : Solver) (c : Z) :
  solved n st -> (0 <= c < Z.of_nat n)%Z -> (stored_column st c < n)%nat.
Proof.
  intros [_ _ _ _ _ _ _ Hperm] Hc; unfold stored_column.
  destruct (rdz (mPermutation st) 0 >=? 0)%Z eqn:Hsorted; [|lia].
  destruct Hperm as [Hneg|Hp]; [apply Z.geb_le in Hsorted; lia|].
  apply (is_permutation_range n _ (Z.to_nat c) Hp); lia.
Qed.

(** On a solved solver the two getters return, and the vector of
    [GetEigenvector] is column [c] of the matrix of [GetEigenvectors]. *)
Lemma getters_agree (n : nat) (st : Solver) (c : Z) (x E : list R) :
  solved n st -> (0 <= c < Z.of_nat n)%Z ->
  length x = n -> length E = (n * n)%nat ->
  exists Q v st1 st2 st3,
    GetEigenvectors (Some E) st = Some (Some Q, st1) /\
    GetEigenvector c (Some x) st = Normal (Some v, st2) /\
    GetEigenvector c (Some x) st1 = Normal (Some v, st3) /\
    length Q = (n * n)%nat /\ length v = n /\
    forall r, (r < n)%nat -> rd v r = rd Q (Z.to_nat c + n * r)%nat.
Proof.
  intros Hsolved Hc Hx HE.
  destruct (GetEigenvectors_columns Rring n E st Hsolved HE)
    as (Q & st1 & HQ & HlQ & Hcol & Hsolved1 & HM & HG & HP).
  assert (Hstored : stored_column st1 c = stored_column st c)
    by (unfold stored_column; rewrite HP; reflexivity).
  pose proof (stored_column_lt n st c Hsolved Hc) as Hlt.
  destruct Hsolved as [Hsz Hn HGr HlP _ _ _ _].
  destruct Hsolved1 as [Hsz1 _ HGr1 HlP1 _ _ _ _].
  destruct (GetEigenvector_single_f c x st) as (v & st2 & Hv & Hlv & Hvr);
    try (rewrite Hsz, Nat2Z.id); try assumption; [lia|].
  destruct (GetEigenvector_single_f c x st1) as (v1 & st3 & Hv1 & Hlv1 & Hvr1);
    try (rewrite Hsz1, Nat2Z.id); try assumption; [lia|rewrite Hstored; exact Hlt|].
  rewrite Hsz, Nat2Z.id in Hlv, Hvr.
  rewrite Hsz1, Nat2Z.id in Hlv1, Hvr1.
  rewrite HM, HG, Hstored in Hvr1.
  assert (v1 = v) as ->.
  { apply (nth_ext _ _ R0 R0); [lia|].
    intros r _; change (rd v1 r = rd v r); rewrite Hvr, Hvr1; reflexivity. }
  exists Q, v, st1, st2, st3; repeat split; try assumption.
  intros r Hr; rewrite Hvr.
  change (rd Q (Z.to_nat c + n * r)%nat) with (entry n Q (Z.to_nat c) r).
  rewrite Hcol by lia.
  rewrite Z2Nat.id by lia; reflexivity.
Qed.

(** C4 (as amended). With exact arithmetic in [Real], after a
    convergent [Solve] and for every column [c] in range,
    [GetEigenvector(c, .)] returns exactly column [c] of the matrix
    [GetEigenvectors] returns, whether it is called before or after it. *)
Theorem single_column_matches_bulk (input : list R) (sortType : Z) (st : Solver)
    (c : Z) (x E : list R) :
  std_sort_contract std_sort ->
  wf st ->
  snd (Solve std_sort input sortType st) <> NOT_CONVERGED ->
  (sortType <> 0%Z ->
   strict_weak_on (sort_comp sortType)
                  (sort_items (fst (Solve std_sort input sortType st)))) ->
  (0 <= c < mSize st)%Z ->
  length x = Z.to_nat (mSize st) ->
  length E = (Z.to_nat (mSize st) * Z.to_nat (mSize st))%nat ->
  let st' := fst (Solve std_sort input sortType st) in
  let n := Z.to_nat (mSize st) in
  exists Q v st1 st2 st3,
    GetEigenvectors (Some E) st' = Some (Some Q, st1) /\
    GetEigenvector c (Some x) st' = Normal (Some v, st2) /\
    GetEigenvector c (Some x) st1 = Normal (Some v, st3) /\
    length Q = (n * n)%nat /\ length v = n /\
    forall r, (r < n)%nat -> rd v r = rd Q (Z.to_nat c + n * r)%nat.
Proof.
  intros Hcontract Hwf Hconv Hswo Hc Hx HE st' n.
  apply getters_agree; try assumption.
  - apply Solve_solved; assumption.
  - subst n; lia.
Qed.

End SingleVersusBulk.

(* ================================================================== *)
(** ** [GetEigenvalue] against [GetEigenvalues] *)

Section EigenvalueGetter.

Context {R : Type} {RA : RealArith R}.

Local Abbreviation Solver := (SymmetricEigensolver R).

Lemma checked_at_in_range {A} (v : list A) (i : Z) (d : A) :
  (0 <= i < Z.of_nat (length v))%Z ->
  checked_at v i = Normal (nth (Z.to_nat i) v d).
Proof.
  intros Hi; unfold checked_at.
  replace ((0 <=? i)%Z && (i <? Z.of_nat (length v))%Z) with true
    by (symmetry; apply andb_true_iff; split; [apply Z.leb_le|apply Z.ltb_lt]; lia).
  destruct (nth_error v (Z.to_nat i)) as [a|] eqn:Hn.
  - rewrite (nth_error_nth v (Z.to_nat i) d Hn); reflexivity.
  - apply nth_error_None in Hn; lia.
Qed.

(** X5. On an inert solver [GetEigenvalue] returns
    [std::numeric_limits<Real>::max()], whatever the index. *)
Theorem GetEigenvalue_inert (c : Z) (st : Solver) :
  (mSize st <= 0)%Z -> GetEigenvalue c st = Normal Rmax.
Proof.
  intros Hs; unfold GetEigenvalue.
  replace (mSize st >? 0)%Z with false; [reflexivity|].
  symmetry; rewrite Z.gtb_ltb; apply Z.ltb_ge; exact Hs.
Qed.

(** X6. For an index [c] in [0, size), [GetEigenvalue(c)] returns entry
    [c] of what [GetEigenvalues] writes, whether the eigenvalues are
    sorted ([mPermutation] a permutation) or not ([mPermutation[0]]
    negative). *)
Theorem GetEigenvalue_matches_bulk (n : nat) (c : Z) (out : list R) (st : Solver) :
  mSize st = Z.of_nat n ->
  length (mDiagonal st) = n ->
  (rdz (mPermutation st) 0 < 0)%Z \/ is_permutation n (mPermutation st) ->
  length out = n ->
  (0 <= c < mSize st)%Z ->
  exists out',
    GetEigenvalues (Some out) st = Some out' /\
    length out' = n /\
    GetEigenvalue c st = Normal (rd out' (Z.to_nat c)).
Proof.
  intros Hsz HD Hperm Hout Hc.
  assert (Hcn : (Z.to_nat c < n)%nat) by lia.
  unfold GetEigenvalues, GetEigenvalue; cbv zeta.
  replace (mSize st >? 0)%Z with true by (symmetry; apply Z.gtb_lt; lia).
  rewrite Hsz, Nat2Z.id.
  destruct (rdz (mPermutation st) 0 >=? 0)%Z eqn:Hsorted.
  - destruct Hperm as [Hneg|Hperm];
      [rewrite Z.geb_leb in Hsorted; apply Z.leb_le in Hsorted; lia|].
    assert (Hlen : length (mPermutation st) = n)
      by (rewrite <- (Permutation_length Hperm), length_map, length_seq; reflexivity).
    destruct (for_up_store
                (fun i => rd (mDiagonal st) (Z.to_nat (rdz (mPermutation st) i)))
                0 n out R0) as [Hl Hn].
    cbv beta in Hl, Hn.
    eexists; split; [reflexivity|split; [lia|]].
    destruct (is_permutation_range n (mPermutation st) (Z.to_nat c) Hperm Hcn)
      as [Hp Hlt].
    rewrite (checked_at_in_range (mPermutation st) c 0%Z) by lia.
    fold (rdz (mPermutation st) (Z.to_nat c)).
    rewrite (checked_at_in_range (mDiagonal st) _ R0) by (rewrite Hp; lia).
    unfold rd in *; rewrite Hn, Hout.
    replace (Z.to_nat c <? n)%nat with true by (symmetry; apply Nat.ltb_lt; lia).
    reflexivity.
  - destruct (copy_n_rd n (mDiagonal st) out HD Hout) as [Hl Hrd].
    eexists; split; [reflexivity|split; [exact Hl|]].
    rewrite (checked_at_in_range (mDiagonal st) c R0) by lia.
    rewrite Hrd; reflexivity.
Qed.

End EigenvalueGetter.

(* ================================================================== *)
(** ** One call of [DoQRImplicitShift] *)

Section ShiftStep.

Context {R : Type} {RA : RealArith R}.

Local Abbreviation Solver := (SymmetricEigensolver R).

(** The chain of rotations logs one rotation per index, in order. *)
Lemma qr_chain_log (imin imax d : nat) (s : qr_state (R:=R)) :
  exists new,
    qG (for_up imin (imin + d) (qr_rotation imin imax) s) = qG s ++ new /\
    map (@index R) new = map Z.of_nat (seq imin d).
Proof.
  induction d as [|d IH].
  - exists []; rewrite for_up_nil by lia; rewrite app_nil_r; split; reflexivity.
  - replace (imin + S d)%nat with (S (imin + d)) by lia.
    rewrite for_up_snoc by lia.
    destruct IH as (new & Hq & Hm).
    destruct (qr_rotation_givens imin imax (imin + d)
                (for_up imin (imin + d) (qr_rotation imin imax) s))
      as (c & s0 & Hg).
    exists (new ++ [mkGivens (Z.of_nat (imin + d)) c s0]); split.
    + rewrite Hg, Hq, app_assoc; reflexivity.
    + rewrite map_app, Hm, seq_S, map_app; reflexivity.
Qed.

Lemma qr_shift_log (imin imax : nat) (Dg Sp : list R) (G : list (GivensRotation R)) :
  (imin <= imax)%nat ->
  exists new,
    snd (qr_shift imin imax Dg Sp G) = G ++ new /\
    map (@index R) new = map Z.of_nat (seq imin (imax + 1 - imin)).
Proof.
  intros Hle; unfold qr_shift; simpl.
  replace (S imax) with (imin + (imax + 1 - imin))%nat by lia.
  apply qr_chain_log.
Qed.

(** What one rotation of the chain writes. *)
Lemma qr_rotation_local (imin imax i1 : nat) (s : qr_state (R:=R)) :
  (imin <= i1 <= imax)%nat ->
  length (qD (qr_rotation imin imax i1 s)) = length (qD s) /\
  length (qS (qr_rotation imin imax i1 s)) = length (qS s) /\
  (forall k, (k < imin \/ imax + 1 < k)%nat ->
     rd (qD (qr_rotation imin imax i1 s)) k = rd (qD s) k) /\
  (forall k, (k < imin \/ imax < k)%nat ->
     rd (qS (qr_rotation imin imax i1 s)) k = rd (qS s) k).
Proof.
  intros Hi1; unfold qr_rotation.
  destruct (GetSinCos (qx s) (qy s)) as [c s0].
  destruct (Nat.ltb_spec imin i1) as [Hlo|Hlo];
    destruct (Nat.ltb_spec i1 imax) as [Hhi|Hhi]; simpl;
    rewrite ?length_upd; (split; [reflexivity|split; [reflexivity|split]]);
    intros k Hk; unfold rd; rewrite ?nth_upd_ne by lia; reflexivity.
Qed.

Lemma qr_shift_local (imin imax : nat) (Dg Sp : list R) (G : list (GivensRotation R)) :
  let r := qr_shift imin imax Dg Sp G in
  length (fst (fst r)) = length Dg /\
  length (snd (fst r)) = length Sp /\
  (forall k, (k < imin \/ imax + 1 < k)%nat -> rd (fst (fst r)) k = rd Dg k) /\
  (forall k, (k < imin \/ imax < k)%nat -> rd (snd (fst r)) k = rd Sp k).
Proof.
  unfold qr_shift; simpl.
  match goal with
  | |- context [for_up imin (S imax) ?body ?s0] =>
      apply (for_up_preserves
               (fun s => length (qD s) = length Dg /\ length (qS s) = length Sp /\
                  (forall k, (k < imin \/ imax + 1 < k)%nat -> rd (qD s) k = rd Dg k) /\
                  (forall k, (k < imin \/ imax < k)%nat -> rd (qS s) k = rd Sp k))
               imin (S imax) body s0)
  end.
  - simpl; auto.
  - intros i1 s Hi1 (HlD & HlS & HD & HS).
    destruct (qr_rotation_local imin imax i1 s) as (HlD' & HlS' & HD' & HS'); [lia|].
    split; [congruence|split; [congruence|split]]; intros k Hk.
    + rewrite HD' by exact Hk; apply HD; exact Hk.
    + rewrite HS' by exact Hk; apply HS; exact Hk.
Qed.

(** X7. [DoQRImplicitShift(imin, imax)] keeps what the log held and
    appends one rotation for each index of the block, in the order
    [imin, imin + 1, ..., imax]. *)
Theorem DoQRImplicitShift_logs_block (imin imax : Z) (st : Solver) :
  (0 <= imin <= imax)%Z ->
  exists new,
    mGivens (DoQRImplicitShift imin imax st) = mGivens st ++ new /\
    map (@index R) new
      = map Z.of_nat (seq (Z.to_nat imin) (Z.to_nat (imax - imin + 1))).
Proof.
  intros Hb.
  destruct (qr_shift_log (Z.to_nat imin) (Z.to_nat imax)
              (mDiagonal st) (mSuperdiagonal st) (mGivens st))
    as (new & Hq & Hm); [lia|].
  exists new; split.
  - unfold DoQRImplicitShift.
    destruct (qr_shift _ _ _ _ _) as [[Dg Sp] G]; exact Hq.
  - rewrite Hm; do 2 f_equal; lia.
Qed.

(** X8. [DoQRImplicitShift(imin, imax)] works inside the block: the
    diagonal outside [imin, imax + 1] and the superdiagonal outside
    [imin, imax] are as they were, no array changes its length, and the
    matrix, the permutation and the scratch vectors are not touched. *)
Theorem DoQRImplicitShift_local (imin imax : Z) (st : Solver) :
  (0 <= imin <= imax)%Z ->
  let st' := DoQRImplicitShift imin imax st in
  length (mDiagonal st') = length (mDiagonal st) /\
  length (mSuperdiagonal st') = length (mSuperdiagonal st) /\
  (forall k, (Z.of_nat k < imin \/ imax + 1 < Z.of_nat k)%Z ->
     rd (mDiagonal st') k = rd (mDiagonal st) k) /\
  (forall k, (Z.of_nat k < imin \/ imax < Z.of_nat k)%Z ->
     rd (mSuperdiagonal st') k = rd (mSuperdiagonal st) k) /\
  mSize st' = mSize st /\ mMaxIterations st' = mMaxIterations st /\
  mMatrix st' = mMatrix st /\ mPermutation st' = mPermutation st /\
  mVisited st' = mVisited st /\
  mEigenvectorMatrixType st' = mEigenvectorMatrixType st /\
  mPVector st' = mPVector st /\ mVVector st' = mVVector st /\
  mWVector st' = mWVector st.
Proof.
  intros Hb st'; subst st'.
  destruct (qr_shift_local (Z.to_nat imin) (Z.to_nat imax)
              (mDiagonal st) (mSuperdiagonal st) (mGivens st))
    as (HlD & HlS & HD & HS).
  unfold DoQRImplicitShift.
  destruct (qr_shift _ _ _ _ _) as [[Dg Sp] G]; simpl in *.
  split; [exact HlD|split; [exact HlS|split; [|split]]].
  - intros k Hk; apply HD; lia.
  - intros k Hk; apply HS; lia.
  - repeat split.
Qed.

End ShiftStep.

(* ================================================================== *)
(** ** What [Solve] keeps: the shape of the solver and the reserve of the log *)

Section Reuse.

Context {R : Type} {RA : RealArith R}.
Variable std_sort : sorter (SortItem R).

Local Abbreviation Solver := (SymmetricEigensolver R).

(** The linear arrays after the copy: the diagonal and the entries right
    of it in the row-major matrix. *)
Lemma copy_bands_rd (n : nat) (M Dg Sp : list R) :
  (1 <= n)%nat -> length Dg = n -> length Sp = (n - 1)%nat ->
  length (fst (copy_bands n M Dg Sp)) = n /\
  length (snd (copy_bands n M Dg Sp)) = (n - 1)%nat /\
  (forall k, (k < n)%nat -> rd (fst (copy_bands n M Dg Sp)) k = rd M (k + n * k)%nat) /\
  (forall k, (k < n - 1)%nat ->
     rd (snd (copy_bands n M Dg Sp)) k = rd M (k + 1 + n * k)%nat).
Proof.
  intros Hn HD HS; unfold copy_bands.
  match goal with
  | |- context [for_up 0 (n - 1) ?body ?s0] =>
      pose proof (for_up_inv
        (fun i (s : list R * list R * nat) =>
           let '(D', S', idx) := s in
           idx = (i * (n + 1))%nat /\ length D' = n /\ length S' = (n - 1)%nat /\
           (forall k, (k < i)%nat -> rd D' k = rd M (k + n * k)%nat) /\
           (forall k, (k < i)%nat -> rd S' k = rd M (k + 1 + n * k)%nat))
        0 (n - 1) body s0) as Hinv
  end.
  destruct (for_up 0 (n - 1) _ _) as [[D' S'] idx].
  destruct Hinv as (Hidx & HlD & HlS & HDk & HSk).
  - lia.
  - repeat split; auto; intros k Hk; lia.
  - intros i [[D0 S0] idx0] Hi (Hidx & HlD & HlS & HDk & HSk).
    split; [lia|split; [rewrite length_upd; exact HlD|split; [rewrite length_upd; exact HlS|]]].
    subst idx0; split; intros k Hk; unfold rd.
    + destruct (Nat.eq_dec k i) as [->|Hne].
      * rewrite nth_upd_eq by lia; f_equal; lia.
      * rewrite nth_upd_ne by lia; apply HDk; lia.
    + destruct (Nat.eq_dec k i) as [->|Hne].
      * rewrite nth_upd_eq by lia; f_equal; lia.
      * rewrite nth_upd_ne by lia; apply HSk; lia.
  - simpl; rewrite length_upd.
    split; [exact HlD|split; [exact HlS|split; [|exact HSk]]].
    intros k Hk; unfold rd; subst idx.
    destruct (Nat.eq_dec k (n - 1)) as [->|Hne].
    + rewrite nth_upd_eq by lia; f_equal; lia.
    + rewrite nth_upd_ne by lia; apply HDk; lia.
Qed.

Lemma Tridiagonalize_matrix_length (st : Solver) :
  length (mMatrix (Tridiagonalize st)) = length (mMatrix st).
Proof.
  unfold Tridiagonalize.
  assert (H : same_lengths (mMatrix st, mVVector st, mPVector st, mWVector st)
                (for_up 0 (Z.to_nat (mSize st) - 2) (tridiag_step (Z.to_nat (mSize st)))
                   (mMatrix st, mVVector st, mPVector st, mWVector st))).
  { apply (for_up_preserves
             (same_lengths (mMatrix st, mVVector st, mPVector st, mWVector st))).
    - simpl; auto.
    - intros i [[[M V] P] W] _ (a & b & c & d).
      pose proof (tridiag_step_lengths (Z.to_nat (mSize st)) i (M, V, P, W)) as H.
      destruct (tridiag_step (Z.to_nat (mSize st)) i (M, V, P, W)) as [[[M' V'] P'] W'].
      destruct H as (a' & b' & c' & d'); simpl; repeat split; congruence. }
  destruct (for_up _ _ _ _) as [[[M V] P] W].
  destruct (copy_bands _ _ _ _) as [Dg Sp].
  destruct H as (a & _); exact a.
Qed.

(** [Tridiagonalize] leaves in the linear arrays the diagonal and the
    superdiagonal of the matrix it leaves in [mMatrix]. *)
Lemma Tridiagonalize_bands_rd (st : Solver) :
  let n := Z.to_nat (mSize st) in
  (1 <= n)%nat -> length (mDiagonal st) = n -> length (mSuperdiagonal st) = (n - 1)%nat ->
  length (mDiagonal (Tridiagonalize st)) = n /\
  length (mSuperdiagonal (Tridiagonalize st)) = (n - 1)%nat /\
  (forall k, (k < n)%nat ->
     rd (mDiagonal (Tridiagonalize st)) k
     = rd (mMatrix (Tridiagonalize st)) (k + n * k)%nat) /\
  (forall k, (k < n - 1)%nat ->
     rd (mSuperdiagonal (Tridiagonalize st)) k
     = rd (mMatrix (Tridiagonalize st)) (k + 1 + n * k)%nat).
Proof.
  intros n Hn HD HS; unfold Tridiagonalize; fold n.
  destruct (for_up 0 (n - 2) (tridiag_step n) _) as [[[M V] P] W].
  pose proof (copy_bands_rd n M (mDiagonal st) (mSuperdiagonal st) Hn HD HS) as H.
  destruct (copy_bands n M (mDiagonal st) (mSuperdiagonal st)) as [Dg Sp].
  exact H.
Qed.

Lemma copy_n_length (m : nat) (src dst : list R) :
  length (copy_n m src dst) = length dst.
Proof. unfold copy_n; apply for_up_length; intros; apply length_upd. Qed.

Lemma tridiagonal_form_wf (input : list R) (st : Solver) :
  wf st -> wf (tridiagonal_form input st).
Proof.
  intros [Hs Hm HlM HlD HlS HlPm Hlv HlP HlV HlW].
  unfold tridiagonal_form.
  set (st0 := load_input input (set_type (-1) st)).
  destruct (Tridiagonalize_frame st0) as (Hsz & Hmx & _ & Hpm & Hvis & _).
  destruct (Tridiagonalize_scratch st0) as (HP & HV & HW).
  pose proof (Tridiagonalize_matrix_length st0) as HM.
  destruct (Tridiagonalize_bands_rd st0) as (HD & HS & _);
    [simpl; lia|exact HlD|exact HlS|].
  simpl in Hsz, Hmx, Hpm, Hvis, HP, HV, HW, HM, HD, HS.
  rewrite copy_n_length in HM.
  constructor; simpl; rewrite ?Hsz, ?Hmx, ?Hpm, ?Hvis; try assumption; congruence.
Qed.

Lemma qr_step_wf (st : Solver) : wf st -> wf (qr_step st).
Proof.
  intros [Hs Hm HlM HlD HlS HlPm Hlv HlP HlV HlW].
  unfold qr_step; destruct (find_block st) as [imin imax].
  destruct (qr_shift_local (Z.to_nat imin) (Z.to_nat imax)
              (mDiagonal st) (mSuperdiagonal st) (mGivens st))
    as (HD & HS & _).
  unfold DoQRImplicitShift.
  destruct (qr_shift _ _ _ _ _) as [[Dg Sp] G]; simpl in *.
  constructor; simpl; try assumption; congruence.
Qed.

Lemma after_steps_wf k (st : Solver) : wf st -> wf (after_steps k st).
Proof.
  intros Hwf; induction k as [|k IH]; [exact Hwf|].
  unfold after_steps in *; simpl; apply qr_step_wf; exact IH.
Qed.

Lemma write_permutation_length (l : list (SortItem R)) : forall (perm : list Z) i,
  length (fst (fold_left (fun '(perm, i) item => (upd perm i (item_index item), S i))
                         l (perm, i)))
  = length perm.
Proof.
  induction l as [|a l IH]; intros perm i; simpl; [reflexivity|].
  rewrite IH; apply length_upd.
Qed.

Lemma ComputePermutation_wf (sortType : Z) (st : Solver) :
  wf st -> wf (ComputePermutation std_sort sortType st).
Proof.
  intros [Hs Hm HlM HlD HlS HlPm Hlv HlP HlV HlW].
  constructor; simpl; try assumption.
  destruct (sortType =? 0)%Z; [rewrite length_upd; exact HlPm|].
  rewrite write_permutation_length; exact HlPm.
Qed.

Lemma Solve_wf (input : list R) (sortType : Z) (st : Solver) :
  wf st ->
  wf (fst (Solve std_sort input sortType st)) /\
  mSize (fst (Solve std_sort input sortType st)) = mSize st /\
  mMaxIterations (fst (Solve std_sort input sortType st)) = mMaxIterations st.
Proof.
  intros Hwf.
  assert (Hpos : (0 < mSize st)%Z) by (destruct Hwf; lia).
  pose proof (tridiagonal_form_wf input st Hwf) as Ht.
  destruct (tridiagonal_form_frame input st) as (Hsz & Hmx & _).
  destruct (Solve_cases std_sort input sortType st Hpos)
    as [(k & _ & Heq & _)|(Heq & _)]; rewrite Heq; simpl fst.
  - destruct (after_steps_frame k (tridiagonal_form input st)) as (Hsz' & Hmx' & _).
    split; [apply ComputePermutation_wf, after_steps_wf; exact Ht|].
    simpl; split; congruence.
  - destruct (after_steps_frame (Z.to_nat (mMaxIterations st))
                (tridiagonal_form input st)) as (Hsz' & Hmx' & _).
    split; [apply after_steps_wf; exact Ht|split; congruence].
Qed.

(** X9. [Solve] keeps the solver as the constructor shaped it: the size,
    the iteration budget and the length of every buffer are unchanged,
    whether the iteration converges or not, so the solver can take the
    next matrix, and a second [Solve] on it returns a count or the
    sentinel as the first did. *)
Theorem Solve_keeps_wf (input input' : list R) (sortType sortType' : Z) (st : Solver) :
  wf st ->
  let st' := fst (Solve std_sort input sortType st) in
  wf st' /\ mSize st' = mSize st /\ mMaxIterations st' = mMaxIterations st /\
  wf (fst (Solve std_sort input' sortType' st')).
Proof.
  intros Hwf st'; subst st'.
  destruct (Solve_wf input sortType st Hwf) as (Hwf' & Hsz & Hmx).
  split; [exact Hwf'|split; [exact Hsz|split; [exact Hmx|]]].
  apply Solve_wf; exact Hwf'.
Qed.

(* ------------------------------------------------------------------ *)
(** *** The rotation log stays inside what the constructor reserved *)

Lemma qr_shift_log_length (imin imax : nat) (Dg Sp : list R)
    (G : list (GivensRotation R)) :
  length (snd (qr_shift imin imax Dg Sp G)) = (length G + (imax + 1 - imin))%nat.
Proof.
  destruct (Nat.le_gt_cases imin imax) as [Hle|Hgt].
  - destruct (qr_shift_log imin imax Dg Sp G Hle) as (new & -> & Hm).
    apply (f_equal (@length Z)) in Hm.
    rewrite !length_map, length_seq in Hm.
    rewrite length_app, Hm; lia.
  - replace (imax + 1 - imin)%nat with 0%nat by lia.
    unfold qr_shift; cbv zeta.
    rewrite for_up_nil by lia; simpl; lia.
Qed.

Lemma qr_step_log_length (st : Solver) :
  (2 <= Z.to_nat (mSize st))%nat ->
  (length (mGivens (qr_step st)) <= length (mGivens st) + (Z.to_nat (mSize st) - 1))%nat /\
  (converged st = false -> (length (mGivens st) < length (mGivens (qr_step st)))%nat).
Proof.
  intros Hn.
  pose proof (find_block_range st Hn) as Hr.
  pose proof (find_block_spec st) as Hspec; cbv zeta in Hspec.
  unfold converged, qr_step.
  destruct (find_block st) as [imin imax] eqn:Hfb; simpl in Hr.
  pose proof (qr_shift_log_length (Z.to_nat imin) (Z.to_nat imax)
                (mDiagonal st) (mSuperdiagonal st) (mGivens st)) as Hlen.
  unfold DoQRImplicitShift.
  destruct (qr_shift _ _ _ _ _) as [[Dg Sp] G]; simpl in *.
  split; [lia|].
  intros Hc.
  destruct Hspec as [(Heq & _)|(lo & hi & Heq & Hle & _)].
  - injection Heq as -> ->; discriminate.
  - injection Heq as -> ->; rewrite !Nat2Z.id in Hlen; lia.
Qed.

Lemma after_steps_log_length k (st : Solver) :
  (2 <= Z.to_nat (mSize st))%nat ->
  (forall i, (i < k)%nat -> converged (after_steps i st) = false) ->
  (length (mGivens st) + k <= length (mGivens (after_steps k st))
   <= length (mGivens st) + k * (Z.to_nat (mSize st) - 1))%nat.
Proof.
  intros Hn; induction k as [|k IH]; intros Hc; [simpl; lia|].
  assert (IH' := IH (fun i Hi => Hc i (Nat.lt_lt_succ_r _ _ Hi))).
  destruct (after_steps_frame k st) as (Hsz & _).
  destruct (qr_step_log_length (after_steps k st)) as (Hup & Hlo);
    [rewrite Hsz; exact Hn|].
  specialize (Hlo (Hc k (Nat.lt_succ_diag_r k))).
  rewrite Hsz in Hup.
  change (after_steps (S k) st) with (qr_step (after_steps k st)).
  lia.
Qed.

(** X10. The rotation log after [Solve]: every rotation acts on two
    neighbouring indices inside [0, N), and the log holds at most
    [maxIterations * (N - 1)] rotations, the capacity the constructor
    reserves.  When [Solve] returns an iteration count [j], the log holds
    between [j] and [j * (N - 1)] rotations. *)
Theorem Solve_log_within_reserve (input : list R) (sortType : Z) (st : Solver) :
  wf st ->
  let r := Solve std_sort input sortType st in
  Forall (givens_in_range (Z.to_nat (mSize st))) (mGivens (fst r)) /\
  (Z.of_nat (length (mGivens (fst r))) <= mMaxIterations st * (mSize st - 1))%Z /\
  (snd r <> NOT_CONVERGED ->
     (snd r <= Z.of_nat (length (mGivens (fst r))) <= snd r * (mSize st - 1))%Z).
Proof.
  intros Hwf r; subst r.
  assert (Hpos : (0 < mSize st)%Z) by (destruct Hwf; lia).
  destruct (tridiagonal_form_frame input st) as (Hsz & _ & HG & _).
  set (t := tridiagonal_form input st) in *.
  assert (Hn : (2 <= Z.to_nat (mSize t))%nat) by (rewrite Hsz; destruct Hwf; lia).
  assert (Hrange : forall k, Forall (givens_in_range (Z.to_nat (mSize st)))
                               (mGivens (after_steps k t))).
  { intros k; rewrite <- Hsz; apply after_steps_givens; [exact Hn|].
    rewrite HG; constructor. }
  assert (Hm : (0 < mMaxIterations st <= 0xFFFFFFFF)%Z) by (destruct Hwf; assumption).
  assert (Hs : (1 < mSize st)%Z) by (destruct Hwf; assumption).
  destruct (Solve_cases std_sort input sortType st Hpos)
    as [(k & Hk & Heq & _ & Hnc)|(Heq & Hnc)]; fold t in Heq, Hnc; rewrite Heq;
    simpl fst; simpl snd.
  - pose proof (after_steps_log_length k t Hn Hnc) as Hlen.
    rewrite HG, Hsz in Hlen; simpl in Hlen.
    change (mGivens (ComputePermutation std_sort sortType (after_steps k t)))
      with (mGivens (after_steps k t)).
    split; [apply Hrange|split; [nia|intros _; nia]].
  - pose proof (after_steps_log_length (Z.to_nat (mMaxIterations st)) t Hn Hnc) as Hlen.
    rewrite HG, Hsz in Hlen; simpl in Hlen.
    split; [apply Hrange|split; [nia|intros Hc; contradiction Hc; reflexivity]].
Qed.

(** X18. [Tridiagonalize] leaves in [mDiagonal] and [mSuperdiagonal] the
    diagonal and the superdiagonal of the matrix it leaves in [mMatrix]
    (entries [k + N * k] and [k + 1 + N * k]), keeps the length of every
    array, and does not touch the rotation log, the permutation or the
    matrix type.  For [N = 2] there is no reflection and the matrix is
    the one it was given. *)
Theorem Tridiagonalize_bands (st : Solver) :
  wf st ->
  let n := Z.to_nat (mSize st) in
  let st' := Tridiagonalize st in
  wf st' /\
  (forall k, (k < n)%nat -> rd (mDiagonal st') k = rd (mMatrix st') (k + n * k)%nat) /\
  (forall k, (k < n - 1)%nat ->
     rd (mSuperdiagonal st') k = rd (mMatrix st') (k + 1 + n * k)%nat) /\
  (n = 2%nat -> mMatrix st' = mMatrix st) /\
  mSize st' = mSize st /\ mGivens st' = mGivens st /\
  mPermutation st' = mPermutation st /\
  mEigenvectorMatrixType st' = mEigenvectorMatrixType st.
Proof.
  intros Hwf n st'; subst st'.
  pose proof Hwf as [Hs Hm HlM HlD HlS HlPm Hlv HlP HlV HlW].
  destruct (Tridiagonalize_frame st) as (Hsz & Hmx & HG & Hpm & Hvis & Hty).
  destruct (Tridiagonalize_scratch st) as (HP & HV & HW).
  pose proof (Tridiagonalize_matrix_length st) as HM.
  destruct (Tridiagonalize_bands_rd st) as (HD & HS & HDk & HSk);
    [lia|exact HlD|exact HlS|].
  split; [constructor; rewrite ?Hsz, ?Hmx, ?Hpm, ?Hvis; try assumption; congruence|].
  split; [exact HDk|split; [exact HSk|split; [|auto]]].
  intros Hn2; unfold Tridiagonalize; fold n; rewrite Hn2.
  rewrite for_up_nil by lia.
  destruct (copy_bands _ _ _ _) as [Dg Sp]; reflexivity.
Qed.

End Reuse.

(* ================================================================== *)
(** ** [GetEigenvectors] in any arithmetic *)

Lemma for_up_opt_some_inv {St} (P : St -> Prop) lo hi
    (body : nat -> St -> option St) (s s' : St) :
  P s ->
  (forall i a a', (lo <= i < hi)%nat -> P a -> body i a = Some a' -> P a') ->
  for_up_opt lo hi body s = Some s' -> P s'.
Proof.
  intros Hs Hbody.
  destruct (Nat.le_gt_cases lo hi) as [Hle|Hgt].
  - revert s'; induction Hle as [|hi Hle IH]; intros s'.
    + unfold for_up_opt; rewrite Nat.sub_diag; simpl.
      intros [= <-]; exact Hs.
    + rewrite for_up_opt_snoc by exact Hle.
      destruct (for_up_opt lo hi body s) as [a|] eqn:Ha; [|discriminate].
      intros Hb; apply (Hbody hi a s'); [lia| |exact Hb].
      apply IH; [|reflexivity].
      intros i b b' Hi; apply Hbody; lia.
  - unfold for_up_opt; replace (hi - lo)%nat with 0%nat by lia; simpl.
    intros [= <-]; exact Hs.
Qed.

(** Two runs of a loop from related states stay related: both stop
    without a result, or both return related states. *)
Lemma for_up_opt_rel {St} (Rel : St -> St -> Prop) lo hi
    (body : nat -> St -> option St) (s1 s2 : St) :
  Rel s1 s2 ->
  (forall i a b, (lo <= i < hi)%nat -> Rel a b ->
     match body i a, body i b with
     | Some a', Some b' => Rel a' b'
     | None, None => True
     | _, _ => False
     end) ->
  match for_up_opt lo hi body s1, for_up_opt lo hi body s2 with
  | Some a, Some b => Rel a b
  | None, None => True
  | _, _ => False
  end.
Proof.
  intros Hs Hbody.
  destruct (Nat.le_gt_cases lo hi) as [Hle|Hgt].
  - induction Hle as [|hi Hle IH].
    + unfold for_up_opt; rewrite Nat.sub_diag; simpl; exact Hs.
    + rewrite !for_up_opt_snoc by exact Hle.
      assert (IH' := IH (fun i a b Hi => Hbody i a b (conj (proj1 Hi) (Nat.lt_lt_succ_r _ _ (proj2 Hi))))).
      destruct (for_up_opt lo hi body s1) as [a|], (for_up_opt lo hi body s2) as [b|];
        try contradiction; [|exact I].
      apply Hbody; [lia|exact IH'].
  - unfold for_up_opt; replace (hi - lo)%nat with 0%nat by lia; simpl; exact Hs.
Qed.

Section BulkAgain.

Context {R : Type} {RA : RealArith R}.

Local Abbreviation Solver := (SymmetricEigensolver R).

(** A square buffer is its entries. *)
Lemma entries_ext (n : nat) (E1 E2 : list R) :
  length E1 = (n * n)%nat -> length E2 = (n * n)%nat ->
  (forall c r, (c < n)%nat -> (r < n)%nat -> entry n E1 c r = entry n E2 c r) ->
  E1 = E2.
Proof.
  intros H1 H2 Hent.
  apply (nth_ext _ _ R0 R0); [congruence|].
  intros k Hk; rewrite H1 in Hk.
  assert (Hn : (0 < n)%nat) by (destruct n; [simpl in Hk; lia|lia]).
  pose proof (Nat.div_mod_eq k n) as Hdm.
  pose proof (Nat.mod_upper_bound k n ltac:(lia)) as Hm.
  assert (Hd : (k / n < n)%nat) by (apply Nat.Div0.div_lt_upper_bound; lia).
  specialize (Hent (k mod n)%nat (k / n)%nat Hm Hd).
  unfold entry, rd in Hent.
  replace (k mod n + n * (k / n))%nat with k in Hent by lia.
  exact Hent.
Qed.

(** The matrix of one accumulation pass does not depend on what the
    scratch vectors held. *)
Lemma householder_accumulate_scratch (n : nat) (M : list R) (i : nat)
    (E V1 W1 V2 W2 : list R) :
  length E = (n * n)%nat -> (i + 1 < n)%nat ->
  length V1 = n -> length W1 = n -> length V2 = n -> length W2 = n ->
  fst (fst (householder_accumulate n M i (E, V1, W1)))
  = fst (fst (householder_accumulate n M i (E, V2, W2))).
Proof.
  intros HE Hi HV1 HW1 HV2 HW2.
  destruct (householder_accumulate_rd n M i E V1 W1 HE HV1 HW1 Hi)
    as (E1 & V1' & W1' & -> & HlE1 & _ & _ & Hent1).
  destruct (householder_accumulate_rd n M i E V2 W2 HE HV2 HW2 Hi)
    as (E2 & V2' & W2' & -> & HlE2 & _ & _ & Hent2).
  simpl; apply (entries_ext n); try assumption.
  intros c r Hc Hr; rewrite Hent1, Hent2 by assumption; reflexivity.
Qed.

Lemma householder_passes_scratch (n : nat) (M : list R) (m : nat)
    (E V1 W1 V2 W2 : list R) :
  (m + 1 < n \/ m = 0)%nat -> length E = (n * n)%nat ->
  length V1 = n -> length W1 = n -> length V2 = n -> length W2 = n ->
  let r1 := for_down 0 m (householder_accumulate n M) (E, V1, W1) in
  let r2 := for_down 0 m (householder_accumulate n M) (E, V2, W2) in
  fst (fst r1) = fst (fst r2) /\ length (fst (fst r1)) = (n * n)%nat /\
  length (snd (fst r1)) = n /\ length (snd r1) = n /\
  length (snd (fst r2)) = n /\ length (snd r2) = n.
Proof.
  revert E V1 W1 V2 W2; induction m as [|m IH]; intros E V1 W1 V2 W2 Hm HE HV1 HW1 HV2 HW2.
  - cbv zeta; rewrite !for_down_nil by lia; simpl; repeat split; assumption.
  - cbv zeta; rewrite !for_down_snoc by lia.
    assert (Hi : (m + 1 < n)%nat) by lia.
    pose proof (householder_accumulate_scratch n M m E V1 W1 V2 W2 HE Hi HV1 HW1 HV2 HW2)
      as Hsame.
    destruct (householder_accumulate_rd n M m E V1 W1 HE HV1 HW1 Hi)
      as (E1 & V1' & W1' & Heq1 & HlE1 & HlV1 & HlW1 & _).
    destruct (householder_accumulate_rd n M m E V2 W2 HE HV2 HW2 Hi)
      as (E2 & V2' & W2' & Heq2 & HlE2 & HlV2 & HlW2 & _).
    rewrite Heq1, Heq2 in *; simpl in Hsame; subst E2.
    apply IH; try assumption; lia.
Qed.

Lemma column_save_scratch (n a : nat) (E P1 P2 : list R) :
  length P1 = n -> length P2 = n ->
  for_up 0 n (fun j P => upd P j (rd E (a + n * j)%nat)) P1
  = for_up 0 n (fun j P => upd P j (rd E (a + n * j)%nat)) P2.
Proof.
  intros H1 H2.
  destruct (for_up_store (fun j => rd E (a + n * j)%nat) 0 n P1 R0) as [Hl1 Hn1].
  destruct (for_up_store (fun j => rd E (a + n * j)%nat) 0 n P2 R0) as [Hl2 Hn2].
  cbv beta in *.
  apply (nth_ext _ _ R0 R0); [congruence|].
  intros k Hk; rewrite Hl1, H1 in Hk.
  rewrite Hn1, Hn2, H1, H2; simpl.
  replace (k <? n)%nat with true by (symmetry; apply Nat.ltb_lt; exact Hk).
  reflexivity.
Qed.

Lemma permute_cycle_scratch (n : nat) (perm : list Z) (i : nat)
    (a b : list R * list Z * list R * Z) :
  same_but_saved n a b ->
  match permute_cycle n perm i a, permute_cycle n perm i b with
  | Some a', Some b' => same_but_saved n a' b'
  | None, None => True
  | _, _ => False
  end.
Proof.
  destruct a as [[[E1 v1] P1] t1], b as [[[E2 v2] P2] t2].
  intros (-> & -> & -> & H1 & H2); unfold permute_cycle.
  destruct ((rdz v2 i =? 0)%Z && negb (rdz perm i =? Z.of_nat i)%Z).
  - rewrite (column_save_scratch n i E2 P1 P2 H1 H2).
    destruct (cycle_walk n n perm (Z.of_nat i) (Z.of_nat i) (E2, v2, t2))
      as [[cur [[E' v'] t']]|]; [|exact I].
    assert (Hl : length (for_up 0 n (fun j P => upd P j (rd E2 (i + n * j)%nat)) P2) = n)
      by (rewrite for_up_length by (intros; apply length_upd); exact H2).
    repeat split; exact Hl.
  - repeat split; assumption.
Qed.

Lemma cycle_walk_shape (n : nat) (perm : list Z) (start : Z) :
  forall fuel cur (E : list R) v t cur' E' v' t',
    cycle_walk fuel n perm start cur (E, v, t) = Some (cur', (E', v', t')) ->
    length E' = length E /\ length v' = length v /\
    ((t = 0 \/ t = 1)%Z -> (t' = 0 \/ t' = 1)%Z).
Proof.
  induction fuel as [|fuel IH]; intros cur E v t cur' E' v' t'; [discriminate|].
  rewrite cycle_walk_pass.
  destruct (rdz perm (Z.to_nat cur) =? start)%Z.
  - intros [= <- <- <- <-]; auto.
  - intros H; apply IH in H; destruct H as (HE & Hv & Ht).
    rewrite for_up_length in HE by (intros; apply length_upd).
    rewrite length_upd in Hv.
    split; [exact HE|split; [exact Hv|]].
    intros Ht0; apply Ht; unfold flip_type; lia.
Qed.

Lemma permute_cycle_shape (n : nat) (perm : list Z) (i : nat) (E : list R) v P t
    E' v' P' t' :
  permute_cycle n perm i (E, v, P, t) = Some (E', v', P', t') ->
  length E' = length E /\ length v' = length v /\ length P' = length P /\
  ((t = 0 \/ t = 1)%Z -> (t' = 0 \/ t' = 1)%Z).
Proof.
  unfold permute_cycle.
  destruct ((rdz v i =? 0)%Z && negb (rdz perm i =? Z.of_nat i)%Z).
  - destruct (cycle_walk n n perm (Z.of_nat i) (Z.of_nat i) (E, v, t))
      as [[cur [[E1 v1] t1]]|] eqn:Hw; [|discriminate].
    apply cycle_walk_shape in Hw; destruct Hw as (HE & Hv & Ht).
    intros [= <- <- <- <-].
    rewrite !for_up_length by (intros; apply length_upd).
    rewrite length_upd; auto.
  - intros [= <- <- <- <-]; auto.
Qed.

Lemma permute_loop_shape (n : nat) (perm : list Z) (E : list R) v P t E' v' P' t' :
  for_up_opt 0 n (permute_cycle n perm) (E, v, P, t) = Some (E', v', P', t') ->
  length E' = length E /\ length v' = length v /\ length P' = length P /\
  ((t = 0 \/ t = 1)%Z -> (t' = 0 \/ t' = 1)%Z).
Proof.
  intros H.
  apply (for_up_opt_some_inv
           (fun s : list R * list Z * list R * Z =>
              let '(E1, v1, P1, t1) := s in
              length E1 = length E /\ length v1 = length v /\ length P1 = length P /\
              ((t = 0 \/ t = 1)%Z -> (t1 = 0 \/ t1 = 1)%Z))
           0 n (permute_cycle n perm) (E, v, P, t) (E', v', P', t')); [auto| |exact H].
  intros i [[[E1 v1] P1] t1] [[[E2 v2] P2] t2] _ (HE & Hv & HP & Ht) Hb.
  apply permute_cycle_shape in Hb; destruct Hb as (HE' & Hv' & HP' & Ht').
  repeat split; try congruence; auto.
Qed.

End BulkAgain.

Section BulkTwice.

Context {R : Type} {RA : RealArith R}.

Local Abbreviation Solver := (SymmetricEigensolver R).

Lemma visited_reset_repeat (vis : list Z) :
  for_up 0 (length vis) (fun k v => upd v k 0%Z) vis = repeat 0%Z (length vis).
Proof.
  destruct (for_up_store (fun _ : nat => 0%Z) 0 (length vis) vis 0%Z) as [Hl Hn].
  cbv beta in Hl, Hn.
  apply (nth_ext _ _ 0%Z 0%Z); [rewrite repeat_length; exact Hl|].
  intros k Hk; rewrite Hl in Hk; rewrite Hn.
  replace (k <? length vis)%nat with true by (symmetry; apply Nat.ltb_lt; exact Hk).
  simpl; symmetry; apply nth_repeat.
Qed.

Lemma identity_fill_fresh (n : nat) (E1 E2 : list R) :
  length E1 = (n * n)%nat -> length E2 = (n * n)%nat ->
  identity_fill n E1 = identity_fill n E2.
Proof.
  intros H1 H2.
  destruct (identity_fill_rd n E1 H1) as [Hl1 Hent1].
  destruct (identity_fill_rd n E2 H2) as [Hl2 Hent2].
  apply (entries_ext n); try assumption.
  intros c r Hc Hr; rewrite Hent1, Hent2 by assumption; reflexivity.
Qed.

(** X11. [GetEigenvectors] is repeatable.  Whatever the caller's buffer
    and the scratch vectors held, a second call on the solver the first
    call left returns the same matrix and the same matrix type. *)
Theorem GetEigenvectors_repeatable (n : nat) (E1 E2 Q : list R) (st st1 : Solver) :
  mSize st = Z.of_nat n ->
  length (mVVector st) = n -> length (mWVector st) = n ->
  length (mPVector st) = n ->
  length E1 = (n * n)%nat -> length E2 = (n * n)%nat ->
  GetEigenvectors (Some E1) st = Some (Some Q, st1) ->
  exists st2,
    GetEigenvectors (Some E2) st1 = Some (Some Q, st2) /\
    GetEigenvectorMatrixType st2 = GetEigenvectorMatrixType st1.
Proof.
  intros Hsz HV HW HP HE1 HE2.
  unfold GetEigenvectors.
  change (mSize (set_type (-1) st)) with (mSize st).
  change (mMatrix (set_type (-1) st)) with (mMatrix st).
  change (mGivens (set_type (-1) st)) with (mGivens st).
  change (mPermutation (set_type (-1) st)) with (mPermutation st).
  change (mVisited (set_type (-1) st)) with (mVisited st).
  change (mVVector (set_type (-1) st)) with (mVVector st).
  change (mWVector (set_type (-1) st)) with (mWVector st).
  change (mPVector (set_type (-1) st)) with (mPVector st).
  change (mMaxIterations (set_type (-1) st)) with (mMaxIterations st).
  change (mDiagonal (set_type (-1) st)) with (mDiagonal st).
  change (mSuperdiagonal (set_type (-1) st)) with (mSuperdiagonal st).
  change (mSize (set_type (-1) st1)) with (mSize st1).
  change (mMatrix (set_type (-1) st1)) with (mMatrix st1).
  change (mGivens (set_type (-1) st1)) with (mGivens st1).
  change (mPermutation (set_type (-1) st1)) with (mPermutation st1).
  change (mVisited (set_type (-1) st1)) with (mVisited st1).
  change (mVVector (set_type (-1) st1)) with (mVVector st1).
  change (mWVector (set_type (-1) st1)) with (mWVector st1).
  change (mPVector (set_type (-1) st1)) with (mPVector st1).
  change (mMaxIterations (set_type (-1) st1)) with (mMaxIterations st1).
  change (mDiagonal (set_type (-1) st1)) with (mDiagonal st1).
  change (mSuperdiagonal (set_type (-1) st1)) with (mSuperdiagonal st1).
  destruct (mSize st >? 0)%Z eqn:Hpos.
  2:{ intros [= <- <-]; simpl; rewrite Hpos.
      assert (Hn0 : n = 0%nat) by (rewrite Z.gtb_ltb in Hpos; apply Z.ltb_ge in Hpos; lia).
      rewrite Hn0 in HE1, HE2; destruct E1, E2; try discriminate.
      eexists; split; reflexivity. }
  rewrite Hsz, Nat2Z.id.
  rewrite (identity_fill_fresh n E1 E2 HE1 HE2).
  destruct (identity_fill_rd n E2 HE2) as [HlI _].
  set (I0 := identity_fill n E2) in *.
  assert (Hm : (n - 2 + 1 < n \/ n - 2 = 0)%nat) by lia.
  destruct (for_down 0 (n - 2) (householder_accumulate n (mMatrix st))
              (I0, mVVector st, mWVector st)) as [[A V1] W1] eqn:Hpass.
  set (B := fold_left (givens_multiply n) (mGivens st) A).
  set (ty0 := (1 - Z.land (Z.of_nat n) 1)%Z).
  assert (Hscratch : forall V W, length V = n -> length W = n ->
            fst (fst (for_down 0 (n - 2) (householder_accumulate n (mMatrix st))
                        (I0, V, W))) = A).
  { intros V W HlV HlW.
    destruct (householder_passes_scratch n (mMatrix st) (n - 2) I0 V W
                (mVVector st) (mWVector st) Hm HlI HlV HlW HV HW) as (Heq & _).
    rewrite Heq, Hpass; reflexivity. }
  destruct (householder_passes_scratch n (mMatrix st) (n - 2) I0
              (mVVector st) (mWVector st) (mVVector st) (mWVector st)
              Hm HlI HV HW HV HW) as (_ & _ & HlV1 & HlW1 & _).
  rewrite Hpass in HlV1, HlW1; simpl in HlV1, HlW1.
  destruct (rdz (mPermutation st) 0 >=? 0)%Z eqn:Hsorted.
  - destruct (for_up_opt 0 n (permute_cycle n (mPermutation st))
                (B, for_up 0 (length (mVisited st)) (fun k v => upd v k 0%Z) (mVisited st),
                 mPVector st, ty0))
      as [[[[Q1 v1] P1] t1]|] eqn:Hloop; [|discriminate].
    intros [= <- <-]; unfold GetEigenvectorMatrixType.
    cbn [mSize mMaxIterations mMatrix mDiagonal mSuperdiagonal mGivens mPermutation
         mVisited mEigenvectorMatrixType mPVector mVVector mWVector].
    rewrite <- Hsz, Hpos, Hsz, Nat2Z.id, Hsorted; fold I0.
    specialize (Hscratch V1 W1 HlV1 HlW1).
    destruct (for_down 0 (n - 2) (householder_accumulate n (mMatrix st)) (I0, V1, W1))
      as [[A' V2] W2]; simpl in Hscratch; subst A'.
    fold B ty0.
    pose proof (permute_loop_shape _ _ _ _ _ _ _ _ _ _ Hloop) as (_ & Hlv1 & HlP1 & _).
    rewrite visited_reset_repeat in *.
    rewrite repeat_length in Hlv1; rewrite Hlv1.
    pose proof (for_up_opt_rel (same_but_saved n) 0 n
                  (permute_cycle n (mPermutation st))
                  (B, repeat 0%Z (length (mVisited st)), mPVector st, ty0)
                  (B, repeat 0%Z (length (mVisited st)), P1, ty0)) as Hrel.
    rewrite Hloop in Hrel.
    destruct (for_up_opt 0 n (permute_cycle n (mPermutation st))
                (B, repeat 0%Z (length (mVisited st)), P1, ty0))
      as [[[[Q2 v2] P2] t2]|].
    + destruct Hrel as (-> & -> & -> & _).
      * repeat split; congruence.
      * intros i a b _; apply permute_cycle_scratch.
      * eexists; split; reflexivity.
    + exfalso; apply Hrel.
      * repeat split; congruence.
      * intros i a b _; apply permute_cycle_scratch.
  - intros [= <- <-]; unfold GetEigenvectorMatrixType.
    cbn [mSize mMaxIterations mMatrix mDiagonal mSuperdiagonal mGivens mPermutation
         mVisited mEigenvectorMatrixType mPVector mVVector mWVector].
    rewrite <- Hsz, Hpos, Hsz, Nat2Z.id, Hsorted; fold I0.
    specialize (Hscratch V1 W1 HlV1 HlW1).
    destruct (for_down 0 (n - 2) (householder_accumulate n (mMatrix st)) (I0, V1, W1))
      as [[A' V2] W2]; simpl in Hscratch; subst A'.
    eexists; split; reflexivity.
Qed.

End BulkTwice.

Section BulkAfterSolve.

Context {R : Type} {RA : RealArith R}.
Variable std_sort : sorter (SortItem R).

Local Abbreviation Solver := (SymmetricEigensolver R).

Lemma givens_multiply_length (n : nat) (G : list (GivensRotation R)) : forall E : list R,
  length (fold_left (givens_multiply n) G E) = length E.
Proof.
  induction G as [|g G IH]; intros E; simpl; [reflexivity|].
  rewrite IH; unfold givens_multiply.
  apply for_up_length; intros; rewrite !length_upd; reflexivity.
Qed.

(** On a solved solver [GetEigenvectors] returns; its matrix is the
    accumulated product with the columns gathered through
    [mPermutation], and the type it reports is [0] or [1]. *)
Lemma GetEigenvectors_returns (n : nat) (E : list R) (st : Solver) :
  solved n st -> length E = (n * n)%nat ->
  let Q0 := fold_left (givens_multiply n) (mGivens st)
              (fst (fst (for_down 0 (n - 2) (householder_accumulate n (mMatrix st))
                           (identity_fill n E, mVVector st, mWVector st)))) in
  exists Q st',
    GetEigenvectors (Some E) st = Some (Some Q, st') /\
    length Q = (n * n)%nat /\
    ((rdz (mPermutation st) 0 < 0)%Z -> Q = Q0) /\
    ((0 <= rdz (mPermutation st) 0)%Z ->
       forall c r, (c < n)%nat -> (r < n)%nat ->
         entry n Q c r = entry n Q0 (perm_at (mPermutation st) c) r) /\
    (mEigenvectorMatrixType st' = 0 \/ mEigenvectorMatrixType st' = 1)%Z /\
    solved n st' /\
    mSize st' = mSize st /\ mMaxIterations st' = mMaxIterations st /\
    mMatrix st' = mMatrix st /\ mDiagonal st' = mDiagonal st /\
    mSuperdiagonal st' = mSuperdiagonal st /\ mGivens st' = mGivens st /\
    mPermutation st' = mPermutation st.
Proof.
  intros [Hsz Hn HG HP HV HW Hvis Hperm] HE Q0; subst Q0.
  unfold GetEigenvectors.
  change (mSize (set_type (-1) st)) with (mSize st).
  change (mMatrix (set_type (-1) st)) with (mMatrix st).
  change (mGivens (set_type (-1) st)) with (mGivens st).
  change (mPermutation (set_type (-1) st)) with (mPermutation st).
  change (mVisited (set_type (-1) st)) with (mVisited st).
  change (mVVector (set_type (-1) st)) with (mVVector st).
  change (mWVector (set_type (-1) st)) with (mWVector st).
  change (mPVector (set_type (-1) st)) with (mPVector st).
  change (mMaxIterations (set_type (-1) st)) with (mMaxIterations st).
  change (mDiagonal (set_type (-1) st)) with (mDiagonal st).
  change (mSuperdiagonal (set_type (-1) st)) with (mSuperdiagonal st).
  replace (mSize st >? 0)%Z with true by (symmetry; apply Z.gtb_lt; lia).
  rewrite Hsz, Nat2Z.id.
  destruct (identity_fill_rd n E HE) as [HlI _].
  destruct (householder_passes_scratch n (mMatrix st) (n - 2) (identity_fill n E)
              (mVVector st) (mWVector st) (mVVector st) (mWVector st))
    as (_ & HlA & HlV1 & HlW1 & _); try assumption; [lia|].
  destruct (for_down 0 (n - 2) (householder_accumulate n (mMatrix st))
              (identity_fill n E, mVVector st, mWVector st)) as [[A V1] W1].
  simpl in HlA, HlV1, HlW1; simpl fst.
  set (B := fold_left (givens_multiply n) (mGivens st) A).
  assert (HlB : length B = (n * n)%nat)
    by (unfold B; rewrite givens_multiply_length; exact HlA).
  assert (Hty : (1 - Z.land (Z.of_nat n) 1 = 0 \/ 1 - Z.land (Z.of_nat n) 1 = 1)%Z).
  { rewrite Zland_1_mod; pose proof (Z.mod_pos_bound (Z.of_nat n) 2); lia. }
  destruct (rdz (mPermutation st) 0 >=? 0)%Z eqn:Hsorted.
  - assert (Hp : is_permutation n (mPermutation st)).
    { destruct Hperm as [Hneg|Hp]; [|exact Hp].
      apply Z.geb_le in Hsorted; lia. }
    destruct (visited_reset (mVisited st)) as [Hlv Hzero].
    rewrite Hvis in Hlv, Hzero.
    destruct (permute_columns n (mPermutation st) Hp B _ (mPVector st)
                (1 - Z.land (Z.of_nat n) 1)%Z HlB Hlv HP Hzero)
      as (E3 & v3 & P3 & ty3 & Heq3 & HlE3 & Hlv3 & HlP3 & Hent3).
    rewrite Hvis, Heq3.
    apply permute_loop_shape in Heq3; destruct Heq3 as (_ & _ & _ & Hty3).
    do 2 eexists; split; [reflexivity|].
    split; [exact HlE3|split; [intros Hneg; apply Z.geb_le in Hsorted; lia|]].
    split; [intros _; exact Hent3|].
    split; [simpl; apply Hty3; exact Hty|].
    split; [constructor; simpl; auto|simpl; repeat split; auto].
  - do 2 eexists; split; [reflexivity|].
    split; [exact HlB|split; [reflexivity|]].
    split; [intros Hge; rewrite Z.geb_leb in Hsorted; apply Z.leb_gt in Hsorted; lia|].
    split; [simpl; exact Hty|].
    split; [constructor; simpl; auto|simpl; repeat split; auto].
Qed.

(** X12. After a convergent [Solve], [GetEigenvectors] with a buffer of
    [N * N] entries returns (its cycle loop comes back to every start)
    with [N * N] entries written over the buffer, reports the type [0]
    or [1], never [-1], and leaves the size, the matrix, the
    eigenvalues, the rotation log and the permutation as they were. *)
Theorem GetEigenvectors_after_Solve (input : list R) (sortType : Z) (st : Solver)
    (E : list R) :
  std_sort_contract std_sort ->
  wf st ->
  snd (Solve std_sort input sortType st) <> NOT_CONVERGED ->
  (sortType <> 0%Z ->
   strict_weak_on (sort_comp sortType)
                  (sort_items (fst (Solve std_sort input sortType st)))) ->
  length E = (Z.to_nat (mSize st) * Z.to_nat (mSize st))%nat ->
  let st' := fst (Solve std_sort input sortType st) in
  exists Q st'',
    GetEigenvectors (Some E) st' = Some (Some Q, st'') /\
    length Q = length E /\
    (GetEigenvectorMatrixType st'' = 0 \/ GetEigenvectorMatrixType st'' = 1)%Z /\
    mSize st'' = mSize st' /\ mMaxIterations st'' = mMaxIterations st' /\
    mMatrix st'' = mMatrix st' /\ mDiagonal st'' = mDiagonal st' /\
    mSuperdiagonal st'' = mSuperdiagonal st' /\ mGivens st'' = mGivens st' /\
    mPermutation st'' = mPermutation st'.
Proof.
  intros Hcontract Hwf Hconv Hswo HE st'.
  pose proof (Solve_solved std_sort input sortType st Hcontract Hwf Hconv Hswo) as Hs.
  destruct (GetEigenvectors_returns _ E st' Hs HE)
    as (Q & st'' & Heq & HlQ & _ & _ & Hty & _ & Hframe).
  exists Q, st''; split; [exact Heq|split; [congruence|split; [exact Hty|exact Hframe]]].
Qed.

End BulkAfterSolve.

(* ================================================================== *)
(** ** The type flag after the column permutation *)

Lemma find_seq_first (f : nat -> bool) (m : nat) : forall a L,
  find f (seq a m) = Some L ->
  (a <= L < a + m)%nat /\ f L = true /\ forall k, (a <= k < L)%nat -> f k = false.
Proof.
  induction m as [|m IH]; intros a L Hfind; simpl in Hfind; [discriminate|].
  destruct (f a) eqn:Hfa.
  - injection Hfind as <-; split; [lia|split; [exact Hfa|intros k Hk; lia]].
  - destruct (IH (S a) L Hfind) as (Hr & HL & Hbefore).
    split; [lia|split; [exact HL|]].
    intros k Hk; destruct (Nat.eq_dec k a) as [->|Hne]; [exact Hfa|apply Hbefore; lia].
Qed.

Lemma cycle_toggles_upto_succ (n : nat) (perm : list Z) (i : nat) :
  cycle_toggles_upto n perm (S i)
  = (cycle_toggles_upto n perm i
     + (if starts_cycle n perm i then cycle_size n perm i - 1 else 0))%nat.
Proof.
  unfold cycle_toggles_upto.
  rewrite seq_S, map_app, list_sum_app; simpl; lia.
Qed.

Section CycleFlags.

Context {R : Type} {RA : RealArith R}.

Variable n : nat.
Variable perm : list Z.
Hypothesis Hperm : is_permutation n perm.

Local Abbreviation pi := (perm_at perm).

Lemma orbit_add (i a b : nat) :
  orbit perm i (a + b) = orbit perm (orbit perm i a) b.
Proof. unfold orbit; rewrite Nat.add_comm; apply Nat.iter_add. Qed.

Lemma orbit_period (i P : nat) :
  orbit perm i P = i -> forall m k, orbit perm i (m * P + k) = orbit perm i k.
Proof.
  intros HP; induction m as [|m IH]; intros k; [reflexivity|].
  replace (S m * P + k)%nat with (P + (m * P + k))%nat by lia.
  rewrite orbit_add, HP; apply IH.
Qed.

Lemma orbit_mod (i P k : nat) :
  (0 < P)%nat -> orbit perm i P = i -> orbit perm i (k mod P) = orbit perm i k.
Proof.
  intros Hpos HP.
  rewrite (Nat.div_mod_eq k P) at 2.
  rewrite (Nat.mul_comm P), orbit_period by exact HP; reflexivity.
Qed.

Lemma fixed_orbit (i k : nat) : pi i = i -> orbit perm i k = i.
Proof.
  intros Hfix; induction k as [|k IH]; [reflexivity|].
  change (orbit perm i (S k)) with (pi (orbit perm i k)); rewrite IH; exact Hfix.
Qed.

(** The cycle of [i] closes after [cycle_size] steps and not before. *)
Lemma cycle_size_spec (i : nat) :
  (i < n)%nat ->
  (0 < cycle_size n perm i <= n)%nat /\
  orbit perm i (cycle_size n perm i) = i /\
  forall k, (0 < k < cycle_size n perm i)%nat -> orbit perm i k <> i.
Proof.
  intros Hi; unfold cycle_size.
  destruct (find (fun L => (orbit perm i L =? i)%nat) (seq 1 n)) as [L|] eqn:Hfind.
  - destruct (find_seq_first _ _ _ _ Hfind) as (Hr & HL & Hbefore).
    apply Nat.eqb_eq in HL.
    split; [lia|split; [exact HL|]].
    intros k Hk Hback.
    specialize (Hbefore k ltac:(lia)).
    apply Nat.eqb_neq in Hbefore; contradiction.
  - exfalso.
    assert (Hnone : forall k, (0 < k <= n)%nat -> orbit perm i k <> i).
    { intros k Hk.
      apply Nat.eqb_neq.
      apply (find_none _ _ Hfind k); apply in_seq; lia. }
    pose proof (orbit_bound n perm Hperm i Hi n Hnone); lia.
Qed.

Lemma follow_orbit (i k : nat) :
  (i < n)%nat -> follow perm k (Z.of_nat i) = Z.of_nat (orbit perm i k).
Proof.
  intros Hi; induction k as [|k IH]; [reflexivity|].
  change (follow perm (S k) (Z.of_nat i))
    with (rdz perm (Z.to_nat (follow perm k (Z.of_nat i)))).
  rewrite IH, Nat2Z.id.
  apply (orbit_next n perm Hperm i Hi).
Qed.

Lemma cycle_length_size (i : nat) :
  (i < n)%nat -> cycle_length perm (Z.of_nat i) (cycle_size n perm i).
Proof.
  intros Hi; destruct (cycle_size_spec i Hi) as (Hr & Hback & Hbefore).
  split; [lia|split].
  - rewrite follow_orbit by exact Hi; rewrite Hback; reflexivity.
  - intros k Hk; rewrite follow_orbit by exact Hi.
    intros Heq; apply (Hbefore k Hk); lia.
Qed.

(** From any index of the walk the walk comes back to its start. *)
Lemma orbit_back (i k : nat) :
  (i < n)%nat -> exists k', (k' < n)%nat /\ orbit perm (orbit perm i k) k' = i.
Proof.
  intros Hi; destruct (cycle_size_spec i Hi) as (Hr & Hback & _).
  set (P := cycle_size n perm i) in *.
  exists ((P - k mod P) mod P)%nat; split.
  - pose proof (Nat.mod_upper_bound (P - k mod P) P ltac:(lia)); lia.
  - rewrite <- (orbit_mod i P k) by (try exact Hback; lia).
    rewrite <- orbit_add.
    pose proof (Nat.mod_upper_bound k P ltac:(lia)) as Hk.
    destruct (Nat.eq_dec (k mod P) 0) as [H0|Hne].
    + rewrite H0, Nat.sub_0_r, Nat.Div0.mod_same; reflexivity.
    + rewrite (Nat.mod_small (P - k mod P) P) by lia.
      replace (k mod P + (P - k mod P))%nat with P by lia; exact Hback.
Qed.

(** No index on the cycle of an index that moves is fixed. *)
Lemma moving_cycle (i k : nat) :
  (i < n)%nat -> pi i <> i -> pi (orbit perm i k) <> orbit perm i k.
Proof.
  intros Hi Hmove Hfix.
  destruct (orbit_back i k Hi) as (k' & _ & Hk').
  rewrite (fixed_orbit _ k' Hfix) in Hk'.
  apply Hmove; rewrite <- Hk' at 1; rewrite Hfix; exact Hk'.
Qed.

Lemma fixed_cycle_size (i : nat) : (i < n)%nat -> pi i = i -> cycle_size n perm i = 1%nat.
Proof.
  intros Hi Hfix; destruct (cycle_size_spec i Hi) as (Hr & _ & Hbefore).
  destruct (Nat.eq_dec (cycle_size n perm i) 1) as [|Hne]; [assumption|exfalso].
  apply (Hbefore 1%nat); [lia|exact Hfix].
Qed.

Lemma starts_cycle_unmarked (ty0 : Z) (i : nat) (s : list R * list Z * list R * Z) :
  (i < n)%nat -> flagged n perm ty0 i s ->
  rdz (snd (fst (fst s))) i = 0%Z -> pi i <> i -> starts_cycle n perm i = true.
Proof.
  destruct s as [[[E v] P] ty]; simpl; intros Hi [Hmark _] Hvi Hmove.
  apply forallb_forall; intros k _.
  apply Nat.leb_le.
  destruct (Nat.le_gt_cases i (orbit perm i k)) as [Hle|Hgt]; [exact Hle|exfalso].
  destruct (orbit_back i k Hi) as (k' & _ & Hk').
  assert (Hv : rdz v i <> 0%Z).
  { apply (Hmark i Hi); split; [exact Hmove|].
    exists (orbit perm i k), k'; split; [exact Hgt|symmetry; exact Hk']. }
  contradiction.
Qed.

Lemma starts_cycle_marked (ty0 : Z) (i : nat) (s : list R * list Z * list R * Z) :
  (i < n)%nat -> flagged n perm ty0 i s ->
  rdz (snd (fst (fst s))) i <> 0%Z -> starts_cycle n perm i = false.
Proof.
  destruct s as [[[E v] P] ty]; simpl; intros Hi [Hmark _] Hvi.
  apply (Hmark i Hi) in Hvi; destruct Hvi as (_ & j & k & Hj & Hc).
  destruct (starts_cycle n perm i) eqn:Hs; [exfalso|reflexivity].
  assert (Hjn : (j < n)%nat) by lia.
  destruct (orbit_back j k Hjn) as (k' & Hk' & Hback).
  rewrite <- Hc in Hback.
  unfold starts_cycle in Hs; rewrite forallb_forall in Hs.
  specialize (Hs k' ltac:(apply in_seq; lia)).
  apply Nat.leb_le in Hs; lia.
Qed.

(** One index of the column loop keeps the flags. *)
Lemma permute_cycle_flagged (E0 : list R) (ty0 : Z) (i : nat)
    (s : list R * list Z * list R * Z) :
  (i < n)%nat -> permuted_upto n perm E0 i s -> flagged n perm ty0 i s ->
  exists s', permute_cycle n perm i s = Some s' /\
             permuted_upto n perm E0 (S i) s' /\ flagged n perm ty0 (S i) s'.
Proof.
  intros Hi Hinv Hflag.
  destruct (permute_cycle_step n perm Hperm E0 i s Hi Hinv) as (s' & Heq & Hinv').
  exists s'; split; [exact Heq|split; [exact Hinv'|]].
  pose proof (starts_cycle_unmarked ty0 i s Hi Hflag) as Hstart.
  pose proof (starts_cycle_marked ty0 i s Hi Hflag) as Hskip.
  destruct s as [[[E v] P] ty].
  destruct Hinv as (HlE & Hlv & HlP & _).
  destruct Hflag as [Hmark Hty]; simpl in Hstart, Hskip.
  destruct (Z.eq_dec (rdz v i) 0) as [Hvi|Hvi];
    [destruct (Nat.eq_dec (pi i) i) as [Hfix|Hmove]|].
  - (* a fixed point *)
    rewrite permute_cycle_skips in Heq.
    2:{ right; destruct (is_permutation_range n perm i Hperm Hi) as [Hr _].
        rewrite Hr, Hfix; reflexivity. }
    injection Heq as <-; split.
    + intros c Hc; rewrite (Hmark c Hc); split.
      * intros (Hm & j & k & Hj & Hjk); split; [exact Hm|].
        exists j, k; split; [lia|exact Hjk].
      * intros (Hm & j & k & Hj & Hjk); split; [exact Hm|].
        destruct (Nat.eq_dec j i) as [->|Hne]; [|exists j, k; split; [lia|exact Hjk]].
        rewrite (fixed_orbit i k Hfix) in Hjk; subst c; contradiction.
    + rewrite cycle_toggles_upto_succ, (fixed_cycle_size i Hi Hfix).
      destruct (starts_cycle n perm i); rewrite Nat.add_0_r; exact Hty.
  - (* the start of a cycle *)
    destruct (permute_cycle_returns n perm Hperm i Hi E v HlE Hlv P ty Hvi Hmove HlP)
      as (L & E1 & v1 & P1 & ty1 & Heq1 & Hback & _ & _ & _ & _ & Hvis).
    destruct (cycle_size_spec i Hi) as (Hsize & _).
    destruct (permute_cycle_flips n perm i (cycle_size n perm i) E v P ty
                (cycle_length_size i Hi) ltac:(lia) Hvi)
      as (E2 & v2 & P2 & Heq2).
    rewrite Heq in Heq1, Heq2.
    injection Heq1 as ->; injection Heq2 as _ _ _ Hty1; split.
    + intros c Hc; rewrite (Hvis c Hc).
      destruct (in_orbit perm i (S L) c) eqn:Hin.
      * apply (in_orbit_iff n perm i Hi) in Hin; destruct Hin as (k & _ & ->).
        split; [intros _|intros _; lia].
        split; [apply moving_cycle; assumption|].
        exists i, k; split; [lia|reflexivity].
      * rewrite (Hmark c Hc); split.
        -- intros (Hm & j & k & Hj & Hjk); split; [exact Hm|].
           exists j, k; split; [lia|exact Hjk].
        -- intros (Hm & j & k & Hj & Hjk); split; [exact Hm|].
           destruct (Nat.eq_dec j i) as [->|Hne];
             [exfalso|exists j, k; split; [lia|exact Hjk]].
           assert (Htrue : in_orbit perm i (S L) c = true).
           { apply (in_orbit_iff n perm i Hi).
             exists (k mod S L)%nat; split.
             - apply Nat.mod_upper_bound; lia.
             - rewrite orbit_mod by (try exact Hback; lia); exact Hjk. }
           rewrite Htrue in Hin; discriminate.
    + rewrite cycle_toggles_upto_succ, (Hstart Hvi Hmove).
      rewrite Nat.add_comm, Nat.iter_add, <- Hty; exact Hty1.
  - (* already visited *)
    rewrite permute_cycle_skips in Heq by (left; exact Hvi).
    injection Heq as <-; split.
    + intros c Hc; rewrite (Hmark c Hc); split.
      * intros (Hm & j & k & Hj & Hjk); split; [exact Hm|].
        exists j, k; split; [lia|exact Hjk].
      * intros (Hm & j & k & Hj & Hjk); split; [exact Hm|].
        destruct (Nat.eq_dec j i) as [->|Hne]; [|exists j, k; split; [lia|exact Hjk]].
        apply (Hmark i Hi) in Hvi; destruct Hvi as (_ & j' & k' & Hj' & Hi').
        exists j', (k' + k)%nat; split; [exact Hj'|].
        rewrite orbit_add, <- Hi'; exact Hjk.
    + rewrite cycle_toggles_upto_succ, (Hskip Hvi), Nat.add_0_r; exact Hty.
Qed.

(** The column loop returns with the type flipped [L - 1] times for
    every cycle of length [L]. *)
Lemma permute_columns_flag (E0 : list R) (vis : list Z) (Pv : list R) (ty : Z) :
  length E0 = (n * n)%nat -> length vis = n -> length Pv = n ->
  (forall c, (c < n)%nat -> rdz vis c = 0%Z) ->
  exists E' v' P',
    for_up_opt 0 n (permute_cycle n perm) (E0, vis, Pv, ty)
      = Some (E', v', P', Nat.iter (cycle_toggles n perm) flip_type ty).
Proof.
  intros HlE Hlv HlP Hzero.
  destruct (for_up_opt_inv
              (fun i s => permuted_upto n perm E0 i s /\ flagged n perm ty i s)
              0 n (permute_cycle n perm) (E0, vis, Pv, ty))
    as (s' & Heq & _ & Hflag).
  - lia.
  - split.
    + split; [exact HlE|split; [exact Hlv|split; [exact HlP|]]].
      split; [reflexivity|split; [|split]].
      * intros c Hc Hv; contradiction Hv; apply Hzero; exact Hc.
      * intros c Hc; split; intros _; apply Hzero;
          [apply (is_permutation_range n perm c Hperm Hc)|exact Hc].
      * intros c Hc; lia.
    + split; [|reflexivity].
      intros c Hc; split.
      * intros Hv; contradiction Hv; apply Hzero; exact Hc.
      * intros (_ & j & k & Hj & _); lia.
  - intros i s Hi [Hinv Hflag].
    destruct (permute_cycle_flagged E0 ty i s ltac:(lia) Hinv Hflag)
      as (s' & Heq & Hinv' & Hflag').
    exists s'; split; [exact Heq|split; assumption].
  - destruct s' as [[[E' v'] P'] ty']; destruct Hflag as [_ ->].
    exists E', v', P'; exact Heq.
Qed.

End CycleFlags.

Section SortedMatrixType.

Context {R : Type} {RA : RealArith R}.
Variable std_sort : sorter (SortItem R).

Local Abbreviation Solver := (SymmetricEigensolver R).

(** With a permutation in place [GetEigenvectors] returns with the type
    of the reflections flipped [L - 1] times for every cycle of length
    [L] of the permutation. *)
Lemma GetEigenvectors_flag (n : nat) (E : list R) (st : Solver) :
  solved n st -> length E = (n * n)%nat ->
  (0 <= rdz (mPermutation st) 0)%Z ->
  exists Q st',
    GetEigenvectors (Some E) st = Some (Some Q, st') /\
    GetEigenvectorMatrixType st'
    = Nat.iter (cycle_toggles n (mPermutation st)) flip_type (1 - Z.of_nat n mod 2)%Z.
Proof.
  intros [Hsz Hn HG HP HV HW Hvis Hperm Hbound] HE Hsorted.
  unfold GetEigenvectors.
  change (mSize (set_type (-1) st)) with (mSize st).
  change (mMatrix (set_type (-1) st)) with (mMatrix st).
  change (mGivens (set_type (-1) st)) with (mGivens st).
  change (mPermutation (set_type (-1) st)) with (mPermutation st).
  change (mVisited (set_type (-1) st)) with (mVisited st).
  change (mVVector (set_type (-1) st)) with (mVVector st).
  change (mWVector (set_type (-1) st)) with (mWVector st).
  change (mPVector (set_type (-1) st)) with (mPVector st).
  change (mMaxIterations (set_type (-1) st)) with (mMaxIterations st).
  change (mDiagonal (set_type (-1) st)) with (mDiagonal st).
  change (mSuperdiagonal (set_type (-1) st)) with (mSuperdiagonal st).
  replace (mSize st >? 0)%Z with true by (symmetry; apply Z.gtb_lt; lia).
  rewrite Hsz, Nat2Z.id.
  destruct (identity_fill_rd n E HE) as [HlI _].
  destruct (householder_passes_scratch n (mMatrix st) (n - 2) (identity_fill n E)
              (mVVector st) (mWVector st) (mVVector st) (mWVector st))
    as (_ & HlA & _); try assumption; [lia|].
  destruct (for_down 0 (n - 2) (householder_accumulate n (mMatrix st))
              (identity_fill n E, mVVector st, mWVector st)) as [[A V1] W1].
  simpl in HlA; simpl fst.
  set (B := fold_left (givens_multiply n) (mGivens st) A).
  assert (HlB : length B = (n * n)%nat)
    by (unfold B; rewrite givens_multiply_length; exact HlA).
  replace (rdz (mPermutation st) 0 >=? 0)%Z with true
    by (symmetry; rewrite Z.geb_leb; apply Z.leb_le; exact Hsorted).
  assert (Hp : is_permutation n (mPermutation st))
    by (destruct Hperm as [Hneg|Hp]; [lia|exact Hp]).
  destruct (visited_reset (mVisited st)) as [Hlv Hzero].
  rewrite Hvis in Hlv, Hzero.
  destruct (permute_columns_flag n (mPermutation st) Hp B _ (mPVector st)
              (1 - Z.land (Z.of_nat n) 1)%Z HlB Hlv HP Hzero)
    as (E3 & v3 & P3 & Heq3).
  rewrite Hvis, Heq3.
  do 2 eexists; split; [reflexivity|].
  unfold GetEigenvectorMatrixType; simpl.
  rewrite Zland_1_mod; reflexivity.
Qed.

(** C9. After a convergent [Solve] and a call of [GetEigenvectors] with
    a buffer of [N * N] entries, the type is, with [sortType = 0],
    [1 - (N mod 2)] whatever the matrix was: [+1] for even [N], [0] for
    odd [N]; and with sorting it is that value flipped [L - 1] times for
    every cycle of length [L] of the permutation [Solve] left.  In the
    column loop itself, an unvisited index on a cycle of length [L]
    makes the loop flip the flag [L - 1] times, and an index that is
    visited or fixed leaves it alone. *)
Theorem matrix_type_parity :
  (forall (input E : list R) (st : Solver),
     wf st ->
     snd (Solve std_sort input 0 st) <> NOT_CONVERGED ->
     exists E' st',
       GetEigenvectors (Some E) (fst (Solve std_sort input 0 st))
         = Some (Some E', st') /\
       GetEigenvectorMatrixType st' = (1 - mSize st mod 2)%Z /\
       (Z.even (mSize st) = true -> GetEigenvectorMatrixType st' = 1%Z) /\
       (Z.odd (mSize st) = true -> GetEigenvectorMatrixType st' = 0%Z))
  /\
  (forall (input E : list R) (sortType : Z) (st : Solver),
     std_sort_contract std_sort ->
     wf st ->
     sortType <> 0%Z ->
     snd (Solve std_sort input sortType st) <> NOT_CONVERGED ->
     strict_weak_on (sort_comp sortType)
                    (sort_items (fst (Solve std_sort input sortType st))) ->
     length E = (Z.to_nat (mSize st) * Z.to_nat (mSize st))%nat ->
     exists E' st',
       GetEigenvectors (Some E) (fst (Solve std_sort input sortType st))
         = Some (Some E', st') /\
       GetEigenvectorMatrixType st'
       = Nat.iter (cycle_toggles (Z.to_nat (mSize st))
                     (mPermutation (fst (Solve std_sort input sortType st))))
                  flip_type (1 - mSize st mod 2)%Z)
  /\
  (forall (n : nat) (perm : list Z) (i L : nat) (E : list R) (visited : list Z)
          (P : list R) (ty : Z),
     cycle_length perm (Z.of_nat i) L -> (L <= n)%nat -> rdz visited i = 0%Z ->
     exists E' visited' P',
       permute_cycle n perm i (E, visited, P, ty)
         = Some (E', visited', P', Nat.iter (L - 1) flip_type ty))
  /\
  (forall (n : nat) (perm : list Z) (i : nat) (E : list R) (visited : list Z)
          (P : list R) (ty : Z),
     rdz visited i <> 0%Z \/ rdz perm i = Z.of_nat i ->
     permute_cycle n perm i (E, visited, P, ty) = Some (E, visited, P, ty)).
Proof.
  split; [|split; [|split]].
  - intros input E st Hwf Hconv.
    destruct (Solve_unsorted_marks std_sort input st Hwf Hconv) as [Hmark Hsz].
    destruct (GetEigenvectors_unsorted E (fst (Solve std_sort input 0 st)))
      as (E' & st' & Heq & Hty).
    + rewrite Hsz; destruct Hwf; lia.
    + rewrite Hmark; lia.
    + exists E', st'; rewrite Hsz in Hty.
      split; [exact Heq|]; split; [exact Hty|].
      rewrite Hty; split; intros Hpar.
      * rewrite Zmod_even, Hpar; reflexivity.
      * rewrite Zmod_odd, Hpar; reflexivity.
  - intros input E sortType st Hcontract Hwf Hs Hconv Hswo HE.
    pose proof (Solve_solved std_sort input sortType st Hcontract Hwf Hconv
                  (fun _ => Hswo)) as Hsolved.
    pose proof (Solve_sorted_permutation std_sort input sortType st
                  Hcontract Hwf Hs Hconv Hswo) as Hp.
    destruct (GetEigenvectors_flag (Z.to_nat (mSize st)) E
                (fst (Solve std_sort input sortType st)) Hsolved HE)
      as (Q & st' & Heq & Hty).
    + destruct (is_permutation_range _ _ 0%nat Hp) as [Hr _];
        [destruct Hwf; lia|rewrite Hr; lia].
    + exists Q, st'; split; [exact Heq|].
      rewrite Hty, Z2Nat.id by (destruct Hwf; lia); reflexivity.
  - intros; eapply permute_cycle_flips; eauto.
  - intros n perm i E visited P ty Hskip.
    apply (permute_cycle_skips n perm i (E, visited, P, ty)); exact Hskip.
Qed.

End SortedMatrixType.

Section SortedPairs.

Context {R : Type} {RA : RealArith R}.
Variable std_sort : sorter (SortItem R).

Local Abbreviation Solver := (SymmetricEigensolver R).

(** [sortType] decides nothing but the last step of a convergent
    [Solve]. *)
Lemma Solve_sortType_last (input : list R) (sortType : Z) (st : Solver) :
  wf st ->
  snd (Solve std_sort input sortType st) <> NOT_CONVERGED ->
  exists X k,
    Solve std_sort input sortType st = (ComputePermutation std_sort sortType X, k) /\
    Solve std_sort input 0 st = (ComputePermutation std_sort 0 X, k) /\
    k <> NOT_CONVERGED.
Proof.
  intros Hwf Hconv.
  assert (Hpos : (0 < mSize st)%Z) by (destruct Hwf; lia).
  assert (Hm : (0 < mMaxIterations st <= 0xFFFFFFFF)%Z) by (destruct Hwf; assumption).
  destruct (Solve_cases std_sort input sortType st Hpos)
    as [(k & Hk & Heq & Hc & Hnc)|(Heq & _)];
    [|rewrite Heq in Hconv; contradiction Hconv; reflexivity].
  destruct (Solve_cases std_sort input 0 st Hpos)
    as [(k' & Hk' & Heq' & Hc' & Hnc')|(Heq' & Hnc')].
  - assert (k' = k).
    { destruct (Nat.lt_trichotomy k k') as [Hlt|[Heqk|Hgt]]; [|auto|].
      - rewrite (Hnc' k Hlt) in Hc; discriminate.
      - rewrite (Hnc k' Hgt) in Hc'; discriminate. }
    subst k'; do 2 eexists; split; [exact Heq|split; [exact Heq'|]].
    unfold NOT_CONVERGED; lia.
  - rewrite (Hnc' k Hk) in Hc; discriminate.
Qed.

Lemma GetEigenvalues_rd (n : nat) (out : list R) (st : Solver) :
  mSize st = Z.of_nat n -> (0 < n)%nat ->
  length (mDiagonal st) = n -> length out = n ->
  exists ev,
    GetEigenvalues (Some out) st = Some ev /\ length ev = n /\
    forall c, (c < n)%nat ->
      rd ev c = if (rdz (mPermutation st) 0 >=? 0)%Z
                then rd (mDiagonal st) (Z.to_nat (rdz (mPermutation st) c))
                else rd (mDiagonal st) c.
Proof.
  intros Hsz Hn HD Hout; unfold GetEigenvalues; cbv zeta.
  replace (mSize st >? 0)%Z with true by (symmetry; apply Z.gtb_lt; lia).
  rewrite Hsz, Nat2Z.id.
  destruct (rdz (mPermutation st) 0 >=? 0)%Z.
  - destruct (for_up_store
                (fun i => rd (mDiagonal st) (Z.to_nat (rdz (mPermutation st) i)))
                0 n out R0) as [Hl Hnth].
    cbv beta in Hl, Hnth.
    eexists; split; [reflexivity|split; [lia|]].
    intros c Hc; unfold rd in *; rewrite Hnth, Hout.
    replace (c <? n)%nat with true by (symmetry; apply Nat.ltb_lt; lia).
    reflexivity.
  - destruct (copy_n_rd n (mDiagonal st) out HD Hout) as [Hl Hrd].
    eexists; split; [reflexivity|split; [exact Hl|]].
    intros c _; apply Hrd.
Qed.

(** X13. Sorting keeps the eigenpairs together.  A convergent [Solve]
    with [sortType] [+1] or [-1] differs from the one with [sortType = 0]
    on the same input by the permutation alone: entry [c] of
    [GetEigenvalues] is entry [mPermutation[c]] of the unsorted
    eigenvalues, and column [c] of [GetEigenvectors] is column
    [mPermutation[c]] of the unsorted matrix. *)
Theorem sorting_permutes_eigenpairs (input : list R) (sortType : Z) (st : Solver)
    (E out : list R) :
  std_sort_contract std_sort ->
  wf st ->
  sortType <> 0%Z ->
  snd (Solve std_sort input sortType st) <> NOT_CONVERGED ->
  strict_weak_on (sort_comp sortType)
                 (sort_items (fst (Solve std_sort input sortType st))) ->
  length E = (Z.to_nat (mSize st) * Z.to_nat (mSize st))%nat ->
  length out = Z.to_nat (mSize st) ->
  let n := Z.to_nat (mSize st) in
  let sorted := Solve std_sort input sortType st in
  let unsorted := Solve std_sort input 0 st in
  let perm := mPermutation (fst sorted) in
  snd unsorted = snd sorted /\
  is_permutation n perm /\
  exists Q Q0 ev ev0 st1 st2,
    GetEigenvectors (Some E) (fst sorted) = Some (Some Q, st1) /\
    GetEigenvectors (Some E) (fst unsorted) = Some (Some Q0, st2) /\
    GetEigenvalues (Some out) (fst sorted) = Some ev /\
    GetEigenvalues (Some out) (fst unsorted) = Some ev0 /\
    forall c, (c < n)%nat ->
      (perm_at perm c < n)%nat /\
      rd ev c = rd ev0 (perm_at perm c) /\
      forall r, (r < n)%nat ->
        rd Q (c + n * r)%nat = rd Q0 (perm_at perm c + n * r)%nat.
Proof.
  intros Hcontract Hwf Hs Hconv Hswo HE Hout n sorted unsorted perm.
  pose proof (Solve_solved std_sort input sortType st Hcontract Hwf Hconv
                (fun _ => Hswo)) as Hsolved.
  pose proof (Solve_sorted_permutation std_sort input sortType st
                Hcontract Hwf Hs Hconv Hswo) as Hperm.
  destruct (Solve_sortType_last input sortType st Hwf Hconv)
    as (X & k & Heq & Heq0 & Hk).
  assert (Hconv0 : snd (Solve std_sort input 0 st) <> NOT_CONVERGED)
    by (rewrite Heq0; exact Hk).
  pose proof (Solve_solved std_sort input 0 st Hcontract Hwf Hconv0
                (fun H => False_ind _ (H eq_refl))) as Hsolved0.
  destruct (Solve_unsorted_marks std_sort input st Hwf Hconv0) as [Hmark _].
  fold n in Hsolved, Hsolved0, Hperm.
  subst sorted unsorted perm.
  assert (Hn : (2 <= n)%nat) by (subst n; destruct Hwf; lia).
  assert (Hp0 : (0 <= rdz (mPermutation (fst (Solve std_sort input sortType st))) 0)%Z).
  { destruct (is_permutation_range n _ 0 Hperm) as [-> _]; lia. }
  destruct (GetEigenvectors_returns n E _ Hsolved HE)
    as (Q & st1 & HQ & _ & _ & Hcols & _).
  destruct (GetEigenvectors_returns n E _ Hsolved0 HE)
    as (Q0 & st2 & HQ0 & _ & Hplain & _).
  specialize (Hcols Hp0).
  specialize (Hplain ltac:(lia)).
  assert (HlD : length (mDiagonal (fst (Solve std_sort input sortType st))) = n).
  { destruct (Solve_wf std_sort input sortType st Hwf) as (Hwf' & Hsz' & _).
    destruct Hwf' as [_ _ _ HlD' _ _ _ _ _ _]; rewrite HlD', Hsz'; reflexivity. }
  assert (HlD0 : length (mDiagonal (fst (Solve std_sort input 0 st))) = n).
  { destruct (Solve_wf std_sort input 0 st Hwf) as (Hwf' & Hsz' & _).
    destruct Hwf' as [_ _ _ HlD' _ _ _ _ _ _]; rewrite HlD', Hsz'; reflexivity. }
  destruct (GetEigenvalues_rd n out _ (solved_size _ _ Hsolved) ltac:(lia) HlD Hout)
    as (ev & Hev & _ & Hevr).
  destruct (GetEigenvalues_rd n out _ (solved_size _ _ Hsolved0) ltac:(lia) HlD0 Hout)
    as (ev0 & Hev0 & _ & Hevr0).
  split; [rewrite Heq, Heq0; reflexivity|split; [exact Hperm|]].
  exists Q, Q0, ev, ev0, st1, st2.
  split; [exact HQ|split; [exact HQ0|split; [exact Hev|split; [exact Hev0|]]]].
  intros c Hc.
  destruct (is_permutation_range n _ c Hperm Hc) as [Hpc Hlt].
  split; [exact Hlt|split].
  - rewrite Hevr by exact Hc; rewrite Hevr0 by exact Hlt.
    replace (rdz (mPermutation (fst (Solve std_sort input sortType st))) 0 >=? 0)%Z
      with true by (symmetry; apply Z.geb_le; lia).
    replace (rdz (mPermutation (fst (Solve std_sort input 0 st))) 0 >=? 0)%Z
      with false by (symmetry; rewrite Z.geb_leb; apply Z.leb_gt; lia).
    rewrite Heq, Heq0; reflexivity.
  - intros r Hr.
    change (entry n Q c r
            = entry n Q0 (perm_at (mPermutation (fst (Solve std_sort input sortType st))) c) r).
    rewrite Hcols by assumption; rewrite Hplain.
    rewrite Heq, Heq0; reflexivity.
Qed.

End SortedPairs.

(* ================================================================== *)
(** ** [GetEigenvector] twice *)

Section SingleTwice.

Context {R : Type} {RA : RealArith R}.

Local Abbreviation Solver := (SymmetricEigensolver R).

Lemma reflect_length (n : nat) (M : list R) (i : nat) (x y : list R) :
  length (reflect n M i x y) = length y.
Proof.
  unfold reflect.
  rewrite for_up_length by (intros; apply length_upd).
  rewrite length_upd.
  apply for_up_length; intros; apply length_upd.
Qed.

Lemma householder_reflect_lengths (n : nat) (M : list R) (m : nat)
    (b : list R * list R * bool) :
  length (fst (fst (for_down 0 m (householder_reflect n M) b))) = length (fst (fst b)) /\
  length (snd (fst (for_down 0 m (householder_reflect n M) b))) = length (snd (fst b)).
Proof.
  apply (for_down_preserves
           (fun b' : list R * list R * bool =>
              length (fst (fst b')) = length (fst (fst b)) /\
              length (snd (fst b')) = length (snd (fst b)))); [auto|].
  intros i [[ev pv] sw] _ [H1 H2]; unfold householder_reflect.
  destruct sw; simpl in *; rewrite ?reflect_length; auto.
Qed.

(** What [GetEigenvector] changes in the solver: [mPVector], and not its
    length. *)
Lemma GetEigenvector_frame (c : Z) (x v : list R) (st st' : Solver) :
  GetEigenvector c (Some x) st = Normal (Some v, st') ->
  mSize st' = mSize st /\ mMaxIterations st' = mMaxIterations st /\
  mMatrix st' = mMatrix st /\ mDiagonal st' = mDiagonal st /\
  mSuperdiagonal st' = mSuperdiagonal st /\ mGivens st' = mGivens st /\
  mPermutation st' = mPermutation st /\ mVisited st' = mVisited st /\
  mEigenvectorMatrixType st' = mEigenvectorMatrixType st /\
  mVVector st' = mVVector st /\ mWVector st' = mWVector st /\
  length (mPVector st') = length (mPVector st).
Proof.
  unfold GetEigenvector.
  destruct ((0 <=? c)%Z && (c <? mSize st)%Z).
  - match goal with
    | |- context [for_down 0 ?m (householder_reflect ?n ?M) ?b] =>
        pose proof (householder_reflect_lengths n M m b) as [_ Hl];
        destruct (for_down 0 m (householder_reflect n M) b) as [[ev pv] sw]
    end.
    simpl in Hl; intros [= _ <-]; simpl; repeat split; exact Hl.
  - intros [= _ <-]; repeat split.
Qed.

(** X14. [GetEigenvector] is repeatable.  On a solver a convergent
    [Solve] left, for [c] in range and buffers of [N] entries, the call
    returns a vector of [N] entries that does not depend on what the
    buffer or [mPVector] held: a second call, on the solver the first
    one left and with another buffer, returns the same vector.  The
    solver changes in [mPVector] only. *)
Theorem GetEigenvector_repeatable (n : nat) (c : Z) (x1 x2 : list R) (st : Solver) :
  solved n st -> (0 <= c < Z.of_nat n)%Z ->
  length x1 = n -> length x2 = n ->
  exists v st1 st2,
    GetEigenvector c (Some x1) st = Normal (Some v, st1) /\
    GetEigenvector c (Some x2) st1 = Normal (Some v, st2) /\
    length v = n /\
    mMatrix st1 = mMatrix st /\ mDiagonal st1 = mDiagonal st /\
    mSuperdiagonal st1 = mSuperdiagonal st /\ mGivens st1 = mGivens st /\
    mPermutation st1 = mPermutation st /\ mVisited st1 = mVisited st /\
    mEigenvectorMatrixType st1 = mEigenvectorMatrixType st /\
    mVVector st1 = mVVector st /\ mWVector st1 = mWVector st.
Proof.
  intros Hsolved Hc Hx1 Hx2.
  assert (Hlt : (stored_column st c < n)%nat).
  { destruct Hsolved as [_ _ _ _ _ _ _ Hperm]; unfold stored_column.
    destruct (rdz (mPermutation st) 0 >=? 0)%Z eqn:Hsorted; [|lia].
    destruct Hperm as [Hneg|Hp]; [apply Z.geb_le in Hsorted; lia|].
    apply (is_permutation_range n _ (Z.to_nat c) Hp); lia. }
  destruct Hsolved as [Hsz Hn HG HP _ _ _ _].
  destruct (GetEigenvector_single_f c x1 st) as (v & st1 & Hv & Hlv & Hvr);
    try (rewrite Hsz, Nat2Z.id); try assumption; [lia|].
  rewrite Hsz, Nat2Z.id in Hlv, Hvr.
  destruct (GetEigenvector_frame c x1 v st st1 Hv)
    as (Hsz1 & _ & HM & HD & HS & HG1 & Hpm & Hvis & Hty & HV & HW & HlP).
  assert (Hstored : stored_column st1 c = stored_column st c)
    by (unfold stored_column; rewrite Hpm; reflexivity).
  destruct (GetEigenvector_single_f c x2 st1) as (v' & st2 & Hv' & Hlv' & Hvr');
    try (rewrite Hsz1, Hsz, Nat2Z.id); try assumption;
    [lia|congruence|rewrite HG1; exact HG|rewrite Hstored; exact Hlt|].
  rewrite Hsz1, Hsz, Nat2Z.id in Hlv', Hvr'.
  rewrite HM, HG1, Hstored in Hvr'.
  assert (v' = v) as ->.
  { apply (nth_ext _ _ R0 R0); [lia|].
    intros r _; change (rd v' r = rd v r); rewrite Hvr, Hvr'; reflexivity. }
  exists v, st1, st2; repeat split; assumption.
Qed.

End SingleTwice.

(* ================================================================== *)
(** ** The getters before any convergent [Solve] *)

Section Unsolved.

Context {R : Type} {RA : RealArith R}.

Local Abbreviation Solver := (SymmetricEigensolver R).

Lemma for_up_opt_none {St} (body : nat -> St -> option St) (l : list nat) :
  fold_left (fun os i => match os with Some s => body i s | None => None end) l None
  = None.
Proof. induction l as [|a l IH]; simpl; [reflexivity|exact IH]. Qed.

(** In the permutation the constructor leaves, all zeros, the walk from
    column [1] goes to column [0] and stays there. *)
Lemma cycle_walk_stuck (n : nat) :
  forall fuel cur (E : list R) v t,
    (cur = 0 \/ cur = 1)%Z ->
    cycle_walk fuel n (repeat 0%Z n) 1 cur (E, v, t) = None.
Proof.
  induction fuel as [|fuel IH]; intros cur E v t Hcur; [reflexivity|].
  rewrite cycle_walk_pass.
  assert (Hnext : rdz (repeat 0%Z n) (Z.to_nat cur) = 0%Z)
    by (unfold rdz; apply nth_repeat).
  rewrite Hnext; simpl; apply IH; left; reflexivity.
Qed.

(** X15. [GetEigenvectors] must not be called before a [Solve] has
    converged.  On a solver the constructor made ([N >= 2], permutation
    all zeros) the zero in [mPermutation[0]] reads as a requested sort,
    and the cycle loop that starts at column [1] never comes back to its
    start, however many passes it is given. *)
Theorem GetEigenvectors_before_Solve (n : nat) (E : list R) (st : Solver) :
  (2 <= n)%nat -> mSize st = Z.of_nat n ->
  mPermutation st = repeat 0%Z n -> length (mVisited st) = n ->
  GetEigenvectors (Some E) st = None /\
  forall fuel (E' : list R) (v : list Z) (t : Z),
    cycle_walk fuel n (mPermutation st) 1 1 (E', v, t) = None.
Proof.
  intros Hn Hsz Hperm Hvis; split.
  - unfold GetEigenvectors.
    change (mSize (set_type (-1) st)) with (mSize st).
    change (mMatrix (set_type (-1) st)) with (mMatrix st).
    change (mGivens (set_type (-1) st)) with (mGivens st).
    change (mPermutation (set_type (-1) st)) with (mPermutation st).
    change (mVisited (set_type (-1) st)) with (mVisited st).
    change (mVVector (set_type (-1) st)) with (mVVector st).
    change (mWVector (set_type (-1) st)) with (mWVector st).
    change (mPVector (set_type (-1) st)) with (mPVector st).
    replace (mSize st >? 0)%Z with true by (symmetry; apply Z.gtb_lt; lia).
    rewrite Hsz, Nat2Z.id, Hperm.
    destruct (for_down 0 (n - 2) _ _) as [[A V] W].
    replace (rdz (repeat 0%Z n) 0 >=? 0)%Z with true
      by (unfold rdz; rewrite nth_repeat; reflexivity).
    rewrite Hvis, <- Hvis, visited_reset_repeat, Hvis.
    assert (Hloop : for_up_opt 0 n (permute_cycle n (repeat 0%Z n))
                      (fold_left (givens_multiply n) (mGivens st) A,
                       repeat 0%Z n, mPVector st, (1 - Z.land (Z.of_nat n) 1)%Z)
                    = None).
    { destruct n as [|[|m]]; try lia.
      unfold for_up_opt; rewrite Nat.sub_0_r.
      change (seq 0 (S (S m))) with (0%nat :: 1%nat :: seq 2 m).
      cbn [fold_left].
      rewrite permute_cycle_skips
        by (right; unfold rdz; rewrite nth_repeat; reflexivity).
      unfold permute_cycle at 2.
      replace (rdz (repeat 0%Z (S (S m))) 1) with 0%Z
        by (unfold rdz; rewrite nth_repeat; reflexivity).
      cbn [andb negb Z.eqb Z.of_nat Pos.of_succ_nat].
      rewrite cycle_walk_stuck by (right; reflexivity).
      apply for_up_opt_none. }
    rewrite Hloop; reflexivity.
  - intros fuel E' v t; rewrite Hperm.
    apply cycle_walk_stuck; right; reflexivity.
Qed.

(** X16. A solver the constructor made inert ([size <= 1] or
    [maxIterations = 0]) answers every getter without touching a buffer:
    [GetEigenvalues] and [GetEigenvectors] leave the buffer as it is,
    [GetEigenvector] returns at once for every index, the matrix type
    stays [-1]. *)
Theorem inert_getters (size maxIterations : Z) :
  (size <= 1 \/ maxIterations <= 0)%Z ->
  let st := construct (R:=R) size maxIterations in
  (forall ev, GetEigenvalues (Some ev) st = Some ev) /\
  (forall E, GetEigenvectors (Some E) st = Some (Some E, st)) /\
  (forall c x, GetEigenvector c x st = Normal (x, st)) /\
  GetEigenvectorMatrixType st = (-1)%Z.
Proof.
  intros Hin st; subst st; unfold construct.
  replace ((size >? 1)%Z && (maxIterations >? 0)%Z) with false.
  - repeat split.
    intros c x; unfold GetEigenvector; simpl.
    replace ((0 <=? c)%Z && (c <? 0)%Z) with false; [reflexivity|].
    destruct (0 <=? c)%Z eqn:H0; [simpl; symmetry|reflexivity].
    apply Z.ltb_ge; apply Z.leb_le in H0; exact H0.
  - symmetry; apply andb_false_iff.
    destruct Hin; [left|right]; rewrite Z.gtb_ltb; apply Z.ltb_ge; lia.
Qed.

End Unsolved.

(* ================================================================== *)
(** ** [GetSinCos] in a field *)

Section GivensExact.

Context {R : Type} {RA : RealArith R}.

(** The scalars form a field, [==] decides equality, and [fabs] of a
    non-zero scalar is above [fabs] of zero. *)
Hypothesis Rfield :
  field_theory R0 R1 Radd Rmul Rsub Ropp Rdiv (fun x => Rdiv R1 x) (@eq R).
Hypothesis Reqb_eq : forall a b : R, Reqb a b = true <-> a = b.
Hypothesis Rfabs_nonzero : forall y : R, y <> R0 -> Rltb (Rfabs R0) (Rfabs y) = true.

Add Field RealField : Rfield.

Local Open Scope real_scope.

(** X17. [GetSinCos(x, y)] solves [sn * x + cs * y = 0], as its comment
    says, in each of its three branches. *)
Theorem GetSinCos_annihilates (x y : R) :
  snd (GetSinCos x y) * x + fst (GetSinCos x y) * y = R0.
Proof.
  unfold GetSinCos, Rneb, Rgtb.
  destruct (Reqb y R0) eqn:Hy; simpl.
  - apply Reqb_eq in Hy; subst y; ring.
  - assert (Hy0 : y <> R0).
    { intros ->; rewrite (proj2 (Reqb_eq R0 R0) eq_refl) in Hy; discriminate. }
    destruct (Rltb (Rfabs x) (Rfabs y)) eqn:Hxy; simpl.
    + generalize (R1 / Rsqrt (R1 + - x / y * (- x / y))); intros s.
      field; exact Hy0.
    + assert (Hx0 : x <> R0).
      { intros ->; rewrite (Rfabs_nonzero y Hy0) in Hxy; discriminate. }
      generalize (R1 / Rsqrt (R1 + - y / x * (- y / x))); intros s.
      field; exact Hx0.
Qed.

End GivensExact.

(* ================================================================== *)
(** ** The exact rationals are a field for [GetSinCos] *)

Lemma exactQ_field :
  field_theory (R0 (R:=Qc)) R1 Radd Rmul Rsub Ropp Rdiv (fun x => Rdiv R1 x) (@eq Qc).
Proof.
  destruct Qcft as [Hring Hneq Hdiv Hinv].
  constructor; simpl.
  - exact Hring.
  - exact Hneq.
  - intros p q; unfold Qcdiv; rewrite Qcmult_1_l; reflexivity.
  - intros p Hp; unfold Qcdiv; rewrite Qcmult_1_l; apply Hinv; exact Hp.
Qed.

Lemma exactQ_eqb_eq (a b : Qc) : Reqb a b = true <-> a = b.
Proof.
  simpl; rewrite Qeq_bool_iff; split.
  - apply Qc_is_canon.
  - intros ->; reflexivity.
Qed.

Lemma exactQ_fabs_nonzero (y : Qc) :
  y <> R0 -> Rltb (Rfabs (R0 (R:=Qc))) (Rfabs y) = true.
Proof.
  intros Hy; simpl; unfold Qc_ltb, Qc_abs.
  assert (Hlt : (Q2Qc (Qabs (this (Q2Qc 0))) < Q2Qc (Qabs (this y)))%Qc).
  { unfold Qclt; simpl.
    rewrite !Qred_correct.
    pose proof (Qabs_nonneg (this y)) as Habs.
    destruct (Qle_lt_or_eq _ _ Habs) as [Hlt|Heq]; [exact Hlt|].
    exfalso; apply Hy; apply Qc_is_canon; simpl.
    symmetry in Heq; revert Heq.
    apply (Qabs_case (this y) (fun q => q == 0 -> this y == 0)).
    - intros _ H; exact H.
    - intros _ H; rewrite <- (Qopp_involutive (this y)), H; reflexivity. }
  unfold Qclt in Hlt; apply Qlt_alt in Hlt.
  unfold Qccompare; unfold Qcompare in *; rewrite Hlt; reflexivity.
Qed.

(* ================================================================== *)
(** ** What [Tridiagonalize] reads *)

Lemma for_up_rel2 {S1 S2} (Rel : nat -> S1 -> S2 -> Prop) lo hi
    (body1 : nat -> S1 -> S1) (body2 : nat -> S2 -> S2) s1 s2 :
  (lo <= hi)%nat ->
  Rel lo s1 s2 ->
  (forall i a b, (lo <= i < hi)%nat -> Rel i a b -> Rel (S i) (body1 i a) (body2 i b)) ->
  Rel hi (for_up lo hi body1 s1) (for_up lo hi body2 s2).
Proof.
  intros Hle H0 Hstep; induction Hle as [|hi Hle IH].
  - rewrite !for_up_nil by lia; exact H0.
  - rewrite !for_up_snoc by exact Hle.
    apply Hstep; [lia|].
    apply IH; intros i a b Hi; apply Hstep; lia.
Qed.

Lemma for_up_rel {S1 S2} (Rel : S1 -> S2 -> Prop) lo hi
    (body1 : nat -> S1 -> S1) (body2 : nat -> S2 -> S2) s1 s2 :
  Rel s1 s2 ->
  (forall i a b, (lo <= i < hi)%nat -> Rel a b -> Rel (body1 i a) (body2 i b)) ->
  Rel (for_up lo hi body1 s1) (for_up lo hi body2 s2).
Proof.
  intros H0 Hstep.
  destruct (Nat.le_gt_cases lo hi) as [Hle|Hgt].
  - apply (for_up_rel2 (fun _ => Rel)); assumption.
  - rewrite !for_up_nil by lia; exact H0.
Qed.

Section Footprint.

Context {R : Type} {RA : RealArith R}.

Local Open Scope real_scope.
Local Abbreviation Solver := (SymmetricEigensolver R).

Lemma rd_upd (v : list R) (k : nat) (x : R) (j : nat) :
  rd (upd v k x) j = if ((j =? k) && (k <? length v))%nat then x else rd v j.
Proof.
  unfold rd; destruct (Nat.eqb_spec j k) as [->|Hne]; simpl.
  - destruct (Nat.ltb_spec k (length v)) as [Hk|Hk].
    + apply nth_upd_eq; exact Hk.
    + rewrite upd_out_of_range by exact Hk; reflexivity.
  - apply nth_upd_ne; lia.
Qed.

Lemma agree_upd (A : nat -> Prop) (M1 M2 : list R) (k : nat) (x1 x2 : R) :
  agree_on A M1 M2 -> x1 = x2 -> agree_on A (upd M1 k x1) (upd M2 k x2).
Proof.
  intros [Hl Ha] ->; split; [rewrite !length_upd; exact Hl|].
  intros j Hj; rewrite !rd_upd, Hl, (Ha j Hj); reflexivity.
Qed.

Lemma agree_upd_new (A : nat -> Prop) (M1 M2 : list R) (k : nat) (x : R) :
  agree_on A M1 M2 -> (k < length M1)%nat ->
  agree_on (fun j => A j \/ j = k) (upd M1 k x) (upd M2 k x).
Proof.
  intros [Hl Ha] Hk; split; [rewrite !length_upd; exact Hl|].
  intros j Hj; rewrite !rd_upd, <- Hl.
  destruct (Nat.eqb_spec j k) as [->|Hne]; simpl.
  - replace (k <? length M1)%nat with true by (symmetry; apply Nat.ltb_lt; exact Hk).
    reflexivity.
  - destruct Hj as [Hj|Hj]; [apply Ha; exact Hj|contradiction].
Qed.

Lemma agree_weaken (A B : nat -> Prop) (M1 M2 : list R) :
  (forall k, B k -> A k) -> agree_on A M1 M2 -> agree_on B M1 M2.
Proof. intros HBA [Hl Ha]; split; [exact Hl|intros k Hk; apply Ha, HBA, Hk]. Qed.

(** A pass is its six loops in a row. *)
Lemma tridiag_step_passes (n i : nat) (M V P W : list R) :
  tridiag_step n i (M, V, P, W) =
  let Vv := tri_normalize n i (tri_vector n i M V) in
  let invvdv := R1 / snd Vv in
  let twoinvvdv := invvdv * R2 in
  let Pp := tri_p n i M (fst Vv) twoinvvdv P in
  let W' := tri_w n i (fst Vv) (fst Pp) (snd Pp * invvdv) W in
  (tri_store n i (fst Vv) twoinvvdv (tri_update n i (fst Vv) W' M), fst Vv, fst Pp, W').
Proof.
  unfold tridiag_step, tri_normalize, tri_vector; cbv zeta.
  destruct (for_up (S i) n _ _) as [V1 len].
  match goal with
  | |- context [if ?c then ?a else ?b] => destruct (if c then a else b) as [V2 vdv]
  end.
  unfold tri_p; simpl fst; simpl snd.
  destruct (for_up i n _ (P, R0)) as [P1 pdv].
  reflexivity.
Qed.

(** The vector of a pass is read from row [i] right of the diagonal;
    what [mVVector] held does not matter. *)
Lemma tri_vector_rel (n i : nat) (M1 M2 V1 V2 : list R) :
  (S i <= n)%nat -> length V1 = n -> length V2 = n ->
  (forall r, (i < r < n)%nat -> rd M1 (r + n * i)%nat = rd M2 (r + n * i)%nat) ->
  tri_vector n i M1 V1 = tri_vector n i M2 V2.
Proof.
  intros Hi HV1 HV2 HM; unfold tri_vector.
  destruct (for_up_store (fun _ : nat => R0) 0 (S i) V1 R0) as [Hl1 Hn1].
  destruct (for_up_store (fun _ : nat => R0) 0 (S i) V2 R0) as [Hl2 Hn2].
  cbv beta in Hl1, Hn1, Hl2, Hn2.
  set (Z1 := for_up 0 (S i) (fun r V => upd V r R0) V1) in *.
  set (Z2 := for_up 0 (S i) (fun r V => upd V r R0) V2) in *.
  match goal with
  | |- for_up (S i) n ?b1 (Z1, R0) = for_up (S i) n ?b2 (Z2, R0) =>
      pose proof (for_up_rel2
        (fun r (a b : list R * R) =>
           snd a = snd b /\ length (fst a) = n /\ length (fst b) = n /\
           forall k, (k < r)%nat -> rd (fst a) k = rd (fst b) k)
        (S i) n b1 b2 (Z1, R0) (Z2, R0) Hi) as Hrel
  end.
  destruct Hrel as (Hs & Ha & Hb & Hk).
  - simpl; split; [reflexivity|split; [lia|split; [lia|]]].
    intros k Hk; unfold rd; rewrite Hn1, Hn2, HV1, HV2.
    replace (k <? S i)%nat with true by (symmetry; apply Nat.ltb_lt; exact Hk).
    replace (k <? n)%nat with true by (symmetry; apply Nat.ltb_lt; lia).
    reflexivity.
  - intros r [Va la] [Vb lb] Hr (Hs & Ha & Hb & Hk); simpl in *.
    rewrite (HM r) by lia; subst lb.
    split; [reflexivity|split; [rewrite length_upd; exact Ha|
                                split; [rewrite length_upd; exact Hb|]]].
    intros k Hk'; rewrite !rd_upd, Ha, Hb.
    destruct (Nat.eqb_spec k r) as [->|Hne]; simpl; [|apply Hk; lia].
    replace (r <? n)%nat with true by (symmetry; apply Nat.ltb_lt; lia).
    reflexivity.
  - destruct (for_up (S i) n _ (Z1, R0)) as [Va la].
    destruct (for_up (S i) n _ (Z2, R0)) as [Vb lb].
    simpl in *; subst lb; f_equal.
    apply (nth_ext _ _ R0 R0); [lia|].
    intros k Hk'; apply Hk; lia.
Qed.

Lemma tri_vector_length (n i : nat) (M V : list R) :
  length (fst (tri_vector n i M V)) = length V.
Proof.
  unfold tri_vector; rewrite for_up_length_fst.
  - simpl; apply for_up_length; intros; apply length_upd.
  - intros r [V0 l0]; simpl; apply length_upd.
Qed.

Lemma tri_normalize_length (n i : nat) (Vl : list R * R) :
  length (fst (tri_normalize n i Vl)) = length (fst Vl).
Proof.
  destruct Vl as [V l]; unfold tri_normalize.
  destruct (Rgtb (Rsqrt l) R0); [|reflexivity].
  rewrite for_up_length_fst; [simpl; apply length_upd|].
  intros r [V0 l0]; simpl; apply length_upd.
Qed.

Lemma rd_upd_same (v : list R) (k : nat) (x : R) :
  (k < length v)%nat -> rd (upd v k x) k = x.
Proof. intros Hk; unfold rd; apply nth_upd_eq; exact Hk. Qed.

(** One cell of [mPVector]: the two sums of products, scaled. *)
Lemma tri_p_cell (n i : nat) (M V : list R) (t : R) (r : nat) (P : list R) :
  (r < length P)%nat ->
  let P0 := upd P r R0 in
  let Pa := for_up i r (fun c P => upd P r (rd P r + rd M (r + n * c)%nat * rd V c)) P0 in
  let Pb := for_up r n (fun c P => upd P r (rd P r + rd M (c + n * r)%nat * rd V c)) Pa in
  upd Pb r (rd Pb r * t)
  = upd P r
      (for_up r n (fun c acc => acc + rd M (c + n * r)%nat * rd V c)
         (for_up i r (fun c acc => acc + rd M (r + n * c)%nat * rd V c) R0) * t).
Proof.
  intros Hr P0 Pa Pb; subst Pb Pa P0.
  rewrite (accumulate_cell i r r (fun c => rd M (r + n * c)%nat * rd V c)).
  rewrite rd_upd_same by (rewrite ?length_upd; exact Hr).
  rewrite upd_upd.
  rewrite (accumulate_cell r n r (fun c => rd M (c + n * r)%nat * rd V c)).
  rewrite rd_upd_same by (rewrite ?length_upd; exact Hr).
  rewrite upd_upd.
  rewrite rd_upd_same by (rewrite ?length_upd; exact Hr).
  apply upd_upd.
Qed.

(** [mPVector] and [pdvtvdv] are computed from the entries on and right
    of the diagonal. *)
Lemma tri_p_rel (n i : nat) (M1 M2 V : list R) (t : R) (P1 P2 : list R) :
  (i <= n)%nat -> length P1 = n -> length P2 = n ->
  (forall k, upper_index n k -> rd M1 k = rd M2 k) ->
  snd (tri_p n i M1 V t P1) = snd (tri_p n i M2 V t P2) /\
  length (fst (tri_p n i M1 V t P1)) = n /\
  length (fst (tri_p n i M2 V t P2)) = n /\
  forall k, (i <= k < n)%nat ->
    rd (fst (tri_p n i M1 V t P1)) k = rd (fst (tri_p n i M2 V t P2)) k.
Proof.
  intros Hi HP1 HP2 HM; unfold tri_p.
  match goal with
  | |- context [for_up i n ?b1 (P1, R0)] =>
      match goal with
      | |- context [for_up i n ?b2 (P2, R0)] =>
          apply (for_up_rel2
            (fun r (a b : list R * R) =>
               snd a = snd b /\ length (fst a) = n /\ length (fst b) = n /\
               forall k, (i <= k < r)%nat -> rd (fst a) k = rd (fst b) k)
            i n b1 b2 (P1, R0) (P2, R0) Hi)
      end
  end.
  - simpl; split; [reflexivity|split; [exact HP1|split; [exact HP2|]]].
    intros k Hk; lia.
  - intros r [Pa pa] [Pb pb] Hr (Hs & Ha & Hb & Hk); simpl in Hs, Ha, Hb, Hk.
    cbv beta iota zeta.
    rewrite (tri_p_cell n i M1 V t r Pa) by lia.
    rewrite (tri_p_cell n i M2 V t r Pb) by lia.
    assert (Hval :
      for_up r n (fun c acc => acc + rd M1 (c + n * r)%nat * rd V c)
        (for_up i r (fun c acc => acc + rd M1 (r + n * c)%nat * rd V c) R0)
      = for_up r n (fun c acc => acc + rd M2 (c + n * r)%nat * rd V c)
          (for_up i r (fun c acc => acc + rd M2 (r + n * c)%nat * rd V c) R0)).
    { rewrite (for_up_ext i r (fun c acc => acc + rd M1 (r + n * c)%nat * rd V c)
                 (fun c acc => acc + rd M2 (r + n * c)%nat * rd V c)).
      - apply for_up_ext; intros c acc Hc.
        rewrite (HM (c + n * r)%nat); [reflexivity|].
        exists r, c; split; [lia|reflexivity].
      - intros c acc Hc.
        rewrite (HM (r + n * c)%nat); [reflexivity|].
        exists c, r; split; [lia|reflexivity]. }
    rewrite Hval; simpl; subst pb.
    rewrite !rd_upd, Nat.eqb_refl, Ha, Hb.
    replace (r <? n)%nat with true by (symmetry; apply Nat.ltb_lt; lia).
    simpl andb; cbv iota.
    split; [reflexivity|split; [rewrite length_upd; exact Ha|
                                split; [rewrite length_upd; exact Hb|]]].
    intros k Hk'; rewrite !rd_upd, Ha, Hb.
    destruct (Nat.eqb_spec k r) as [->|Hne]; simpl.
    + replace (r <? n)%nat with true by (symmetry; apply Nat.ltb_lt; lia).
      reflexivity.
    + apply Hk; lia.
Qed.
Lemma tri_w_rel (n i : nat) (V P1 P2 : list R) (p : R) (W1 W2 : list R) :
  length W1 = n -> length W2 = n ->
  (forall k, (i <= k < n)%nat -> rd P1 k = rd P2 k) ->
  length (tri_w n i V P1 p W1) = n /\ length (tri_w n i V P2 p W2) = n /\
  forall k, (i <= k < n)%nat -> rd (tri_w n i V P1 p W1) k = rd (tri_w n i V P2 p W2) k.
Proof.
  intros HW1 HW2 HP; unfold tri_w.
  destruct (for_up_store (fun r => rd P1 r - p * rd V r) i n W1 R0) as [Hl1 Hn1].
  destruct (for_up_store (fun r => rd P2 r - p * rd V r) i n W2 R0) as [Hl2 Hn2].
  cbv beta in Hl1, Hn1, Hl2, Hn2.
  split; [lia|split; [lia|]].
  intros k Hk; unfold rd at 1 4; rewrite Hn1, Hn2, HW1, HW2.
  replace (i <=? k)%nat with true by (symmetry; apply Nat.leb_le; lia).
  replace (k <? n)%nat with true by (symmetry; apply Nat.ltb_lt; lia).
  simpl; rewrite (HP k Hk); reflexivity.
Qed.

(** The update writes on and right of the diagonal, from what it reads
    there. *)
Lemma tri_update_rel (n i : nat) (V W1 W2 M1 M2 : list R) (A : nat -> Prop) :
  (forall k, upper_index n k -> A k) ->
  agree_on A M1 M2 ->
  (forall k, (i <= k < n)%nat -> rd W1 k = rd W2 k) ->
  agree_on A (tri_update n i V W1 M1) (tri_update n i V W2 M2).
Proof.
  intros HA HM HW; unfold tri_update.
  apply (for_up_rel (agree_on A)); [exact HM|].
  intros r Ma Mb Hr Hab; cbv zeta.
  apply (for_up_rel (agree_on A)).
  - apply agree_upd; [exact Hab|].
    rewrite (proj2 Hab (r + n * r)%nat), (HW r) by (try apply HA; try (exists r, r); lia).
    reflexivity.
  - intros c Mc Md Hc Hcd.
    apply agree_upd; [exact Hcd|].
    rewrite (proj2 Hcd (c + n * r)%nat), (HW r), (HW c)
      by (try apply HA; try (exists r, c); lia).
    reflexivity.
Qed.

Lemma tri_update_length (n i : nat) (V W M : list R) :
  length (tri_update n i V W M) = length M.
Proof.
  unfold tri_update; apply for_up_length; intros r M0; cbv zeta.
  rewrite for_up_length by (intros; apply length_upd).
  apply length_upd.
Qed.

(** The vector goes below the diagonal, into column [i]. *)
Lemma tri_store_rel (n i : nat) (V : list R) (t : R) (M1 M2 : list R) :
  (i + 1 < n)%nat -> length M1 = (n * n)%nat ->
  agree_on (fun k => upper_index n k \/ stored_index n i k) M1 M2 ->
  agree_on (fun k => upper_index n k \/ stored_index n (S i) k)
           (tri_store n i V t M1) (tri_store n i V t M2).
Proof.
  intros Hi HlM HM; unfold tri_store.
  pose proof (for_up_rel2
    (fun r (Ma Mb : list R) =>
       length Ma = (n * n)%nat /\
       agree_on (fun k => (upper_index n k \/ stored_index n i k) \/
                          exists r', (i < r' < r)%nat /\ k = (i + n * r')%nat) Ma Mb)
    (S (S i)) n
    (fun r M => upd M (i + n * r)%nat (rd V r))
    (fun r M => upd M (i + n * r)%nat (rd V r))
    (upd M1 (i + n * S i)%nat t) (upd M2 (i + n * S i)%nat t) ltac:(lia)) as Hrel.
  cbv beta in Hrel.
  destruct Hrel as [_ Hrel].
  - split; [rewrite length_upd; exact HlM|].
    apply (agree_weaken
             (fun j => (upper_index n j \/ stored_index n i j) \/ j = (i + n * S i)%nat)).
    + intros k [Hk|(r' & Hr' & ->)]; [left; exact Hk|right; f_equal; nia].
    + apply agree_upd_new; [exact HM|nia].
  - intros r Ma Mb Hr [Hl Hab]; split; [rewrite length_upd; exact Hl|].
    apply (agree_weaken
             (fun j => ((upper_index n j \/ stored_index n i j) \/
                        exists r', (i < r' < r)%nat /\ j = (i + n * r')%nat)
                       \/ j = (i + n * r)%nat)).
    + intros k [Hk|(r' & Hr' & ->)]; [left; left; exact Hk|].
      destruct (Nat.eq_dec r' r) as [->|Hne]; [right; reflexivity|].
      left; right; exists r'; split; [lia|reflexivity].
    + apply agree_upd_new; [exact Hab|nia].
  - revert Hrel; apply agree_weaken.
    intros k [Hk|(c & r & Hc & Hr & ->)]; [left; left; exact Hk|].
    destruct (Nat.eq_dec c i) as [->|Hne].
    + right; exists r; split; [lia|reflexivity].
    + left; right; exists c, r; split; [lia|split; [lia|reflexivity]].
Qed.

Lemma tri_store_length (n i : nat) (V : list R) (t : R) (M : list R) :
  length (tri_store n i V t M) = length M.
Proof.
  unfold tri_store; rewrite for_up_length by (intros; apply length_upd).
  apply length_upd.
Qed.

(** One pass on two matrices that agree on and right of the diagonal
    and in the columns already stored: so do the results, and in column
    [i] too, whatever the scratch vectors held. *)
Lemma tridiag_step_rel (n i : nat) (M1 V1 P1 W1 M2 V2 P2 W2 : list R) :
  (i + 2 < n)%nat ->
  length M1 = (n * n)%nat ->
  length V1 = n -> length P1 = n -> length W1 = n ->
  length V2 = n -> length P2 = n -> length W2 = n ->
  agree_on (fun k => upper_index n k \/ stored_index n i k) M1 M2 ->
  let b1 := tridiag_step n i (M1, V1, P1, W1) in
  let b2 := tridiag_step n i (M2, V2, P2, W2) in
  agree_on (fun k => upper_index n k \/ stored_index n (S i) k)
           (fst (fst (fst b1))) (fst (fst (fst b2))) /\
  length (fst (fst (fst b1))) = (n * n)%nat /\
  length (snd (fst (fst b1))) = n /\ length (snd (fst b1)) = n /\ length (snd b1) = n /\
  length (snd (fst (fst b2))) = n /\ length (snd (fst b2)) = n /\ length (snd b2) = n.
Proof.
  intros Hi HlM HV1 HP1 HW1 HV2 HP2 HW2 HM b1 b2.
  pose proof (tridiag_step_lengths n i (M1, V1, P1, W1)) as Hl1.
  pose proof (tridiag_step_lengths n i (M2, V2, P2, W2)) as Hl2.
  fold b1 in Hl1; fold b2 in Hl2.
  assert (Hup : forall k, upper_index n k -> rd M1 k = rd M2 k)
    by (intros k Hk; apply (proj2 HM); left; exact Hk).
  subst b1 b2; rewrite !tridiag_step_passes in *; cbv zeta in *.
  assert (HVeq : tri_vector n i M1 V1 = tri_vector n i M2 V2).
  { apply tri_vector_rel; try assumption; [lia|].
    intros r Hr; apply Hup; exists i, r; split; [lia|reflexivity]. }
  rewrite HVeq in *.
  set (Vv := tri_normalize n i (tri_vector n i M2 V2)) in *.
  assert (HlV : length (fst Vv) = n)
    by (unfold Vv; rewrite tri_normalize_length, tri_vector_length; exact HV2).
  set (t := R1 / snd Vv * R2) in *.
  destruct (tri_p_rel n i M1 M2 (fst Vv) t P1 P2) as (Hpdv & HlPa & HlPb & HP);
    try assumption; [lia|].
  rewrite Hpdv in *.
  set (Pa := fst (tri_p n i M1 (fst Vv) t P1)) in *.
  set (Pb := fst (tri_p n i M2 (fst Vv) t P2)) in *.
  set (p := snd (tri_p n i M2 (fst Vv) t P2) * (R1 / snd Vv)) in *.
  destruct (tri_w_rel n i (fst Vv) Pa Pb p W1 W2 HW1 HW2 HP) as (HlWa & HlWb & HW).
  simpl in Hl1, Hl2 |- *.
  destruct Hl1 as (Hm1 & _), Hl2 as (Hm2 & _).
  split; [|repeat split; try assumption; congruence].
  apply tri_store_rel; [lia|rewrite tri_update_length; exact HlM|].
  apply tri_update_rel; [intros k Hk; left; exact Hk|exact HM|exact HW].
Qed.
Lemma tridiag_passes_rel (n m : nat) (M1 V1 P1 W1 M2 V2 P2 W2 : list R) :
  (m <= n - 2)%nat ->
  length M1 = (n * n)%nat ->
  length V1 = n -> length P1 = n -> length W1 = n ->
  length V2 = n -> length P2 = n -> length W2 = n ->
  agree_on (upper_index n) M1 M2 ->
  let b1 := for_up 0 m (tridiag_step n) (M1, V1, P1, W1) in
  let b2 := for_up 0 m (tridiag_step n) (M2, V2, P2, W2) in
  agree_on (fun k => upper_index n k \/ stored_index n m k)
           (fst (fst (fst b1))) (fst (fst (fst b2))).
Proof.
  intros Hm HlM HV1 HP1 HW1 HV2 HP2 HW2 HM b1 b2; subst b1 b2.
  pose proof (for_up_rel2
    (fun i (b1 b2 : list R * list R * list R * list R) =>
       agree_on (fun k => upper_index n k \/ stored_index n i k)
                (fst (fst (fst b1))) (fst (fst (fst b2))) /\
       length (fst (fst (fst b1))) = (n * n)%nat /\
       length (snd (fst (fst b1))) = n /\ length (snd (fst b1)) = n /\
       length (snd b1) = n /\
       length (snd (fst (fst b2))) = n /\ length (snd (fst b2)) = n /\
       length (snd b2) = n)
    0 m (tridiag_step n) (tridiag_step n)
    (M1, V1, P1, W1) (M2, V2, P2, W2) ltac:(lia)) as Hrel.
  cbv beta in Hrel; apply Hrel; clear Hrel.
  - simpl; repeat split; try assumption; try (destruct HM; assumption).
    intros k [Hk|(c & r & Hc & _)]; [apply (proj2 HM); exact Hk|lia].
  - intros i [[[Ma Va] Pa] Wa] [[[Mb Vb] Pb] Wb] Hi H; simpl in H.
    destruct H as (Hab & Hla & HVa & HPa & HWa & HVb & HPb & HWb).
    apply tridiag_step_rel; try assumption; lia.
Qed.

(** [mDiagonal] and [mSuperdiagonal] after [Tridiagonalize] come from
    the entries of the matrix on and right of the diagonal alone, and
    so does the matrix it leaves, but for the one entry below the
    diagonal that no pass stores into. *)
Lemma Tridiagonalize_rel (st1 st2 : Solver) :
  wf st1 -> wf st2 -> mSize st1 = mSize st2 ->
  agree_on (upper_index (Z.to_nat (mSize st1))) (mMatrix st1) (mMatrix st2) ->
  mDiagonal (Tridiagonalize st1) = mDiagonal (Tridiagonalize st2) /\
  mSuperdiagonal (Tridiagonalize st1) = mSuperdiagonal (Tridiagonalize st2) /\
  agree_on (fun k => upper_index (Z.to_nat (mSize st1)) k \/
                     stored_index (Z.to_nat (mSize st1)) (Z.to_nat (mSize st1) - 2) k)
           (mMatrix (Tridiagonalize st1)) (mMatrix (Tridiagonalize st2)).
Proof.
  intros Hwf1 Hwf2 Hsz HM.
  destruct (Tridiagonalize_bands_rd st1) as (HlD1 & HlS1 & HD1 & HS1);
    [destruct Hwf1; lia|destruct Hwf1; assumption|destruct Hwf1; assumption|].
  destruct (Tridiagonalize_bands_rd st2) as (HlD2 & HlS2 & HD2 & HS2);
    [destruct Hwf2; lia|destruct Hwf2; assumption|destruct Hwf2; assumption|].
  rewrite <- Hsz in *.
  set (n := Z.to_nat (mSize st1)) in *.
  assert (Hagree :
    agree_on (fun k => upper_index n k \/ stored_index n (n - 2) k)
             (mMatrix (Tridiagonalize st1)) (mMatrix (Tridiagonalize st2))).
  { pose proof (tridiag_passes_rel n (n - 2)
                  (mMatrix st1) (mVVector st1) (mPVector st1) (mWVector st1)
                  (mMatrix st2) (mVVector st2) (mPVector st2) (mWVector st2)) as H.
    cbv zeta in H.
    unfold Tridiagonalize; rewrite <- Hsz; fold n.
    destruct (for_up 0 (n - 2) (tridiag_step n)
                (mMatrix st1, mVVector st1, mPVector st1, mWVector st1))
      as [[[Ma Va] Pa] Wa].
    destruct (for_up 0 (n - 2) (tridiag_step n)
                (mMatrix st2, mVVector st2, mPVector st2, mWVector st2))
      as [[[Mb Vb] Pb] Wb].
    destruct (copy_bands n Ma _ _) as [Da Sa].
    destruct (copy_bands n Mb _ _) as [Db Sb].
    simpl in *; apply H; try exact HM; try lia;
      destruct Hwf1, Hwf2; subst n; try assumption; congruence. }
  split; [|split; [|exact Hagree]].
  - apply (nth_ext _ _ R0 R0); [congruence|].
    intros k Hk; rewrite HlD1 in Hk.
    change (rd (mDiagonal (Tridiagonalize st1)) k = rd (mDiagonal (Tridiagonalize st2)) k).
    rewrite HD1, HD2 by exact Hk.
    apply (proj2 Hagree); left; exists k, k; split; [lia|reflexivity].
  - apply (nth_ext _ _ R0 R0); [congruence|].
    intros k Hk; rewrite HlS1 in Hk.
    change (rd (mSuperdiagonal (Tridiagonalize st1)) k
            = rd (mSuperdiagonal (Tridiagonalize st2)) k).
    rewrite HS1, HS2 by exact Hk.
    apply (proj2 Hagree); left; exists k, (k + 1)%nat; split; [lia|reflexivity].
Qed.
Variable std_sort : sorter (SortItem R).

Lemma load_input_rel (input1 input2 : list R) (st1 st2 : Solver) :
  wf st1 -> wf st2 -> mSize st1 = mSize st2 ->
  let n := Z.to_nat (mSize st1) in
  length input1 = (n * n)%nat -> length input2 = (n * n)%nat ->
  (forall r c, (r <= c < n)%nat -> rd input1 (c + n * r)%nat = rd input2 (c + n * r)%nat) ->
  agree_on (upper_index n) (mMatrix (load_input input1 st1))
           (mMatrix (load_input input2 st2)).
Proof.
  intros Hwf1 Hwf2 Hsz n Hl1 Hl2 Hup; simpl; rewrite <- Hsz; fold n.
  destruct (copy_n_rd (n * n) input1 (mMatrix st1)) as [Hc1 Hr1];
    [exact Hl1|destruct Hwf1; assumption|].
  destruct (copy_n_rd (n * n) input2 (mMatrix st2)) as [Hc2 Hr2];
    [exact Hl2|destruct Hwf2; subst n; rewrite Hsz; assumption|].
  split; [congruence|].
  intros k (r & c & Hrc & ->); rewrite Hr1, Hr2; apply Hup; exact Hrc.
Qed.

Lemma load_input_wf (input : list R) (st : Solver) : wf st -> wf (load_input input st).
Proof.
  intros [Hs Hm HlM HlD HlS HlPm Hlv HlP HlV HlW].
  constructor; simpl; try assumption.
  rewrite copy_n_length; exact HlM.
Qed.

Lemma set_type_wf (ty : Z) (st : Solver) : wf st -> wf (set_type ty st).
Proof. intros [Hs Hm HlM HlD HlS HlPm Hlv HlP HlV HlW]; constructor; assumption. Qed.

(** The iteration works on the size, the two linear arrays and the
    log. *)
Lemma qr_iterate_rel (sortType : Z) (budget : nat) : forall j (a b : Solver),
  mSize a = mSize b -> mDiagonal a = mDiagonal b ->
  mSuperdiagonal a = mSuperdiagonal b -> mGivens a = mGivens b ->
  let ra := qr_iterate std_sort budget j sortType a in
  let rb := qr_iterate std_sort budget j sortType b in
  snd ra = snd rb /\
  mSize (fst ra) = mSize (fst rb) /\
  mDiagonal (fst ra) = mDiagonal (fst rb) /\
  mSuperdiagonal (fst ra) = mSuperdiagonal (fst rb) /\
  mGivens (fst ra) = mGivens (fst rb) /\
  mMatrix (fst ra) = mMatrix a /\ mMatrix (fst rb) = mMatrix b /\
  (mEigenvectorMatrixType a = mEigenvectorMatrixType b ->
   mEigenvectorMatrixType (fst ra) = mEigenvectorMatrixType (fst rb)) /\
  (mPermutation a = mPermutation b ->
   mPermutation (fst ra) = mPermutation (fst rb)).
Proof.
  induction budget as [|budget IH]; intros j a b Hsz HD HS HG; cbv zeta.
  - simpl; repeat split; auto.
  - rewrite !qr_iterate_pass.
    assert (Hfb : find_block a = find_block b)
      by (unfold find_block; rewrite Hsz, HD, HS; reflexivity).
    unfold converged, qr_step; rewrite Hfb.
    destruct (find_block b) as [imin imax].
    destruct (snd (imin, imax) =? -1)%Z.
    + simpl; rewrite Hsz, HD; repeat split; auto.
      intros ->; reflexivity.
    + specialize (IH (j + 1)%Z (DoQRImplicitShift imin imax a)
                     (DoQRImplicitShift imin imax b)).
      cbv zeta in IH.
      unfold DoQRImplicitShift in *; rewrite HD, HS, HG in *.
      destruct (qr_shift _ _ _ _ _) as [[Dg Sp] G]; simpl in *.
      apply IH; auto.
Qed.

Lemma Solve_footprint (input1 input2 : list R) (sortType : Z)
    (st1 st2 : Solver) :
  wf st1 -> wf st2 ->
  mSize st1 = mSize st2 -> mMaxIterations st1 = mMaxIterations st2 ->
  let n := Z.to_nat (mSize st1) in
  length input1 = (n * n)%nat -> length input2 = (n * n)%nat ->
  (forall r c, (r <= c < n)%nat -> rd input1 (c + n * r)%nat = rd input2 (c + n * r)%nat) ->
  let r1 := Solve std_sort input1 sortType st1 in
  let r2 := Solve std_sort input2 sortType st2 in
  snd r1 = snd r2 /\
  mDiagonal (fst r1) = mDiagonal (fst r2) /\
  mSuperdiagonal (fst r1) = mSuperdiagonal (fst r2) /\
  mGivens (fst r1) = mGivens (fst r2) /\
  mEigenvectorMatrixType (fst r1) = mEigenvectorMatrixType (fst r2) /\
  (mPermutation st1 = mPermutation st2 ->
   mPermutation (fst r1) = mPermutation (fst r2)) /\
  (forall k, k <> (n - 2 + n * (n - 1))%nat ->
     rd (mMatrix (fst r1)) k = rd (mMatrix (fst r2)) k).
Proof.
  intros Hwf1 Hwf2 Hsz Hmx n Hl1 Hl2 Hup r1 r2; subst r1 r2.
  assert (Hpos1 : (0 < mSize st1)%Z) by (destruct Hwf1; lia).
  assert (Hpos2 : (0 < mSize st2)%Z) by (destruct Hwf2; lia).
  rewrite (Solve_unfold std_sort input1 sortType st1 Hpos1).
  rewrite (Solve_unfold std_sort input2 sortType st2 Hpos2).
  rewrite <- Hmx.
  set (l1 := load_input input1 (set_type (-1) st1)).
  set (l2 := load_input input2 (set_type (-1) st2)).
  assert (Hwl1 : wf l1) by (apply load_input_wf, set_type_wf; exact Hwf1).
  assert (Hwl2 : wf l2) by (apply load_input_wf, set_type_wf; exact Hwf2).
  destruct (Tridiagonalize_rel l1 l2 Hwl1 Hwl2 Hsz) as (HD & HS & HM).
  { apply (load_input_rel input1 input2 (set_type (-1) st1) (set_type (-1) st2));
      try assumption; apply set_type_wf; assumption. }
  change (mSize l1) with (mSize st1) in HM; fold n in HM.
  destruct (Tridiagonalize_frame l1) as (Hsz1 & _ & _ & Hpm1 & _ & Hty1).
  destruct (Tridiagonalize_frame l2) as (Hsz2 & _ & _ & Hpm2 & _ & Hty2).
  pose proof (Tridiagonalize_matrix_length l1) as HlM1.
  unfold tridiagonal_form; fold l1 l2.
  change (mSize l1) with (mSize st1) in Hsz1.
  change (mSize l2) with (mSize st2) in Hsz2.
  change (mPermutation l1) with (mPermutation st1) in Hpm1.
  change (mPermutation l2) with (mPermutation st2) in Hpm2.
  change (mEigenvectorMatrixType l1) with (-1)%Z in Hty1.
  change (mEigenvectorMatrixType l2) with (-1)%Z in Hty2.
  destruct (qr_iterate_rel sortType (Z.to_nat (mMaxIterations st1)) 0
              (clear_givens (Tridiagonalize l1)) (clear_givens (Tridiagonalize l2)))
    as (Hret & _ & HD' & HS' & HG' & HM1 & HM2 & Hty & Hpm);
    [simpl; congruence|exact HD|exact HS|reflexivity|].
  split; [exact Hret|split; [exact HD'|split; [exact HS'|split; [exact HG'|]]]].
  split; [apply Hty; simpl; congruence|].
  split; [intros Hp; apply Hpm; simpl; rewrite Hpm1, Hpm2; exact Hp|].
  intros k Hk; rewrite HM1, HM2; simpl.
  assert (HlM : length (mMatrix (Tridiagonalize l1)) = (n * n)%nat).
  { rewrite HlM1; destruct Hwl1 as [_ _ H _ _ _ _ _ _ _]; exact H. }
  destruct (Nat.lt_ge_cases k (n * n)) as [Hlt|Hge].
  - apply (proj2 HM).
    assert (Hn : (0 < n)%nat) by (destruct n; [simpl in Hlt; lia|lia]).
    pose proof (Nat.div_mod_eq k n) as Hdm.
    pose proof (Nat.mod_upper_bound k n ltac:(lia)) as Hc.
    assert (Hr : (k / n < n)%nat) by (apply Nat.Div0.div_lt_upper_bound; lia).
    destruct (Nat.le_gt_cases (k / n) (k mod n)) as [Hle|Hgt].
    + left; exists (k / n)%nat, (k mod n)%nat; split; lia.
    + right; exists (k mod n)%nat, (k / n)%nat; split; [|split; lia].
      destruct (Nat.lt_ge_cases (k mod n) (n - 2)) as [Hc'|Hc']; [exact Hc'|].
      exfalso; apply Hk.
      assert ((k mod n = n - 2)%nat /\ (k / n = n - 1)%nat) as [H1 H2] by lia.
      rewrite H1, H2 in Hdm; lia.
  - rewrite !rd_overflow; [reflexivity| |lia].
    rewrite <- (proj1 HM); lia.
Qed.

(** X19. [Solve] reads the input on and right of the diagonal only, and
    nothing of what earlier calls left in the buffers.  Two solvers of
    one size and budget, given inputs that agree on the upper triangle,
    return the same count or sentinel and end with the same eigenvalues,
    superdiagonal, rotation log and matrix type; their matrices agree
    everywhere but at the last entry below the diagonal, in row [N - 1]
    and column [N - 2], which [Tridiagonalize] neither reads nor writes;
    their permutations agree when they did before. *)
Theorem Solve_reads_upper_triangle (input1 input2 : list R) (sortType : Z)
    (st1 st2 : Solver) :
  wf st1 -> wf st2 ->
  mSize st1 = mSize st2 -> mMaxIterations st1 = mMaxIterations st2 ->
  let n := Z.to_nat (mSize st1) in
  length input1 = (n * n)%nat -> length input2 = (n * n)%nat ->
  (forall r c, (r <= c < n)%nat -> rd input1 (c + n * r)%nat = rd input2 (c + n * r)%nat) ->
  let r1 := Solve std_sort input1 sortType st1 in
  let r2 := Solve std_sort input2 sortType st2 in
  snd r1 = snd r2 /\
  mDiagonal (fst r1) = mDiagonal (fst r2) /\
  mSuperdiagonal (fst r1) = mSuperdiagonal (fst r2) /\
  mGivens (fst r1) = mGivens (fst r2) /\
  mEigenvectorMatrixType (fst r1) = mEigenvectorMatrixType (fst r2) /\
  (mPermutation st1 = mPermutation st2 ->
   mPermutation (fst r1) = mPermutation (fst r2)) /\
  (forall k, k <> (n - 2 + n * (n - 1))%nat ->
     rd (mMatrix (fst r1)) k = rd (mMatrix (fst r2)) k).
Proof.
  intros Hwf1 Hwf2 Hsz Hmx n Hl1 Hl2 Hup.
  exact (Solve_footprint input1 input2 sortType st1 st2 Hwf1 Hwf2 Hsz Hmx Hl1 Hl2 Hup).
Qed.

(* ------------------------------------------------------------------ *)
(** *** What the getters read of the matrix *)

Lemma vv_f_matrix (n : nat) (M1 M2 : list R) (i : nat) :
  (i < n - 2)%nat ->
  (forall k, stored_index n (n - 2) k -> rd M1 k = rd M2 k) ->
  forall r, vv_f n M1 i r = vv_f n M2 i r.
Proof.
  intros Hi HM r; unfold vv_f.
  destruct (Nat.leb_spec n r); [reflexivity|].
  destruct (Nat.leb_spec r i); [reflexivity|].
  destruct (Nat.eqb_spec r (i + 1)); [reflexivity|].
  apply HM; exists i, r; split; [lia|split; [lia|reflexivity]].
Qed.

Lemma accum_f_matrix (n : nat) (M1 M2 : list R) (i : nat) :
  (i < n - 2)%nat ->
  (forall k, stored_index n (n - 2) k -> rd M1 k = rd M2 k) ->
  forall x r, accum_f n M1 i x r = accum_f n M2 i x r.
Proof.
  intros Hi HM x r; unfold accum_f, wdot_f.
  rewrite (vv_f_matrix n M1 M2 i Hi HM r).
  rewrite (HM (i + n * (i + 1))%nat)
    by (exists i, (i + 1)%nat; split; [lia|split; [lia|reflexivity]]).
  rewrite (for_up_ext (i + 1) n (fun k acc => acc + vv_f n M1 i k * x k)
             (fun k acc => acc + vv_f n M2 i k * x k));
    [reflexivity|].
  intros k acc _; rewrite (vv_f_matrix n M1 M2 i Hi HM k); reflexivity.
Qed.

Lemma householder_accumulate_rel (n : nat) (M1 M2 : list R) (i : nat)
    (E V1 W1 V2 W2 : list R) :
  length E = (n * n)%nat -> (i < n - 2)%nat ->
  (forall k, stored_index n (n - 2) k -> rd M1 k = rd M2 k) ->
  length V1 = n -> length W1 = n -> length V2 = n -> length W2 = n ->
  fst (fst (householder_accumulate n M1 i (E, V1, W1)))
  = fst (fst (householder_accumulate n M2 i (E, V2, W2))).
Proof.
  intros HE Hi HM HV1 HW1 HV2 HW2.
  destruct (householder_accumulate_rd n M1 i E V1 W1 HE HV1 HW1)
    as (E1 & V1' & W1' & -> & HlE1 & _ & _ & Hent1); [lia|].
  destruct (householder_accumulate_rd n M2 i E V2 W2 HE HV2 HW2)
    as (E2 & V2' & W2' & -> & HlE2 & _ & _ & Hent2); [lia|].
  simpl; apply (entries_ext n); try assumption.
  intros c r Hc Hr; rewrite Hent1, Hent2 by assumption.
  apply accum_f_matrix; assumption.
Qed.

Lemma householder_passes_rel (n : nat) (M1 M2 : list R) (m : nat) :
  (m <= n - 2)%nat ->
  (forall k, stored_index n (n - 2) k -> rd M1 k = rd M2 k) ->
  forall E V1 W1 V2 W2 : list R,
    length E = (n * n)%nat ->
    length V1 = n -> length W1 = n -> length V2 = n -> length W2 = n ->
    fst (fst (for_down 0 m (householder_accumulate n M1) (E, V1, W1)))
    = fst (fst (for_down 0 m (householder_accumulate n M2) (E, V2, W2))).
Proof.
  intros Hm HM; induction m as [|m IH]; intros E V1 W1 V2 W2 HE HV1 HW1 HV2 HW2.
  - rewrite !for_down_nil by lia; reflexivity.
  - rewrite !for_down_snoc by lia.
    pose proof (householder_accumulate_rel n M1 M2 m E V1 W1 V2 W2 HE ltac:(lia) HM
                  HV1 HW1 HV2 HW2) as Hsame.
    destruct (householder_accumulate_rd n M1 m E V1 W1 HE HV1 HW1)
      as (E1 & V1' & W1' & Heq1 & HlE1 & HlV1 & HlW1 & _); [lia|].
    destruct (householder_accumulate_rd n M2 m E V2 W2 HE HV2 HW2)
      as (E2 & V2' & W2' & Heq2 & HlE2 & HlV2 & HlW2 & _); [lia|].
    rewrite Heq1, Heq2 in *; simpl in Hsame; subst E2.
    apply IH; try assumption; lia.
Qed.

Lemma refl_f_matrix (n : nat) (M1 M2 : list R) (i : nat) :
  (i < n - 2)%nat ->
  (forall k, stored_index n (n - 2) k -> rd M1 k = rd M2 k) ->
  forall (x : vec) r, refl_f n M1 i x r = refl_f n M2 i x r.
Proof.
  intros Hi HM x r; unfold refl_f, dot_tail; cbv zeta.
  rewrite (HM (i + n * (i + 1))%nat)
    by (exists i, (i + 1)%nat; split; [lia|split; [lia|reflexivity]]).
  rewrite (for_up_ext (i + 2) n (fun j s => s + x j * rd M1 (i + n * j)%nat)
             (fun j s => s + x j * rd M2 (i + n * j)%nat)).
  - destruct (Nat.leb_spec n r); [reflexivity|].
    destruct (Nat.leb_spec r i); [reflexivity|].
    destruct (Nat.eqb_spec r (i + 1)); [reflexivity|].
    rewrite (HM (i + n * r)%nat); [reflexivity|].
    exists i, r; split; [lia|split; [lia|reflexivity]].
  - intros j s Hj; rewrite (HM (i + n * j)%nat); [reflexivity|].
    exists i, j; split; [lia|split; [lia|reflexivity]].
Qed.

Lemma house_f_matrix (n : nat) (M1 M2 : list R) (m : nat) :
  (m <= n - 2)%nat ->
  (forall k, stored_index n (n - 2) k -> rd M1 k = rd M2 k) ->
  forall (x : vec) r, house_f n M1 m x r = house_f n M2 m x r.
Proof.
  intros Hm HM; induction m as [|m IH]; intros x r.
  - unfold house_f; rewrite !for_down_nil by lia; reflexivity.
  - rewrite !house_f_succ, IH by lia.
    apply house_f_ext; intros r'; apply refl_f_matrix; [lia|exact HM].
Qed.

(** Two solvers that hold the same log, the same stored vectors and the
    same permutation (or both none) return the same matrix and type. *)
Lemma GetEigenvectors_rel (n : nat) (E1 E2 Q : list R) (a b sa : Solver) :
  (2 <= n)%nat -> mSize a = Z.of_nat n -> mSize b = Z.of_nat n ->
  mGivens a = mGivens b ->
  (mPermutation a = mPermutation b \/
   (rdz (mPermutation a) 0 < 0 /\ rdz (mPermutation b) 0 < 0)%Z) ->
  (forall k, stored_index n (n - 2) k -> rd (mMatrix a) k = rd (mMatrix b) k) ->
  length (mVVector a) = n -> length (mWVector a) = n -> length (mPVector a) = n ->
  length (mVVector b) = n -> length (mWVector b) = n -> length (mPVector b) = n ->
  length (mVisited a) = length (mVisited b) ->
  length E1 = (n * n)%nat -> length E2 = (n * n)%nat ->
  GetEigenvectors (Some E1) a = Some (Some Q, sa) ->
  exists sb,
    GetEigenvectors (Some E2) b = Some (Some Q, sb) /\
    mEigenvectorMatrixType sb = mEigenvectorMatrixType sa.
Proof.
  intros Hn Hsa Hsb HG Hperm HM HVa HWa HPa HVb HWb HPb Hvis HE1 HE2.
  unfold GetEigenvectors.
  change (mSize (set_type (-1) a)) with (mSize a).
  change (mMatrix (set_type (-1) a)) with (mMatrix a).
  change (mGivens (set_type (-1) a)) with (mGivens a).
  change (mPermutation (set_type (-1) a)) with (mPermutation a).
  change (mVisited (set_type (-1) a)) with (mVisited a).
  change (mVVector (set_type (-1) a)) with (mVVector a).
  change (mWVector (set_type (-1) a)) with (mWVector a).
  change (mPVector (set_type (-1) a)) with (mPVector a).
  change (mSize (set_type (-1) b)) with (mSize b).
  change (mMatrix (set_type (-1) b)) with (mMatrix b).
  change (mGivens (set_type (-1) b)) with (mGivens b).
  change (mPermutation (set_type (-1) b)) with (mPermutation b).
  change (mVisited (set_type (-1) b)) with (mVisited b).
  change (mVVector (set_type (-1) b)) with (mVVector b).
  change (mWVector (set_type (-1) b)) with (mWVector b).
  change (mPVector (set_type (-1) b)) with (mPVector b).
  rewrite Hsa, Hsb, Nat2Z.id.
  replace (Z.of_nat n >? 0)%Z with true by (symmetry; apply Z.gtb_lt; lia).
  rewrite (identity_fill_fresh n E1 E2 HE1 HE2).
  destruct (identity_fill_rd n E2 HE2) as [HlI _].
  pose proof (householder_passes_rel n (mMatrix a) (mMatrix b) (n - 2) (le_n _) HM
                (identity_fill n E2) (mVVector a) (mWVector a) (mVVector b) (mWVector b)
                HlI HVa HWa HVb HWb) as Hsame.
  destruct (for_down 0 (n - 2) (householder_accumulate n (mMatrix a)) _) as [[Aa Va] Wa].
  destruct (for_down 0 (n - 2) (householder_accumulate n (mMatrix b)) _) as [[Ab Vb] Wb].
  simpl in Hsame; subst Aa; rewrite <- HG.
  set (B := fold_left (givens_multiply n) (mGivens a) Ab).
  set (ty0 := (1 - Z.land (Z.of_nat n) 1)%Z).
  rewrite !visited_reset_repeat, <- Hvis.
  assert (Htest : (rdz (mPermutation b) 0 >=? 0)%Z = (rdz (mPermutation a) 0 >=? 0)%Z).
  { destruct Hperm as [->|[H1 H2]]; [reflexivity|].
    rewrite !Z.geb_leb.
    transitivity false; [|symmetry]; apply Z.leb_gt; assumption. }
  rewrite Htest.
  destruct (rdz (mPermutation a) 0 >=? 0)%Z eqn:Hsorted.
  - assert (Hp : mPermutation a = mPermutation b).
    { destruct Hperm as [Hp|[H1 _]]; [exact Hp|].
      apply Z.geb_le in Hsorted; lia. }
    rewrite <- Hp.
    pose proof (for_up_opt_rel (same_but_saved n) 0 n
                  (permute_cycle n (mPermutation a))
                  (B, repeat 0%Z (length (mVisited a)), mPVector a, ty0)
                  (B, repeat 0%Z (length (mVisited a)), mPVector b, ty0)) as Hrel.
    destruct (for_up_opt 0 n (permute_cycle n (mPermutation a))
                (B, repeat 0%Z (length (mVisited a)), mPVector a, ty0))
      as [[[[Q1 v1] P1] t1]|]; [|discriminate].
    intros [= <- <-].
    destruct (for_up_opt 0 n (permute_cycle n (mPermutation a))
                (B, repeat 0%Z (length (mVisited a)), mPVector b, ty0))
      as [[[[Q2 v2] P2] t2]|].
    + destruct Hrel as (-> & -> & -> & _).
      * repeat split; assumption.
      * intros i s1 s2 _; apply permute_cycle_scratch.
      * eexists; split; reflexivity.
    + exfalso; apply Hrel.
      * repeat split; assumption.
      * intros i s1 s2 _; apply permute_cycle_scratch.
  - intros [= <- <-]; eexists; split; reflexivity.
Qed.

(** X20. What the getters return after a convergent [Solve] depends on
    the upper triangle of the input and on nothing else: not on the
    entries below the diagonal, not on what earlier calls left in the
    solver, not on what the caller's buffers held.  Two solvers of one
    size and budget, given inputs that agree on the upper triangle,
    return the same count, the same eigenvalues, the same eigenvector
    matrix and type, and the same single eigenvectors. *)
Theorem Solve_answers_forget_history (input1 input2 : list R) (sortType : Z)
    (st1 st2 : Solver) (out1 out2 E1 E2 x1 x2 : list R) :
  std_sort_contract std_sort ->
  wf st1 -> wf st2 ->
  mSize st1 = mSize st2 -> mMaxIterations st1 = mMaxIterations st2 ->
  let n := Z.to_nat (mSize st1) in
  length input1 = (n * n)%nat -> length input2 = (n * n)%nat ->
  (forall r c, (r <= c < n)%nat -> rd input1 (c + n * r)%nat = rd input2 (c + n * r)%nat) ->
  snd (Solve std_sort input1 sortType st1) <> NOT_CONVERGED ->
  (sortType <> 0%Z ->
   strict_weak_on (sort_comp sortType)
                  (sort_items (fst (Solve std_sort input1 sortType st1)))) ->
  length out1 = n -> length out2 = n ->
  length E1 = (n * n)%nat -> length E2 = (n * n)%nat ->
  length x1 = n -> length x2 = n ->
  let a := fst (Solve std_sort input1 sortType st1) in
  let b := fst (Solve std_sort input2 sortType st2) in
  snd (Solve std_sort input2 sortType st2) = snd (Solve std_sort input1 sortType st1) /\
  (exists ev, GetEigenvalues (Some out1) a = Some ev /\
              GetEigenvalues (Some out2) b = Some ev) /\
  (forall c, GetEigenvalue c a = GetEigenvalue c b) /\
  (exists Q sa sb,
     GetEigenvectors (Some E1) a = Some (Some Q, sa) /\
     GetEigenvectors (Some E2) b = Some (Some Q, sb) /\
     GetEigenvectorMatrixType sa = GetEigenvectorMatrixType sb) /\
  (forall c, (0 <= c < mSize st1)%Z ->
     exists v sa sb,
       GetEigenvector c (Some x1) a = Normal (Some v, sa) /\
       GetEigenvector c (Some x2) b = Normal (Some v, sb)).
Proof.
  intros Hcontract Hwf1 Hwf2 Hsz Hmx n Hl1 Hl2 Hup Hconv Hswo
         Hout1 Hout2 HE1 HE2 Hx1 Hx2 a b.
  destruct (Solve_footprint input1 input2 sortType st1 st2 Hwf1 Hwf2 Hsz Hmx Hl1 Hl2 Hup)
    as (Hret & HD & HS & HG & Hty & _ & HMk).
  fold a b in HD, HS, HG, Hty, HMk.
  assert (Hconv2 : snd (Solve std_sort input2 sortType st2) <> NOT_CONVERGED)
    by (rewrite <- Hret; exact Hconv).
  assert (Hn : (2 <= n)%nat) by (subst n; destruct Hwf1; lia).
  destruct (Solve_wf std_sort input1 sortType st1 Hwf1) as (Hwa & Hsa & _).
  destruct (Solve_wf std_sort input2 sortType st2 Hwf2) as (Hwb & Hsb & _).
  fold a in Hwa, Hsa; fold b in Hwb, Hsb.
  assert (Hitems : sort_items b = sort_items a)
    by (unfold sort_items; rewrite HD, Hsa, Hsb, Hsz; reflexivity).
  assert (Hswo2 : sortType <> 0%Z ->
            strict_weak_on (sort_comp sortType)
                           (sort_items (fst (Solve std_sort input2 sortType st2))))
    by (intros Hs; fold b; rewrite Hitems; apply Hswo; exact Hs).
  pose proof (Solve_solved std_sort input1 sortType st1 Hcontract Hwf1 Hconv Hswo)
    as Hsolved1.
  pose proof (Solve_solved std_sort input2 sortType st2 Hcontract Hwf2 Hconv2 Hswo2)
    as Hsolved2.
  rewrite <- Hsz in Hsolved2; fold n a in Hsolved1; fold n b in Hsolved2.
  assert (Hperm : mPermutation a = mPermutation b \/
                  (rdz (mPermutation a) 0 < 0 /\ rdz (mPermutation b) 0 < 0)%Z).
  { destruct (Z.eq_dec sortType 0) as [->|Hs].
    - right.
      destruct (Solve_unsorted_marks std_sort input1 st1 Hwf1 Hconv) as [H1 _].
      destruct (Solve_unsorted_marks std_sort input2 st2 Hwf2 Hconv2) as [H2 _].
      fold a in H1; fold b in H2; rewrite H1, H2; lia.
    - left.
      destruct (Solve_converged std_sort input1 sortType st1 Hwf1 Hconv)
        as (k1 & Heq1 & Hsz1 & Hpm1).
      destruct (Solve_converged std_sort input2 sortType st2 Hwf2 Hconv2)
        as (k2 & Heq2 & Hsz2 & Hpm2).
      assert (Hia : sort_items (after_steps k1 (tridiagonal_form input1 st1)) = sort_items a)
        by (subst a; rewrite Heq1; reflexivity).
      assert (Hib : sort_items (after_steps k2 (tridiagonal_form input2 st2)) = sort_items b)
        by (subst b; rewrite Heq2; reflexivity).
      assert (Hlen : length (std_sort (sort_comp sortType) (sort_items a)) = n).
      { destruct (Hcontract _ _ (Hswo Hs)) as [Hp _]; fold a in Hp.
        rewrite <- (Permutation_length Hp); unfold sort_items.
        rewrite length_map, length_seq, Hsa; reflexivity. }
      subst a b; rewrite Heq1, Heq2 in *; simpl fst in *.
      rewrite !ComputePermutation_sorted; try exact Hs.
      + rewrite Hia, Hib, Hitems; reflexivity.
      + rewrite Hib, Hitems, Hlen, Hpm2.
        destruct Hwf2 as [_ _ _ _ _ H _ _ _ _]; rewrite H, <- Hsz; reflexivity.
      + rewrite Hia, Hlen, Hpm1.
        destruct Hwf1 as [_ _ _ _ _ H _ _ _ _]; rewrite H; reflexivity. }
  assert (Htest : (rdz (mPermutation b) 0 >=? 0)%Z = (rdz (mPermutation a) 0 >=? 0)%Z).
  { destruct Hperm as [->|[H1 H2]]; [reflexivity|].
    rewrite !Z.geb_leb.
    transitivity false; [|symmetry]; apply Z.leb_gt; assumption. }
  assert (Hstored : forall k, stored_index n (n - 2) k ->
                      rd (mMatrix a) k = rd (mMatrix b) k).
  { intros k (c & r & Hc & Hr & ->); apply HMk; nia. }
  assert (HlDa : length (mDiagonal a) = n)
    by (destruct Hwa as [_ _ _ H _ _ _ _ _ _]; rewrite H, Hsa; reflexivity).
  assert (HlDb : length (mDiagonal b) = n)
    by (destruct Hwb as [_ _ _ H _ _ _ _ _ _]; rewrite H, Hsb, <- Hsz; reflexivity).
  split; [symmetry; exact Hret|split; [|split; [|split]]].
  - destruct (GetEigenvalues_rd n out1 a (solved_size _ _ Hsolved1) ltac:(lia) HlDa Hout1)
      as (ev1 & Hev1 & Hlev1 & Hr1).
    destruct (GetEigenvalues_rd n out2 b (solved_size _ _ Hsolved2) ltac:(lia) HlDb Hout2)
      as (ev2 & Hev2 & Hlev2 & Hr2).
    exists ev1; split; [exact Hev1|].
    rewrite Hev2; do 2 f_equal.
    apply (nth_ext _ _ R0 R0); [congruence|].
    intros k Hk; rewrite Hlev2 in Hk.
    change (rd ev2 k = rd ev1 k).
    rewrite Hr1, Hr2, Htest, <- HD by exact Hk.
    destruct (rdz (mPermutation a) 0 >=? 0)%Z eqn:Hsorted; [|reflexivity].
    destruct Hperm as [->|[H1 _]]; [reflexivity|].
    apply Z.geb_le in Hsorted; lia.
  - intros c; unfold GetEigenvalue.
    rewrite Hsa, Hsb, <- Hsz, Htest, <- HD.
    destruct (mSize st1 >? 0)%Z; [|reflexivity].
    destruct (rdz (mPermutation a) 0 >=? 0)%Z eqn:Hsorted; [|reflexivity].
    destruct Hperm as [->|[H1 _]]; [reflexivity|].
    apply Z.geb_le in Hsorted; lia.
  - destruct (GetEigenvectors_returns n E1 a Hsolved1 HE1)
      as (Q & sa & HQ & _).
    destruct (GetEigenvectors_rel n E1 E2 Q a b sa) as (sb & HQb & Htyb);
      try assumption;
      try (destruct Hsolved1; assumption); try (destruct Hsolved2; assumption).
    + destruct Hsolved1 as [_ _ _ _ _ _ H1 _], Hsolved2 as [_ _ _ _ _ _ H2 _]; congruence.
    + exists Q, sa, sb; split; [exact HQ|split; [exact HQb|]].
      unfold GetEigenvectorMatrixType; symmetry; exact Htyb.
  - intros c Hc.
    assert (Hsc : stored_column b c = stored_column a c).
    { unfold stored_column; rewrite Htest.
      destruct (rdz (mPermutation a) 0 >=? 0)%Z eqn:Hsorted; [|reflexivity].
      destruct Hperm as [->|[H1 _]]; [reflexivity|].
      apply Z.geb_le in Hsorted; lia. }
    assert (Hlt : (stored_column a c < n)%nat).
    { unfold stored_column.
      destruct (rdz (mPermutation a) 0 >=? 0)%Z eqn:Hsorted; [|subst n; lia].
      destruct (solved_permutation _ _ Hsolved1) as [Hneg|Hp];
        [apply Z.geb_le in Hsorted; lia|].
      apply (is_permutation_range n _ (Z.to_nat c) Hp); subst n; lia. }
    destruct (GetEigenvector_single_f c x1 a) as (v & sa & Hv & Hlv & Hvr);
      try (rewrite Hsa; fold n); try assumption;
      try (destruct Hsolved1; assumption).
    destruct (GetEigenvector_single_f c x2 b) as (v' & sb & Hv' & Hlv' & Hvr');
      try (rewrite Hsb, <- Hsz; fold n); try assumption;
      try (destruct Hsolved2; assumption); [rewrite Hsc; exact Hlt|].
    rewrite Hsa in Hlv, Hvr; rewrite Hsb, <- Hsz in Hlv', Hvr'; fold n in Hlv, Hvr, Hlv', Hvr'.
    assert (v' = v) as ->.
    { apply (nth_ext _ _ R0 R0); [lia|].
      intros r _; change (rd v' r = rd v r); rewrite Hvr, Hvr', Hsc, <- HG.
      unfold single_f; symmetry.
      apply house_f_matrix; [lia|exact Hstored]. }
    exists v, sa, sb; split; assumption.
Qed.

End Footprint.

(* ================================================================== *)
(** ** The iteration budget *)

Section Budget.

Context {R : Type} {RA : RealArith R}.
Variable std_sort : sorter (SortItem R).

Local Abbreviation Solver := (SymmetricEigensolver R).

(** Once the iteration has converged, a larger budget changes
    nothing. *)
Lemma qr_iterate_more (sortType : Z) (d budget : nat) : forall j (a : Solver),
  snd (qr_iterate std_sort budget j sortType a) <> NOT_CONVERGED ->
  qr_iterate std_sort (budget + d) j sortType a = qr_iterate std_sort budget j sortType a.
Proof.
  induction budget as [|budget IH]; intros j a Hc.
  - contradiction Hc; reflexivity.
  - change (S budget + d)%nat with (S (budget + d)).
    rewrite !qr_iterate_pass in *.
    destruct (converged a); [reflexivity|].
    apply IH; exact Hc.
Qed.

(** X21. A convergent [Solve] does not depend on how large the budget
    was: with the same input, a solver of the same size and a budget at
    least as large returns the same count and ends with the same
    eigenvalues, superdiagonal, rotation log and matrix type (and the
    same permutation, when the two started from the same one). *)
Theorem Solve_budget_monotone (input : list R) (sortType : Z) (st1 st2 : Solver) :
  wf st1 -> wf st2 ->
  mSize st1 = mSize st2 -> (mMaxIterations st1 <= mMaxIterations st2)%Z ->
  length input = (Z.to_nat (mSize st1) * Z.to_nat (mSize st1))%nat ->
  snd (Solve std_sort input sortType st1) <> NOT_CONVERGED ->
  let r1 := Solve std_sort input sortType st1 in
  let r2 := Solve std_sort input sortType st2 in
  snd r2 = snd r1 /\
  mDiagonal (fst r2) = mDiagonal (fst r1) /\
  mSuperdiagonal (fst r2) = mSuperdiagonal (fst r1) /\
  mGivens (fst r2) = mGivens (fst r1) /\
  mEigenvectorMatrixType (fst r2) = mEigenvectorMatrixType (fst r1) /\
  (mPermutation st1 = mPermutation st2 ->
   mPermutation (fst r2) = mPermutation (fst r1)).
Proof.
  intros Hwf1 Hwf2 Hsz Hmx Hl Hconv r1 r2; subst r1 r2.
  assert (Hpos1 : (0 < mSize st1)%Z) by (destruct Hwf1; lia).
  assert (Hpos2 : (0 < mSize st2)%Z) by (destruct Hwf2; lia).
  rewrite (Solve_unfold std_sort input sortType st1 Hpos1) in *.
  rewrite (Solve_unfold std_sort input sortType st2 Hpos2).
  set (l1 := load_input input (set_type (-1) st1)).
  set (l2 := load_input input (set_type (-1) st2)).
  assert (Hwl1 : wf l1) by (apply load_input_wf, set_type_wf; exact Hwf1).
  assert (Hwl2 : wf l2) by (apply load_input_wf, set_type_wf; exact Hwf2).
  destruct (Tridiagonalize_rel l1 l2 Hwl1 Hwl2 Hsz) as (HD & HS & _).
  { apply (load_input_rel input input (set_type (-1) st1) (set_type (-1) st2));
      try assumption; try (apply set_type_wf; assumption).
    reflexivity. }
  destruct (Tridiagonalize_frame l1) as (Hsz1 & _ & _ & Hpm1 & _ & Hty1).
  destruct (Tridiagonalize_frame l2) as (Hsz2 & _ & _ & Hpm2 & _ & Hty2).
  change (mSize l1) with (mSize st1) in Hsz1.
  change (mSize l2) with (mSize st2) in Hsz2.
  change (mPermutation l1) with (mPermutation st1) in Hpm1.
  change (mPermutation l2) with (mPermutation st2) in Hpm2.
  change (mEigenvectorMatrixType l1) with (-1)%Z in Hty1.
  change (mEigenvectorMatrixType l2) with (-1)%Z in Hty2.
  unfold tridiagonal_form in *; fold l1 l2 in Hconv |- *.
  set (t1 := clear_givens (Tridiagonalize l1)) in *.
  set (t2 := clear_givens (Tridiagonalize l2)) in *.
  replace (Z.to_nat (mMaxIterations st2))
    with (Z.to_nat (mMaxIterations st1)
          + (Z.to_nat (mMaxIterations st2) - Z.to_nat (mMaxIterations st1)))%nat by lia.
  rewrite <- (qr_iterate_more sortType
                (Z.to_nat (mMaxIterations st2) - Z.to_nat (mMaxIterations st1))
                (Z.to_nat (mMaxIterations st1)) 0 t1 Hconv).
  destruct (qr_iterate_rel std_sort sortType
              (Z.to_nat (mMaxIterations st1)
               + (Z.to_nat (mMaxIterations st2) - Z.to_nat (mMaxIterations st1))) 0 t2 t1)
    as (Hret & _ & HD' & HS' & HG' & _ & _ & Hty & Hpm);
    [subst t1 t2; simpl; congruence|subst t1 t2; simpl; congruence
    |subst t1 t2; simpl; congruence|reflexivity|].
  split; [exact Hret|split; [exact HD'|split; [exact HS'|split; [exact HG'|]]]].
  split; [apply Hty; subst t1 t2; simpl; congruence|].
  intros Hp; apply Hpm; subst t1 t2; simpl; congruence.
Qed.

End Budget.

(* ================================================================== *)
(** ** Rows that are already zero right of the diagonal *)

Section ZeroRow.

Context {R : Type} {RA : RealArith R}.

Local Open Scope real_scope.
Local Abbreviation Solver := (SymmetricEigensolver R).

Hypothesis Hza : zero_arith (R:=R).

Lemma ordinary_zero : ordinary (R0 : R).
Proof.
  split; [rewrite (za_mul Hza); apply (za_add Hza)|apply (za_sub Hza)].
Qed.

(** The vector read from a zero row is zero, and so is its length. *)
Lemma tri_vector_zero (n i : nat) (M V : list R) :
  (S i <= n)%nat -> length V = n ->
  (forall c, (i < c < n)%nat -> rd M (c + n * i)%nat = R0) ->
  snd (tri_vector n i M V) = R0 /\
  length (fst (tri_vector n i M V)) = n /\
  forall r, (r < n)%nat -> rd (fst (tri_vector n i M V)) r = R0.
Proof.
  intros Hi HV Hrow; unfold tri_vector.
  destruct (for_up_store (fun _ : nat => (R0 : R)) 0 (S i) V R0) as [Hl0 Hn0].
  cbv beta in Hl0, Hn0.
  set (V0 := for_up 0 (S i) (fun r V => upd V r R0) V) in *.
  pose proof (for_up_inv
    (fun k (s : list R * R) =>
       snd s = R0 /\ length (fst s) = n /\
       forall r, (r < k)%nat -> rd (fst s) r = R0)
    (S i) n
    (fun r '(V, len) =>
       let vr := rd M (r + n * i)%nat in (upd V r vr, len + vr * vr))
    (V0, R0) Hi) as Hinv.
  cbv beta in Hinv.
  destruct Hinv as (Hs & Hl & Hz).
  - simpl; split; [reflexivity|split; [lia|]].
    intros r Hr; unfold rd; rewrite Hn0, HV.
    replace (r <? S i)%nat with true by (symmetry; apply Nat.ltb_lt; lia).
    replace (r <? n)%nat with true by (symmetry; apply Nat.ltb_lt; lia).
    reflexivity.
  - intros r [Va la] Hr (Hs & Hl & Hz); simpl in Hs, Hl, Hz; subst la.
    cbv zeta; simpl.
    rewrite (Hrow r) by lia.
    rewrite (za_mul Hza), (za_add Hza).
    split; [reflexivity|split; [rewrite length_upd; exact Hl|]].
    intros r' Hr'; rewrite rd_upd.
    destruct (Nat.eqb_spec r' r) as [->|Hne]; simpl.
    + replace (r <? length Va)%nat with true
        by (symmetry; apply Nat.ltb_lt; lia).
      reflexivity.
    + apply Hz; lia.
  - split; [exact Hs|split; [exact Hl|exact Hz]].
Qed.

(** With a zero length the vector is not normalised. *)
Lemma tri_normalize_zero (n i : nat) (V : list R) :
  tri_normalize n i (V, R0) = (V, R1).
Proof.
  unfold tri_normalize, Rgtb.
  rewrite (za_sqrt Hza), (za_lt Hza); reflexivity.
Qed.

(** A sum of products with a zero vector. *)
Lemma zero_sum (lo hi : nat) (m v : nat -> R) :
  (forall c, (lo <= c < hi)%nat -> ordinary (m c) /\ v c = R0) ->
  for_up lo hi (fun c acc => acc + m c * v c) R0 = R0.
Proof.
  intros Hc.
  apply (for_up_preserves (fun acc : R => acc = R0)); [reflexivity|].
  intros c acc Hlt ->.
  destruct (Hc c Hlt) as [[Ho _] ->]; exact Ho.
Qed.

(** [mPVector] and [pdvtvdv] for a zero vector. *)
Lemma tri_p_zero (n i : nat) (M V : list R) (P : list R) :
  (i <= n)%nat -> length P = n ->
  (forall r, (r < n)%nat -> rd V r = R0) ->
  (forall r c, (i <= r /\ r <= c < n)%nat -> ordinary (rd M (c + n * r)%nat)) ->
  snd (tri_p n i M V R2 P) = R0 /\
  length (fst (tri_p n i M V R2 P)) = n /\
  forall r, (i <= r < n)%nat -> rd (fst (tri_p n i M V R2 P)) r = R0.
Proof.
  intros Hi HP HV HM; unfold tri_p.
  match goal with
  | |- context [for_up i n ?b (P, R0)] =>
      pose proof (for_up_inv
        (fun k (s : list R * R) =>
           snd s = R0 /\ length (fst s) = n /\
           forall r, (i <= r < k)%nat -> rd (fst s) r = R0)
        i n b (P, R0) Hi) as Hinv
  end.
  cbv beta in Hinv.
  destruct Hinv as (Hs & Hl & Hz).
  - simpl; split; [reflexivity|split; [exact HP|intros r Hr; lia]].
  - intros r [Pa pa] Hr (Hs & Hl & Hz); simpl in Hs, Hl, Hz; subst pa.
    cbv beta iota zeta.
    rewrite (tri_p_cell n i M V R2 r Pa) by lia.
    rewrite (zero_sum i r (fun c => rd M (r + n * c)%nat) (rd V))
      by (intros c Hc; split; [apply HM; lia|apply HV; lia]).
    rewrite (zero_sum r n (fun c => rd M (c + n * r)%nat) (rd V))
      by (intros c Hc; split; [apply HM; lia|apply HV; lia]).
    simpl.
    rewrite rd_upd_same by lia.
    rewrite (za_mul_two Hza), (HV r) by lia.
    rewrite (za_mul Hza), (za_add Hza).
    split; [reflexivity|split; [rewrite length_upd; exact Hl|]].
    intros r' Hr'; rewrite rd_upd.
    destruct (Nat.eqb_spec r' r) as [->|Hne]; simpl.
    + replace (r <? length Pa)%nat with true
        by (symmetry; apply Nat.ltb_lt; lia).
      reflexivity.
    + apply Hz; lia.
  - split; [exact Hs|split; [exact Hl|exact Hz]].
Qed.

(** [mWVector] for a zero vector. *)
Lemma tri_w_zero (n i : nat) (V P W : list R) :
  length W = n ->
  (forall r, (r < n)%nat -> rd V r = R0) ->
  (forall r, (i <= r < n)%nat -> rd P r = R0) ->
  length (tri_w n i V P R0 W) = n /\
  forall r, (i <= r < n)%nat -> rd (tri_w n i V P R0 W) r = R0.
Proof.
  intros HW HV HP; unfold tri_w.
  destruct (for_up_store (fun r => rd P r - R0 * rd V r) i n W R0) as [Hl Hn].
  cbv beta in Hl, Hn.
  split; [lia|].
  intros r Hr; unfold rd at 1; rewrite Hn, HW.
  replace (i <=? r)%nat with true by (symmetry; apply Nat.leb_le; lia).
  replace (r <? n)%nat with true by (symmetry; apply Nat.ltb_lt; lia).
  simpl.
  rewrite (HP r Hr), (HV r) by lia.
  rewrite (za_mul Hza); apply (za_sub Hza).
Qed.

(** The rank-2 update with zero vectors writes back what it read. *)
Lemma tri_update_zero (n i : nat) (V W M : list R) :
  (forall r, (r < n)%nat -> rd V r = R0) ->
  (forall r, (i <= r < n)%nat -> rd W r = R0) ->
  (forall r c, (i <= r /\ r <= c < n)%nat -> ordinary (rd M (c + n * r)%nat)) ->
  tri_update n i V W M = M.
Proof.
  intros HV HW HM; unfold tri_update.
  apply (for_up_preserves (fun M' : list R => M' = M)); [reflexivity|].
  intros r M0 Hr ->; cbv zeta.
  rewrite (HV r), (HW r) by lia.
  rewrite (za_mul Hza), (za_mul_two Hza).
  rewrite (proj2 (HM r r ltac:(lia))).
  change (rd M (r + n * r)%nat) with (nth (r + n * r)%nat M R0).
  rewrite upd_same.
  apply (for_up_preserves (fun M' : list R => M' = M)); [reflexivity|].
  intros c M1 Hc ->.
  rewrite (HV c), (HW c) by lia.
  rewrite (za_mul Hza), (za_add Hza).
  rewrite (proj2 (HM r c ltac:(lia))).
  unfold rd; apply upd_same.
Qed.

(** What the last two loops leave in the matrix: the scale and the
    vector in column [i] below the diagonal, nothing else. *)
Lemma tri_store_rd (n i : nat) (V : list R) (t : R) (M : list R) :
  (i + 1 < n)%nat -> length M = (n * n)%nat ->
  let M' := tri_store n i V t M in
  length M' = (n * n)%nat /\
  rd M' (i + n * S i)%nat = t /\
  (forall r, (S i < r < n)%nat -> rd M' (i + n * r)%nat = rd V r) /\
  (forall k, ~ (exists r, (i < r < n)%nat /\ k = (i + n * r)%nat) -> rd M' k = rd M k).
Proof.
  intros Hi HlM M'; subst M'; unfold tri_store.
  pose proof (for_up_inv
    (fun h (M' : list R) =>
       length M' = (n * n)%nat /\
       rd M' (i + n * S i)%nat = t /\
       (forall r, (S i < r < h)%nat -> rd M' (i + n * r)%nat = rd V r) /\
       (forall k, ~ (exists r, (i < r < n)%nat /\ k = (i + n * r)%nat) ->
                  rd M' k = rd M k))
    (S (S i)) n
    (fun r M => upd M (i + n * r)%nat (rd V r))
    (upd M (i + n * S i)%nat t) ltac:(lia)) as Hinv.
  cbv beta in Hinv.
  apply Hinv; clear Hinv.
  - split; [rewrite length_upd; exact HlM|].
    split; [apply rd_upd_same; nia|].
    split; [intros r Hr; lia|].
    intros k Hk; rewrite rd_upd.
    destruct (Nat.eqb_spec k (i + n * S i)%nat) as [->|Hne]; simpl; [|reflexivity].
    contradiction Hk; exists (S i); split; [lia|reflexivity].
  - intros r Ma Hr (Hl & Ht & Hv & Hk).
    split; [rewrite length_upd; exact Hl|].
    split.
    { rewrite rd_upd.
      destruct (Nat.eqb_spec (i + n * S i)%nat (i + n * r)%nat) as [He|Hne]; simpl;
        [nia|exact Ht]. }
    split.
    { intros r' Hr'; rewrite rd_upd.
      destruct (Nat.eqb_spec (i + n * r')%nat (i + n * r)%nat) as [He|Hne]; simpl.
      - assert (r' = r) by nia; subst r'.
        replace (i + n * r <? length Ma)%nat with true
          by (symmetry; apply Nat.ltb_lt; nia).
        reflexivity.
      - apply Hv.
        assert (r' <> r) by (intros ->; apply Hne; reflexivity).
        lia. }
    intros k Hnk; rewrite rd_upd.
    destruct (Nat.eqb_spec k (i + n * r)%nat) as [->|Hne]; simpl; [|apply Hk, Hnk].
    contradiction Hnk; exists r; split; [lia|reflexivity].
Qed.

(** One pass over a row that is zero right of the diagonal. *)
Lemma tridiag_step_zero (n i : nat) (M V P W : list R) :
  (i + 2 <= n)%nat ->
  length M = (n * n)%nat -> length V = n -> length P = n -> length W = n ->
  (forall c, (i < c < n)%nat -> rd M (c + n * i)%nat = R0) ->
  (forall r c, (i <= r /\ r <= c < n)%nat -> ordinary (rd M (c + n * r)%nat)) ->
  let M' := fst (fst (fst (tridiag_step n i (M, V, P, W)))) in
  length M' = (n * n)%nat /\
  (forall k, ~ (exists r, (i < r < n)%nat /\ k = (i + n * r)%nat) -> rd M' k = rd M k) /\
  rd M' (i + n * S i)%nat = R2 /\
  (forall r, (S i < r < n)%nat -> rd M' (i + n * r)%nat = R0).
Proof.
  intros Hi HlM HlV HlP HlW Hrow Hord M'; subst M'.
  rewrite tridiag_step_passes; cbv zeta; simpl fst.
  destruct (tri_vector_zero n i M V ltac:(lia) HlV Hrow) as (Hlen & HlV0 & HV0).
  destruct (tri_vector n i M V) as [V0 len]; simpl in Hlen, HlV0, HV0; subst len.
  rewrite tri_normalize_zero; simpl fst; simpl snd.
  rewrite (za_one Hza), (za_two Hza).
  destruct (tri_p_zero n i M V0 P ltac:(lia) HlP HV0 Hord) as (Hpdv & HlP0 & HP0).
  destruct (tri_p n i M V0 R2 P) as [P0 pdv]; simpl in Hpdv, HlP0, HP0; subst pdv.
  simpl fst; simpl snd.
  rewrite (za_mul_one Hza).
  destruct (tri_w_zero n i V0 P0 W HlW HV0 HP0) as (HlW0 & HW0).
  rewrite (tri_update_zero n i V0 _ M HV0 HW0 Hord).
  destruct (tri_store_rd n i V0 R2 M ltac:(lia) HlM) as (Hl & Ht & Hv & Hk).
  split; [exact Hl|split; [exact Hk|split; [exact Ht|]]].
  intros r Hr; rewrite (Hv r Hr); apply HV0; lia.
Qed.

(** X22. A pass of [Tridiagonalize] over a row [i] that is already zero
    right of the diagonal leaves the matrix as it is on and right of
    the diagonal, and in every column but [i] below it; yet in column
    [i] it stores the scale [2] and a zero tail, the record of a
    reflection about the coordinate [i + 1] that it did not apply. *)
Theorem Tridiagonalize_pass_on_zero_row (n i : nat) (M V P W : list R) :
  (i + 2 <= n)%nat ->
  length M = (n * n)%nat -> length V = n -> length P = n -> length W = n ->
  (forall c, (i < c < n)%nat -> rd M (c + n * i)%nat = R0) ->
  (forall r c, (i <= r /\ r <= c < n)%nat -> ordinary (rd M (c + n * r)%nat)) ->
  let M' := fst (fst (fst (tridiag_step n i (M, V, P, W)))) in
  length M' = (n * n)%nat /\
  (forall k, ~ (exists r, (i < r < n)%nat /\ k = (i + n * r)%nat) -> rd M' k = rd M k) /\
  rd M' (i + n * S i)%nat = R2 /\
  (forall r, (S i < r < n)%nat -> rd M' (i + n * r)%nat = R0).
Proof. exact (tridiag_step_zero n i M V P W). Qed.

(** The passes over a matrix that is zero right of the diagonal leave
    it so. *)
Lemma tridiag_passes_zero (n m : nat) (M V P W : list R) :
  (m <= n - 2)%nat ->
  length M = (n * n)%nat -> length V = n -> length P = n -> length W = n ->
  (forall r c, (r < c < n)%nat -> rd M (c + n * r)%nat = R0) ->
  (forall r, (r < n)%nat -> ordinary (rd M (r + n * r)%nat)) ->
  forall k, upper_index n k ->
    rd (fst (fst (fst (for_up 0 m (tridiag_step n) (M, V, P, W))))) k = rd M k.
Proof.
  intros Hm HlM HlV HlP HlW Hzero Hdiag.
  pose proof (for_up_inv
    (fun (j : nat) (b : list R * list R * list R * list R) =>
       length (fst (fst (fst b))) = (n * n)%nat /\
       length (snd (fst (fst b))) = n /\ length (snd (fst b)) = n /\
       length (snd b) = n /\
       forall k, upper_index n k -> rd (fst (fst (fst b))) k = rd M k)
    0 m (tridiag_step n) (M, V, P, W) ltac:(lia)) as Hinv.
  cbv beta in Hinv.
  apply Hinv; clear Hinv.
  - simpl; repeat split; assumption.
  - intros j [[[Ma Va] Pa] Wa] Hj H; simpl in H.
    destruct H as (Hla & HVa & HPa & HWa & Hup).
    pose proof (tridiag_step_lengths n j (Ma, Va, Pa, Wa)) as Hlen.
    destruct (tridiag_step_zero n j Ma Va Pa Wa) as (Hl & Hk & _); try assumption;
      try lia.
    + intros c Hc; rewrite Hup by (exists j, c; split; [lia|reflexivity]).
      apply Hzero; lia.
    + intros r c Hrc; rewrite Hup by (exists r, c; split; [lia|reflexivity]).
      destruct (Nat.eq_dec r c) as [->|Hne]; [apply Hdiag; lia|].
      rewrite Hzero by lia; exact ordinary_zero.
    + destruct (tridiag_step n j (Ma, Va, Pa, Wa)) as [[[Mb Vb] Pb] Wb].
      simpl in Hlen, Hl, Hk |- *.
      destruct Hlen as (_ & HVb & HPb & HWb).
      split; [exact Hl|split; [congruence|split; [congruence|split; [congruence|]]]].
      intros k (r & c & Hrc & ->).
      rewrite Hk; [apply Hup; exists r, c; split; [lia|reflexivity]|].
      intros (r' & Hr' & Heq).
      destruct (flat_index_inj n c r j r') as [-> ->]; [lia|lia|exact Heq|lia].
Qed.

Lemma Tridiagonalize_matrix (st : Solver) :
  mMatrix (Tridiagonalize st)
  = fst (fst (fst (for_up 0 (Z.to_nat (mSize st) - 2)
                     (tridiag_step (Z.to_nat (mSize st)))
                     (mMatrix st, mVVector st, mPVector st, mWVector st)))).
Proof.
  unfold Tridiagonalize.
  destruct (for_up _ _ _ _) as [[[M V] P] W].
  destruct (copy_bands _ _ _ _) as [Dg Sp]; reflexivity.
Qed.

Variable std_sort : sorter (SortItem R).

(** X23. A matrix that is zero right of the diagonal is solved at once:
    [Solve] returns [0] iterations, logs no rotation, and leaves the
    diagonal entries of the input, in their order, as the eigenvalues
    (with a zero superdiagonal).  The diagonal entries are to be
    ordinary numbers on which the convergence test passes, as all are
    in exact arithmetic and the finite ones are in IEEE arithmetic. *)
Theorem Solve_diagonal_input (input : list R) (sortType : Z) (st : Solver) :
  wf st ->
  let n := Z.to_nat (mSize st) in
  length input = (n * n)%nat ->
  (forall r c, (r < c < n)%nat -> rd input (c + n * r)%nat = R0) ->
  (forall r, (r < n)%nat -> ordinary (rd input (r + n * r)%nat)) ->
  (forall i, (i + 1 < n)%nat ->
     settled (rd input (i + n * i)%nat) (rd input (S i + n * S i)%nat)) ->
  let res := Solve std_sort input sortType st in
  snd res = 0%Z /\
  mGivens (fst res) = [] /\
  (forall k, (k < n)%nat -> rd (mDiagonal (fst res)) k = rd input (k + n * k)%nat) /\
  (forall k, (k < n - 1)%nat -> rd (mSuperdiagonal (fst res)) k = R0).
Proof.
  intros Hwf n Hl Hzero Hdiag Hset res; subst res.
  assert (Hn : (2 <= n)%nat) by (destruct Hwf; subst n; lia).
  rewrite Solve_unfold by (destruct Hwf; lia).
  unfold tridiagonal_form.
  set (l := load_input input (set_type (-1) st)).
  assert (Hwl : wf l) by (apply load_input_wf, set_type_wf; exact Hwf).
  assert (Hnl : Z.to_nat (mSize l) = n) by reflexivity.
  destruct (copy_n_rd (n * n) input (mMatrix st)) as [_ Hin];
    [exact Hl|destruct Hwf; assumption|].
  assert (HM : forall k, rd (mMatrix l) k = rd input k) by exact Hin.
  destruct (Tridiagonalize_bands_rd l) as (_ & _ & HD & HS);
    [rewrite Hnl; lia|destruct Hwl; assumption|destruct Hwl; assumption|].
  rewrite Hnl in HD, HS.
  assert (Hup : forall k, upper_index n k ->
            rd (mMatrix (Tridiagonalize l)) k = rd input k).
  { intros k Hk; rewrite Tridiagonalize_matrix, Hnl.
    rewrite tridiag_passes_zero; try (destruct Hwl; rewrite ?Hnl in *; assumption);
      try lia; try exact Hk.
    - apply HM.
    - intros r c Hrc; rewrite HM; apply Hzero; exact Hrc.
    - intros r Hr; rewrite HM; apply Hdiag; exact Hr. }
  assert (HD' : forall k, (k < n)%nat ->
            rd (mDiagonal (Tridiagonalize l)) k = rd input (k + n * k)%nat).
  { intros k Hk; rewrite HD by exact Hk.
    apply Hup; exists k, k; split; [lia|reflexivity]. }
  assert (HS' : forall k, (k < n - 1)%nat ->
            rd (mSuperdiagonal (Tridiagonalize l)) k = R0).
  { intros k Hk; rewrite HS by exact Hk.
    rewrite Hup by (exists k, (k + 1)%nat; split; [lia|reflexivity]).
    apply Hzero; lia. }
  set (t := clear_givens (Tridiagonalize l)).
  assert (Hconv : converged t = true).
  { apply converged_iff; intros i Hi.
    change (mSize t) with (mSize (Tridiagonalize l)) in Hi.
    rewrite (proj1 (Tridiagonalize_frame l)) in Hi.
    change (Z.to_nat (mSize l)) with n in Hi.
    change (mDiagonal t) with (mDiagonal (Tridiagonalize l)).
    change (mSuperdiagonal t) with (mSuperdiagonal (Tridiagonalize l)).
    unfold absorbed.
    rewrite (HD' i), (HS' i) by lia.
    replace (i + 1)%nat with (S i) by lia.
    rewrite (HD' (S i)) by lia.
    exact (Hset i ltac:(lia)). }
  destruct (Z.to_nat (mMaxIterations st)) as [|budget] eqn:Hb;
    [destruct Hwf; lia|].
  rewrite qr_iterate_pass, Hconv.
  simpl; split; [reflexivity|split; [reflexivity|split; [exact HD'|exact HS']]].
Qed.

End ZeroRow.

(* ================================================================== *)
(** ** Runs in binary64 *)

Module Runs.

Import Inputs.

Local Open Scope float_scope.

Lemma solver2_wf : wf solver2.
Proof. constructor; vm_compute; try reflexivity; try (split; congruence); congruence. Defined.

Lemma Solve_return_value_witness :
  Solve insertion_sort A2 1 (construct (R:=float) 1 32)
    = (construct (R:=float) 1 32, 0%Z) /\
  (let t := tridiagonal_form A2 solver2 in
   let ret := snd (Solve insertion_sort A2 1 solver2) in
   ((0 <= ret < mMaxIterations solver2)%Z /\ ret <> NOT_CONVERGED /\
      converged (after_steps (Z.to_nat ret) t) = true /\
      (forall k, (k < Z.to_nat ret)%nat -> converged (after_steps k t) = false))
   \/
   (ret = NOT_CONVERGED /\
      forall k, (Z.of_nat k < mMaxIterations solver2)%Z ->
        converged (after_steps k t) = false)).
Proof.
  destruct (Solve_return_value insertion_sort A2 1) as [Hinert Hrun].
  split.
  - apply Hinert; left; lia.
  - apply Hrun; vm_compute; [reflexivity|split; congruence].
Defined.

Lemma Solve_sets_matrix_type_witness :
  (0 <= mMaxIterations solver2 <= 0xFFFFFFFF)%Z /\
  (let r := Solve insertion_sort A2 1 solver2 in
   r = Solve insertion_sort A2 1 (set_type (-1) solver2) /\
   (snd r = NOT_CONVERGED -> GetEigenvectorMatrixType (fst r) = (-1)%Z) /\
   ((mSize solver2 <= 0)%Z -> GetEigenvectorMatrixType (fst r) = (-1)%Z) /\
   ((0 < mSize solver2)%Z -> snd r <> NOT_CONVERGED ->
      GetEigenvectorMatrixType (fst r) = (1 - mSize solver2 mod 2)%Z)).
Proof.
  assert (Hrange : (0 <= mMaxIterations solver2 <= 0xFFFFFFFF)%Z)
    by (vm_compute; split; congruence).
  split; [exact Hrange|].
  exact (Solve_sets_matrix_type insertion_sort A2 1 solver2 Hrange).
Defined.

Lemma outer_pass_witness :
  let st := tridiagonal_form A2 solver2 in
  (exists imin imax : nat,
     (imin <= imax < Z.to_nat (mSize st) - 1)%nat /\
     (forall i, (imax < i < Z.to_nat (mSize st) - 1)%nat ->
        absorbed (mDiagonal st) (mSuperdiagonal st) i = true) /\
     (forall i, (imin <= i <= imax)%nat ->
        absorbed (mDiagonal st) (mSuperdiagonal st) i = false) /\
     (imin = 0%nat \/ absorbed (mDiagonal st) (mSuperdiagonal st) (imin - 1) = true) /\
     qr_iterate insertion_sort 32 0 1 st
       = qr_iterate insertion_sort 31 (0 + 1) 1
           (DoQRImplicitShift (Z.of_nat imin) (Z.of_nat imax) st))
  /\
  qr_iterate insertion_sort 31 1 1 (qr_step st)
    = (ComputePermutation insertion_sort 1 (qr_step st), 1%Z).
Proof.
  split.
  - apply (outer_pass_deflates_or_steps insertion_sort 1 31 0
             (tridiagonal_form A2 solver2)).
    exists 0%nat; vm_compute; split; [lia|reflexivity].
  - apply (outer_pass_deflates_or_steps insertion_sort 1 30 1
             (qr_step (tridiagonal_form A2 solver2))).
    intros i Hi; assert (i = 0)%nat as -> by (vm_compute in Hi; lia).
    vm_compute; reflexivity.
Defined.

(** C7, the claim as stated: on [solved2], whose type flag is [1], a
    call of [GetEigenvectors] with a null buffer changes the solver, and
    [GetEigenvector] with a null buffer and a column in range writes
    through the null pointer. *)
Lemma null_buffer_not_noop :
  GetEigenvectorMatrixType solved2 = 1%Z /\
  (exists st', GetEigenvectors None solved2 = Some (None, st') /\
               GetEigenvectorMatrixType st' = (-1)%Z) /\
  GetEigenvector 0 None solved2 = Fault.
Proof.
  split; [reflexivity|split].
  - eexists; split; reflexivity.
  - reflexivity.
Qed.

(** C6 at a failing input: with [size = 2], [GetEigenvalue(2)] and
    [GetEigenvalue(-1)] index [mDiagonal] (or [mPermutation], after a
    sorted solve) outside the vector instead of returning the sentinel,
    whereas [GetEigenvector(2, out)] returns at once. *)
Lemma GetEigenvalue_out_of_range_run :
  GetEigenvalue 2 solved2 = Fault /\
  GetEigenvalue (-1) solved2 = Fault /\
  GetEigenvalue 2 (fst (Solve insertion_sort A2 1 solver2)) = Fault /\
  GetEigenvalue 2 solved2 <> Normal Rmax /\
  GetEigenvector 2 (Some [7; 7]) solved2 = Normal (Some [7; 7], solved2).
Proof.
  repeat split; try (vm_compute; reflexivity).
  vm_compute; congruence.
Qed.

Lemma solver2_sorted_swo :
  strict_weak_on (sort_comp 1) (sort_items (fst (Solve insertion_sort A2 1 solver2))).
Proof.
  let l := eval vm_compute in (sort_items (fst (Solve insertion_sort A2 1 solver2))) in
  change (sort_items (fst (Solve insertion_sort A2 1 solver2))) with l.
  constructor; intros; finite_cases; vm_compute in *; auto; congruence.
Defined.

Lemma GetEigenvalues_sorted_witness :
  let st' := fst (Solve insertion_sort A2 1 solver2) in
  let n := Z.to_nat (mSize solver2) in
  exists out',
    GetEigenvalues (Some [0; 0]) st' = Some out' /\
    length out' = n /\
    Permutation (map Z.of_nat (seq 0 n)) (mPermutation st') /\
    (forall i, (i < n)%nat ->
       rd out' i = rd (mDiagonal st') (Z.to_nat (rdz (mPermutation st') i))) /\
    (forall i j, (i < j < n)%nat ->
       ((0 < 1)%Z -> Rltb (rd out' j) (rd out' i) = false) /\
       ((1 < 0)%Z -> Rltb (rd out' i) (rd out' j) = false)).
Proof.
  apply (GetEigenvalues_sorted insertion_sort A2 1 solver2 [0; 0]).
  - exact insertion_sort_contract.
  - exact solver2_wf.
  - lia.
  - vm_compute; congruence.
  - exact solver2_sorted_swo.
  - reflexivity.
Defined.

(** C5, the claim as stated.  The [20 x 20] identity has twenty equal
    eigenvalues and [Solve] converges on it without a step; with more
    than [_S_threshold] items the [std::sort] of libstdc++ partitions
    them, and the permutation it leaves is not the index order: it
    starts with [10], and [0] comes eleventh. *)
Lemma twenty_ties_not_in_index_order :
  let r := Solve libstdcxx_sort I20 1 solver20 in
  snd r = 0%Z /\
  mDiagonal (fst r) = repeat 1 20 /\
  GetEigenvalues (Some (repeat 0 20)) (fst r) = Some (repeat 1 20) /\
  mPermutation (fst r)
  = [10; 19; 18; 17; 16; 15; 14; 13; 12; 11; 0; 9; 8; 7; 6; 5; 4; 3; 2; 1]%Z.
Proof. repeat split; vm_compute; reflexivity. Qed.

Lemma Solve_resets_witness :
  let r := Solve insertion_sort A2 1 solver2 in
  r = Solve insertion_sort A2 1 (clear_givens solver2) /\
  (snd r = NOT_CONVERGED -> mPermutation (fst r) = mPermutation solver2) /\
  (snd r <> NOT_CONVERGED -> 1%Z = 0%Z ->
     rdz (mPermutation (fst r)) 0 = (-1)%Z) /\
  (snd r <> NOT_CONVERGED -> 1%Z <> 0%Z ->
     length (insertion_sort (sort_comp 1) (sort_items (fst r)))
       = Z.to_nat (mSize solver2) ->
     mPermutation (fst r)
       = map (@item_index float) (insertion_sort (sort_comp 1) (sort_items (fst r)))).
Proof.
  exact (Solve_resets_log_not_permutation insertion_sort A2 1 solver2 solver2_wf).
Defined.

(** [x] and [y] are different doubles when [x < bound] and [y] is not. *)
Lemma float_neq_by_bound (bound x y : float) :
  PrimFloat.ltb x bound = true -> PrimFloat.ltb y bound = false -> x <> y.
Proof. intros Hx Hy Heq; subst; congruence. Qed.

(** C8.  [solver2_once] first solves [D2] with [sortType = +1], which
    leaves the permutation [1, 0]; a later [Solve(A2, 0)] returns the
    sentinel and that permutation is still there, not the mark [-1] of
    an unsorted solve, so the getters answer differently from those of a
    solver that never saw [D2]; and on that fresh solver the
    permutation is still all zeros, on which [GetEigenvectors] does not
    return. *)
Lemma stale_permutation_after_sentinel :
  let used := fst (Solve insertion_sort D2 1 solver2_once) in
  let fresh_run := Solve insertion_sort A2 0 solver2_once in
  let later_run := Solve insertion_sort A2 0 used in
  snd fresh_run = NOT_CONVERGED /\
  snd later_run = NOT_CONVERGED /\
  mPermutation (fst fresh_run) = [0%Z; 0%Z] /\
  mPermutation (fst later_run) = [1%Z; 0%Z] /\
  (exists x y, GetEigenvalue 0 (fst later_run) = Normal x /\
               GetEigenvalue 0 (fst fresh_run) = Normal y /\ x <> y) /\
  GetEigenvectors (Some [0; 0; 0; 0]) (fst fresh_run) = None /\
  GetEigenvectors (Some [0; 0; 0; 0]) (fst later_run) <> None.
Proof.
  repeat split; try (vm_compute; reflexivity).
  - do 2 eexists; split; [vm_compute; reflexivity|].
    split; [vm_compute; reflexivity|].
    apply (float_neq_by_bound 2); vm_compute; reflexivity.
  - vm_compute; congruence.
Qed.

(** C4, the claim as stated: in binary64 the first entry of
    [GetEigenvector(0, .)] and entry [(0, 0)] of [GetEigenvectors] differ
    in the last places. *)
Lemma single_column_differs_in_binary64 :
  let st := fst (Solve insertion_sort A3 0 solver3) in
  snd (Solve insertion_sort A3 0 solver3) <> NOT_CONVERGED /\
  exists Q v st1 st2,
    GetEigenvectors (Some (repeat 0 9)) st = Some (Some Q, st1) /\
    GetEigenvector 0 (Some (repeat 0 3)) st = Normal (Some v, st2) /\
    rd v 0 <> rd Q (0 + 3 * 0).
Proof.
  split; [vm_compute; congruence|].
  do 4 eexists; split; [vm_compute; reflexivity|].
  split; [vm_compute; reflexivity|].
  match goal with |- ?x <> ?y => apply (float_neq_by_bound y) end;
    vm_compute; reflexivity.
Qed.

(** C1 at a failing input.  [Tridiagonalize] skips the reflection of
    the zero column of [B3] but stores the scale [2] for it, and
    [GetEigenvectors] then applies a reflection that was never applied to
    the matrix.  [Solve] converges in one pass, and the exact
    [E = Q^T * B3 * Q - D] of the doubles returned has
    [|E| > 2^40 * u * |B3|]. *)
Lemma roundtrip_fails_on_zero_column :
  let st := fst (Solve insertion_sort B3 0 solver3) in
  snd (Solve insertion_sort B3 0 solver3) = 1%Z /\
  nth 3 (mMatrix st) 0 = 2 /\
  exists Qm D st1,
    GetEigenvectors (Some (repeat 0 9)) st = Some (Some Qm, st1) /\
    GetEigenvalues (Some (repeat 0 3)) st = Some D /\
    (frobenius_sq 3 (qentry 3 (map float_to_Q B3)) == 16)%Q /\
    ((2 ^ 40) ^ 2 * (unit_roundoff ^ 2 * frobenius_sq 3 (qentry 3 (map float_to_Q B3)))
     < frobenius_sq 3 (roundtrip_error 3 (map float_to_Q B3)
                         (map float_to_Q Qm) (map float_to_Q D)))%Q.
Proof.
  split; [vm_compute; reflexivity|].
  split; [vm_compute; reflexivity|].
  do 3 eexists; split; [vm_compute; reflexivity|].
  split; [vm_compute; reflexivity|].
  split; vm_compute; reflexivity.
Qed.

(** Runs with exact rationals. *)

Lemma exact_solver3_wf : wf exact_solver3.
Proof. constructor; vm_compute; try reflexivity; try (split; congruence); congruence. Defined.

Lemma exact_solver3_swo :
  1%Z <> 0%Z ->
  strict_weak_on (sort_comp 1)
                 (sort_items (fst (Solve insertion_sort C3 1 exact_solver3))).
Proof.
  intros _.
  set (l := sort_items (fst (Solve insertion_sort C3 1 exact_solver3))).
  assert (Hl : exists a b c, l = [a; b; c])
    by (do 3 eexists; vm_compute; reflexivity).
  destruct Hl as (a & b & c & Hl).
  assert (Hcmp : map (fun x => map (sort_comp 1 x) l) l
                 = [[false; false; false]; [true; false; false]; [true; true; false]])
    by (vm_compute; reflexivity).
  rewrite Hl in *; simpl in Hcmp.
  injection Hcmp as Haa Hab Hac Hba Hbb Hbc Hca Hcb Hcc.
  constructor; intros; finite_cases; try split; congruence.
Defined.

Lemma single_column_matches_bulk_witness :
  let st' := fst (Solve insertion_sort C3 1 exact_solver3) in
  let n := Z.to_nat (mSize exact_solver3) in
  exists Q v st1 st2 st3,
    GetEigenvectors (Some (exact_list (repeat 0%Z 9))) st' = Some (Some Q, st1) /\
    GetEigenvector 0 (Some (exact_list (repeat 0%Z 3))) st' = Normal (Some v, st2) /\
    GetEigenvector 0 (Some (exact_list (repeat 0%Z 3))) st1 = Normal (Some v, st3) /\
    length Q = (n * n)%nat /\ length v = n /\
    forall r, (r < n)%nat -> rd v r = rd Q (Z.to_nat 0 + n * r)%nat.
Proof.
  apply (single_column_matches_bulk (RA:=exactQ) Qcrt insertion_sort C3 1 exact_solver3 0
           (exact_list (repeat 0%Z 3)) (exact_list (repeat 0%Z 9))).
  - exact insertion_sort_contract.
  - exact exact_solver3_wf.
  - vm_compute; congruence.
  - exact exact_solver3_swo.
  - vm_compute; split; congruence.
  - reflexivity.
  - reflexivity.
Defined.

(** Runs of the guards of the getters. *)

Lemma GetEigenvector_out_of_range_witness :
  GetEigenvector 2 None solved2 = Normal (None, solved2).
Proof. apply GetEigenvector_out_of_range; right; vm_compute; congruence. Defined.

Lemma GetEigenvector_null_witness : GetEigenvector 1 None solved2 = Fault.
Proof. apply GetEigenvector_null; vm_compute; split; congruence. Defined.

Lemma GetEigenvalue_unchecked_witness : GetEigenvalue (-3) solved2 = Fault.
Proof.
  apply GetEigenvalue_unchecked;
    [reflexivity|reflexivity|reflexivity|left; reflexivity].
Defined.

Lemma construct_wf_witness :
  (exists st,
     construct_on (R:=float) (capped 1000) 4 16 tt = Some (st, tt) /\
     mSize st = 4%Z /\ mMaxIterations st = 16%Z /\ mGivens st = [] /\ wf st) /\
  construct_on (R:=float) (capped 1000) 2 0xFFFFFFFF tt = None.
Proof.
  split.
  - exists (construct 4 16); split; [reflexivity|].
    destruct (construct_wf (R:=float) (capped 1000) 4 16 tt) as [Hbuilt _]; [lia|lia|].
    destruct (Hbuilt (construct 4 16) tt eq_refl) as (_ & H1 & H2 & H3 & H4).
    split; [exact H1|split; [exact H2|split; [exact H3|exact H4]]].
  - apply (construct_wf (R:=float) (capped 1000) 2 0xFFFFFFFF tt); [lia|lia|].
    intros h0; reflexivity.
Defined.

Lemma GetEigenvalue_inert_witness :
  GetEigenvalue 5 (construct (R:=float) 1 32) = Normal Rmax.
Proof. apply GetEigenvalue_inert; vm_compute; congruence. Defined.

Lemma GetEigenvalue_matches_bulk_witness :
  exists out',
    GetEigenvalues (Some [0; 0]) (fst (Solve insertion_sort A2 1 solver2)) = Some out' /\
    length out' = 2%nat /\
    GetEigenvalue 1 (fst (Solve insertion_sort A2 1 solver2))
      = Normal (rd out' (Z.to_nat 1)).
Proof.
  apply (GetEigenvalue_matches_bulk 2 1 [0; 0] (fst (Solve insertion_sort A2 1 solver2))).
  - reflexivity.
  - reflexivity.
  - right; vm_compute; apply perm_swap.
  - reflexivity.
  - vm_compute; split; congruence.
Defined.

(** Runs of the QR step and of the getters on solved solvers. *)

Lemma solver3_wf : wf solver3.
Proof. constructor; vm_compute; try reflexivity; try (split; congruence); congruence. Defined.

Lemma solver3_descending_swo :
  strict_weak_on (sort_comp (-1)) (sort_items (fst (Solve insertion_sort A3 (-1) solver3))).
Proof.
  let l := eval vm_compute in (sort_items (fst (Solve insertion_sort A3 (-1) solver3))) in
  change (sort_items (fst (Solve insertion_sort A3 (-1) solver3))) with l.
  constructor; intros; finite_cases; vm_compute in *; auto; congruence.
Defined.

(** Without sorting on [A2]; with the descending sort on [A3], where the
    permutation [0, 2, 1] has one cycle of length [2] and the type of the
    three reflections, [0], is flipped once; and the column loop on the
    permutation [1, 0]. *)
Lemma matrix_type_parity_witness :
  (exists E' st',
     GetEigenvectors (Some [0; 0; 0; 0]) (fst (Solve insertion_sort A2 0 solver2))
       = Some (Some E', st') /\
     GetEigenvectorMatrixType st' = (1 - mSize solver2 mod 2)%Z /\
     (Z.even (mSize solver2) = true -> GetEigenvectorMatrixType st' = 1%Z) /\
     (Z.odd (mSize solver2) = true -> GetEigenvectorMatrixType st' = 0%Z))
  /\
  (mPermutation (fst (Solve insertion_sort A3 (-1) solver3)) = [0; 2; 1]%Z /\
   cycle_toggles 3 [0; 2; 1]%Z = 1%nat /\
   exists E' st',
     GetEigenvectors (Some [0; 0; 0; 0; 0; 0; 0; 0; 0])
                     (fst (Solve insertion_sort A3 (-1) solver3))
       = Some (Some E', st') /\
     GetEigenvectorMatrixType st'
     = Nat.iter (cycle_toggles 3 [0; 2; 1]%Z) flip_type (1 - mSize solver3 mod 2)%Z /\
     GetEigenvectorMatrixType st' = 1%Z)
  /\
  (exists E' visited' P',
     permute_cycle 2 [1%Z; 0%Z] 0 ([1; 2; 3; 4], [0%Z; 0%Z], [0; 0], 1%Z)
       = Some (E', visited', P', Nat.iter (2 - 1) flip_type 1%Z))
  /\
  permute_cycle 2 [1%Z; 0%Z] 1 ([1; 2; 3; 4], [1%Z; 1%Z], [0; 0], 0%Z)
    = Some ([1; 2; 3; 4], [1%Z; 1%Z], [0; 0], 0%Z).
Proof.
  destruct (matrix_type_parity (R:=float) insertion_sort)
    as (Hplain & Hsorted & Hcycle & Hskip).
  split; [|split; [|split]].
  - apply Hplain; [exact solver2_wf|vm_compute; congruence].
  - split; [vm_compute; reflexivity|split; [reflexivity|]].
    destruct (Hsorted A3 [0; 0; 0; 0; 0; 0; 0; 0; 0] (-1)%Z solver3)
      as (E' & st' & Heq & Hty).
    + exact insertion_sort_contract.
    + exact solver3_wf.
    + discriminate.
    + vm_compute; congruence.
    + exact solver3_descending_swo.
    + reflexivity.
    + exists E', st'; split; [exact Heq|].
      split; [exact Hty|rewrite Hty; vm_compute; reflexivity].
  - apply Hcycle; [|lia|reflexivity].
    split; [lia|split; [reflexivity|]].
    intros k Hk; assert (k = 1)%nat as -> by lia.
    vm_compute; congruence.
  - apply Hskip; left; vm_compute; congruence.
Defined.

Lemma DoQRImplicitShift_logs_block_witness :
  exists new,
    mGivens (DoQRImplicitShift 0 1 (tridiagonal_form A3 solver3))
      = mGivens (tridiagonal_form A3 solver3) ++ new /\
    map (@index float) new = map Z.of_nat (seq (Z.to_nat 0) (Z.to_nat (1 - 0 + 1))).
Proof. apply (DoQRImplicitShift_logs_block 0 1 (tridiagonal_form A3 solver3)); lia. Defined.

Lemma DoQRImplicitShift_local_witness :
  let st := tridiagonal_form B3 solver3 in
  let st' := DoQRImplicitShift 1 1 st in
  rd (mDiagonal st') 0 = rd (mDiagonal st) 0 /\
  rd (mSuperdiagonal st') 0 = rd (mSuperdiagonal st) 0 /\
  length (mDiagonal st') = length (mDiagonal st).
Proof.
  intros st st'.
  destruct (DoQRImplicitShift_local 1 1 st ltac:(lia)) as (HlD & _ & HD & HS & _).
  split; [apply HD; left; reflexivity|split; [apply HS; left; reflexivity|exact HlD]].
Defined.

Lemma Solve_keeps_wf_witness :
  let st' := fst (Solve insertion_sort A2 0 solver2) in
  wf st' /\ mSize st' = mSize solver2 /\ mMaxIterations st' = mMaxIterations solver2 /\
  wf (fst (Solve insertion_sort D2 1 st')).
Proof. apply (Solve_keeps_wf insertion_sort A2 D2 0 1 solver2 solver2_wf). Defined.

Lemma Solve_log_within_reserve_witness :
  let r := Solve insertion_sort A3 0 solver3 in
  Forall (givens_in_range (Z.to_nat (mSize solver3))) (mGivens (fst r)) /\
  (Z.of_nat (length (mGivens (fst r))) <= mMaxIterations solver3 * (mSize solver3 - 1))%Z /\
  (snd r <> NOT_CONVERGED ->
     (snd r <= Z.of_nat (length (mGivens (fst r))) <= snd r * (mSize solver3 - 1))%Z).
Proof. apply (Solve_log_within_reserve insertion_sort A3 0 solver3 solver3_wf). Defined.

Lemma GetEigenvectors_repeatable_witness :
  exists Q st1 st2,
    GetEigenvectors (Some [0; 0; 0; 0]) solved2 = Some (Some Q, st1) /\
    GetEigenvectors (Some [7; 7; 7; 7]) st1 = Some (Some Q, st2) /\
    GetEigenvectorMatrixType st2 = GetEigenvectorMatrixType st1.
Proof.
  destruct (GetEigenvectors (Some [0; 0; 0; 0]) solved2) as [[[Q|] st1]|] eqn:H1;
    try (vm_compute in H1; discriminate).
  destruct (GetEigenvectors_repeatable 2 [0; 0; 0; 0] [7; 7; 7; 7] Q solved2 st1)
    as (st2 & H2 & H3); try (vm_compute; reflexivity); [exact H1|].
  exists Q, st1, st2; auto.
Defined.

Lemma GetEigenvectors_after_Solve_witness :
  exists Q st'',
    GetEigenvectors (Some [0; 0; 0; 0]) (fst (Solve insertion_sort A2 1 solver2))
      = Some (Some Q, st'') /\
    length Q = 4%nat /\
    (GetEigenvectorMatrixType st'' = 0 \/ GetEigenvectorMatrixType st'' = 1)%Z.
Proof.
  destruct (GetEigenvectors_after_Solve insertion_sort A2 1 solver2 [0; 0; 0; 0])
    as (Q & st'' & HQ & Hl & Hty & _).
  - exact insertion_sort_contract.
  - exact solver2_wf.
  - vm_compute; congruence.
  - intros _; exact solver2_sorted_swo.
  - reflexivity.
  - exists Q, st''; auto.
Defined.

Lemma sorting_permutes_eigenpairs_witness :
  let sorted := Solve insertion_sort A2 1 solver2 in
  let unsorted := Solve insertion_sort A2 0 solver2 in
  let perm := mPermutation (fst sorted) in
  snd unsorted = snd sorted /\
  is_permutation 2 perm /\
  exists Q Q0 ev ev0 st1 st2,
    GetEigenvectors (Some [0; 0; 0; 0]) (fst sorted) = Some (Some Q, st1) /\
    GetEigenvectors (Some [0; 0; 0; 0]) (fst unsorted) = Some (Some Q0, st2) /\
    GetEigenvalues (Some [0; 0]) (fst sorted) = Some ev /\
    GetEigenvalues (Some [0; 0]) (fst unsorted) = Some ev0 /\
    forall c, (c < 2)%nat ->
      (perm_at perm c < 2)%nat /\
      rd ev c = rd ev0 (perm_at perm c) /\
      forall r, (r < 2)%nat ->
        rd Q (c + 2 * r)%nat = rd Q0 (perm_at perm c + 2 * r)%nat.
Proof.
  apply (sorting_permutes_eigenpairs insertion_sort A2 1 solver2 [0; 0; 0; 0] [0; 0]).
  - exact insertion_sort_contract.
  - exact solver2_wf.
  - discriminate.
  - vm_compute; congruence.
  - exact solver2_sorted_swo.
  - reflexivity.
  - reflexivity.
Defined.

Lemma solved2_solved : solved 2 solved2.
Proof.
  apply (Solve_solved insertion_sort A2 0 solver2).
  - exact insertion_sort_contract.
  - exact solver2_wf.
  - vm_compute; congruence.
  - intros H; contradiction H; reflexivity.
Defined.

Lemma GetEigenvector_repeatable_witness :
  exists v st1 st2,
    GetEigenvector 1 (Some [0; 0]) solved2 = Normal (Some v, st1) /\
    GetEigenvector 1 (Some [5; 5]) st1 = Normal (Some v, st2) /\
    length v = 2%nat.
Proof.
  destruct (GetEigenvector_repeatable 2 1 [0; 0] [5; 5] solved2 solved2_solved)
    as (v & st1 & st2 & H1 & H2 & Hl & _); try reflexivity; [lia|].
  exists v, st1, st2; auto.
Defined.

Lemma GetEigenvectors_before_Solve_witness :
  GetEigenvectors (Some [0; 0; 0; 0]) solver2 = None /\
  forall fuel (E' : list float) (v : list Z) (t : Z),
    cycle_walk fuel 2 (mPermutation solver2) 1 1 (E', v, t) = None.
Proof.
  apply (GetEigenvectors_before_Solve 2 [0; 0; 0; 0] solver2);
    [lia|reflexivity|reflexivity|reflexivity].
Defined.

Lemma inert_getters_witness :
  let st := construct (R:=float) 1 32 in
  (forall ev, GetEigenvalues (Some ev) st = Some ev) /\
  (forall E, GetEigenvectors (Some E) st = Some (Some E, st)) /\
  (forall c x, GetEigenvector c x st = Normal (x, st)) /\
  GetEigenvectorMatrixType st = (-1)%Z.
Proof. apply (inert_getters 1 32); left; lia. Defined.

Lemma Tridiagonalize_bands_witness :
  let st := load_input A3 solver3 in
  let st' := Tridiagonalize st in
  wf st' /\
  (forall k, (k < 3)%nat -> rd (mDiagonal st') k = rd (mMatrix st') (k + 3 * k)%nat) /\
  (forall k, (k < 3 - 1)%nat ->
     rd (mSuperdiagonal st') k = rd (mMatrix st') (k + 1 + 3 * k)%nat).
Proof.
  intros st st'.
  destruct (Tridiagonalize_bands st) as (Hwf & HD & HS & _).
  - constructor; vm_compute; try reflexivity; try (split; congruence); congruence.
  - split; [exact Hwf|split; [exact HD|exact HS]].
Defined.

Lemma GetSinCos_annihilates_witness :
  Radd (Rmul (snd (GetSinCos (Q2Qc 4) (Q2Qc 3))) (Q2Qc 4))
       (Rmul (fst (GetSinCos (Q2Qc 4) (Q2Qc 3))) (Q2Qc 3)) = R0 (R:=Qc).
Proof.
  apply (GetSinCos_annihilates exactQ_field exactQ_eqb_eq exactQ_fabs_nonzero).
Defined.

(** Runs on two solvers with different pasts and inputs that differ
    below the diagonal. *)

Lemma used_solver3_wf : wf (fst (Solve insertion_sort B3 1 solver3)).
Proof. apply (Solve_wf insertion_sort B3 1 solver3 solver3_wf). Defined.

Lemma A3_upper_agrees (r c : nat) :
  (r <= c < Z.to_nat (mSize solver3))%nat ->
  rd A3 (c + Z.to_nat (mSize solver3) * r)%nat
  = rd A3_lower (c + Z.to_nat (mSize solver3) * r)%nat.
Proof.
  change (Z.to_nat (mSize solver3)) with 3%nat.
  intros Hrc.
  destruct r as [|[|[|r]]], c as [|[|[|c]]]; try lia; reflexivity.
Defined.

Lemma Solve_reads_upper_triangle_witness :
  let r1 := Solve insertion_sort A3 0 solver3 in
  let r2 := Solve insertion_sort A3_lower 0 (fst (Solve insertion_sort B3 1 solver3)) in
  snd r1 = snd r2 /\
  mDiagonal (fst r1) = mDiagonal (fst r2) /\
  mSuperdiagonal (fst r1) = mSuperdiagonal (fst r2) /\
  mGivens (fst r1) = mGivens (fst r2) /\
  mEigenvectorMatrixType (fst r1) = mEigenvectorMatrixType (fst r2).
Proof.
  destruct (Solve_reads_upper_triangle insertion_sort A3 A3_lower 0 solver3
              (fst (Solve insertion_sort B3 1 solver3)))
    as (H1 & H2 & H3 & H4 & H5 & _).
  - exact solver3_wf.
  - exact used_solver3_wf.
  - vm_compute; reflexivity.
  - vm_compute; reflexivity.
  - reflexivity.
  - reflexivity.
  - exact A3_upper_agrees.
  - repeat split; assumption.
Defined.

Lemma Solve_answers_forget_history_witness :
  let a := fst (Solve insertion_sort A3 0 solver3) in
  let b := fst (Solve insertion_sort A3_lower 0 (fst (Solve insertion_sort B3 1 solver3))) in
  (exists ev, GetEigenvalues (Some [0; 0; 0]) a = Some ev /\
              GetEigenvalues (Some [7; 7; 7]) b = Some ev) /\
  (exists Q sa sb,
     GetEigenvectors (Some (repeat 0 9)) a = Some (Some Q, sa) /\
     GetEigenvectors (Some (repeat 7 9)) b = Some (Some Q, sb) /\
     GetEigenvectorMatrixType sa = GetEigenvectorMatrixType sb).
Proof.
  destruct (Solve_answers_forget_history insertion_sort A3 A3_lower 0 solver3
              (fst (Solve insertion_sort B3 1 solver3))
              [0; 0; 0] [7; 7; 7] (repeat 0 9) (repeat 7 9) [0; 0; 0] [0; 0; 0])
    as (_ & Hev & _ & HQ & _).
  - exact insertion_sort_contract.
  - exact solver3_wf.
  - exact used_solver3_wf.
  - vm_compute; reflexivity.
  - vm_compute; reflexivity.
  - reflexivity.
  - reflexivity.
  - exact A3_upper_agrees.
  - vm_compute; congruence.
  - intros H; contradiction H; reflexivity.
  - reflexivity.
  - reflexivity.
  - reflexivity.
  - reflexivity.
  - reflexivity.
  - reflexivity.
  - split; assumption.
Defined.

(** Runs of the budget and of the passes over zero rows. *)

Lemma roomy_solver3_wf : wf roomy_solver3.
Proof. constructor; vm_compute; try reflexivity; try (split; congruence); congruence. Defined.

Lemma Solve_budget_monotone_witness :
  let r1 := Solve insertion_sort A3 1 solver3 in
  let r2 := Solve insertion_sort A3 1 roomy_solver3 in
  snd r2 = snd r1 /\
  mDiagonal (fst r2) = mDiagonal (fst r1) /\
  mGivens (fst r2) = mGivens (fst r1) /\
  mPermutation (fst r2) = mPermutation (fst r1).
Proof.
  destruct (Solve_budget_monotone insertion_sort A3 1 solver3 roomy_solver3)
    as (H1 & H2 & _ & H4 & _ & H6).
  - exact solver3_wf.
  - exact roomy_solver3_wf.
  - reflexivity.
  - vm_compute; discriminate.
  - reflexivity.
  - vm_compute; discriminate.
  - split; [exact H1|split; [exact H2|split; [exact H4|apply H6; reflexivity]]].
Defined.

Lemma binary64_zero_arith : zero_arith (R:=float).
Proof. constructor; vm_compute; reflexivity. Defined.

Lemma B3_ordinary (r c : nat) :
  (0 <= r /\ r <= c < 3)%nat -> ordinary (rd B3 (c + 3 * r)%nat).
Proof.
  intros Hrc.
  destruct r as [|[|[|r]]], c as [|[|[|c]]]; try lia; split; vm_compute; reflexivity.
Defined.

Lemma B3_first_row (c : nat) : (0 < c < 3)%nat -> rd B3 (c + 3 * 0)%nat = R0.
Proof. intros Hc; destruct c as [|[|[|c]]]; try lia; reflexivity. Defined.

Lemma Tridiagonalize_pass_on_zero_row_witness :
  let M' := fst (fst (fst (tridiag_step 3 0 (B3, [0; 0; 0], [0; 0; 0], [0; 0; 0])))) in
  length M' = 9%nat /\
  (forall k, ~ (exists r, (0 < r < 3)%nat /\ k = (0 + 3 * r)%nat) -> rd M' k = rd B3 k) /\
  rd M' 3 = 2 /\
  (forall r, (1 < r < 3)%nat -> rd M' (0 + 3 * r)%nat = 0).
Proof.
  apply (Tridiagonalize_pass_on_zero_row binary64_zero_arith 3 0 B3
           [0; 0; 0] [0; 0; 0] [0; 0; 0]); try reflexivity.
  - lia.
  - exact B3_first_row.
  - exact B3_ordinary.
Defined.

Lemma D3_zero (r c : nat) :
  (r < c < Z.to_nat (mSize solver3))%nat ->
  rd D3 (c + Z.to_nat (mSize solver3) * r)%nat = R0.
Proof.
  change (Z.to_nat (mSize solver3)) with 3%nat; intros Hrc.
  destruct r as [|[|[|r]]], c as [|[|[|c]]]; try lia; reflexivity.
Defined.

Lemma D3_ordinary (r : nat) :
  (r < Z.to_nat (mSize solver3))%nat ->
  ordinary (rd D3 (r + Z.to_nat (mSize solver3) * r)%nat).
Proof.
  change (Z.to_nat (mSize solver3)) with 3%nat; intros Hr.
  destruct r as [|[|[|r]]]; try lia; split; vm_compute; reflexivity.
Defined.

Lemma D3_settled (i : nat) :
  (i + 1 < Z.to_nat (mSize solver3))%nat ->
  settled (rd D3 (i + Z.to_nat (mSize solver3) * i)%nat)
          (rd D3 (S i + Z.to_nat (mSize solver3) * S i)%nat).
Proof.
  change (Z.to_nat (mSize solver3)) with 3%nat; intros Hi.
  destruct i as [|[|i]]; try lia; vm_compute; reflexivity.
Defined.

Lemma Solve_diagonal_input_witness :
  let res := Solve insertion_sort D3 (-1) solver3 in
  snd res = 0%Z /\ mGivens (fst res) = [] /\
  rd (mDiagonal (fst res)) 0 = 3 /\ rd (mDiagonal (fst res)) 1 = 1 /\
  rd (mDiagonal (fst res)) 2 = 2.
Proof.
  destruct (Solve_diagonal_input binary64_zero_arith insertion_sort D3 (-1) solver3
              solver3_wf) as (H1 & H2 & H3 & _).
  - reflexivity.
  - exact D3_zero.
  - exact D3_ordinary.
  - exact D3_settled.
  - split; [exact H1|split; [exact H2|]].
    split; [apply (H3 0%nat); vm_compute; lia|].
    split; [apply (H3 1%nat); vm_compute; lia|apply (H3 2%nat); vm_compute; lia].
Defined.

End Runs.
